(** * jettison: a shallow embedding of [src/polyfill.js] and [src/jettison.js]

    The development follows the two source modules.  [Module Polyfill]
    embeds the byte-level integer and IEEE-754 encoders of [polyfill.js]
    together with the range-checked [DataViewPolyfill].  The rest embeds the
    codecs, [StreamView], [Field], [Definition] and [Schema] of
    [jettison.js].

    JavaScript Numbers are IEEE-754 doubles; they are modelled by Rocq's
    primitive [float]s, which are the same binary64 format with the same
    rounding.  Integer-valued Numbers that the code only compares, masks and
    shifts are carried as [Z]. *)

From Stdlib Require Import ZArith Lia Bool.
From Stdlib Require Import Floats.
From stdpp Require Import base option list strings gmap.

Open Scope Z_scope.

(** ** Outcomes of a call

    [Throw] is a JavaScript exception reaching the caller.  [Unmodelled]
    marks a call whose argument is not of the JavaScript type the codec
    expects, where the source would go through a host conversion (ToNumber of a
    string, [utf8.encode] of a non-string, ...) that is outside this
    embedding. *)

Inductive error : Type :=
| RangeError (msg : string)
| TypeError (msg : string)
| Error (msg : string)
| KeyNotDefined (key : string)   (* new Error(`'${key}' is not defined in schema`) *)
| IdNotDefined (id : Z).         (* new Error(`'${id}' is not defined in schema`) *)

Inductive result (A : Type) : Type :=
| Ok (a : A)
| Throw (e : error)
| Unmodelled.

Arguments Ok {A} a.
Arguments Throw {A} e.
Arguments Unmodelled {A}.

#[global] Instance result_ret : MRet result := fun A a => Ok a.
#[global] Instance result_bind : MBind result := fun A B f m =>
  match m with
  | Ok a => f a
  | Throw e => Throw e
  | Unmodelled => Unmodelled
  end.

Definition is_Ok {A} (r : result A) : bool :=
  match r with Ok _ => true | _ => false end.

Definition is_Throw {A} (r : result A) : bool :=
  match r with Throw _ => true | _ => false end.

(** ** Numbers *)

(** A Number is either known to be an integer ([Int z], exact) or an
    arbitrary double ([Float f]).  Lengths, byte values, ids and everything
    read back by the integer codecs are [Int]; the float codecs produce
    [Float]. *)
Inductive number : Type :=
| Int (z : Z)
| Float (f : float).

(** The double nearest to an integer (exact below 2^53). *)
Definition Z_to_float (z : Z) : float :=
  SF2Prim (binary_normalize prec emax z 0 false).

Definition to_float (n : number) : float :=
  match n with
  | Int z => Z_to_float z
  | Float f => f
  end.

(** [value < other] and [value > other] on Numbers. *)
Definition number_ltb (a b : number) : bool :=
  match a, b with
  | Int x, Int y => x <? y
  | _, _ => PrimFloat.ltb (to_float a) (to_float b)
  end.

Definition number_gtb (a b : number) : bool := number_ltb b a.

(** ECMAScript ToInt32: truncate, reduce modulo 2^32, read as signed. *)
Definition wrap32 (z : Z) : Z := (z + 2 ^ 31) mod 2 ^ 32 - 2 ^ 31.

Definition float_trunc (f : float) : Z :=
  match Prim2SF f with
  | S754_finite s m e =>
      let a := if 0 <=? e then Z.pos m * 2 ^ e else Z.pos m / 2 ^ (- e) in
      if s then - a else a
  | _ => 0
  end.

Definition ToInt32 (n : number) : Z :=
  match n with
  | Int z => wrap32 z
  | Float f => wrap32 (float_trunc f)
  end.

(** The bitwise operators, on the ToInt32 images of their operands. *)
Definition js_and (a b : number) : Z := Z.land (ToInt32 a) (ToInt32 b).
Definition js_or (a b : number) : Z := Z.lor (ToInt32 a) (ToInt32 b).
Definition js_shr (a : number) (n : Z) : Z := Z.shiftr (ToInt32 a) (n mod 32).
Definition js_shl (a : number) (n : Z) : Z :=
  wrap32 (Z.shiftl (ToInt32 a) (n mod 32)).

(** [Math.pow(2, n)] for an integer [n]: exact, infinite above the double
    range, zero below it. *)
Definition Math_pow2 (n : Z) : float := Z.ldexp 1%float n.

(** [Math.floor(log2(x))] for a positive finite [x].  [Math.log2] is a host
    function; it is modelled by its mathematical value, the exponent of [x]. *)
Definition Math_floor_log2 (x : float) : Z := snd (Z.frexp x) - 1.

Module Polyfill.

(** ** [IntegerPolyfill] *)

Record IntegerPolyfill : Type := {
  ip_byteLength : nat;
  ip_signed : bool
}.

Definition ip_bitLength (p : IntegerPolyfill) : Z :=
  Z.of_nat (ip_byteLength p) * 8.

Definition ip_signBit (p : IntegerPolyfill) : Z := 2 ^ (ip_bitLength p - 1).

Definition ip_minValue (p : IntegerPolyfill) : Z :=
  if ip_signed p then - 2 ^ (ip_bitLength p - 1) else 0.

Definition ip_maxValue (p : IntegerPolyfill) : Z :=
  if ip_signed p then 2 ^ (ip_bitLength p - 1) - 1 else 2 ^ ip_bitLength p - 1.

(** The first index and the step of a traversal from the least significant
    byte: forwards for little endian, backwards from the last byte
    otherwise. *)
Definition lsb_first (byteLength : nat) (littleEndian : bool) : Z * Z :=
  if littleEndian then (0, 1) else (Z.of_nat byteLength - 1, -1).

(** [bytes[byteOffset + i]]; a hole or an index past the end reads as 0. *)
Definition byte_at (bytes : list Z) (byteOffset : nat) (i : Z) : Z :=
  default 0 (bytes !! Z.to_nat (Z.of_nat byteOffset + i)).

(** [bytes[byteOffset + i] = b].  Every caller has validated the range, so
    the index is inside the array. *)
Definition byte_set (bytes : list Z) (byteOffset : nat) (i : Z) (b : Z) : list Z :=
  <[Z.to_nat (Z.of_nat byteOffset + i) := b]> bytes.

(** [while (i !== stop) { value += bytes[byteOffset + i] * scale; ... }] *)
Fixpoint ip_get_loop (fuel : nat) (bytes : list Z) (byteOffset : nat)
    (i increment stop value scale : Z) : Z :=
  match fuel with
  | O => value
  | S fuel' =>
      if i =? stop then value
      else ip_get_loop fuel' bytes byteOffset (i + increment) increment stop
             (value + byte_at bytes byteOffset i * scale) (scale * 256)
  end.

Definition IntegerPolyfill_get (p : IntegerPolyfill) (bytes : list Z)
    (byteOffset : nat) (littleEndian : bool) : Z :=
  let '(i, increment) := lsb_first (ip_byteLength p) littleEndian in
  let stop := i + increment * Z.of_nat (ip_byteLength p) in
  let value := ip_get_loop (ip_byteLength p) bytes byteOffset i increment stop 0 1 in
  if ip_signed p && negb (js_and (Int value) (Int (ip_signBit p)) =? 0)
  then value - 2 ^ ip_bitLength p
  else value.

(** [while (i != stop) { bytes[byteOffset + i] = value & 255; ...; value >>= 8; }] *)
Fixpoint ip_set_loop (fuel : nat) (bytes : list Z) (byteOffset : nat)
    (i increment stop : Z) (value : number) : list Z :=
  match fuel with
  | O => bytes
  | S fuel' =>
      if i =? stop then bytes
      else ip_set_loop fuel' (byte_set bytes byteOffset i (js_and value (Int 255)))
             byteOffset (i + increment) increment stop (Int (js_shr value 8))
  end.

Definition ip_clamp (p : IntegerPolyfill) (value : number) : number :=
  if number_ltb value (Int (ip_minValue p)) then Int (ip_minValue p)
  else if number_gtb value (Int (ip_maxValue p)) then Int (ip_maxValue p)
  else value.

Definition IntegerPolyfill_set (p : IntegerPolyfill) (bytes : list Z)
    (byteOffset : nat) (value : number) (littleEndian : bool) : list Z :=
  let '(i, increment) := lsb_first (ip_byteLength p) littleEndian in
  let value := ip_clamp p value in
  let stop := i + increment * Z.of_nat (ip_byteLength p) in
  ip_set_loop (ip_byteLength p) bytes byteOffset i increment stop value.

(** ** [FloatPolyfill] *)

Record FloatPolyfill : Type := {
  fp_byteLength : nat;
  fp_numSignificandBits : Z;
  fp_roundTo : float
}.

Definition fp_numExponentBits (p : FloatPolyfill) : Z :=
  Z.of_nat (fp_byteLength p) * 8 - fp_numSignificandBits p - 1.

Definition fp_exponentMax (p : FloatPolyfill) : Z :=
  js_shl (Int 1) (fp_numExponentBits p) - 1.

Definition fp_exponentBias (p : FloatPolyfill) : Z :=
  js_shr (Int (fp_exponentMax p)) 1.

(** The traversal from the most significant byte used by [get]. *)
Definition msb_first (byteLength : nat) (littleEndian : bool) : Z * Z :=
  if littleEndian then (Z.of_nat byteLength - 1, -1) else (0, 1).

(** [while (remaining > 0) { acc = acc * 256 + bytes[byteOffset + i]; remaining -= 8; i += increment; }] *)
Fixpoint fp_read_loop (fuel : nat) (bytes : list Z) (byteOffset : nat)
    (increment : Z) (acc remaining i : Z) : Z * Z * Z :=
  match fuel with
  | O => (acc, remaining, i)
  | S fuel' =>
      if 0 <? remaining
      then fp_read_loop fuel' bytes byteOffset increment
             (acc * 256 + byte_at bytes byteOffset i) (remaining - 8) (i + increment)
      else (acc, remaining, i)
  end.

(** The three fields of the stored pattern, as [get] reads them. *)
Definition fp_fields (p : FloatPolyfill) (bytes : list Z) (byteOffset : nat)
    (littleEndian : bool) : Z * Z * Z :=
  let '(i, increment) := msb_first (fp_byteLength p) littleEndian in
  let signedAndExponent := byte_at bytes byteOffset i in
  let signed := js_shr (Int signedAndExponent) 7 in
  let exponent := js_and (Int signedAndExponent) (Int 127) in
  let i := i + increment in
  let remainingExponentBits := fp_numExponentBits p - 7 in
  let '(exponent, remainingExponentBits, i) :=
    fp_read_loop (Z.to_nat remainingExponentBits) bytes byteOffset increment
      exponent remainingExponentBits i in
  let significand :=
    js_and (Int exponent) (Int (js_shl (Int 1) (- remainingExponentBits) - 1)) in
  let exponent := js_shr (Int exponent) (- remainingExponentBits) in
  let remainingSignificandBits := fp_numSignificandBits p + remainingExponentBits in
  let '(significand, _, _) :=
    fp_read_loop (Z.to_nat remainingSignificandBits) bytes byteOffset increment
      significand remainingSignificandBits i in
  (signed, exponent, significand).

(** The value [get] returns for the fields it has read. *)
Definition fp_value (p : FloatPolyfill) (fields : Z * Z * Z) : float :=
  let '(signed, exponent, significand) := fields in
  let finish (exponent significand : Z) : float :=
    ((if negb (Z.eqb signed 0) then -1 else 1) * Z_to_float significand
     * Math_pow2 (exponent - fp_numSignificandBits p))%float in
  if exponent =? 0 then finish (1 - fp_exponentBias p) significand
  else if exponent =? fp_exponentMax p then
    if negb (significand =? 0) then nan
    else if negb (signed =? 0) then neg_infinity
    else infinity
  else finish (exponent - fp_exponentBias p)
         (significand + 2 ^ fp_numSignificandBits p).

Definition FloatPolyfill_get (p : FloatPolyfill) (bytes : list Z)
    (byteOffset : nat) (littleEndian : bool) : float :=
  fp_value p (fp_fields p bytes byteOffset littleEndian).

(** The last branch of [set], up to the point where [biasedExponent] is
    computed: the magnitude after the rounding addition, the coefficient and
    the exponent after the two corrections. *)
Definition fp_round (p : FloatPolyfill) (value : float) : float * float * Z :=
  let absValue := abs value in
  let exponent := Math_floor_log2 absValue in
  let coefficient := Math_pow2 (- exponent) in
  let '(exponent, coefficient) :=
    if (absValue * coefficient <? 1)%float
    then (exponent - 1, (coefficient * 2)%float)
    else (exponent, coefficient) in
  let absValue :=
    if 1 <=? exponent + fp_exponentBias p
    then (absValue + fp_roundTo p / coefficient)%float
    else (absValue + fp_roundTo p * Math_pow2 (1 - fp_exponentBias p))%float in
  let '(exponent, coefficient) :=
    if (2 <=? absValue * coefficient)%float
    then (exponent + 1, (coefficient / 2)%float)
    else (exponent, coefficient) in
  (absValue, coefficient, exponent).

(** [signed], [biasedExponent] and [significand] as [set] computes them. *)
Definition fp_parts (p : FloatPolyfill) (value : float) : Z * Z * float :=
  if negb (PrimFloat.eqb value value) then
    (0, fp_exponentMax p, Math_pow2 (fp_numSignificandBits p - 1))
  else if PrimFloat.eqb value infinity then (0, fp_exponentMax p, 0%float)
  else if PrimFloat.eqb value neg_infinity then (1, fp_exponentMax p, 0%float)
  else if PrimFloat.eqb value 0 then
    ((if PrimFloat.eqb (1 / value) neg_infinity then 1 else 0), 0, 0%float)
  else
    let signed := if (value <? 0)%float then 1 else 0 in
    let '(absValue, coefficient, exponent) := fp_round p value in
    let biasedExponent := exponent + fp_exponentBias p in
    if fp_exponentMax p <=? biasedExponent then (signed, fp_exponentMax p, 0%float)
    else if biasedExponent <? 1 then
      (signed, 0,
       (absValue * Math_pow2 (fp_exponentBias p - 1)
        * Math_pow2 (fp_numSignificandBits p))%float)
    else
      (signed, biasedExponent,
       ((absValue * coefficient - 1) * Math_pow2 (fp_numSignificandBits p))%float).

(** [while (remaining >= 8) { bytes[byteOffset + i] = significand & 0xff; significand /= 256; ... }] *)
Fixpoint fp_write_significand (fuel : nat) (bytes : list Z) (byteOffset : nat)
    (increment : Z) (significand : float) (remaining i : Z)
    : list Z * float * Z * Z :=
  match fuel with
  | O => (bytes, significand, remaining, i)
  | S fuel' =>
      if 8 <=? remaining
      then fp_write_significand fuel'
             (byte_set bytes byteOffset i (js_and (Float significand) (Int 255)))
             byteOffset increment (significand / 256)%float (remaining - 8)
             (i + increment)
      else (bytes, significand, remaining, i)
  end.

(** [while (remaining > 0) { bytes[byteOffset + i] = exponent & 0xff; exponent /= 256; ... }] *)
Fixpoint fp_write_exponent (fuel : nat) (bytes : list Z) (byteOffset : nat)
    (increment : Z) (exponent : number) (remaining i : Z) : list Z * Z :=
  match fuel with
  | O => (bytes, i)
  | S fuel' =>
      if 0 <? remaining
      then fp_write_exponent fuel'
             (byte_set bytes byteOffset i (js_and exponent (Int 255)))
             byteOffset increment (Float (to_float exponent / 256)%float)
             (remaining - 8) (i + increment)
      else (bytes, i)
  end.

Definition _floatPartsToByteArray (p : FloatPolyfill) (bytes : list Z)
    (byteOffset : nat) (signed exponent : Z) (significand : float)
    (littleEndian : bool) : list Z :=
  let '(i, increment) := lsb_first (fp_byteLength p) littleEndian in
  let remainingSignificandBits := fp_numSignificandBits p in
  let '(bytes, significand, remainingSignificandBits, i) :=
    fp_write_significand (Z.to_nat remainingSignificandBits) bytes byteOffset
      increment significand remainingSignificandBits i in
  let exponent :=
    js_or (Int (js_shl (Int exponent) remainingSignificandBits)) (Float significand) in
  let remainingExponentBits := fp_numExponentBits p + remainingSignificandBits in
  let '(bytes, i) :=
    fp_write_exponent (Z.to_nat remainingExponentBits) bytes byteOffset increment
      (Int exponent) remainingExponentBits i in
  byte_set bytes byteOffset (i - increment)
    (js_or (Int (byte_at bytes byteOffset (i - increment))) (Int (signed * 128))).

Definition FloatPolyfill_set (p : FloatPolyfill) (bytes : list Z)
    (byteOffset : nat) (value : number) (littleEndian : bool) : list Z :=
  let '(signed, biasedExponent, significand) := fp_parts p (to_float value) in
  _floatPartsToByteArray p bytes byteOffset signed biasedExponent significand
    littleEndian.

(** ** [DataViewPolyfill.prototype._polyfills] *)

Definition float32 : FloatPolyfill :=
  {| fp_byteLength := 4; fp_numSignificandBits := 23;
     fp_roundTo := (Math_pow2 (-24) - Math_pow2 (-77))%float |}.

Definition float64 : FloatPolyfill :=
  {| fp_byteLength := 8; fp_numSignificandBits := 52; fp_roundTo := 0%float |}.

Definition int8 : IntegerPolyfill := {| ip_byteLength := 1; ip_signed := true |}.
Definition int16 : IntegerPolyfill := {| ip_byteLength := 2; ip_signed := true |}.
Definition int32 : IntegerPolyfill := {| ip_byteLength := 4; ip_signed := true |}.
Definition uint8 : IntegerPolyfill := {| ip_byteLength := 1; ip_signed := false |}.
Definition uint16 : IntegerPolyfill := {| ip_byteLength := 2; ip_signed := false |}.
Definition uint32 : IntegerPolyfill := {| ip_byteLength := 4; ip_signed := false |}.

(** ** [DataViewPolyfill]

    A view over a whole buffer ([byteOffset] 0, [byteLength] the buffer's):
    the only kind [StreamView.create] builds.  The buffer is the list of its
    bytes. *)

Inductive accessor : Type :=
| Float32 | Float64 | Int8 | Int16 | Int32 | Uint8 | Uint16 | Uint32.

Definition accessor_byteLength (a : accessor) : nat :=
  match a with
  | Float32 => fp_byteLength float32
  | Float64 => fp_byteLength float64
  | Int8 => ip_byteLength int8
  | Int16 => ip_byteLength int16
  | Int32 => ip_byteLength int32
  | Uint8 => ip_byteLength uint8
  | Uint16 => ip_byteLength uint16
  | Uint32 => ip_byteLength uint32
  end.

Definition _validateRange (bytes : list Z) (byteOffset byteLength : nat)
    : result unit :=
  if (length bytes <? byteOffset + byteLength)%nat
  then Throw (RangeError "Invalid data view length")
  else Ok ().

(** [getFloat32], ..., [getUint32] through [_get]. *)
Definition DataView_get (a : accessor) (bytes : list Z) (byteOffset : nat)
    (littleEndian : bool) : result number :=
  _ ← _validateRange bytes byteOffset (accessor_byteLength a);
  Ok match a with
     | Float32 => Float (FloatPolyfill_get float32 bytes byteOffset littleEndian)
     | Float64 => Float (FloatPolyfill_get float64 bytes byteOffset littleEndian)
     | Int8 => Int (IntegerPolyfill_get int8 bytes byteOffset littleEndian)
     | Int16 => Int (IntegerPolyfill_get int16 bytes byteOffset littleEndian)
     | Int32 => Int (IntegerPolyfill_get int32 bytes byteOffset littleEndian)
     | Uint8 => Int (IntegerPolyfill_get uint8 bytes byteOffset littleEndian)
     | Uint16 => Int (IntegerPolyfill_get uint16 bytes byteOffset littleEndian)
     | Uint32 => Int (IntegerPolyfill_get uint32 bytes byteOffset littleEndian)
     end.

(** [setFloat32], ..., [setUint32] through [_set]. *)
Definition DataView_set (a : accessor) (bytes : list Z) (byteOffset : nat)
    (value : number) (littleEndian : bool) : result (list Z) :=
  _ ← _validateRange bytes byteOffset (accessor_byteLength a);
  Ok match a with
     | Float32 => FloatPolyfill_set float32 bytes byteOffset value littleEndian
     | Float64 => FloatPolyfill_set float64 bytes byteOffset value littleEndian
     | Int8 => IntegerPolyfill_set int8 bytes byteOffset value littleEndian
     | Int16 => IntegerPolyfill_set int16 bytes byteOffset value littleEndian
     | Int32 => IntegerPolyfill_set int32 bytes byteOffset value littleEndian
     | Uint8 => IntegerPolyfill_set uint8 bytes byteOffset value littleEndian
     | Uint16 => IntegerPolyfill_set uint16 bytes byteOffset value littleEndian
     | Uint32 => IntegerPolyfill_set uint32 bytes byteOffset value littleEndian
     end.

End Polyfill.

Import Polyfill.

(** * [jettison.js] *)

(** ** Values *)

(** A JavaScript string: its UTF-16 code units. *)
Abbreviation jsstring := (list Z).

Inductive value : Type :=
| VUndefined
| VNull
| VBoolean (b : bool)
| VNumber (n : number)
| VString (s : jsstring)
| VArray (l : list value).

(** Truthiness, as [value ? a : b] and [if (value)] test it. *)
Definition ToBoolean (v : value) : bool :=
  match v with
  | VUndefined | VNull => false
  | VBoolean b => b
  | VNumber (Int z) => negb (z =? 0)
  | VNumber (Float f) => negb (PrimFloat.eqb f 0 || negb (PrimFloat.eqb f f))
  | VString s => negb (bool_decide (s = []))
  | VArray _ => true
  end.

(** A plain object used as a record, by the properties set on it:
    [object[key]] is [undefined] for a key that is not set.  The keys looked
    up in an object handed to a codec are taken not to be names the object
    inherits without having them set. *)
Abbreviation object := (gmap string value).

Definition prop (o : object) (key : string) : value :=
  default VUndefined (o !! key).

(** The names every object literal inherits from [Object.prototype]:
    [object[key]] finds a function there (an object for [__proto__]) when
    [key] is not set on the object, and assigning to [__proto__] sets no
    property. *)
Definition Object_prototype : list string :=
  ["constructor"; "__defineGetter__"; "__defineSetter__"; "hasOwnProperty";
   "__lookupGetter__"; "__lookupSetter__"; "isPrototypeOf";
   "propertyIsEnumerable"; "toString"; "valueOf"; "__proto__";
   "toLocaleString"].

(** ** [StreamView]

    [_config] selects the host's [ArrayBuffer] and [DataView] when the host
    has them and the two polyfills of [polyfill.js] otherwise.  The embedding
    follows the polyfills.  The polyfill's buffer starts as an array of
    unset entries, the host's as zero bytes; an unset entry is carried as the
    byte 0, which is the code unit [toString] makes of it. *)

Record StreamView : Type := {
  dataView : list Z;
  byteOffset : nat
}.

(** [StreamView.create]: a fresh buffer, all bytes zero. *)
Definition StreamView_create (byteLength : nat) : StreamView :=
  {| dataView := replicate byteLength 0; byteOffset := 0 |}.

Definition String_fromCharCode (c : Z) : Z := c mod 2 ^ 16.

Definition StreamView_toArray (sv : StreamView) : list Z := dataView sv.

Definition StreamView_toString (sv : StreamView) : jsstring :=
  map String_fromCharCode (dataView sv).

(** ** The fixed-width codecs *)

(** [Codec.prototype.get]. *)
Definition Codec_get (byteLength : nat) (getter : accessor) (sv : StreamView)
    (littleEndian : bool) : result (number * StreamView) :=
  value ← DataView_get getter (dataView sv) (byteOffset sv) littleEndian;
  Ok (value, {| dataView := dataView sv;
                byteOffset := (byteOffset sv + byteLength)%nat |}).

(** [Codec.prototype.set]. *)
Definition Codec_set (byteLength : nat) (setter : accessor) (sv : StreamView)
    (value : number) (littleEndian : bool) : result StreamView :=
  bytes ← DataView_set setter (dataView sv) (byteOffset sv) value littleEndian;
  Ok {| dataView := bytes; byteOffset := (byteOffset sv + byteLength)%nat |}.

Definition BooleanCodec_get (sv : StreamView) (littleEndian : bool)
    : result (bool * StreamView) :=
  '(value, sv) ← Codec_get 1 Uint8 sv littleEndian;
  Ok (ToBoolean (VNumber value), sv).

Definition BooleanCodec_set (sv : StreamView) (value : value)
    (littleEndian : bool) : result StreamView :=
  Codec_set 1 Uint8 sv (Int (if ToBoolean value then 1 else 0)) littleEndian.

(** The accessor [IntegerCodec]'s constructor names: [getInt${bitLength}] or
    [getUint${bitLength}].  The [Codec] constructor throws for a name that is
    not a [DataView] method. *)
Definition integer_accessor (byteLength : nat) (signed : bool) : option accessor :=
  match byteLength, signed with
  | 1%nat, true => Some Int8
  | 2%nat, true => Some Int16
  | 4%nat, true => Some Int32
  | 1%nat, false => Some Uint8
  | 2%nat, false => Some Uint16
  | 4%nat, false => Some Uint32
  | _, _ => None
  end.

Definition float_accessor (byteLength : nat) : option accessor :=
  match byteLength with
  | 4%nat => Some Float32
  | 8%nat => Some Float64
  | _ => None
  end.

Definition IntegerCodec_minValue (byteLength : nat) (signed : bool) : Z :=
  if signed then - 2 ^ (Z.of_nat byteLength * 8 - 1) else 0.

Definition IntegerCodec_maxValue (byteLength : nat) (signed : bool) : Z :=
  if signed then 2 ^ (Z.of_nat byteLength * 8 - 1) - 1
  else 2 ^ (Z.of_nat byteLength * 8) - 1.

Definition IntegerCodec_clamp (byteLength : nat) (signed : bool) (value : number)
    : number :=
  if number_ltb value (Int (IntegerCodec_minValue byteLength signed))
  then Int (IntegerCodec_minValue byteLength signed)
  else if number_gtb value (Int (IntegerCodec_maxValue byteLength signed))
  then Int (IntegerCodec_maxValue byteLength signed)
  else value.

Definition IntegerCodec_get (byteLength : nat) (signed : bool) (sv : StreamView)
    (littleEndian : bool) : result (number * StreamView) :=
  match integer_accessor byteLength signed with
  | Some a => Codec_get byteLength a sv littleEndian
  | None => Unmodelled
  end.

Definition IntegerCodec_set (byteLength : nat) (signed : bool) (sv : StreamView)
    (value : number) (littleEndian : bool) : result StreamView :=
  match integer_accessor byteLength signed with
  | Some a =>
      Codec_set byteLength a sv (IntegerCodec_clamp byteLength signed value)
        littleEndian
  | None => Unmodelled
  end.

Definition FloatCodec_get (byteLength : nat) (sv : StreamView)
    (littleEndian : bool) : result (number * StreamView) :=
  match float_accessor byteLength with
  | Some a => Codec_get byteLength a sv littleEndian
  | None => Unmodelled
  end.

Definition FloatCodec_set (byteLength : nat) (sv : StreamView) (value : number)
    (littleEndian : bool) : result StreamView :=
  match float_accessor byteLength with
  | Some a => Codec_set byteLength a sv value littleEndian
  | None => Unmodelled
  end.

(** [_codecs.uint8] and [_codecs.uint32], which the dynamic codecs use. *)
Definition uint8_get := IntegerCodec_get 1 false.
Definition uint8_set := IntegerCodec_set 1 false.
Definition uint32_get := IntegerCodec_get 4 false.
Definition uint32_set := IntegerCodec_set 4 false.

(** ** The dynamic-width codecs *)

(** [(values && values.length) || 0] and the elements [values[i]] below that
    length.  A non-empty string has a length and indexable characters; that
    use is left out. *)
Definition array_elements (values : value) : result (list value) :=
  match values with
  | VArray l => Ok l
  | VString (_ :: _) => Unmodelled
  | _ => Ok []
  end.

(** *** [BooleanArrayCodec] *)

(** [polyfill.js] declares [log2] with [let] and does not export it, so
    [polyfill.log2] is [undefined] in [jettison.js] and the call throws, after
    [length] and [valueBytes] have been computed without effect. *)
Definition BooleanArrayCodec_getByteLength (values : value) : result nat :=
  Throw (TypeError "polyfill.log2 is not a function").

(** [while (remainder > 0) { ... }] of [_setLength]; an int32 shifted right
    by 7 reaches 0 within five rounds. *)
Fixpoint _setLength_loop (fuel : nat) (sv : StreamView) (remainder : number)
    (littleEndian : bool) : result StreamView :=
  match fuel with
  | O => Ok sv
  | S fuel' =>
      if number_gtb remainder (Int 0) then
        let byte := js_and remainder (Int 127) in
        let remainder := js_shr remainder 7 in
        let byte := if negb (remainder =? 0) then js_or (Int byte) (Int 128) else byte in
        sv ← uint8_set sv (Int byte) littleEndian;
        _setLength_loop fuel' sv (Int remainder) littleEndian
      else Ok sv
  end.

Definition BooleanArrayCodec__setLength (sv : StreamView) (length : nat)
    (littleEndian : bool) : result StreamView :=
  if (length =? 0)%nat then uint8_set sv (Int 0) littleEndian
  else _setLength_loop 5 sv (Int (Z.of_nat length)) littleEndian.

(** The [for] loop of [set], over the elements still to be packed. *)
Fixpoint BooleanArrayCodec_set_loop (values : list value) (sv : StreamView)
    (byte bit : Z) (littleEndian : bool) : result (StreamView * Z * Z) :=
  match values with
  | [] => Ok (sv, byte, bit)
  | v :: values =>
      '(sv, byte, bit) ←
        (if bit =? 8
         then sv ← uint8_set sv (Int byte) littleEndian; Ok (sv, 0, 0)
         else Ok (sv, byte, bit));
      BooleanArrayCodec_set_loop values sv
        (js_or (Int byte) (Int (js_shl (Int (if ToBoolean v then 1 else 0)) bit)))
        (bit + 1) littleEndian
  end.

Definition BooleanArrayCodec_set (sv : StreamView) (values : value)
    (littleEndian : bool) : result StreamView :=
  l ← array_elements values;
  sv ← BooleanArrayCodec__setLength sv (length l) littleEndian;
  '(sv, byte, bit) ← BooleanArrayCodec_set_loop l sv 0 0 littleEndian;
  if 0 <? bit then uint8_set sv (Int byte) littleEndian else Ok sv.

(** [_getLength]: one byte per round, so the bytes left in the buffer bound
    the rounds that do not throw. *)
Fixpoint _getLength_loop (fuel : nat) (sv : StreamView) (length i byte : Z)
    (littleEndian : bool) : result (Z * StreamView) :=
  match fuel with
  | O => Ok (length, sv)
  | S fuel' =>
      if negb (js_and (Int byte) (Int 128) =? 0) then
        '(b, sv) ← uint8_get sv littleEndian;
        let length := js_or (Int length)
                        (Int (js_shl (Int (js_and b (Int 127))) (i * 7))) in
        _getLength_loop fuel' sv length (i + 1) (ToInt32 b) littleEndian
      else Ok (length, sv)
  end.

Definition BooleanArrayCodec__getLength (sv : StreamView) (littleEndian : bool)
    : result (Z * StreamView) :=
  _getLength_loop (S (S (length (dataView sv)))) sv 0 0 128 littleEndian.

(** The inner loop of [get]: the flags of one byte, from bit 0, while
    [i < length]. *)
Fixpoint byte_flags (bits : nat) (byte bit : Z) (remaining : nat) : list value :=
  match bits, remaining with
  | S bits', S remaining' =>
      VBoolean (negb (Z.land (Z.shiftr byte bit) 1 =? 0))
      :: byte_flags bits' byte (bit + 1) remaining'
  | _, _ => []
  end.

Fixpoint BooleanArrayCodec_get_loop (byteLength : nat) (sv : StreamView)
    (remaining : nat) (littleEndian : bool) : result (list value * StreamView) :=
  match byteLength with
  | O => Ok ([], sv)
  | S byteLength' =>
      '(byte, sv) ← uint8_get sv littleEndian;
      '(values, sv) ← BooleanArrayCodec_get_loop byteLength' sv (remaining - 8)
                        littleEndian;
      Ok (byte_flags 8 (ToInt32 byte) 0 remaining ++ values, sv)
  end.

Definition BooleanArrayCodec_get (sv : StreamView) (littleEndian : bool)
    : result (value * StreamView) :=
  '(length, sv) ← BooleanArrayCodec__getLength sv littleEndian;
  let byteLength := Z.to_nat ((length + 7) / 8) in
  '(values, sv) ← BooleanArrayCodec_get_loop byteLength sv (Z.to_nat length)
                    littleEndian;
  Ok (VArray values, sv).

(** *** [ArrayCodec], over the [get] and [set] of its value codec *)

Fixpoint ArrayCodec_get_loop (valueCodec_get : StreamView → bool → result (value * StreamView))
    (length : nat) (sv : StreamView) (littleEndian : bool)
    : result (list value * StreamView) :=
  match length with
  | O => Ok ([], sv)
  | S length' =>
      '(v, sv) ← valueCodec_get sv littleEndian;
      '(values, sv) ← ArrayCodec_get_loop valueCodec_get length' sv littleEndian;
      Ok (v :: values, sv)
  end.

Definition ArrayCodec_get (valueCodec_get : StreamView → bool → result (value * StreamView))
    (sv : StreamView) (littleEndian : bool) : result (value * StreamView) :=
  '(length, sv) ← uint32_get sv littleEndian;
  match length with
  | Int length =>
      if 0 <? length then
        '(values, sv) ← ArrayCodec_get_loop valueCodec_get (Z.to_nat length) sv
                          littleEndian;
        Ok (VArray values, sv)
      else Ok (VArray [], sv)
  | Float _ => Unmodelled
  end.

Fixpoint ArrayCodec_set_loop (valueCodec_set : StreamView → value → bool → result StreamView)
    (values : list value) (sv : StreamView) (littleEndian : bool)
    : result StreamView :=
  match values with
  | [] => Ok sv
  | v :: values =>
      sv ← valueCodec_set sv v littleEndian;
      ArrayCodec_set_loop valueCodec_set values sv littleEndian
  end.

Definition ArrayCodec_set (valueCodec_set : StreamView → value → bool → result StreamView)
    (sv : StreamView) (values : value) (littleEndian : bool) : result StreamView :=
  l ← array_elements values;
  sv ← uint32_set sv (Int (Z.of_nat (length l))) littleEndian;
  if (0 <? length l)%nat
  then ArrayCodec_set_loop valueCodec_set l sv littleEndian
  else Ok sv.

Fixpoint ArrayCodec_getByteLength_loop (valueCodec_getByteLength : value → result nat)
    (values : list value) (byteLength : nat) : result nat :=
  match values with
  | [] => Ok byteLength
  | v :: values =>
      n ← valueCodec_getByteLength v;
      ArrayCodec_getByteLength_loop valueCodec_getByteLength values
        (byteLength + n)%nat
  end.

(** [valueCodec_byteLength] is the value codec's [byteLength] property,
    [None] when it has none. *)
Definition ArrayCodec_getByteLength (valueCodec_byteLength : option nat)
    (valueCodec_getByteLength : value → result nat) (values : value)
    : result nat :=
  l ← array_elements values;
  if bool_decide (l = []) then Ok 0%nat
  else
    match valueCodec_byteLength with
    | Some w => Ok (4 + length l * w)%nat
    | None => ArrayCodec_getByteLength_loop valueCodec_getByteLength l 4%nat
    end.

(** *** [StringCodec]

    [utf8.encode] and [utf8.decode] come from the npm package [utf8], which
    is not part of the repository; they are parameters of everything that
    touches a string field. *)

Section WithUtf8.

Variable utf8_encode : jsstring → result jsstring.
Variable utf8_decode : jsstring → result jsstring.

Definition StringCodec_getByteLength (value : value) : result nat :=
  match value with
  | VUndefined | VNull => Throw (TypeError "Cannot read property 'length' of undefined")
  | VString s =>
      if ToBoolean value
      then u ← utf8_encode s; Ok (4 + 1 * length u)%nat
      else Ok (4 + 1 * length s)%nat
  | _ => Unmodelled
  end.

Fixpoint StringCodec_get_loop (length : nat) (sv : StreamView) (string : jsstring)
    (littleEndian : bool) : result (jsstring * StreamView) :=
  match length with
  | O => Ok (string, sv)
  | S length' =>
      '(c, sv) ← uint8_get sv littleEndian;
      match c with
      | Int c =>
          StringCodec_get_loop length' sv (string ++ [String_fromCharCode c])
            littleEndian
      | Float _ => Unmodelled
      end
  end.

Definition StringCodec_get (sv : StreamView) (littleEndian : bool)
    : result (value * StreamView) :=
  '(length, sv) ← uint32_get sv littleEndian;
  match length with
  | Int length =>
      if 0 <? length then
        '(string, sv) ← StringCodec_get_loop (Z.to_nat length) sv [] littleEndian;
        s ← utf8_decode string;
        Ok (VString s, sv)
      else Ok (VString [], sv)
  | Float _ => Unmodelled
  end.

Fixpoint StringCodec_set_loop (utf8String : jsstring) (sv : StreamView)
    (littleEndian : bool) : result StreamView :=
  match utf8String with
  | [] => Ok sv
  | c :: utf8String =>
      sv ← uint8_set sv (Int c) littleEndian;
      StringCodec_set_loop utf8String sv littleEndian
  end.

Definition StringCodec_set (sv : StreamView) (value : value)
    (littleEndian : bool) : result StreamView :=
  if ToBoolean value then
    match value with
    | VString s =>
        utf8String ← utf8_encode s;
        sv ← uint32_set sv (Int (Z.of_nat (length utf8String))) littleEndian;
        StringCodec_set_loop utf8String sv littleEndian
    | _ => Unmodelled
    end
  else uint32_set sv (Int 0) littleEndian.

(** ** The codec objects *)

Inductive codec : Type :=
| BooleanCodec
| BooleanArrayCodec
| FloatCodec (byteLength : nat)
| IntegerCodec (byteLength : nat) (signed : bool)
| ArrayCodec (valueCodec : codec)
| StringCodec.

(** The [byteLength] property: only the subclasses of [Codec] have one. *)
Definition codec_byteLength (c : codec) : option nat :=
  match c with
  | BooleanCodec => Some 1%nat
  | FloatCodec byteLength => Some byteLength
  | IntegerCodec byteLength _ => Some byteLength
  | BooleanArrayCodec | ArrayCodec _ | StringCodec => None
  end.

(** A numeric codec handed a value that is not a Number would go through
    the host's ToNumber. *)
Definition as_number (v : value) : result number :=
  match v with
  | VNumber n => Ok n
  | _ => Unmodelled
  end.

Fixpoint codec_getByteLength (c : codec) (v : value) : result nat :=
  match c with
  | BooleanArrayCodec => BooleanArrayCodec_getByteLength v
  | ArrayCodec valueCodec =>
      ArrayCodec_getByteLength (codec_byteLength valueCodec)
        (codec_getByteLength valueCodec) v
  | StringCodec => StringCodec_getByteLength v
  | BooleanCodec | FloatCodec _ | IntegerCodec _ _ =>
      Throw (TypeError "codec.getByteLength is not a function")
  end.

Fixpoint codec_get (c : codec) (sv : StreamView) (littleEndian : bool)
    : result (value * StreamView) :=
  match c with
  | BooleanCodec =>
      '(b, sv) ← BooleanCodec_get sv littleEndian; Ok (VBoolean b, sv)
  | BooleanArrayCodec => BooleanArrayCodec_get sv littleEndian
  | FloatCodec byteLength =>
      '(n, sv) ← FloatCodec_get byteLength sv littleEndian; Ok (VNumber n, sv)
  | IntegerCodec byteLength signed =>
      '(n, sv) ← IntegerCodec_get byteLength signed sv littleEndian;
      Ok (VNumber n, sv)
  | ArrayCodec valueCodec => ArrayCodec_get (codec_get valueCodec) sv littleEndian
  | StringCodec => StringCodec_get sv littleEndian
  end.

Fixpoint codec_set (c : codec) (sv : StreamView) (v : value) (littleEndian : bool)
    : result StreamView :=
  match c with
  | BooleanCodec => BooleanCodec_set sv v littleEndian
  | BooleanArrayCodec => BooleanArrayCodec_set sv v littleEndian
  | FloatCodec byteLength =>
      n ← as_number v; FloatCodec_set byteLength sv n littleEndian
  | IntegerCodec byteLength signed =>
      n ← as_number v; IntegerCodec_set byteLength signed sv n littleEndian
  | ArrayCodec valueCodec => ArrayCodec_set (codec_set valueCodec) sv v littleEndian
  | StringCodec => StringCodec_set sv v littleEndian
  end.

(** The table [_codecs]. *)
Definition _codecs (type : string) : option codec :=
  if bool_decide (type = "boolean") then Some BooleanCodec
  else if bool_decide (type = "float32") then Some (FloatCodec 4)
  else if bool_decide (type = "float64") then Some (FloatCodec 8)
  else if bool_decide (type = "int8") then Some (IntegerCodec 1 true)
  else if bool_decide (type = "int16") then Some (IntegerCodec 2 true)
  else if bool_decide (type = "int32") then Some (IntegerCodec 4 true)
  else if bool_decide (type = "uint8") then Some (IntegerCodec 1 false)
  else if bool_decide (type = "uint16") then Some (IntegerCodec 2 false)
  else if bool_decide (type = "uint32") then Some (IntegerCodec 4 false)
  else if bool_decide (type = "booleanArray") then Some BooleanArrayCodec
  else if bool_decide (type = "string") then Some StringCodec
  else None.

(** [StreamView.createFromString]: one [uint8] write per code unit. *)
Fixpoint createFromString_loop (string : jsstring) (sv : StreamView)
    : result StreamView :=
  match string with
  | [] => Ok sv
  | c :: string =>
      sv ← uint8_set sv (Int c) false;
      createFromString_loop string sv
  end.

Definition StreamView_createFromString (string : jsstring) : result StreamView :=
  sv ← createFromString_loop string (StreamView_create (length string));
  Ok {| dataView := dataView sv; byteOffset := 0 |}.

(** ** [Field] *)

Definition isValidType (type : option string) : bool :=
  match type with
  | Some type => bool_decide (is_Some (_codecs type)) || bool_decide (type = "array")
  | None => false
  end.

(** The options object handed to [new Field]; an absent [valueType] is
    [None]. *)
Record FieldOptions : Type := {
  o_key : string;
  o_type : string;
  o_valueType : option string
}.

Record Field : Type := {
  f_key : string;
  f_type : string;
  f_valueType : option string;
  f_codec : codec
}.

Definition ArrayCodec_new (valueCodec : option string) : result codec :=
  match valueCodec ≫= _codecs with
  | Some c => Ok (ArrayCodec c)
  | None => Throw (Error ("Invalid array value type '" +:+ default "undefined" valueCodec +:+ "'"))
  end.

Definition Field_new (o : FieldOptions) : result Field :=
  if bool_decide (o_key o = "") then Throw (Error "key is required")
  else if negb (isValidType (Some (o_type o)))
  then Throw (Error ("Invalid type '" +:+ o_type o +:+ "'"))
  else if bool_decide (o_type o = "array") then
    if bool_decide (o_valueType o = Some "array")
       || bool_decide (o_valueType o = Some "string")
       || negb (isValidType (o_valueType o))
    then Throw (Error ("Invalid array value type '"
                       +:+ default "undefined" (o_valueType o) +:+ "'"))
    else
      c ← ArrayCodec_new (o_valueType o);
      Ok {| f_key := o_key o; f_type := o_type o; f_valueType := o_valueType o;
            f_codec := c |}
  else
    match _codecs (o_type o) with
    | Some c =>
        Ok {| f_key := o_key o; f_type := o_type o;
              f_valueType := o_valueType o; f_codec := c |}
    | None => Unmodelled
    end.

(** [fields.map((options) => new Field(options))] *)
Fixpoint Field_map (fields : list FieldOptions) : result (list Field) :=
  match fields with
  | [] => Ok []
  | o :: fields =>
      f ← Field_new o;
      fs ← Field_map fields;
      Ok (f :: fs)
  end.

(** ** [Definition] *)

Record DefinitionObject : Type := {
  d_fields : list Field;
  d_id : option Z;
  d_key : option string;
  d_littleEndian : option bool;
  d_byteLength : option nat        (* the lazily set [this.byteLength] *)
}.

Definition Definition_new (fields : list Field) (id : option Z)
    (key : option string) (littleEndian : option bool) : DefinitionObject :=
  {| d_fields := fields; d_id := id; d_key := key;
     d_littleEndian := littleEndian; d_byteLength := None |}.

Definition set_byteLength (d : DefinitionObject) (n : nat) : DefinitionObject :=
  {| d_fields := d_fields d; d_id := d_id d; d_key := d_key d;
     d_littleEndian := d_littleEndian d; d_byteLength := Some n |}.

(** The endianness argument as the [DataView] reads it: [undefined] is
    falsy, hence big endian. *)
Definition littleEndian_flag (d : DefinitionObject) : bool :=
  default false (d_littleEndian d).

(** The loop of [getByteLength]: the running sum and [fixedByteLength]. *)
Fixpoint getByteLength_loop (fields : list Field) (o : object)
    (byteLength : nat) (fixedByteLength : bool) : result (nat * bool) :=
  match fields with
  | [] => Ok (byteLength, fixedByteLength)
  | f :: fields =>
      match codec_byteLength (f_codec f) with
      | Some w => getByteLength_loop fields o (byteLength + w)%nat fixedByteLength
      | None =>
          n ← codec_getByteLength (f_codec f) (prop o (f_key f));
          getByteLength_loop fields o (byteLength + n)%nat false
      end
  end.

(** [getByteLength] returns its result and the Definition object as the
    call leaves it. *)
Definition Definition_getByteLength (d : DefinitionObject) (o : object)
    : result nat * DefinitionObject :=
  match d_byteLength d with
  | Some n => (Ok n, d)
  | None =>
      match getByteLength_loop (d_fields d) o 0%nat true with
      | Ok (byteLength, fixedByteLength) =>
          (Ok byteLength,
           if fixedByteLength then set_byteLength d byteLength else d)
      | Throw e => (Throw e, d)
      | Unmodelled => (Unmodelled, d)
      end
  end.

Fixpoint Definition_get_loop (fields : list Field) (sv : StreamView)
    (values : object) (littleEndian : bool) : result (object * StreamView) :=
  match fields with
  | [] => Ok (values, sv)
  | f :: fields =>
      '(v, sv) ← codec_get (f_codec f) sv littleEndian;
      if bool_decide (f_key f = "__proto__") then Unmodelled
      else Definition_get_loop fields sv (<[f_key f := v]> values) littleEndian
  end.

Definition Definition_get (d : DefinitionObject) (sv : StreamView)
    : result (object * StreamView) :=
  Definition_get_loop (d_fields d) sv ∅ (littleEndian_flag d).

Fixpoint Definition_set_loop (fields : list Field) (sv : StreamView)
    (o : object) (littleEndian : bool) : result StreamView :=
  match fields with
  | [] => Ok sv
  | f :: fields =>
      sv ← codec_set (f_codec f) sv (prop o (f_key f)) littleEndian;
      Definition_set_loop fields sv o littleEndian
  end.

Definition Definition_set (d : DefinitionObject) (sv : StreamView) (o : object)
    : result StreamView :=
  Definition_set_loop (d_fields d) sv o (littleEndian_flag d).

Definition Definition_parse (d : DefinitionObject) (string : jsstring) : result object :=
  sv ← StreamView_createFromString string;
  '(values, _) ← Definition_get d sv;
  Ok values.

Definition Definition_stringify (d : DefinitionObject) (o : object)
    : result jsstring * DefinitionObject :=
  let '(r, d) := Definition_getByteLength d o in
  (byteLength ← r;
   sv ← Definition_set d (StreamView_create byteLength) o;
   Ok (StreamView_toString sv), d).

(** [jettison.define] *)
Definition define (fields : list FieldOptions) : result DefinitionObject :=
  fs ← Field_map fields;
  Ok (Definition_new fs None None None).

(** ** [Schema]

    [definitions] and [definitionsById] hold references to the same
    Definition objects; [s_heap] is the store of those objects, in the order
    [define] allocated them, and the two tables hold indices into it. *)

Record Schema : Type := {
  s_heap : list DefinitionObject;
  s_definitions : gmap string nat;
  s_definitionsById : gmap Z nat;
  s_idType : string;
  s_nextDefinitionId : Z
}.

Definition Schema_new (idType : option string) : Schema :=
  {| s_heap := []; s_definitions := ∅; s_definitionsById := ∅;
     s_idType := match idType with
                 | Some t => if bool_decide (t = "") then "uint8" else t
                 | None => "uint8"
                 end;
     s_nextDefinitionId := 1 |}.

(** [jettison.createSchema] *)
Definition createSchema : Schema := Schema_new None.

(** [define] takes the next id before it builds the fields, so the counter
    advances even when a field is rejected.  With the key [__proto__] the
    assignment [this.definitions[key] = definition] would replace the
    prototype of the table instead of setting a property: that call is
    outside the model. *)
Definition Schema_define (s : Schema) (key : string) (fields : list FieldOptions)
    : result DefinitionObject * Schema :=
  let id := s_nextDefinitionId s in
  match Field_map fields with
  | Ok fs =>
      let definition := Definition_new fs (Some id) (Some key) None in
      let r := length (s_heap s) in
      (if bool_decide (key = "__proto__") then Unmodelled else Ok definition,
       {| s_heap := s_heap s ++ [definition];
          s_definitions := <[key := r]> (s_definitions s);
          s_definitionsById := <[id := r]> (s_definitionsById s);
          s_idType := s_idType s;
          s_nextDefinitionId := id + 1 |})
  | other =>
      (match other with Throw e => Throw e | _ => Unmodelled end,
       {| s_heap := s_heap s; s_definitions := s_definitions s;
          s_definitionsById := s_definitionsById s; s_idType := s_idType s;
          s_nextDefinitionId := id + 1 |})
  end.

(** The Definition object a table entry refers to. *)
Definition deref (s : Schema) (r : option nat) : option DefinitionObject :=
  r ≫= (s_heap s !!.).

Definition update_heap (s : Schema) (r : nat) (d : DefinitionObject) : Schema :=
  {| s_heap := <[r := d]> (s_heap s); s_definitions := s_definitions s;
     s_definitionsById := s_definitionsById s; s_idType := s_idType s;
     s_nextDefinitionId := s_nextDefinitionId s |}.

Record Parsed : Type := {
  p_key : option string;
  p_data : object
}.

Definition Schema_parse (s : Schema) (string : jsstring) : result Parsed :=
  sv ← StreamView_createFromString string;
  match _codecs (s_idType s) with
  | None => Throw (TypeError "Cannot read property 'get' of undefined")
  | Some idCodec =>
      '(id, sv) ← codec_get idCodec sv false;
      match id with
      | VNumber (Int id) =>
          match deref s (s_definitionsById s !! id) with
          | None => Throw (IdNotDefined id)
          | Some definition =>
              '(data, _) ← Definition_get definition sv;
              Ok {| p_key := d_key definition; p_data := data |}
          end
      | _ => Unmodelled
      end
  end.

Definition Schema_stringify (s : Schema) (key : string) (o : object)
    : result jsstring * Schema :=
  match s_definitions s !! key, deref s (s_definitions s !! key) with
  | Some r, Some definition =>
      match _codecs (s_idType s) with
      | None => (Throw (TypeError "Cannot read property 'byteLength' of undefined"), s)
      | Some idCodec =>
          let '(n, definition) := Definition_getByteLength definition o in
          (match codec_byteLength idCodec, d_id definition with
           | Some w, Some id =>
               n ← n;
               let sv := StreamView_create (w + n) in
               sv ← codec_set idCodec sv (VNumber (Int id)) false;
               sv ← Definition_set definition sv o;
               Ok (StreamView_toString sv)
           | _, _ => n ← n; Unmodelled
           end,
           update_heap s r definition)
      end
  | _, _ =>
      if bool_decide (key ∈ Object_prototype) then
        (* [definition] is the inherited property, which is not [null] *)
        (match _codecs (s_idType s) with
         | None => Throw (TypeError "Cannot read property 'byteLength' of undefined")
         | Some _ => Throw (TypeError "definition.getByteLength is not a function")
         end, s)
      else (Throw (KeyNotDefined key), s)
  end.

End WithUtf8.

(** * Specification-level definitions

    What the theorems below are stated with: the byte sequence a codec
    produces as a function of the value alone, the values a codec can carry
    without loss, and the Schemas the public API can build. *)

Definition is_byte (b : Z) : Prop := 0 <= b < 256.

(** The bytes an accessor's setter stores for a value: what it leaves in a
    buffer of exactly its width. *)
Definition accessor_bytes (a : accessor) (v : number) (littleEndian : bool)
    : list Z :=
  let fresh := replicate (accessor_byteLength a) 0 in
  match a with
  | Float32 => FloatPolyfill_set float32 fresh 0 v littleEndian
  | Float64 => FloatPolyfill_set float64 fresh 0 v littleEndian
  | Int8 => IntegerPolyfill_set int8 fresh 0 v littleEndian
  | Int16 => IntegerPolyfill_set int16 fresh 0 v littleEndian
  | Int32 => IntegerPolyfill_set int32 fresh 0 v littleEndian
  | Uint8 => IntegerPolyfill_set uint8 fresh 0 v littleEndian
  | Uint16 => IntegerPolyfill_set uint16 fresh 0 v littleEndian
  | Uint32 => IntegerPolyfill_set uint32 fresh 0 v littleEndian
  end.

(** The value an accessor's getter reads from exactly its width of bytes. *)
Definition accessor_value (a : accessor) (bytes : list Z) (littleEndian : bool)
    : number :=
  match a with
  | Float32 => Float (FloatPolyfill_get float32 bytes 0 littleEndian)
  | Float64 => Float (FloatPolyfill_get float64 bytes 0 littleEndian)
  | Int8 => Int (IntegerPolyfill_get int8 bytes 0 littleEndian)
  | Int16 => Int (IntegerPolyfill_get int16 bytes 0 littleEndian)
  | Int32 => Int (IntegerPolyfill_get int32 bytes 0 littleEndian)
  | Uint8 => Int (IntegerPolyfill_get uint8 bytes 0 littleEndian)
  | Uint16 => Int (IntegerPolyfill_get uint16 bytes 0 littleEndian)
  | Uint32 => Int (IntegerPolyfill_get uint32 bytes 0 littleEndian)
  end.

(** [bytes] with [enc] stored from index [off]. *)
Definition splice (bytes : list Z) (off : nat) (enc : list Z) : list Z :=
  take off bytes ++ enc ++ drop (off + length enc) bytes.

(** Storing [enc] at the cursor and advancing it, or the range error of the
    [DataView] when [enc] does not fit. *)
Definition writes (sv : StreamView) (enc : list Z) : result StreamView :=
  if (length (dataView sv) <? byteOffset sv + length enc)%nat
  then Throw (RangeError "Invalid data view length")
  else Ok {| dataView := splice (dataView sv) (byteOffset sv) enc;
             byteOffset := (byteOffset sv + length enc)%nat |}.

Definition uint8_bytes (b : Z) (littleEndian : bool) : list Z :=
  accessor_bytes Uint8 (IntegerCodec_clamp 1 false (Int b)) littleEndian.

Definition uint32_bytes (n : Z) (littleEndian : bool) : list Z :=
  accessor_bytes Uint32 (IntegerCodec_clamp 4 false (Int n)) littleEndian.

(** The bytes of [_setLength]. *)
Fixpoint varint_loop (fuel : nat) (remainder : number) (littleEndian : bool)
    : list Z :=
  match fuel with
  | O => []
  | S fuel' =>
      if number_gtb remainder (Int 0) then
        let byte := js_and remainder (Int 127) in
        let remainder := js_shr remainder 7 in
        let byte := if negb (remainder =? 0) then js_or (Int byte) (Int 128) else byte in
        uint8_bytes byte littleEndian ++ varint_loop fuel' (Int remainder) littleEndian
      else []
  end.

Definition varint (length : nat) (littleEndian : bool) : list Z :=
  if (length =? 0)%nat then uint8_bytes 0 littleEndian
  else varint_loop 5 (Int (Z.of_nat length)) littleEndian.

(** The bytes the packing loop of [BooleanArrayCodec.set] has stored, with
    the byte being filled and its bit count. *)
Fixpoint pack_loop (values : list value) (byte bit : Z) (littleEndian : bool)
    : list Z * Z * Z :=
  match values with
  | [] => ([], byte, bit)
  | v :: values =>
      let '(out, byte, bit) :=
        if bit =? 8 then (uint8_bytes byte littleEndian, 0, 0) else ([], byte, bit) in
      let '(rest, byte, bit) :=
        pack_loop values
          (js_or (Int byte) (Int (js_shl (Int (if ToBoolean v then 1 else 0)) bit)))
          (bit + 1) littleEndian in
      (out ++ rest, byte, bit)
  end.

Definition pack (values : list value) (littleEndian : bool) : list Z :=
  let '(out, byte, bit) := pack_loop values 0 0 littleEndian in
  if 0 <? bit then out ++ uint8_bytes byte littleEndian else out.

Fixpoint encode_list (encode_value : value → result (list Z)) (l : list value)
    : result (list Z) :=
  match l with
  | [] => Ok []
  | v :: l =>
      e ← encode_value v;
      es ← encode_list encode_value l;
      Ok (e ++ es)
  end.

(** The flags of a boolean array, least significant bit first, eight to a
    byte: the layout [pack] is shown to have. *)
Fixpoint bits_value (bits : list bool) : Z :=
  match bits with
  | [] => 0
  | b :: bits => Z.b2z b + 2 * bits_value bits
  end.

Fixpoint chunks (fuel : nat) (bits : list bool) : list (list bool) :=
  match fuel, bits with
  | S fuel', _ :: _ => take 8 bits :: chunks fuel' (drop 8 bits)
  | _, _ => []
  end.

Definition packed_flags (bits : list bool) : list Z :=
  map bits_value (chunks (length bits) bits).

(** What [BooleanArrayCodec.set] has stored once the byte being filled is
    flushed. *)
Definition finish_pack (r : list Z * Z * Z) (le : bool) : list Z :=
  let '(out, byte, bit) := r in
  if 0 <? bit then out ++ uint8_bytes byte le else out.

(** ** IEEE 754 bit patterns

    The big-endian bytes of a float read as one unsigned integer, and the
    three fields of the pattern: 1 sign bit, the exponent bits, the
    significand bits. *)
Definition be_value (bytes : list Z) : Z := foldl (fun acc b => acc * 256 + b) 0 bytes.

Definition pattern_sign (p : FloatPolyfill) (bytes : list Z) : Z :=
  be_value bytes / 2 ^ (fp_numSignificandBits p + fp_numExponentBits p).

Definition pattern_exponent (p : FloatPolyfill) (bytes : list Z) : Z :=
  (be_value bytes / 2 ^ fp_numSignificandBits p) mod 2 ^ fp_numExponentBits p.

Definition pattern_significand (p : FloatPolyfill) (bytes : list Z) : Z :=
  be_value bytes mod 2 ^ fp_numSignificandBits p.

(** The special values of a JavaScript Number. *)
Definition special_values : list float := [nan; infinity; neg_infinity; 0; -0]%float.

(** A cursor inside its buffer: what every successful write leaves. *)
Definition in_bounds (sv : StreamView) : Prop :=
  (byteOffset sv ≤ length (dataView sv))%nat.

Section Specification.

Variable utf8_encode : jsstring → result jsstring.
Variable utf8_decode : jsstring → result jsstring.

(** The bytes [codec.set] stores for a value. *)
Fixpoint encode (c : codec) (v : value) (littleEndian : bool) : result (list Z) :=
  match c with
  | BooleanCodec =>
      Ok (accessor_bytes Uint8 (Int (if ToBoolean v then 1 else 0)) littleEndian)
  | BooleanArrayCodec =>
      l ← array_elements v;
      Ok (varint (length l) littleEndian ++ pack l littleEndian)
  | FloatCodec byteLength =>
      n ← as_number v;
      match float_accessor byteLength with
      | Some a => Ok (accessor_bytes a n littleEndian)
      | None => Unmodelled
      end
  | IntegerCodec byteLength signed =>
      n ← as_number v;
      match integer_accessor byteLength signed with
      | Some a =>
          Ok (accessor_bytes a (IntegerCodec_clamp byteLength signed n) littleEndian)
      | None => Unmodelled
      end
  | ArrayCodec valueCodec =>
      l ← array_elements v;
      es ← encode_list (fun v => encode valueCodec v littleEndian) l;
      Ok (uint32_bytes (Z.of_nat (length l)) littleEndian ++ es)
  | StringCodec =>
      if ToBoolean v then
        match v with
        | VString s =>
            u ← utf8_encode s;
            Ok (uint32_bytes (Z.of_nat (length u)) littleEndian
                ++ concat (map (fun c => uint8_bytes c littleEndian) u))
        | _ => Unmodelled
        end
      else Ok (uint32_bytes 0 littleEndian)
  end.

(** The bytes [Definition.set] stores for an object. *)
Fixpoint encode_fields (fields : list Field) (o : object) (littleEndian : bool)
    : result (list Z) :=
  match fields with
  | [] => Ok []
  | f :: fields =>
      e ← encode (f_codec f) (prop o (f_key f)) littleEndian;
      es ← encode_fields fields o littleEndian;
      Ok (e ++ es)
  end.

(** A value its codec carries without loss: a boolean; an integer inside
    the codec's range; a float that the codec's own encoder and decoder
    return unchanged; a string that [utf8] encodes to bytes and decodes back;
    a non-empty array of such values.  Boolean arrays are left out: their
    [getByteLength] throws, so no Definition holding one can be stringified. *)
Fixpoint representable (c : codec) (v : value) (littleEndian : bool) : Prop :=
  match c with
  | BooleanCodec => ∃ b, v = VBoolean b
  | BooleanArrayCodec => False
  | FloatCodec byteLength =>
      ∃ a f, float_accessor byteLength = Some a ∧ v = VNumber (Float f)
             ∧ accessor_value a (accessor_bytes a (Float f) littleEndian) littleEndian
               = Float f
  | IntegerCodec byteLength signed =>
      ∃ z, is_Some (integer_accessor byteLength signed) ∧ v = VNumber (Int z)
           ∧ IntegerCodec_minValue byteLength signed <= z
             <= IntegerCodec_maxValue byteLength signed
  | ArrayCodec valueCodec =>
      ∃ l, v = VArray l ∧ l ≠ [] ∧ Z.of_nat (length l) < 2 ^ 32
           ∧ Forall (fun v => representable valueCodec v littleEndian) l
  | StringCodec =>
      ∃ s, v = VString s
           ∧ (s = [] ∨ ∃ u, utf8_encode s = Ok u ∧ u ≠ [] ∧ Forall is_byte u
                            ∧ Z.of_nat (length u) < 2 ^ 32
                            ∧ utf8_decode u = Ok s)
  end.

(** The fields of an object, each with a representable value. *)
Definition fields_representable (fields : list Field) (o : object)
    (littleEndian : bool) : Prop :=
  Forall (fun f => f_key f ≠ "__proto__"
                   ∧ ∃ v, o !! f_key f = Some v
                          ∧ representable (f_codec f) v littleEndian) fields.

(** An object whose properties are exactly the fields' keys, each with a
    representable value. *)
Definition representable_object (fields : list Field) (o : object)
    (littleEndian : bool) : Prop :=
  (∀ k, is_Some (o !! k) → k ∈ map f_key fields)
  ∧ fields_representable fields o littleEndian.

(** The object [Definition.get] builds over [values]: one property per
    field. *)
Definition merge_fields (fields : list Field) (o : object) (values : object)
    : object :=
  foldl (fun m f => <[f_key f := prop o (f_key f)]> m) values fields.

(** The announced length of one value: the [byteLength] property of a
    fixed-width codec, the result of [getByteLength] otherwise. *)
Definition announced (c : codec) (v : value) : result nat :=
  match codec_byteLength c with
  | Some w => Ok w
  | None => codec_getByteLength utf8_encode c v
  end.

(** [set] against [encode]: when the bytes of a value are defined, [set]
    stores exactly them or runs out of room; when they are not, [set] does
    not return either. *)
Definition set_spec (c : codec) : Prop :=
  ∀ v le sv, in_bounds sv →
    match encode c v le with
    | Ok enc => codec_set utf8_encode c sv v le = writes sv enc
    | _ => is_Ok (codec_set utf8_encode c sv v le) = false
    end.

(** [get] against [encode], for a representable value: from any buffer
    that holds the value's bytes at the cursor, [get] returns the value and
    leaves the cursor after them. *)
Definition get_spec (c : codec) : Prop :=
  ∀ v le, representable c v le →
    ∃ enc, encode c v le = Ok enc
      ∧ ∀ pre post,
          codec_get utf8_decode c
            {| dataView := pre ++ enc ++ post; byteOffset := length pre |} le
          = Ok (v, {| dataView := pre ++ enc ++ post;
                      byteOffset := (length pre + length enc)%nat |}).

(** Whenever both are defined, the announced length is at most the number
    of bytes [set] stores, and it is that number for a fixed-width codec. *)
Definition length_spec (c : codec) : Prop :=
  ∀ v le enc n, encode c v le = Ok enc → announced c v = Ok n →
    (n ≤ length enc)%nat ∧ (is_Some (codec_byteLength c) → n = length enc).

(** Every field's codec has a [byteLength] property. *)
Definition all_fixed (fields : list Field) : bool :=
  forallb (fun f => bool_decide (is_Some (codec_byteLength (f_codec f)))) fields.

Definition fixed_byteLength (fields : list Field) : nat :=
  sum_list (map (fun f => default 0%nat (codec_byteLength (f_codec f))) fields).

(** The Schemas that [createSchema], [define] and [stringify] produce;
    [parse] leaves its Schema as it is. *)
Inductive reachable : Schema → Prop :=
| reachable_createSchema : reachable createSchema
| reachable_define s key fields :
    reachable s → key ≠ "__proto__" →
    reachable (Schema_define s key fields).2
| reachable_stringify s key o :
    reachable s → reachable (Schema_stringify utf8_encode s key o).2.

(** The result of a run of [define] calls, in order. *)
Fixpoint define_all (s : Schema) (defs : list (string * list FieldOptions))
    : Schema :=
  match defs with
  | [] => s
  | (key, fields) :: defs => define_all (Schema_define s key fields).2 defs
  end.

(** A registration that [define] carries out: the fields are accepted and
    the key is one the table can hold as a property. *)
Definition accepted (kf : string * list FieldOptions) : Prop :=
  kf.1 ≠ "__proto__" ∧ is_Ok (Field_map kf.2) = true.

(** Pairwise distinct keys [a], [aa], [aaa], ..., each for a Definition
    without fields. *)
Fixpoint unary_key (n : nat) : string :=
  match n with
  | O => EmptyString
  | S n' => "a" +:+ unary_key n'
  end.

Definition empty_definitions (n : nat) : list (string * list FieldOptions) :=
  map (fun i => (unary_key i, [])) (seq 1 n).

(** What holds of every reachable Schema. *)
Record schema_invariant (s : Schema) : Prop := {
  inv_idType : s_idType s = "uint8";
  inv_next : 1 <= s_nextDefinitionId s;
  inv_definitions : ∀ key r,
    s_definitions s !! key = Some r →
    ∃ d, s_heap s !! r = Some d ∧ d_key d = Some key;
  inv_definitionsById : ∀ id r,
    s_definitionsById s !! id = Some r →
    ∃ d, s_heap s !! r = Some d ∧ d_id d = Some id;
  inv_heap : ∀ r d,
    s_heap s !! r = Some d →
    d_littleEndian d = None
    ∧ (∃ id, d_id d = Some id ∧ 1 <= id < s_nextDefinitionId s
             ∧ s_definitionsById s !! id = Some r)
    ∧ (∀ n, d_byteLength d = Some n →
            all_fixed (d_fields d) = true ∧ n = fixed_byteLength (d_fields d));
  inv_order : ∀ r1 r2 d1 d2 id1 id2,
    s_heap s !! r1 = Some d1 → s_heap s !! r2 = Some d2 →
    d_id d1 = Some id1 → d_id d2 = Some id2 →
    (r1 < r2)%nat → id1 < id2
}.

End Specification.

(** A Definition whose cached byte length, if set, is the one its fields
    have: what [getByteLength] leaves behind. *)
Definition cache_valid (d : DefinitionObject) : Prop :=
  ∀ n, d_byteLength d = Some n →
       all_fixed (d_fields d) = true ∧ n = fixed_byteLength (d_fields d).

(** Two states of one Definition object: all but the cache is the same. *)
Definition same_definition (d d' : DefinitionObject) : Prop :=
  d_fields d' = d_fields d ∧ d_id d' = d_id d ∧ d_key d' = d_key d
  ∧ d_littleEndian d' = d_littleEndian d.

(** A codec object the constructors build: the width of a numeric codec
    names one of the [DataView] accessors. *)
Fixpoint codec_valid (c : codec) : Prop :=
  match c with
  | FloatCodec byteLength => is_Some (float_accessor byteLength)
  | IntegerCodec byteLength signed => is_Some (integer_accessor byteLength signed)
  | ArrayCodec valueCodec => codec_valid valueCodec
  | BooleanCodec | BooleanArrayCodec | StringCodec => True
  end.

(** The values [get] can return: of the JavaScript type of the codec, an
    integer inside the range of its type. *)
Fixpoint decoded (c : codec) (v : value) : Prop :=
  match c with
  | BooleanCodec => ∃ b, v = VBoolean b
  | BooleanArrayCodec => ∃ l, v = VArray (map VBoolean l)
  | FloatCodec _ => ∃ f, v = VNumber (Float f)
  | IntegerCodec byteLength signed =>
      ∃ z, v = VNumber (Int z)
           ∧ IntegerCodec_minValue byteLength signed <= z
             <= IntegerCodec_maxValue byteLength signed
  | ArrayCodec valueCodec => ∃ l, v = VArray l ∧ Forall (decoded valueCodec) l
  | StringCodec => ∃ s, v = VString s
  end.

(** What a decoder may do with a buffer it has not written itself: return a
    result that satisfies [P], throw the range error of the buffer, or end
    as [utf8.decode] ends on some string. *)
Definition decodes (utf8_decode : jsstring → result jsstring) {A : Type}
    (r : result A) (P : A → Prop) : Prop :=
  match r with
  | Ok a => P a
  | Throw e =>
      e = RangeError "Invalid data view length" ∨ ∃ u, utf8_decode u = Throw e
  | Unmodelled => ∃ u, utf8_decode u = Unmodelled
  end.

(** The value of a finite double as an integer: its 2^1074-fold, [0] for
    the values that are not finite. *)
Definition SF_scaled (x : spec_float) : Z :=
  match x with
  | S754_finite s m e => (if s then -1 else 1) * (Z.pos m * 2 ^ (e + 1074))
  | _ => 0
  end.

(** The integer an integer codec stores for a double: its integer part,
    rounded toward zero; 0 for NaN; the bounds of the type for the
    infinities. *)
Definition stored_integer (byteLength : nat) (signed : bool) (f : float) : Z :=
  match Prim2SF f with
  | S754_infinity true => IntegerCodec_minValue byteLength signed
  | S754_infinity false => IntegerCodec_maxValue byteLength signed
  | _ => float_trunc f
  end.

(** [FloatPolyfill.set] with the host's [Math.floor(log2(x))] left open:
    [log2] is [Math.log2], or [Math.log(x) / Math.LN2] where that is missing,
    and neither is required to be exact.  These are [fp_round], [fp_parts]
    and [FloatPolyfill_set] with [log2_floor] in the place of
    [Math_floor_log2]. *)
Definition fp_round_on (log2_floor : float → Z) (p : FloatPolyfill) (value : float)
    : float * float * Z :=
  let absValue := abs value in
  let exponent := log2_floor absValue in
  let coefficient := Math_pow2 (- exponent) in
  let '(exponent, coefficient) :=
    if (absValue * coefficient <? 1)%float
    then (exponent - 1, (coefficient * 2)%float)
    else (exponent, coefficient) in
  let absValue :=
    if 1 <=? exponent + fp_exponentBias p
    then (absValue + fp_roundTo p / coefficient)%float
    else (absValue + fp_roundTo p * Math_pow2 (1 - fp_exponentBias p))%float in
  let '(exponent, coefficient) :=
    if (2 <=? absValue * coefficient)%float
    then (exponent + 1, (coefficient / 2)%float)
    else (exponent, coefficient) in
  (absValue, coefficient, exponent).

Definition fp_parts_on (log2_floor : float → Z) (p : FloatPolyfill) (value : float)
    : Z * Z * float :=
  if negb (PrimFloat.eqb value value) then
    (0, fp_exponentMax p, Math_pow2 (fp_numSignificandBits p - 1))
  else if PrimFloat.eqb value infinity then (0, fp_exponentMax p, 0%float)
  else if PrimFloat.eqb value neg_infinity then (1, fp_exponentMax p, 0%float)
  else if PrimFloat.eqb value 0 then
    ((if PrimFloat.eqb (1 / value) neg_infinity then 1 else 0), 0, 0%float)
  else
    let signed := if (value <? 0)%float then 1 else 0 in
    let '(absValue, coefficient, exponent) := fp_round_on log2_floor p value in
    let biasedExponent := exponent + fp_exponentBias p in
    if fp_exponentMax p <=? biasedExponent then (signed, fp_exponentMax p, 0%float)
    else if biasedExponent <? 1 then
      (signed, 0,
       (absValue * Math_pow2 (fp_exponentBias p - 1)
        * Math_pow2 (fp_numSignificandBits p))%float)
    else
      (signed, biasedExponent,
       ((absValue * coefficient - 1) * Math_pow2 (fp_numSignificandBits p))%float).

Definition FloatPolyfill_set_on (log2_floor : float → Z) (p : FloatPolyfill)
    (bytes : list Z) (byteOffset : nat) (value : number) (littleEndian : bool)
    : list Z :=
  let '(signed, biasedExponent, significand) :=
    fp_parts_on log2_floor p (to_float value) in
  _floatPartsToByteArray p bytes byteOffset signed biasedExponent significand
    littleEndian.

(** The two errors a Schema raises itself, when a lookup finds nothing. *)
Definition lookup_error (e : error) : bool :=
  match e with
  | KeyNotDefined _ | IdNotDefined _ => true
  | _ => false
  end.

(** A computation that raises neither of them. *)
Definition raises_other {A : Type} (r : result A) : Prop :=
  match r with
  | Throw e => lookup_error e = false
  | _ => True
  end.
(** * Lemmas *)

Ltac Zify.zify_post_hook ::= Z.div_mod_to_equations.

Arguments ToInt32 : simpl never.
Arguments accessor_bytes : simpl never.
Arguments accessor_value : simpl never.
Arguments all_fixed : simpl never.
Arguments byte_at : simpl never.
Arguments byte_set : simpl never.
Arguments fixed_byteLength : simpl never.
Arguments fp_parts : simpl never.
Arguments ip_clamp : simpl never.
Arguments js_and : simpl never.
Arguments js_or : simpl never.
Arguments js_shl : simpl never.
Arguments js_shr : simpl never.
Arguments number_gtb : simpl never.
Arguments number_ltb : simpl never.
Arguments splice : simpl never.
Arguments to_float : simpl never.
Arguments uint32_bytes : simpl never.
Arguments uint8_bytes : simpl never.
Arguments writes : simpl never.
Arguments prop : simpl never.

(** ** Framing: a write or a read touches only its own bytes *)


Lemma byte_set_length bytes off i b : length (byte_set bytes off i b) = length bytes.
Proof. apply length_insert. Qed.

Lemma byte_set_frame (pre mid post : list Z) (i b : Z) :
  0 <= i < Z.of_nat (length mid) →
  byte_set (pre ++ mid ++ post) (length pre) i b = pre ++ byte_set mid 0 i b ++ post.
Proof.
  intros Hk. unfold byte_set.
  replace (Z.to_nat (Z.of_nat (length pre) + i)) with (length pre + Z.to_nat i)%nat by lia.
  replace (Z.to_nat (Z.of_nat 0 + i)) with (Z.to_nat i) by lia.
  rewrite insert_app_r. f_equal. rewrite insert_app_l by lia. done.
Qed.

Lemma byte_at_frame (pre mid post : list Z) (i : Z) :
  0 <= i < Z.of_nat (length mid) →
  byte_at (pre ++ mid ++ post) (length pre) i = byte_at mid 0 i.
Proof.
  intros Hk. unfold byte_at.
  replace (Z.to_nat (Z.of_nat (length pre) + i)) with (length pre + Z.to_nat i)%nat by lia.
  replace (Z.to_nat (Z.of_nat 0 + i)) with (Z.to_nat i) by lia.
  rewrite lookup_app_r by lia. replace (length pre + Z.to_nat i - length pre)%nat with (Z.to_nat i) by lia.
  by rewrite lookup_app_l by lia.
Qed.

Ltac frame_tac :=
  repeat first
    [ rewrite byte_set_frame by (rewrite ?byte_set_length; lia)
    | rewrite byte_at_frame by (rewrite ?byte_set_length; lia) ].

Lemma IntegerPolyfill_set_frame p pre mid post v le :
  ip_byteLength p ∈ [1; 2; 4]%nat →
  length mid = ip_byteLength p →
  IntegerPolyfill_set p (pre ++ mid ++ post) (length pre) v le
  = pre ++ IntegerPolyfill_set p mid 0 v le ++ post.
Proof.
  intros Hp Hlen. unfold IntegerPolyfill_set.
  destruct p as [bl signed]; simpl in *.
  set (c := ip_clamp _ v); clearbody c.
  set_unfold. destruct Hp as [->|[->|[->|[]]]]; destruct le; simpl; frame_tac; reflexivity.
Qed.

Lemma IntegerPolyfill_get_frame p pre mid post le :
  ip_byteLength p ∈ [1; 2; 4]%nat →
  length mid = ip_byteLength p →
  IntegerPolyfill_get p (pre ++ mid ++ post) (length pre) le
  = IntegerPolyfill_get p mid 0 le.
Proof.
  intros Hp Hlen. unfold IntegerPolyfill_get.
  destruct p as [bl signed]; simpl in *.
  set_unfold. destruct Hp as [->|[->|[->|[]]]]; destruct le; simpl; frame_tac; reflexivity.
Qed.

Lemma floatPartsToByteArray_frame p pre mid post signed exponent significand le :
  p = float32 ∨ p = float64 →
  length mid = fp_byteLength p →
  _floatPartsToByteArray p (pre ++ mid ++ post) (length pre) signed exponent significand le
  = pre ++ _floatPartsToByteArray p mid 0 signed exponent significand le ++ post.
Proof.
  intros [-> | ->] Hlen; unfold _floatPartsToByteArray; destruct le; simpl in *; frame_tac; reflexivity.
Qed.

Lemma FloatPolyfill_get_frame p pre mid post le :
  p = float32 ∨ p = float64 →
  length mid = fp_byteLength p →
  FloatPolyfill_get p (pre ++ mid ++ post) (length pre) le
  = FloatPolyfill_get p mid 0 le.
Proof.
  intros [-> | ->] Hlen; unfold FloatPolyfill_get, fp_fields; f_equal; destruct le; simpl in *; frame_tac; reflexivity.
Qed.


Ltac list_of_length l H :=
  repeat (destruct l as [|? l]; simpl in H; try (exfalso; lia)).

Lemma IntegerPolyfill_set_fresh p mid v le :
  ip_byteLength p ∈ [1; 2; 4]%nat →
  length mid = ip_byteLength p →
  IntegerPolyfill_set p mid 0 v le
  = IntegerPolyfill_set p (replicate (ip_byteLength p) 0) 0 v le.
Proof.
  intros Hp Hlen. unfold IntegerPolyfill_set.
  destruct p as [bl signed]; simpl in *.
  set (c := ip_clamp _ v); clearbody c.
  set_unfold. destruct Hp as [->|[->|[->|[]]]]; list_of_length mid Hlen; destruct le; reflexivity.
Qed.

Lemma floatPartsToByteArray_fresh p mid signed exponent significand le :
  p = float32 ∨ p = float64 →
  length mid = fp_byteLength p →
  _floatPartsToByteArray p mid 0 signed exponent significand le
  = _floatPartsToByteArray p (replicate (fp_byteLength p) 0) 0 signed exponent significand le.
Proof.
  intros [-> | ->] Hlen; simpl in Hlen; list_of_length mid Hlen; destruct le; reflexivity.
Qed.

Lemma land_255_range z : 0 <= Z.land z 255 < 256.
Proof.
  change 255 with (Z.ones 8). rewrite Z.land_ones by lia. apply Z.mod_pos_bound. lia.
Qed.

Lemma js_and_255_range v : 0 <= js_and v (Int 255) < 256.
Proof. unfold js_and. change (ToInt32 (Int 255)) with 255. apply land_255_range. Qed.


Lemma IntegerPolyfill_set_bytes p v le :
  ip_byteLength p ∈ [1; 2; 4]%nat →
  Forall is_byte (IntegerPolyfill_set p (replicate (ip_byteLength p) 0) 0 v le)
  ∧ length (IntegerPolyfill_set p (replicate (ip_byteLength p) 0) 0 v le) = ip_byteLength p.
Proof.
  intros Hp. unfold IntegerPolyfill_set.
  destruct p as [bl signed]; simpl in *.
  set (c := ip_clamp _ v); clearbody c.
  set_unfold. destruct Hp as [->|[->|[->|[]]]]; destruct le; (split; [|reflexivity]);
   repeat constructor; try apply js_and_255_range.
Qed.

Lemma js_or_128_range b s : is_byte b → s = 0 ∨ s = 1 → is_byte (js_or (Int b) (Int (s * 128))).
Proof.
  intros Hb Hs. unfold js_or, is_byte in *.
  assert (ToInt32 (Int b) = b) as ->.
  { unfold ToInt32, wrap32. rewrite Z.mod_small; lia. }
  assert (ToInt32 (Int (s * 128)) = s * 128) as ->.
  { unfold ToInt32, wrap32. rewrite Z.mod_small; lia. }
  split.
  - apply Z.lor_nonneg. lia.
  - destruct Hs as [-> | ->]; simpl.
    + rewrite Z.lor_0_r. lia.
    + assert (Z.lor b 128 < 2 ^ 8) as Hlt; [|change (2 ^ 8) with 256 in Hlt; exact Hlt].
      destruct (Z.eq_dec (Z.lor b 128) 0) as [->|Hn]; [lia|].
      apply Z.log2_lt_pow2. { assert (0 <= Z.lor b 128) by (apply Z.lor_nonneg; lia). lia. }
      rewrite Z.log2_lor by lia.
      apply Z.max_lub_lt.
      * destruct (Z.eq_dec b 0) as [->|]; [simpl; lia|]. apply Z.log2_lt_pow2; lia.
      * simpl. lia.
Qed.

Lemma floatPartsToByteArray_bytes p signed exponent significand le :
  p = float32 ∨ p = float64 → signed = 0 ∨ signed = 1 →
  Forall is_byte (_floatPartsToByteArray p (replicate (fp_byteLength p) 0) 0 signed exponent significand le)
  ∧ length (_floatPartsToByteArray p (replicate (fp_byteLength p) 0) 0 signed exponent significand le) = fp_byteLength p.
Proof.
  intros [-> | ->] Hs; destruct le; (split; [|reflexivity]);
  repeat constructor; try apply js_and_255_range; apply js_or_128_range; auto; apply js_and_255_range.
Qed.

Lemma fp_parts_signed p v : (fp_parts p v).1.1 = 0 ∨ (fp_parts p v).1.1 = 1.
Proof.
  unfold fp_parts.
  destruct (negb _); [simpl; auto|].
  destruct (PrimFloat.eqb v infinity); [simpl; auto|].
  destruct (PrimFloat.eqb v neg_infinity); [simpl; auto|].
  destruct (PrimFloat.eqb v 0). { destruct (PrimFloat.eqb _ _); simpl; auto. }
  destruct (fp_round p v) as [[? ?] ?].
  destruct (_ <=? _); [destruct (PrimFloat.ltb _ _); simpl; auto|].
  destruct (_ <? _); destruct (PrimFloat.ltb _ _); simpl; auto.
Qed.



Lemma wrap32_small z : - 2 ^ 31 <= z < 2 ^ 31 → wrap32 z = z.
Proof. intros H. unfold wrap32. rewrite Z.mod_small; lia. Qed.

Lemma js_and_255 x : js_and (Int x) (Int 255) = wrap32 x mod 256.
Proof.
  unfold js_and, ToInt32. rewrite (wrap32_small 255) by lia.
  change 255 with (Z.ones 8). rewrite Z.land_ones by lia. reflexivity.
Qed.

Lemma js_shr_8 x : js_shr (Int x) 8 = wrap32 x / 256.
Proof. unfold js_shr, ToInt32. change (8 mod 32) with 8. rewrite Z.shiftr_div_pow2 by lia. reflexivity. Qed.

Lemma wrap32_range z : - 2 ^ 31 <= wrap32 z < 2 ^ 31.
Proof. unfold wrap32. pose proof (Z.mod_pos_bound (z + 2 ^ 31) (2 ^ 32)). lia. Qed.

Lemma land_pow2 x n : 0 <= n → Z.land x (2 ^ n) = if Z.testbit x n then 2 ^ n else 0.
Proof.
  intros Hn. apply Z.bits_inj'. intros m Hm.
  rewrite Z.land_spec, Z.pow2_bits_eqb by lia.
  destruct (Z.eqb_spec n m) as [->|Hne].
  - destruct (Z.testbit x m) eqn:E; simpl. 
    + rewrite Z.pow2_bits_true; auto.
    + rewrite Z.bits_0; auto.
  - rewrite andb_false_r. destruct (Z.testbit x n).
    + rewrite Z.pow2_bits_false; auto.
    + rewrite Z.bits_0; auto.
Qed.

Lemma sign_test_small value n :
  0 <= n < 31 → 0 <= value < 2 ^ (n + 1) →
  (js_and (Int value) (Int (2 ^ n)) =? 0) = (value <? 2 ^ n).
Proof.
  intros Hn Hv. unfold js_and, ToInt32.
  assert (2 ^ (n + 1) <= 2 ^ 31) by (apply Z.pow_le_mono_r; lia).
  assert (0 < 2 ^ n < 2 ^ 31) by (split; [apply Z.pow_pos_nonneg; lia|apply Z.pow_lt_mono_r; lia]).
  rewrite !wrap32_small by lia.
  rewrite land_pow2 by lia. rewrite Z.testbit_odd, Z.shiftr_div_pow2 by lia.
  rewrite Z.pow_add_r in Hv by lia. change (2 ^ 1) with 2 in Hv.
  destruct (Z.ltb_spec value (2 ^ n)).
  - rewrite Z.div_small by lia. simpl. reflexivity.
  - assert (value / 2 ^ n = 1) as ->.
    { symmetry. apply (Z.div_unique value (2 ^ n) 1 (value - 2 ^ n)); lia. }
    simpl. apply Z.eqb_neq. lia.
Qed.

Lemma sign_test_32 value :
  0 <= value < 2 ^ 32 →
  (js_and (Int value) (Int (2 ^ 31)) =? 0) = (value <? 2 ^ 31).
Proof.
  intros Hv. unfold js_and, ToInt32.
  change (wrap32 (2 ^ 31)) with (Z.lnot (Z.ones 31)).
  rewrite <- Z.ldiff_land, Z.ldiff_ones_r by lia.
  rewrite Z.shiftr_div_pow2, Z.shiftl_mul_pow2 by lia.
  unfold wrap32. change (2 ^ 31) with 2147483648 in *. change (2 ^ 32) with 4294967296 in *.
  destruct (Z.ltb_spec value 2147483648); [apply Z.eqb_eq | apply Z.eqb_neq]; lia.
Qed.

Lemma IntegerPolyfill_roundtrip p z le :
  ip_byteLength p ∈ [1; 2; 4]%nat →
  ip_minValue p <= z <= ip_maxValue p →
  IntegerPolyfill_get p
    (IntegerPolyfill_set p (replicate (ip_byteLength p) 0) 0 (Int z) le) 0 le = z.
Proof.
  intros Hp Hz. unfold IntegerPolyfill_set, IntegerPolyfill_get.
  assert (ip_clamp p (Int z) = Int z) as ->.
  { unfold ip_clamp, number_gtb, number_ltb.
    destruct (Z.ltb_spec z (ip_minValue p)); [lia|].
    destruct (Z.ltb_spec (ip_maxValue p) z); [lia|]. reflexivity. }
  destruct p as [bl signed]. unfold ip_minValue, ip_maxValue, ip_signBit, ip_bitLength in *. simpl in *.
  set_unfold.
  pose proof (wrap32_range z) as HW.
  destruct Hp as [->|[->|[->|[]]]]; destruct signed, le; simpl in Hz |- *;
    unfold byte_set, byte_at; simpl; rewrite ?js_shr_8, ?js_and_255;
    change (Z.pow_pos 2 7) with 128 in *; change (Z.pow_pos 2 8) with 256 in *;
    change (Z.pow_pos 2 15) with 32768 in *; change (Z.pow_pos 2 16) with 65536 in *;
    change (Z.pow_pos 2 31) with 2147483648 in *; change (Z.pow_pos 2 32) with 4294967296 in *;
    change (2 ^ 31) with 2147483648 in *;
    (assert (wrap32 z = z ∨ wrap32 z = z - 4294967296) as HWz
       by (unfold wrap32; change (2 ^ 31) with 2147483648; change (2 ^ 32) with 4294967296; lia));
    set (W := wrap32 z) in *; clearbody W;
    rewrite ?(wrap32_small (W / 256)) by (change (2 ^ 31) with 2147483648; lia);
    rewrite ?(wrap32_small (W / 256 / 256)) by (change (2 ^ 31) with 2147483648; lia);
    rewrite ?(wrap32_small (W / 256 / 256 / 256)) by (change (2 ^ 31) with 2147483648; lia).
  all: try lia.
  all: try (change 128 with (2 ^ 7); rewrite sign_test_small by (simpl; lia); simpl;
            match goal with |- context [?a <? ?b] => destruct (Z.ltb_spec a b) end; simpl; lia).
  all: try (change 32768 with (2 ^ 15); rewrite sign_test_small by (simpl; lia); simpl;
            match goal with |- context [?a <? ?b] => destruct (Z.ltb_spec a b) end; simpl; lia).
  all: try (change 2147483648 with (2 ^ 31); rewrite sign_test_32 by (simpl; lia); simpl;
            match goal with |- context [?a <? ?b] => destruct (Z.ltb_spec a b) end; simpl; lia).
Qed.

Lemma FloatPolyfill_set_frame p pre mid post v le :
  p = float32 ∨ p = float64 →
  length mid = fp_byteLength p →
  FloatPolyfill_set p (pre ++ mid ++ post) (length pre) v le
  = pre ++ FloatPolyfill_set p (replicate (fp_byteLength p) 0) 0 v le ++ post.
Proof.
  intros Hp Hlen. unfold FloatPolyfill_set.
  destruct (fp_parts p (to_float v)) as [[s e] g].
  rewrite floatPartsToByteArray_frame by done.
  by rewrite (floatPartsToByteArray_fresh p mid).
Qed.

Lemma FloatPolyfill_set_bytes p v le :
  p = float32 ∨ p = float64 →
  Forall is_byte (FloatPolyfill_set p (replicate (fp_byteLength p) 0) 0 v le)
  ∧ length (FloatPolyfill_set p (replicate (fp_byteLength p) 0) 0 v le) = fp_byteLength p.
Proof.
  intros Hp. unfold FloatPolyfill_set.
  pose proof (fp_parts_signed p (to_float v)) as Hs.
  destruct (fp_parts p (to_float v)) as [[s e] g]. simpl in Hs.
  by apply floatPartsToByteArray_bytes.
Qed.

Lemma IntegerPolyfill_set_frame' p pre mid post v le :
  ip_byteLength p ∈ [1; 2; 4]%nat →
  length mid = ip_byteLength p →
  IntegerPolyfill_set p (pre ++ mid ++ post) (length pre) v le
  = pre ++ IntegerPolyfill_set p (replicate (ip_byteLength p) 0) 0 v le ++ post.
Proof.
  intros Hp Hlen. rewrite IntegerPolyfill_set_frame by done.
  by rewrite (IntegerPolyfill_set_fresh p mid).
Qed.

(** ** One primitive write, one primitive read *)

Lemma accessor_bytes_spec a v le :
  Forall is_byte (accessor_bytes a v le)
  ∧ length (accessor_bytes a v le) = accessor_byteLength a.
Proof.
  destruct a; unfold accessor_bytes;
    first [ apply FloatPolyfill_set_bytes; auto
          | apply IntegerPolyfill_set_bytes; simpl; set_solver ].
Qed.

Lemma accessor_bytes_length a v le :
  length (accessor_bytes a v le) = accessor_byteLength a.
Proof. apply accessor_bytes_spec. Qed.

Lemma accessor_bytes_is_byte a v le : Forall is_byte (accessor_bytes a v le).
Proof. apply accessor_bytes_spec. Qed.

Lemma split_at (bytes : list Z) (off w : nat) :
  (off + w ≤ length bytes)%nat →
  bytes = take off bytes ++ take w (drop off bytes) ++ drop (off + w) bytes
  ∧ length (take off bytes) = off
  ∧ length (take w (drop off bytes)) = w.
Proof.
  intros H. split_and!.
  - rewrite <- drop_drop. by rewrite !take_drop.
  - rewrite length_take. lia.
  - rewrite length_take, length_drop. lia.
Qed.

Lemma DataView_set_frame a pre mid post v le :
  length mid = accessor_byteLength a →
  DataView_set a (pre ++ mid ++ post) (length pre) v le
  = Ok (pre ++ accessor_bytes a v le ++ post).
Proof.
  intros Hlen. unfold DataView_set, _validateRange.
  destruct (Nat.ltb_spec (length (pre ++ mid ++ post)) (length pre + accessor_byteLength a)) as [H|H].
  { rewrite !length_app in H. lia. }
  simpl. f_equal.
  destruct a; unfold accessor_bytes;
    first [ apply FloatPolyfill_set_frame; auto
          | apply IntegerPolyfill_set_frame'; simpl; [set_solver|done] ].
Qed.

Lemma DataView_get_frame a pre mid post le :
  length mid = accessor_byteLength a →
  DataView_get a (pre ++ mid ++ post) (length pre) le = Ok (accessor_value a mid le).
Proof.
  intros Hlen. unfold DataView_get, _validateRange.
  destruct (Nat.ltb_spec (length (pre ++ mid ++ post)) (length pre + accessor_byteLength a)) as [H|H].
  { rewrite !length_app in H. lia. }
  simpl. f_equal.
  destruct a; unfold accessor_value; f_equal;
    first [ apply FloatPolyfill_get_frame; auto
          | apply IntegerPolyfill_get_frame; simpl; [set_solver|done] ].
Qed.

Lemma Codec_set_writes a sv v le :
  Codec_set (accessor_byteLength a) a sv v le = writes sv (accessor_bytes a v le).
Proof.
  unfold Codec_set, writes. rewrite accessor_bytes_length.
  destruct (Nat.ltb_spec (length (dataView sv)) (byteOffset sv + accessor_byteLength a)) as [H|H].
  - unfold DataView_set, _validateRange.
    destruct (Nat.ltb_spec (length (dataView sv)) (byteOffset sv + accessor_byteLength a)); [done|lia].
  - destruct sv as [bytes off]; simpl in *.
    destruct (split_at bytes off (accessor_byteLength a) H) as (Heq & Hl1 & Hl2).
    assert (DataView_set a bytes off v le = Ok (splice bytes off (accessor_bytes a v le))) as ->; [|done].
    unfold splice. rewrite accessor_bytes_length.
    rewrite <- (DataView_set_frame a (take off bytes)
                  (take (accessor_byteLength a) (drop off bytes))
                  (drop (off + accessor_byteLength a) bytes)) by done.
    rewrite Hl1, <- Heq. done.
Qed.

Lemma Codec_get_reads a pre mid post le :
  length mid = accessor_byteLength a →
  Codec_get (accessor_byteLength a) a {| dataView := pre ++ mid ++ post; byteOffset := length pre |} le
  = Ok (accessor_value a mid le,
        {| dataView := pre ++ mid ++ post; byteOffset := (length pre + length mid)%nat |}).
Proof.
  intros Hlen. unfold Codec_get. simpl. rewrite DataView_get_frame by done.
  simpl. by rewrite Hlen.
Qed.

Lemma Codec_get_range a sv le :
  (length (dataView sv) < byteOffset sv + accessor_byteLength a)%nat →
  Codec_get (accessor_byteLength a) a sv le = Throw (RangeError "Invalid data view length").
Proof.
  intros H. unfold Codec_get, DataView_get, _validateRange.
  destruct (Nat.ltb_spec (length (dataView sv)) (byteOffset sv + accessor_byteLength a)); [done|lia].
Qed.

(** ** [writes] composes *)

Lemma splice_length bytes off enc :
  (off + length enc ≤ length bytes)%nat → length (splice bytes off enc) = length bytes.
Proof.
  intros H. unfold splice. rewrite !length_app, length_take, length_drop. lia.
Qed.

Lemma splice_splice bytes off e1 e2 :
  (off + length e1 + length e2 ≤ length bytes)%nat →
  splice (splice bytes off e1) (off + length e1) e2 = splice bytes off (e1 ++ e2).
Proof.
  intros H. unfold splice.
  rewrite length_app.
  rewrite take_app_ge by (rewrite length_take; lia).
  rewrite length_take_le by lia.
  replace (off + length e1 - off)%nat with (length e1) by lia.
  rewrite take_app_ge by lia. rewrite Nat.sub_diag. rewrite take_0, app_nil_r.
  rewrite drop_app_ge by (rewrite length_take; lia).
  rewrite length_take_le by lia.
  rewrite drop_app_ge by lia.
  rewrite drop_drop.
  rewrite <- !app_assoc. do 3 f_equal. f_equal. lia.
Qed.

Lemma splice_nil bytes off : splice bytes off [] = bytes.
Proof. unfold splice. simpl. rewrite Nat.add_0_r. apply take_drop. Qed.

Lemma writes_nil sv :
  (byteOffset sv ≤ length (dataView sv))%nat → writes sv [] = Ok sv.
Proof.
  intros H. unfold writes. simpl.
  destruct (Nat.ltb_spec (length (dataView sv)) (byteOffset sv + 0)); [lia|].
  rewrite splice_nil, Nat.add_0_r. by destruct sv.
Qed.

Lemma writes_fits sv enc :
  (byteOffset sv + length enc ≤ length (dataView sv))%nat →
  writes sv enc = Ok {| dataView := splice (dataView sv) (byteOffset sv) enc;
                        byteOffset := (byteOffset sv + length enc)%nat |}.
Proof.
  intros H. unfold writes.
  by destruct (Nat.ltb_spec (length (dataView sv)) (byteOffset sv + length enc)); [lia|].
Qed.

Lemma writes_overflow sv enc :
  (length (dataView sv) < byteOffset sv + length enc)%nat →
  writes sv enc = Throw (RangeError "Invalid data view length").
Proof.
  intros H. unfold writes.
  by destruct (Nat.ltb_spec (length (dataView sv)) (byteOffset sv + length enc)); [|lia].
Qed.

Lemma writes_app sv e1 e2 :
  (sv' ← writes sv e1; writes sv' e2) = writes sv (e1 ++ e2).
Proof.
  destruct (Nat.ltb_spec (length (dataView sv)) (byteOffset sv + length e1)) as [H1|H1].
  - rewrite (writes_overflow sv e1) by done.
    rewrite writes_overflow by (rewrite length_app; lia). done.
  - rewrite (writes_fits sv e1) by done. simpl.
    destruct (Nat.ltb_spec (length (dataView sv)) (byteOffset sv + length e1 + length e2)) as [H2|H2].
    + rewrite !writes_overflow; [done|rewrite length_app; lia|simpl; rewrite splice_length; lia].
    + rewrite !writes_fits; [|rewrite length_app; lia|simpl; rewrite splice_length; lia].
      simpl. rewrite splice_splice by lia. rewrite length_app. do 2 f_equal. lia.
Qed.

Lemma writes_Ok sv enc sv' :
  writes sv enc = Ok sv' →
  (byteOffset sv + length enc ≤ length (dataView sv))%nat
  ∧ dataView sv' = splice (dataView sv) (byteOffset sv) enc
  ∧ byteOffset sv' = (byteOffset sv + length enc)%nat.
Proof.
  unfold writes. destruct (Nat.ltb_spec (length (dataView sv)) (byteOffset sv + length enc)); [done|].
  intros [= <-]. simpl. split_and!; [lia|done|done].
Qed.

(** ** What each [set] stores *)


Lemma integer_accessor_byteLength bl signed a :
  integer_accessor bl signed = Some a → accessor_byteLength a = bl.
Proof.
  destruct bl as [|[|[|[|[|]]]]], signed; simpl; intros [= <-]; reflexivity.
Qed.

Lemma float_accessor_byteLength bl a :
  float_accessor bl = Some a → accessor_byteLength a = bl.
Proof.
  destruct bl as [|[|[|[|[|[|[|[|[|]]]]]]]]]; simpl; intros [= <-]; reflexivity.
Qed.

Lemma IntegerCodec_set_writes bl signed a sv n le :
  integer_accessor bl signed = Some a →
  IntegerCodec_set bl signed sv n le
  = writes sv (accessor_bytes a (IntegerCodec_clamp bl signed n) le).
Proof.
  intros Ha. unfold IntegerCodec_set. rewrite Ha.
  rewrite <- (integer_accessor_byteLength _ _ _ Ha) at 1.
  apply Codec_set_writes.
Qed.

Lemma FloatCodec_set_writes bl a sv n le :
  float_accessor bl = Some a →
  FloatCodec_set bl sv n le = writes sv (accessor_bytes a n le).
Proof.
  intros Ha. unfold FloatCodec_set. rewrite Ha.
  rewrite <- (float_accessor_byteLength _ _ Ha) at 1.
  apply Codec_set_writes.
Qed.

Lemma uint8_set_writes sv b le : uint8_set sv (Int b) le = writes sv (uint8_bytes b le).
Proof. by apply IntegerCodec_set_writes. Qed.

Lemma uint32_set_writes sv n le : uint32_set sv (Int n) le = writes sv (uint32_bytes n le).
Proof. by apply IntegerCodec_set_writes. Qed.

Lemma BooleanCodec_set_writes sv v le :
  BooleanCodec_set sv v le
  = writes sv (accessor_bytes Uint8 (Int (if ToBoolean v then 1 else 0)) le).
Proof. apply (Codec_set_writes Uint8). Qed.

Lemma writes_in_bounds sv enc sv' : writes sv enc = Ok sv' → in_bounds sv'.
Proof.
  intros H. apply writes_Ok in H as (Hfit & Hd & Ho).
  unfold in_bounds. rewrite Hd, Ho, splice_length; lia.
Qed.

Lemma writes_bind_Ok {A} sv e (k : StreamView → result A) :
  (∀ sv', writes sv e = Ok sv' → in_bounds sv' → is_Ok (k sv') = false) →
  is_Ok (sv' ← writes sv e; k sv') = false.
Proof.
  intros H. destruct (writes sv e) as [sv'| |] eqn:E; simpl; [|done|done].
  apply H; [done|]. by eapply writes_in_bounds.
Qed.

Lemma StringCodec_set_loop_writes u sv le :
  in_bounds sv →
  StringCodec_set_loop u sv le
  = writes sv (concat (map (fun c => uint8_bytes c le) u)).
Proof.
  revert sv. induction u as [|c u IH]; intros sv Hsv; simpl.
  - by rewrite writes_nil.
  - rewrite uint8_set_writes, <- writes_app.
    destruct (writes sv (uint8_bytes c le)) as [sv'| |] eqn:E; simpl; [|done|done].
    apply IH. by eapply writes_in_bounds.
Qed.

Lemma _setLength_loop_writes fuel sv remainder le :
  in_bounds sv →
  _setLength_loop fuel sv remainder le = writes sv (varint_loop fuel remainder le).
Proof.
  revert sv remainder. induction fuel as [|fuel IH]; intros sv remainder Hsv; simpl.
  - by rewrite writes_nil.
  - destruct (number_gtb remainder (Int 0)); [|by rewrite writes_nil].
    rewrite uint8_set_writes, <- writes_app.
    destruct (writes sv _) as [sv'| |] eqn:E; simpl; [|done|done].
    apply IH. by eapply writes_in_bounds.
Qed.

Lemma BooleanArrayCodec__setLength_writes sv n le :
  in_bounds sv →
  BooleanArrayCodec__setLength sv n le = writes sv (varint n le).
Proof.
  intros Hsv. unfold BooleanArrayCodec__setLength, varint.
  destruct (n =? 0)%nat; [apply uint8_set_writes|by apply _setLength_loop_writes].
Qed.

Lemma BooleanArrayCodec_set_loop_writes l sv byte bit le :
  in_bounds sv →
  BooleanArrayCodec_set_loop l sv byte bit le
  = (let '(out, byte', bit') := pack_loop l byte bit le in
     sv' ← writes sv out; Ok (sv', byte', bit')).
Proof.
  revert sv byte bit. induction l as [|v l IH]; intros sv byte bit Hsv; simpl.
  - by rewrite writes_nil.
  - destruct (bit =? 8).
    + rewrite uint8_set_writes.
      destruct (pack_loop l _ _ le) as [[rest byte'] bit'] eqn:Ep.
      rewrite <- writes_app.
      destruct (writes sv _) as [sv'| |] eqn:E; simpl; [|done|done].
      rewrite IH by (by eapply writes_in_bounds). by rewrite Ep.
    + simpl. rewrite IH by done.
      by destruct (pack_loop l _ _ le) as [[rest byte'] bit'] eqn:Ep.
Qed.

Lemma BooleanArrayCodec_set_writes sv v le :
  in_bounds sv →
  BooleanArrayCodec_set sv v le
  = (l ← array_elements v; writes sv (varint (length l) le ++ pack l le)).
Proof.
  intros Hsv. unfold BooleanArrayCodec_set.
  destruct (array_elements v) as [l| |]; simpl; [|done|done].
  rewrite BooleanArrayCodec__setLength_writes by done.
  rewrite <- writes_app.
  destruct (writes sv (varint _ _)) as [sv'| |] eqn:E; simpl; [|done|done].
  rewrite BooleanArrayCodec_set_loop_writes by (by eapply writes_in_bounds).
  unfold pack. destruct (pack_loop l 0 0 le) as [[out byte] bit].
  destruct (0 <? bit) eqn:Hbit.
  - rewrite <- writes_app.
    destruct (writes sv' out) as [sv''| |] eqn:E'; simpl; rewrite ?Hbit; [|done|done].
    apply uint8_set_writes.
  - destruct (writes sv' out); simpl; by rewrite ?Hbit.
Qed.


(** ** What each [get] reads back *)

Lemma IntegerCodec_clamp_in_range bl signed z :
  IntegerCodec_minValue bl signed <= z <= IntegerCodec_maxValue bl signed →
  IntegerCodec_clamp bl signed (Int z) = Int z.
Proof.
  intros Hz. unfold IntegerCodec_clamp, number_gtb, number_ltb.
  destruct (Z.ltb_spec z (IntegerCodec_minValue bl signed)); [lia|].
  destruct (Z.ltb_spec (IntegerCodec_maxValue bl signed) z); [lia|]. reflexivity.
Qed.

Lemma integer_accessor_roundtrip bl signed a z le :
  integer_accessor bl signed = Some a →
  IntegerCodec_minValue bl signed <= z <= IntegerCodec_maxValue bl signed →
  accessor_value a (accessor_bytes a (Int z) le) le = Int z.
Proof.
  intros Ha Hz.
  destruct bl as [|[|[|[|[|]]]]], signed; simpl in Ha; try discriminate;
    injection Ha as <-; unfold accessor_value, accessor_bytes; f_equal;
    apply IntegerPolyfill_roundtrip; simpl; first [set_solver | exact Hz].
Qed.

Lemma uint8_get_reads pre c post le :
  is_byte c →
  uint8_get {| dataView := pre ++ uint8_bytes c le ++ post; byteOffset := length pre |} le
  = Ok (Int c, {| dataView := pre ++ uint8_bytes c le ++ post;
                  byteOffset := (length pre + 1)%nat |}).
Proof.
  intros Hc. unfold uint8_get, IntegerCodec_get. simpl integer_accessor. cbv iota.
  rewrite (Codec_get_reads Uint8) by apply accessor_bytes_length.
  unfold uint8_bytes. rewrite IntegerCodec_clamp_in_range by (unfold is_byte in Hc; simpl; lia).
  rewrite (integer_accessor_roundtrip 1 false) by (try done; unfold is_byte in Hc; simpl; lia).
  by rewrite accessor_bytes_length.
Qed.

Lemma uint32_get_reads pre n post le :
  0 <= n < 2 ^ 32 →
  uint32_get {| dataView := pre ++ uint32_bytes n le ++ post; byteOffset := length pre |} le
  = Ok (Int n, {| dataView := pre ++ uint32_bytes n le ++ post;
                  byteOffset := (length pre + 4)%nat |}).
Proof.
  intros Hn. unfold uint32_get, IntegerCodec_get. simpl integer_accessor. cbv iota.
  rewrite (Codec_get_reads Uint32) by apply accessor_bytes_length.
  unfold uint32_bytes. rewrite IntegerCodec_clamp_in_range by (simpl; lia).
  rewrite (integer_accessor_roundtrip 4 false) by (try done; simpl; lia).
  by rewrite accessor_bytes_length.
Qed.

Lemma uint8_bytes_length c le : length (uint8_bytes c le) = 1%nat.
Proof. apply accessor_bytes_length. Qed.

Lemma uint32_bytes_length n le : length (uint32_bytes n le) = 4%nat.
Proof. apply accessor_bytes_length. Qed.

Lemma String_fromCharCode_byte c : is_byte c → String_fromCharCode c = c.
Proof. intros [H1 H2]. unfold String_fromCharCode. rewrite Z.mod_small; [done|]. change (2 ^ 16) with 65536. lia. Qed.

Lemma StringCodec_get_loop_reads u pre post string le :
  Forall is_byte u →
  StringCodec_get_loop (length u)
    {| dataView := pre ++ concat (map (fun c => uint8_bytes c le) u) ++ post;
       byteOffset := length pre |} string le
  = Ok (string ++ u,
        {| dataView := pre ++ concat (map (fun c => uint8_bytes c le) u) ++ post;
           byteOffset := (length pre + length u)%nat |}).
Proof.
  intros Hu. revert pre string.
  induction Hu as [|c u Hc Hu IH]; intros pre string; simpl.
  - by rewrite app_nil_r, Nat.add_0_r.
  - rewrite <- (app_assoc (uint8_bytes c le)).
    rewrite uint8_get_reads by done. simpl.
    rewrite String_fromCharCode_byte by done.
    specialize (IH (pre ++ uint8_bytes c le) (string ++ [c])).
    rewrite length_app, uint8_bytes_length, <- !app_assoc in IH.
    rewrite IH. simpl. do 3 f_equal. lia.
Qed.

Lemma concat_uint8_bytes_length u le :
  length (concat (map (fun c => uint8_bytes c le) u)) = length u.
Proof. induction u; simpl; [done|]. rewrite length_app, uint8_bytes_length. lia. Qed.


(** ** Strings and buffers *)


Lemma ip_clamp_in_range p z :
  ip_minValue p <= z <= ip_maxValue p → ip_clamp p (Int z) = Int z.
Proof.
  intros Hz. unfold ip_clamp, number_gtb, number_ltb.
  destruct (Z.ltb_spec z (ip_minValue p)); [lia|].
  destruct (Z.ltb_spec (ip_maxValue p) z); [lia|]. reflexivity.
Qed.

Lemma uint8_bytes_byte c le : is_byte c → uint8_bytes c le = [c].
Proof.
  intros Hc. unfold uint8_bytes.
  rewrite IntegerCodec_clamp_in_range by (unfold is_byte in Hc; simpl; lia).
  unfold accessor_bytes, IntegerPolyfill_set. simpl.
  rewrite ip_clamp_in_range
    by (unfold is_byte in Hc; change (ip_minValue uint8) with 0;
        change (ip_maxValue uint8) with 255; lia).
  destruct le; unfold byte_set; simpl; rewrite js_and_255, wrap32_small;
    unfold is_byte in Hc; try (change (2 ^ 31) with 2147483648; lia);
    by rewrite Z.mod_small by lia.
Qed.

Lemma concat_uint8_bytes u le :
  Forall is_byte u → concat (map (fun c => uint8_bytes c le) u) = u.
Proof.
  induction 1 as [|c u Hc Hu IH]; simpl; [done|].
  by rewrite uint8_bytes_byte, IH.
Qed.

Lemma uint8_bytes_is_byte c le : Forall is_byte (uint8_bytes c le).
Proof. apply accessor_bytes_is_byte. Qed.

Lemma concat_uint8_bytes_is_byte u le :
  Forall is_byte (concat (map (fun c => uint8_bytes c le) u)).
Proof.
  induction u; simpl; [done|]. apply Forall_app. split; [apply uint8_bytes_is_byte|done].
Qed.

Lemma createFromString_loop_writes string sv :
  in_bounds sv →
  createFromString_loop string sv
  = writes sv (concat (map (fun c => uint8_bytes c false) string)).
Proof.
  intros Hsv. rewrite <- StringCodec_set_loop_writes by done.
  clear Hsv. revert sv. induction string as [|c u IH]; intros sv; simpl; [done|].
  destruct (uint8_set sv (Int c) false); simpl; [apply IH|done|done].
Qed.

(** [createFromString] never throws: the buffer it fills has one byte per
    code unit; a code unit above 255 is stored as 255. *)
Lemma StreamView_createFromString_spec string :
  StreamView_createFromString string
  = Ok {| dataView := concat (map (fun c => uint8_bytes c false) string);
          byteOffset := 0 |}.
Proof.
  unfold StreamView_createFromString.
  rewrite createFromString_loop_writes by (unfold in_bounds; simpl; lia).
  pose proof (concat_uint8_bytes_length string false) as Hlen.
  rewrite writes_fits by (simpl; rewrite length_replicate; lia).
  simpl. unfold splice. simpl. rewrite Hlen.
  rewrite drop_ge by (rewrite length_replicate; lia). by rewrite app_nil_r.
Qed.

Lemma StreamView_createFromString_bytes string :
  Forall is_byte string →
  StreamView_createFromString string = Ok {| dataView := string; byteOffset := 0 |}.
Proof.
  intros H. by rewrite StreamView_createFromString_spec, concat_uint8_bytes.
Qed.

Lemma StreamView_toString_bytes sv :
  Forall is_byte (dataView sv) → StreamView_toString sv = dataView sv.
Proof.
  unfold StreamView_toString. induction 1 as [|c u Hc Hu IH]; simpl; [done|].
  by rewrite String_fromCharCode_byte, IH.
Qed.

Lemma writes_create n enc sv :
  writes (StreamView_create n) enc = Ok sv →
  (length enc ≤ n)%nat
  ∧ dataView sv = enc ++ replicate (n - length enc) 0
  ∧ byteOffset sv = length enc.
Proof.
  intros H. apply writes_Ok in H as (Hfit & Hd & Ho). simpl in *.
  rewrite length_replicate in Hfit. split_and!; [done| |done].
  rewrite Hd. unfold splice. simpl. by rewrite drop_replicate.
Qed.

Section Codecs.

Variable utf8_encode : jsstring → result jsstring.
Variable utf8_decode : jsstring → result jsstring.

Abbreviation encode := (encode utf8_encode).
Abbreviation encode_fields := (encode_fields utf8_encode).
Abbreviation codec_set := (codec_set utf8_encode).
Abbreviation codec_get := (codec_get utf8_decode).
Abbreviation codec_getByteLength := (codec_getByteLength utf8_encode).
Abbreviation getByteLength_loop := (getByteLength_loop utf8_encode).
Abbreviation representable := (representable utf8_encode utf8_decode).
Abbreviation fields_representable := (fields_representable utf8_encode utf8_decode).
Abbreviation representable_object := (representable_object utf8_encode utf8_decode).
Abbreviation announced := (announced utf8_encode).
Abbreviation set_spec := (set_spec utf8_encode).
Abbreviation get_spec := (get_spec utf8_encode utf8_decode).
Abbreviation length_spec := (length_spec utf8_encode).




Lemma ArrayCodec_set_loop_writes c l sv le :
  set_spec c → in_bounds sv →
  match encode_list (fun v => encode c v le) l with
  | Ok es => ArrayCodec_set_loop (codec_set c) l sv le = writes sv es
  | _ => is_Ok (ArrayCodec_set_loop (codec_set c) l sv le) = false
  end.
Proof.
  intros Hc. revert sv.
  induction l as [|v l IH]; intros sv Hsv; cbn [encode_list ArrayCodec_set_loop].
  - by rewrite writes_nil.
  - specialize (Hc v le sv Hsv).
    destruct (encode c v le) as [e| |]; simpl.
    + rewrite Hc.
      destruct (encode_list _ l) as [es| |] eqn:El; simpl.
      * rewrite <- writes_app.
        destruct (writes sv e) as [sv'| |] eqn:E; simpl; [|done|done].
        specialize (IH sv' (writes_in_bounds _ _ _ E)). done.
      * apply writes_bind_Ok. intros sv' _ Hsv'. by apply IH.
      * apply writes_bind_Ok. intros sv' _ Hsv'. by apply IH.
    + by destruct (codec_set c sv v le).
    + by destruct (codec_set c sv v le).
Qed.

Lemma codec_set_spec c : set_spec c.
Proof.
  induction c as [| |bl|bl signed|c IH|]; intros v le sv Hsv; simpl.
  - apply BooleanCodec_set_writes.
  - rewrite BooleanArrayCodec_set_writes by done.
    by destruct (array_elements v).
  - destruct (as_number v) as [n| |]; simpl; [|done|done].
    destruct (float_accessor bl) as [a|] eqn:Ha.
    + by apply FloatCodec_set_writes.
    + unfold FloatCodec_set. by rewrite Ha.
  - destruct (as_number v) as [n| |]; simpl; [|done|done].
    destruct (integer_accessor bl signed) as [a|] eqn:Ha.
    + by apply IntegerCodec_set_writes.
    + unfold IntegerCodec_set. by rewrite Ha.
  - unfold ArrayCodec_set.
    destruct (array_elements v) as [l| |]; simpl; [|done|done].
    rewrite uint32_set_writes.
    pose proof (fun sv' => ArrayCodec_set_loop_writes c l sv' le IH) as Hl.
    destruct (encode_list _ l) as [es| |] eqn:El; simpl.
    + rewrite <- writes_app.
      destruct (writes sv _) as [sv'| |] eqn:E; simpl; [|done|done].
      specialize (Hl sv' (writes_in_bounds _ _ _ E)).
      destruct l as [|v' l]; simpl in *.
      * injection El as <-. by rewrite writes_nil by (by eapply writes_in_bounds).
      * done.
    + apply writes_bind_Ok. intros sv' _ Hsv'. specialize (Hl sv' Hsv').
      destruct l; [done|]. done.
    + apply writes_bind_Ok. intros sv' _ Hsv'. specialize (Hl sv' Hsv').
      destruct l; [done|]. done.
  - unfold StringCodec_set.
    destruct (ToBoolean v); [|apply uint32_set_writes].
    destruct v; try done.
    destruct (utf8_encode s) as [u| |]; simpl; [|done|done].
    rewrite uint32_set_writes, <- writes_app.
    destruct (writes sv _) as [sv'| |] eqn:E; simpl; [|done|done].
    apply StringCodec_set_loop_writes. by eapply writes_in_bounds.
Qed.

Lemma Definition_set_loop_writes fields sv o le :
  in_bounds sv →
  match encode_fields fields o le with
  | Ok es => Definition_set_loop utf8_encode fields sv o le = writes sv es
  | _ => is_Ok (Definition_set_loop utf8_encode fields sv o le) = false
  end.
Proof.
  revert sv. induction fields as [|f fields IH]; intros sv Hsv; simpl.
  - by rewrite writes_nil.
  - pose proof (codec_set_spec (f_codec f) (prop o (f_key f)) le sv Hsv) as Hc.
    destruct (encode (f_codec f) _ le) as [e| |]; simpl.
    + rewrite Hc.
      destruct (encode_fields fields o le) as [es| |] eqn:El; simpl.
      * rewrite <- writes_app.
        destruct (writes sv e) as [sv'| |] eqn:E; simpl; [|done|done].
        specialize (IH sv' (writes_in_bounds _ _ _ E)). done.
      * apply writes_bind_Ok. intros sv' _ Hsv'. by apply IH.
      * apply writes_bind_Ok. intros sv' _ Hsv'. by apply IH.
    + by destruct (codec_set _ sv _ le).
    + by destruct (codec_set _ sv _ le).
Qed.





Lemma ArrayCodec_get_loop_reads c l le :
  get_spec c →
  Forall (fun v => representable c v le) l →
  ∃ es, encode_list (fun v => encode c v le) l = Ok es
    ∧ ∀ pre post,
        ArrayCodec_get_loop (codec_get c) (length l)
          {| dataView := pre ++ es ++ post; byteOffset := length pre |} le
        = Ok (l, {| dataView := pre ++ es ++ post;
                    byteOffset := (length pre + length es)%nat |}).
Proof.
  intros Hc Hl. induction Hl as [|v l Hv Hl IH]; cbn [encode_list ArrayCodec_get_loop length].
  - exists []. split; [done|]. intros. by rewrite Nat.add_0_r.
  - destruct (Hc v le Hv) as (e & He & Hget). destruct IH as (es & Hes & Hloop).
    exists (e ++ es). rewrite He, Hes. split; [done|]. intros pre post.
    rewrite <- (app_assoc e). rewrite Hget. simpl.
    specialize (Hloop (pre ++ e) post).
    rewrite length_app, <- !app_assoc in Hloop. rewrite Hloop. simpl.
    rewrite length_app. do 3 f_equal. lia.
Qed.

Lemma codec_get_spec c : get_spec c.
Proof.
  induction c as [| |bl|bl signed|c IH|]; intros v le Hv; simpl in Hv.
  - destruct Hv as [b ->]. eexists. split; [reflexivity|]. intros pre post. simpl.
    unfold BooleanCodec_get.
    rewrite (Codec_get_reads Uint8) by apply accessor_bytes_length.
    rewrite (integer_accessor_roundtrip 1 false) by (try done; destruct b; simpl; lia).
    simpl. by destruct b.
  - done.
  - destruct Hv as (a & f & Ha & -> & Hf). simpl. rewrite Ha.
    eexists. split; [reflexivity|]. intros pre post.
    unfold FloatCodec_get. rewrite Ha.
    rewrite <- (float_accessor_byteLength _ _ Ha) at 1.
    rewrite Codec_get_reads by apply accessor_bytes_length. simpl.
    by rewrite Hf.
  - destruct Hv as (z & [a Ha] & -> & Hz). simpl. rewrite Ha.
    eexists. split; [reflexivity|]. intros pre post.
    unfold IntegerCodec_get. rewrite Ha.
    rewrite <- (integer_accessor_byteLength _ _ _ Ha) at 1.
    rewrite Codec_get_reads by apply accessor_bytes_length. simpl.
    rewrite IntegerCodec_clamp_in_range by done.
    by rewrite (integer_accessor_roundtrip bl signed).
  - destruct Hv as (l & -> & Hne & Hlen & Hl). simpl.
    destruct (ArrayCodec_get_loop_reads c l le IH Hl) as (es & Hes & Hloop).
    rewrite Hes. eexists. split; [reflexivity|]. intros pre post.
    unfold ArrayCodec_get. rewrite <- (app_assoc (uint32_bytes _ _)).
    rewrite uint32_get_reads by lia. simpl.
    destruct (Z.ltb_spec 0 (Z.of_nat (length l))); [|destruct l; simpl in *; [done|lia]].
    rewrite Nat2Z.id.
    specialize (Hloop (pre ++ uint32_bytes (Z.of_nat (length l)) le) post).
    rewrite length_app, uint32_bytes_length, <- !app_assoc in Hloop. rewrite Hloop. simpl.
    rewrite length_app, uint32_bytes_length. do 3 f_equal. lia.
  - destruct Hv as (s & -> & Hs). simpl.
    destruct Hs as [-> | (u & Hu & Hne & Hbytes & Hlen & Hdec)].
    + simpl. eexists. split; [reflexivity|]. intros pre post.
      unfold StringCodec_get. rewrite uint32_get_reads by (change (2 ^ 32) with 4294967296; lia).
      simpl. by rewrite uint32_bytes_length.
    + destruct s as [|c s]; [|].
      { simpl. eexists. split; [reflexivity|]. intros pre post.
        unfold StringCodec_get. rewrite uint32_get_reads by (change (2 ^ 32) with 4294967296; lia).
        simpl. by rewrite uint32_bytes_length. }
      simpl. rewrite Hu. eexists. split; [reflexivity|]. intros pre post.
      unfold StringCodec_get. rewrite <- (app_assoc (uint32_bytes _ _)).
      rewrite uint32_get_reads by lia. simpl.
      destruct (Z.ltb_spec 0 (Z.of_nat (length u))); [|destruct u; simpl in *; [done|lia]].
      rewrite Nat2Z.id.
      pose proof (StringCodec_get_loop_reads u (pre ++ uint32_bytes (Z.of_nat (length u)) le) post [] le Hbytes) as Hloop.
      rewrite length_app, uint32_bytes_length, <- !app_assoc in Hloop. rewrite Hloop. simpl.
      rewrite Hdec. simpl.
      rewrite length_app, uint32_bytes_length.
      assert (length (concat (map (fun c => uint8_bytes c le) u)) = length u) as ->.
      { clear. induction u; simpl; [done|]. rewrite length_app, uint8_bytes_length. lia. }
      do 3 f_equal. lia.
Qed.

(** ** The length [getByteLength] announces *)


Lemma ArrayCodec_getByteLength_loop_le c l le es acc n :
  length_spec c → codec_byteLength c = None →
  encode_list (fun v => encode c v le) l = Ok es →
  ArrayCodec_getByteLength_loop (codec_getByteLength c) l acc = Ok n →
  (n ≤ acc + length es)%nat.
Proof.
  intros Hc Hdyn. revert es acc.
  induction l as [|v l IH]; intros es acc; cbn [encode_list ArrayCodec_getByteLength_loop].
  - intros [= <-] [= <-]. simpl. lia.
  - destruct (encode c v le) as [e| |] eqn:He; simpl; [|done|done].
    destruct (encode_list _ l) as [es'| |] eqn:Hes; simpl; [|done|done].
    intros [= <-].
    destruct (codec_getByteLength c v) as [m| |] eqn:Hm; simpl; [|done|done].
    intros Hn. apply (IH es') in Hn; [|done].
    destruct (Hc v le e m He) as [Hle _]. { unfold announced. by rewrite Hdyn. }
    rewrite length_app. lia.
Qed.

Lemma encode_list_fixed_length c l le es w :
  length_spec c → codec_byteLength c = Some w →
  encode_list (fun v => encode c v le) l = Ok es →
  length es = (length l * w)%nat.
Proof.
  intros Hc Hw. revert es. induction l as [|v l IH]; intros es; cbn [encode_list].
  - by intros [= <-].
  - destruct (encode c v le) as [e| |] eqn:He; simpl; [|done|done].
    destruct (encode_list _ l) as [es'| |] eqn:Hes; simpl; [|done|done].
    intros [= <-]. rewrite length_app, (IH es') by done.
    destruct (Hc v le e w He) as [_ Heq]. { unfold announced. by rewrite Hw. }
    rewrite <- Heq by (by rewrite Hw). lia.
Qed.

Lemma codec_length_spec c : length_spec c.
Proof.
  induction c as [| |bl|bl signed|c IH|]; intros v le enc n; unfold announced; simpl.
  - intros [= <-] [= <-]. rewrite accessor_bytes_length. simpl. split; [lia|done].
  - done.
  - destruct (as_number v) as [x| |]; simpl; [|done|done].
    destruct (float_accessor bl) as [a|] eqn:Ha; [|done].
    intros [= <-] [= <-]. rewrite accessor_bytes_length, (float_accessor_byteLength _ _ Ha).
    split; [lia|done].
  - destruct (as_number v) as [x| |]; simpl; [|done|done].
    destruct (integer_accessor bl signed) as [a|] eqn:Ha; [|done].
    intros [= <-] [= <-]. rewrite accessor_bytes_length, (integer_accessor_byteLength _ _ _ Ha).
    split; [lia|done].
  - unfold ArrayCodec_getByteLength.
    destruct (array_elements v) as [l| |]; simpl; [|done|done].
    destruct (encode_list _ l) as [es| |] eqn:Hes; simpl; [|done|done].
    intros [= <-]. rewrite length_app, uint32_bytes_length.
    case_bool_decide as Hnil.
    { intros [= <-]. split; [lia|]. by intros [? ?]. }
    destruct (codec_byteLength c) as [w|] eqn:Hw.
    + intros [= <-]. rewrite (encode_list_fixed_length c l le es w) by done.
      split; [lia|]. by intros [? ?].
    + intros Hn. apply (ArrayCodec_getByteLength_loop_le c l le es) in Hn; [|done..].
      split; [lia|]. by intros [? ?].
  - unfold StringCodec_getByteLength.
    destruct v; try done.
    simpl. destruct (negb _) eqn:Hs.
    + destruct (utf8_encode s) as [u| |]; simpl; [|done|done].
      intros [= <-] [= <-].
      rewrite length_app, uint32_bytes_length, concat_uint8_bytes_length.
      split; [lia|]. by intros [? ?].
    + intros [= <-] [= <-]. rewrite uint32_bytes_length.
      apply negb_false_iff, bool_decide_eq_true in Hs as ->. simpl.
      split; [lia|]. by intros [? ?].
Qed.

(** For a representable value the announced length is exact. *)
Lemma announced_representable c v le :
  representable c v le →
  ∃ enc, encode c v le = Ok enc ∧ announced c v = Ok (length enc).
Proof.
  revert v. induction c as [| |bl|bl signed|c IH|]; intros v Hv; unfold announced; simpl in *.
  - destruct Hv as [b ->]. eexists. split; [done|]. by rewrite accessor_bytes_length.
  - done.
  - destruct Hv as (a & f & Ha & -> & Hf). simpl. rewrite Ha.
    eexists. split; [done|]. by rewrite accessor_bytes_length, (float_accessor_byteLength _ _ Ha).
  - destruct Hv as (z & [a Ha] & -> & Hz). simpl. rewrite Ha.
    eexists. split; [done|].
    by rewrite accessor_bytes_length, (integer_accessor_byteLength _ _ _ Ha).
  - destruct Hv as (l & -> & Hne & Hlen & Hl). simpl.
    unfold ArrayCodec_getByteLength. simpl.
    rewrite bool_decide_eq_false_2 by done.
    assert (∃ es, encode_list (fun v => encode c v le) l = Ok es
                  ∧ match codec_byteLength c with
                    | Some w => length es = (length l * w)%nat
                    | None => ∀ acc, ArrayCodec_getByteLength_loop (codec_getByteLength c) l acc
                                     = Ok (acc + length es)%nat
                    end) as (es & Hes & Hm).
    { clear Hne Hlen. induction Hl as [|v l Hv Hl IHl]; cbn [encode_list ArrayCodec_getByteLength_loop].
      - exists []. split; [done|]. destruct (codec_byteLength c); [done|]. intros. by rewrite Nat.add_0_r.
      - destruct (IH v Hv) as (e & He & Ha). destruct IHl as (es & Hes & Hm).
        exists (e ++ es). rewrite He, Hes. split; [done|].
        unfold announced in Ha. rewrite length_app.
        destruct (codec_byteLength c) as [w|].
        + injection Ha as ->. simpl. lia.
        + intros acc. rewrite Ha. simpl. rewrite Hm. f_equal. lia. }
    rewrite Hes. eexists. split; [done|].
    rewrite length_app, uint32_bytes_length.
    destruct (codec_byteLength c) as [w|]; [by rewrite Hm|]. by rewrite Hm.
  - destruct Hv as (s & -> & Hs). simpl. unfold StringCodec_getByteLength. simpl.
    destruct Hs as [-> | (u & Hu & Hne & Hbytes & Hlen & Hdec)].
    + simpl. eexists. split; [done|]. by rewrite uint32_bytes_length.
    + destruct s as [|c s]; simpl.
      * eexists. split; [done|]. by rewrite uint32_bytes_length.
      * rewrite Hu. simpl. eexists. split; [done|].
        rewrite length_app, uint32_bytes_length, concat_uint8_bytes_length. f_equal. lia.
Qed.





Lemma encode_is_byte c v le enc : encode c v le = Ok enc → Forall is_byte enc.
Proof.
  revert v enc. induction c as [| |bl|bl signed|c IH|]; intros v enc; simpl.
  - intros [= <-]. apply accessor_bytes_is_byte.
  - destruct (array_elements v) as [l| |]; simpl; [|done|done]. intros [= <-].
    apply Forall_app. split.
    + unfold varint. destruct (_ =? _)%nat; [apply uint8_bytes_is_byte|].
      generalize (Int (Z.of_nat (length l))). generalize 5%nat.
      intros fuel. induction fuel as [|fuel IHf]; intros r; simpl; [done|].
      destruct (number_gtb r (Int 0)); [|done].
      apply Forall_app. split; [apply uint8_bytes_is_byte|apply IHf].
    + unfold pack.
      assert (∀ byte bit, Forall is_byte (pack_loop l byte bit le).1.1) as Hp.
      { induction l as [|x l IHl]; intros byte bit; simpl; [done|].
        specialize (IHl (js_or (Int (if bit =? 8 then 0 else byte))
                           (Int (js_shl (Int (if ToBoolean x then 1 else 0))
                                   (if bit =? 8 then 0 else bit))))
                        ((if bit =? 8 then 0 else bit) + 1)).
        destruct (bit =? 8); simpl;
          destruct (pack_loop l _ _ le) as [[rest b'] k']; simpl in *.
        - apply Forall_app. split; [apply uint8_bytes_is_byte|done].
        - done. }
      specialize (Hp 0 0). destruct (pack_loop l 0 0 le) as [[out b] k]. simpl in Hp.
      destruct (0 <? k); [|done]. apply Forall_app. split; [done|apply uint8_bytes_is_byte].
  - destruct (as_number v) as [x| |]; simpl; [|done|done].
    destruct (float_accessor bl); [|done]. intros [= <-]. apply accessor_bytes_is_byte.
  - destruct (as_number v) as [x| |]; simpl; [|done|done].
    destruct (integer_accessor bl signed); [|done]. intros [= <-]. apply accessor_bytes_is_byte.
  - destruct (array_elements v) as [l| |]; simpl; [|done|done].
    destruct (encode_list _ l) as [es| |] eqn:Hes; simpl; [|done|done].
    intros [= <-]. apply Forall_app. split; [apply accessor_bytes_is_byte|].
    revert es Hes. induction l as [|x l IHl]; intros es; cbn [encode_list].
    + by intros [= <-].
    + destruct (encode c x le) as [e| |] eqn:He; simpl; [|done|done].
      destruct (encode_list _ l) as [es'| |] eqn:Hes'; simpl; [|done|done].
      intros [= <-]. apply Forall_app. split; [by eapply IH|by apply IHl].
  - destruct (ToBoolean v); [|intros [= <-]; apply accessor_bytes_is_byte].
    destruct v; try done.
    destruct (utf8_encode s) as [u| |]; simpl; [|done|done].
    intros [= <-]. apply Forall_app. split; [apply accessor_bytes_is_byte|].
    apply concat_uint8_bytes_is_byte.
Qed.

Lemma encode_fields_is_byte fields o le es :
  encode_fields fields o le = Ok es → Forall is_byte es.
Proof.
  revert es. induction fields as [|f fields IH]; intros es; simpl.
  - by intros [= <-].
  - destruct (encode (f_codec f) _ le) as [e| |] eqn:He; simpl; [|done|done].
    destruct (encode_fields fields o le) as [es'| |]; simpl; [|done|done].
    intros [= <-]. apply Forall_app. split; [by eapply encode_is_byte|by apply IH].
Qed.

(** *** [Definition.getByteLength] *)

Lemma all_fixed_cons f fields :
  all_fixed (f :: fields)
  = bool_decide (is_Some (codec_byteLength (f_codec f))) && all_fixed fields.
Proof. reflexivity. Qed.

Lemma getByteLength_loop_fixed fields o acc fx :
  all_fixed fields = true →
  getByteLength_loop fields o acc fx = Ok ((acc + fixed_byteLength fields)%nat, fx).
Proof.
  revert acc. induction fields as [|f fields IH]; intros acc; simpl.
  - intros _. unfold fixed_byteLength. simpl. by rewrite Nat.add_0_r.
  - rewrite all_fixed_cons. intros H. apply andb_true_iff in H as [Hf Hfs].
    apply bool_decide_eq_true in Hf as [w Hw]. rewrite Hw.
    rewrite IH by done. unfold fixed_byteLength. simpl. rewrite Hw. simpl.
    do 2 f_equal. lia.
Qed.

Lemma getByteLength_loop_flag fields o acc fx n fx' :
  getByteLength_loop fields o acc fx = Ok (n, fx') →
  fx' = fx && all_fixed fields.
Proof.
  revert acc fx. induction fields as [|f fields IH]; intros acc fx; simpl.
  - intros [= <- <-]. by rewrite andb_true_r.
  - destruct (codec_byteLength (f_codec f)) as [w|] eqn:Hw.
    + intros H. apply IH in H. rewrite H. rewrite all_fixed_cons, Hw.
      by rewrite bool_decide_eq_true_2 by done.
    + destruct (codec_getByteLength _ _) as [m| |]; simpl; [|done|done].
      intros H. apply IH in H. rewrite H. rewrite all_fixed_cons, Hw.
      rewrite bool_decide_eq_false_2 by (by intros [? ?]). simpl. by rewrite andb_false_r.
Qed.

Lemma getByteLength_loop_le fields o le es acc fx n fx' :
  encode_fields fields o le = Ok es →
  getByteLength_loop fields o acc fx = Ok (n, fx') →
  (n ≤ acc + length es)%nat.
Proof.
  revert es acc fx. induction fields as [|f fields IH]; intros es acc fx; simpl.
  - intros [= <-] [= <- <-]. simpl. lia.
  - destruct (encode (f_codec f) _ le) as [e| |] eqn:He; simpl; [|done|done].
    destruct (encode_fields fields o le) as [es'| |] eqn:Hes; simpl; [|done|done].
    intros [= <-]. rewrite length_app.
    pose proof (codec_length_spec (f_codec f) (prop o (f_key f)) le e) as Hc.
    unfold announced in Hc. specialize (fun n => Hc n He).
    destruct (codec_byteLength (f_codec f)) as [w|] eqn:Hw.
    + intros H. apply (IH es') in H; [|done]. destruct (Hc w eq_refl) as [Hle _]. lia.
    + destruct (codec_getByteLength _ _) as [m| |] eqn:Hm; simpl; [|done|done].
      intros H. apply (IH es') in H; [|done]. destruct (Hc m eq_refl) as [Hle _]. lia.
Qed.

Lemma encode_fields_fixed_length fields o le es :
  all_fixed fields = true →
  encode_fields fields o le = Ok es →
  length es = fixed_byteLength fields.
Proof.
  revert es. induction fields as [|f fields IH]; intros es; simpl.
  - by intros _ [= <-].
  - rewrite all_fixed_cons. intros H. apply andb_true_iff in H as [Hf Hfs].
    apply bool_decide_eq_true in Hf as [w Hw].
    destruct (encode (f_codec f) _ le) as [e| |] eqn:He; simpl; [|done|done].
    destruct (encode_fields fields o le) as [es'| |] eqn:Hes; simpl; [|done|done].
    intros [= <-]. rewrite length_app, (IH es') by done.
    pose proof (codec_length_spec (f_codec f) (prop o (f_key f)) le e w He) as Hc.
    unfold announced in Hc. rewrite Hw in Hc. destruct (Hc eq_refl) as [_ Heq].
    unfold fixed_byteLength. simpl. rewrite Hw. simpl.
    rewrite <- Heq by done. done.
Qed.

Lemma getByteLength_loop_representable fields o le acc fx :
  fields_representable fields o le →
  ∃ es, encode_fields fields o le = Ok es
    ∧ getByteLength_loop fields o acc fx
      = Ok ((acc + length es)%nat, fx && all_fixed fields).
Proof.
  intros H. revert acc fx. induction H as [|f fields (_ & v & Hv & Hr) Hfs IH]; intros acc fx; simpl.
  - exists []. split; [done|]. simpl. by rewrite Nat.add_0_r, andb_true_r.
  - unfold prop. rewrite Hv. simpl.
    destruct (announced_representable _ _ _ Hr) as (e & He & Ha).
    rewrite He. simpl. unfold announced in Ha.
    destruct (codec_byteLength (f_codec f)) as [w|] eqn:Hw.
    + injection Ha as ->.
      destruct (IH (acc + length e)%nat fx) as (es & Hes & Hl).
      exists (e ++ es). rewrite Hes. split; [done|]. rewrite Hl, length_app.
      rewrite all_fixed_cons, Hw, bool_decide_eq_true_2 by done. simpl.
      do 2 f_equal. lia.
    + rewrite Ha. simpl.
      destruct (IH (acc + length e)%nat false) as (es & Hes & Hl).
      exists (e ++ es). rewrite Hes. split; [done|]. rewrite Hl, length_app.
      rewrite all_fixed_cons, Hw, bool_decide_eq_false_2 by (by intros [? ?]). simpl.
      rewrite andb_false_r. do 2 f_equal. lia.
Qed.

(** *** [Definition.get] *)

Lemma merge_fields_lookup fields o values k :
  merge_fields fields o values !! k
  = if bool_decide (k ∈ map f_key fields) then Some (prop o k) else values !! k.
Proof.
  revert values. induction fields as [|f fields IH]; intros values; simpl.
  - try (rewrite bool_decide_eq_false_2 by set_solver). done.
  - unfold merge_fields in *. simpl. rewrite IH.
    destruct (decide (k ∈ map f_key fields)) as [Hin|Hin].
    + rewrite !bool_decide_eq_true_2; [done|set_solver|done].
    + rewrite (bool_decide_eq_false_2 _ Hin).
      destruct (decide (k = f_key f)) as [->|Hne].
      * rewrite lookup_insert_eq. rewrite bool_decide_eq_true_2; [done|set_solver].
      * rewrite lookup_insert_ne by done.
        rewrite bool_decide_eq_false_2; [done|set_solver].
Qed.

Lemma merge_fields_representable fields o le :
  representable_object fields o le →
  merge_fields fields o ∅ = o.
Proof.
  intros [Hdom Hf]. unfold fields_representable in Hf.
  apply map_eq. intros k. rewrite merge_fields_lookup.
  case_bool_decide as Hin.
  - apply list_elem_of_fmap in Hin as (f & -> & Hin).
    rewrite Forall_forall in Hf. destruct (Hf f Hin) as (_ & v & Hv & _).
    unfold prop. by rewrite Hv.
  - rewrite lookup_empty. destruct (o !! k) eqn:E; [|done].
    exfalso. apply Hin, Hdom. by rewrite E.
Qed.

Lemma Definition_get_loop_reads fields o le :
  fields_representable fields o le →
  ∃ es, encode_fields fields o le = Ok es
    ∧ ∀ pre post values,
        Definition_get_loop utf8_decode fields
          {| dataView := pre ++ es ++ post; byteOffset := length pre |} values le
        = Ok (merge_fields fields o values,
              {| dataView := pre ++ es ++ post;
                 byteOffset := (length pre + length es)%nat |}).
Proof.
  induction 1 as [|f fields (Hkey & v & Hv & Hr) Hfs IH]; simpl.
  - exists []. split; [done|]. intros. by rewrite Nat.add_0_r.
  - assert (prop o (f_key f) = v) as Hp by (unfold prop; by rewrite Hv).
    rewrite Hp.
    destruct (codec_get_spec _ _ _ Hr) as (e & He & Hget).
    destruct IH as (es & Hes & Hloop).
    rewrite He, Hes. exists (e ++ es). split; [done|]. intros pre post values.
    rewrite <- (app_assoc e). rewrite Hget. simpl.
    rewrite bool_decide_eq_false_2 by done.
    specialize (Hloop (pre ++ e) post (<[f_key f := v]> values)).
    rewrite length_app, <- !app_assoc in Hloop. rewrite Hloop.
    unfold merge_fields. simpl. rewrite ?Hp.
    rewrite length_app. do 3 f_equal. lia.
Qed.


End Codecs.

(** * The integer codecs clamp *)

(** A double above a non-negative bound is not below a non-positive one:
    the two comparisons of [IntegerCodec.set] cannot both hold. *)
Lemma ltb_above_not_below (lo hi : Z) (f : float) :
  (∃ m e, Prim2SF (Z_to_float hi) = S754_finite false m e)
  ∨ Prim2SF (Z_to_float hi) = S754_zero false →
  (∃ m e, Prim2SF (Z_to_float lo) = S754_finite true m e)
  ∨ (∃ s, Prim2SF (Z_to_float lo) = S754_zero s) →
  PrimFloat.ltb (Z_to_float hi) f = true → PrimFloat.ltb f (Z_to_float lo) = false.
Proof.
  intros Hhi Hlo. rewrite !ltb_spec. unfold SFltb.
  destruct Hhi as [(m & e & ->)| ->], Hlo as [(m' & e' & ->)|(s' & ->)];
    destruct (Prim2SF f) as [[]|[]| |[] ? ?]; simpl; try discriminate; try reflexivity.
  all: try (destruct s'; simpl; try discriminate; try reflexivity).
Qed.

Lemma IntegerCodec_range bl signed :
  is_Some (integer_accessor bl signed) →
  IntegerCodec_minValue bl signed <= IntegerCodec_maxValue bl signed.
Proof.
  intros [a Ha].
  destruct bl as [|[|[|[|[|]]]]], signed; try discriminate; vm_compute; discriminate.
Qed.

Lemma IntegerCodec_above_not_below bl signed v :
  is_Some (integer_accessor bl signed) →
  number_gtb v (Int (IntegerCodec_maxValue bl signed)) = true →
  number_ltb v (Int (IntegerCodec_minValue bl signed)) = false.
Proof.
  intros Ha. pose proof (IntegerCodec_range bl signed Ha) as Hr.
  unfold number_gtb, number_ltb. destruct v as [z|f]; simpl.
  - lia.
  - destruct Ha as [a Ha]. unfold to_float.
    apply ltb_above_not_below;
      destruct bl as [|[|[|[|[|]]]]], signed; try discriminate; vm_compute; eauto 6.
Qed.

Lemma IntegerCodec_clamp_below bl signed v :
  number_ltb v (Int (IntegerCodec_minValue bl signed)) = true →
  IntegerCodec_clamp bl signed v = Int (IntegerCodec_minValue bl signed).
Proof. intros H. unfold IntegerCodec_clamp. by rewrite H. Qed.

Lemma IntegerCodec_clamp_above bl signed v :
  is_Some (integer_accessor bl signed) →
  number_gtb v (Int (IntegerCodec_maxValue bl signed)) = true →
  IntegerCodec_clamp bl signed v = Int (IntegerCodec_maxValue bl signed).
Proof.
  intros Ha H. unfold IntegerCodec_clamp.
  by rewrite (IntegerCodec_above_not_below bl signed v Ha H), H.
Qed.

(** Writing an in-range integer and reading it back from where it was
    written. *)
Lemma IntegerCodec_set_get bl signed sv z le :
  is_Some (integer_accessor bl signed) →
  IntegerCodec_minValue bl signed <= z <= IntegerCodec_maxValue bl signed →
  (byteOffset sv + bl ≤ length (dataView sv))%nat →
  ∃ sv', IntegerCodec_set bl signed sv (Int z) le = Ok sv'
    ∧ byteOffset sv' = (byteOffset sv + bl)%nat
    ∧ length (dataView sv') = length (dataView sv)
    ∧ IntegerCodec_get bl signed
        {| dataView := dataView sv'; byteOffset := byteOffset sv |} le
      = Ok (Int z, sv').
Proof.
  intros [a Ha] Hz Hroom.
  pose proof (integer_accessor_byteLength _ _ _ Ha) as Hbl.
  rewrite (IntegerCodec_set_writes bl signed a) by done.
  rewrite IntegerCodec_clamp_in_range by done.
  rewrite writes_fits by (rewrite accessor_bytes_length; lia).
  eexists. split; [reflexivity|]. simpl. rewrite accessor_bytes_length, Hbl.
  split; [done|]. split; [apply splice_length; rewrite accessor_bytes_length; lia|].
  unfold IntegerCodec_get. rewrite Ha. unfold splice.
  rewrite accessor_bytes_length, Hbl.
  assert (length (take (byteOffset sv) (dataView sv)) = byteOffset sv) as Hpre
    by (rewrite length_take; lia).
  pose proof (Codec_get_reads a (take (byteOffset sv) (dataView sv))
                (accessor_bytes a (Int z) le)
                (drop (byteOffset sv + bl) (dataView sv)) le
                (accessor_bytes_length _ _ _)) as Hget.
  rewrite Hpre, accessor_bytes_length, Hbl in Hget. rewrite Hget.
  by rewrite (integer_accessor_roundtrip bl signed).
Qed.

(** C5: every integer codec (signed or unsigned, 1, 2 or 4 bytes) stores an
    input below its minimum as it stores the minimum, and an input above its
    maximum as it stores the maximum; with room for the codec's width in the
    buffer the call returns without an error, and reading the stored bytes
    back yields the minimum, respectively the maximum.  The input is any
    Number: an integer of any size or any double, infinite ones included. *)
Theorem IntegerCodec_set_clamps bl signed sv v le :
  is_Some (integer_accessor bl signed) →
  let minValue := IntegerCodec_minValue bl signed in
  let maxValue := IntegerCodec_maxValue bl signed in
  (number_ltb v (Int minValue) = true →
     IntegerCodec_set bl signed sv v le = IntegerCodec_set bl signed sv (Int minValue) le)
  ∧ (number_gtb v (Int maxValue) = true →
     IntegerCodec_set bl signed sv v le = IntegerCodec_set bl signed sv (Int maxValue) le)
  ∧ ((byteOffset sv + bl ≤ length (dataView sv))%nat →
     ∃ sv', IntegerCodec_set bl signed sv v le = Ok sv'
       ∧ (number_ltb v (Int minValue) = true →
            IntegerCodec_get bl signed
              {| dataView := dataView sv'; byteOffset := byteOffset sv |} le
            = Ok (Int minValue, sv'))
       ∧ (number_gtb v (Int maxValue) = true →
            IntegerCodec_get bl signed
              {| dataView := dataView sv'; byteOffset := byteOffset sv |} le
            = Ok (Int maxValue, sv'))).
Proof.
  intros Ha minValue maxValue.
  pose proof (IntegerCodec_range bl signed Ha) as Hr.
  assert (∀ z, IntegerCodec_clamp bl signed v = Int z →
               IntegerCodec_minValue bl signed <= z <= IntegerCodec_maxValue bl signed →
               IntegerCodec_set bl signed sv v le = IntegerCodec_set bl signed sv (Int z) le)
    as Hsame.
  { intros z Hc Hz. destruct Ha as [a Ha].
    rewrite !(IntegerCodec_set_writes bl signed a) by done.
    by rewrite Hc, IntegerCodec_clamp_in_range. }
  split_and!.
  - intros H. apply Hsame; [by apply IntegerCodec_clamp_below|subst minValue; lia].
  - intros H. apply Hsame; [by apply IntegerCodec_clamp_above|subst maxValue; lia].
  - intros Hroom.
    assert (∀ z, IntegerCodec_clamp bl signed v = Int z →
                 IntegerCodec_minValue bl signed <= z <= IntegerCodec_maxValue bl signed →
                 ∀ sv', IntegerCodec_set bl signed sv v le = Ok sv' →
                 IntegerCodec_get bl signed
                   {| dataView := dataView sv'; byteOffset := byteOffset sv |} le
                 = Ok (Int z, sv')) as Hback.
    { intros z Hc Hz sv' E. rewrite (Hsame z Hc Hz) in E.
      destruct (IntegerCodec_set_get bl signed sv z le Ha Hz Hroom) as (sv'' & E' & _ & _ & Hg).
      rewrite E in E'. by injection E' as <-. }
    destruct Ha as [a Ha].
    pose proof (integer_accessor_byteLength _ _ _ Ha) as Hbl.
    rewrite (IntegerCodec_set_writes bl signed a) in * by done.
    rewrite writes_fits in * by (rewrite accessor_bytes_length; lia).
    eexists. split; [reflexivity|]. split; intros H.
    + apply (Hback minValue); [by apply IntegerCodec_clamp_below|subst minValue; lia|done].
    + apply (Hback maxValue);
        [by apply IntegerCodec_clamp_above; [eexists|]|subst maxValue; lia|done].
Qed.

(** An instance of C5: as [uint8], 256 is stored as 255 is and -1 as 0 is;
    the bytes are [255] and [0]. *)
Lemma IntegerCodec_set_clamps_uint8 :
  let sv := StreamView_create 1 in
  (IntegerCodec_set 1 false sv (Int 256) false = IntegerCodec_set 1 false sv (Int 255) false
   ∧ IntegerCodec_set 1 false sv (Int 256) false
     = Ok {| dataView := [255]; byteOffset := 1 |})
  ∧ (IntegerCodec_set 1 false sv (Int (-1)) false = IntegerCodec_set 1 false sv (Int 0) false
     ∧ IntegerCodec_set 1 false sv (Int (-1)) false
       = Ok {| dataView := [0]; byteOffset := 1 |}).
Proof.
  intros sv.
  pose proof (IntegerCodec_set_clamps 1 false sv (Int 256) false (ltac:(by eexists)))
    as (_ & Hmax & _).
  pose proof (IntegerCodec_set_clamps 1 false sv (Int (-1)) false (ltac:(by eexists)))
    as (Hmin & _ & _).
  split; (split; [first [apply Hmax | apply Hmin]; reflexivity | vm_compute; reflexivity]).
Defined.

(** * The float codecs: special values *)

Lemma js_shr_small x n : 0 <= x < 2 ^ 31 → 0 <= n < 32 → js_shr (Int x) n = x / 2 ^ n.
Proof.
  intros Hx Hn. unfold js_shr, ToInt32. rewrite wrap32_small by lia.
  rewrite Z.mod_small by lia. apply Z.shiftr_div_pow2. lia.
Qed.

Lemma js_and_ones x k : 0 <= x < 2 ^ 31 → 0 <= k < 31 → js_and (Int x) (Int (2 ^ k - 1)) = x mod 2 ^ k.
Proof.
  intros Hx Hk. unfold js_and, ToInt32.
  assert (0 < 2 ^ k <= 2 ^ 30) by (split; [apply Z.pow_pos_nonneg; lia|apply Z.pow_le_mono_r; lia]).
  change (2 ^ 30) with 1073741824 in *. change (2 ^ 31) with 2147483648 in *.
  rewrite !wrap32_small by (change (2 ^ 31) with 2147483648; lia).
  replace (2 ^ k - 1) with (Z.ones k) by (rewrite Z.ones_equiv; lia).
  apply Z.land_ones. lia.
Qed.

Lemma fp_fields_pattern p bytes :
  p = float32 ∨ p = float64 →
  length bytes = fp_byteLength p →
  Forall is_byte bytes →
  fp_fields p bytes 0 false
  = (pattern_sign p bytes, pattern_exponent p bytes, pattern_significand p bytes).
Proof.
  intros [-> | ->] Hlen Hb; simpl in Hlen; list_of_length bytes Hlen;
    repeat match goal with H : Forall _ (_ :: _) |- _ => apply Forall_cons in H as [? H] end;
    unfold is_byte in *; clear Hb.
  - unfold fp_fields, pattern_sign, pattern_exponent, pattern_significand, be_value.
    simpl. unfold byte_at. simpl.
    change (fp_numExponentBits float32) with 8.
    change (- (8 - 7 - 8)) with 7. change (js_shl (Int 1) 7 - 1) with (2 ^ 7 - 1).
    change 127 with (2 ^ 7 - 1).
    rewrite (js_and_ones z 7) by (change (2 ^ 31) with 2147483648; lia).
    rewrite js_and_ones by (change (2 ^ 31) with 2147483648; change (2 ^ 7) with 128; lia).
    rewrite !js_shr_small by (change (2 ^ 31) with 2147483648; change (2 ^ 7) with 128; lia).
    change (2 ^ 7) with 128. change (2 ^ (23 + 8)) with 2147483648.
    change (2 ^ 23) with 8388608. change (2 ^ 8) with 256.
    f_equal; [f_equal|]; lia.
  - unfold fp_fields, pattern_sign, pattern_exponent, pattern_significand, be_value.
    simpl. unfold byte_at. simpl.
    change (fp_numExponentBits float64) with 11.
    change (- (11 - 7 - 8)) with 4. change (js_shl (Int 1) 4 - 1) with (2 ^ 4 - 1).
    change 127 with (2 ^ 7 - 1).
    rewrite (js_and_ones z 7) by (change (2 ^ 31) with 2147483648; lia).
    rewrite js_and_ones by (change (2 ^ 31) with 2147483648; change (2 ^ 7) with 128; lia).
    rewrite !js_shr_small by (change (2 ^ 31) with 2147483648; change (2 ^ 7) with 128; lia).
    change (2 ^ 7) with 128. change (2 ^ 4) with 16.
    change (2 ^ (52 + 11)) with 9223372036854775808.
    change (2 ^ 52) with 4503599627370496. change (2 ^ 11) with 2048.
    f_equal; [f_equal|]; lia.
Qed.

Lemma fp_fields_reverse p bytes :
  p = float32 ∨ p = float64 →
  length bytes = fp_byteLength p →
  fp_fields p (reverse bytes) 0 true = fp_fields p bytes 0 false.
Proof.
  intros [-> | ->] Hlen; simpl in Hlen; list_of_length bytes Hlen; reflexivity.
Qed.

Lemma FloatPolyfill_set_reverse p v :
  p = float32 ∨ p = float64 →
  FloatPolyfill_set p (replicate (fp_byteLength p) 0) 0 v true
  = reverse (FloatPolyfill_set p (replicate (fp_byteLength p) 0) 0 v false).
Proof.
  intros Hp. unfold FloatPolyfill_set.
  destruct (fp_parts p (to_float v)) as [[s e] g].
  destruct Hp as [-> | ->];
    cbv -[js_and js_or js_shl js_shr to_float PrimFloat.div PrimFloat.mul Z.add Z.mul Z.sub];
    reflexivity.
Qed.

Lemma fp_value_nan p signed exponent significand :
  p = float32 ∨ p = float64 →
  exponent = fp_exponentMax p → significand ≠ 0 →
  fp_value p (signed, exponent, significand) = nan.
Proof.
  intros Hp -> Hs. unfold fp_value.
  assert ((fp_exponentMax p =? 0) = false) as -> by (by destruct Hp as [-> | ->]).
  rewrite Z.eqb_refl.
  by destruct (Z.eqb_spec significand 0).
Qed.

(** C2: for float32 and float64, the encoder writes NaN as sign 0, all
    exponent bits set and only the top significand bit set; +Infinity and
    -Infinity as all exponent bits set and a zero significand, sign 0 and 1;
    +0 as all bits zero and -0 as only the sign bit.  As float64, big endian,
    +Infinity is 7F F0 00 00 00 00 00 00 and -0 is 80 00 00 00 00 00 00 00.
    The decoder inverts all five in both byte orders, and reads every pattern
    with all exponent bits set and a non-zero significand as NaN, whatever
    the sign and the payload.  Little endian is the big-endian order
    reversed, for the encoder and for the decoder. *)
Theorem FloatPolyfill_special_values p :
  p = float32 ∨ p = float64 →
  let fresh := replicate (fp_byteLength p) 0 in
  let fields v :=
    let bytes := FloatPolyfill_set p fresh 0 (Float v) false in
    (pattern_sign p bytes, pattern_exponent p bytes, pattern_significand p bytes) in
  (fields nan = (0, fp_exponentMax p, 2 ^ (fp_numSignificandBits p - 1))
   ∧ fields infinity = (0, fp_exponentMax p, 0)
   ∧ fields neg_infinity = (1, fp_exponentMax p, 0)
   ∧ fields 0%float = (0, 0, 0)
   ∧ fields (-0)%float = (1, 0, 0))
  ∧ (FloatPolyfill_set float64 (replicate 8 0) 0 (Float infinity) false
       = [127; 240; 0; 0; 0; 0; 0; 0]
     ∧ FloatPolyfill_set float64 (replicate 8 0) 0 (Float (-0)%float) false
       = [128; 0; 0; 0; 0; 0; 0; 0])
  ∧ (∀ v le, v ∈ special_values →
       FloatPolyfill_get p (FloatPolyfill_set p fresh 0 (Float v) le) 0 le = v)
  ∧ (∀ (bytes : list Z) (le : bool),
       length bytes = fp_byteLength p → Forall is_byte bytes →
       pattern_exponent p bytes = fp_exponentMax p →
       pattern_significand p bytes ≠ 0 →
       FloatPolyfill_get p (if le then reverse bytes else bytes) 0 le = nan)
  ∧ (∀ v, FloatPolyfill_set p fresh 0 v true
          = reverse (FloatPolyfill_set p fresh 0 v false))
  ∧ (∀ bytes, length bytes = fp_byteLength p →
       FloatPolyfill_get p (reverse bytes) 0 true = FloatPolyfill_get p bytes 0 false).
Proof.
  intros Hp fresh fields. split_and!.
  - destruct Hp as [-> | ->]; vm_compute; reflexivity.
  - destruct Hp as [-> | ->]; vm_compute; reflexivity.
  - destruct Hp as [-> | ->]; vm_compute; reflexivity.
  - destruct Hp as [-> | ->]; vm_compute; reflexivity.
  - destruct Hp as [-> | ->]; vm_compute; reflexivity.
  - vm_compute; reflexivity.
  - vm_compute; reflexivity.
  - intros v le Hv. unfold special_values in Hv. set_unfold.
    destruct Hv as [-> | [-> | [-> | [-> | [-> | []]]]]];
      destruct Hp as [-> | ->], le; vm_compute; reflexivity.
  - intros bytes le Hlen Hb He Hs. unfold FloatPolyfill_get.
    assert (fp_fields p (if le then reverse bytes else bytes) 0 le = fp_fields p bytes 0 false) as ->.
    { destruct le; [by apply fp_fields_reverse|done]. }
    rewrite fp_fields_pattern by done. by apply fp_value_nan.
  - intros v. by apply FloatPolyfill_set_reverse.
  - intros bytes Hlen. unfold FloatPolyfill_get. by rewrite fp_fields_reverse.
Qed.

(** An instance of C2: a float64 NaN pattern with the sign bit set and a
    payload in the low bits, read little endian. *)
Lemma FloatPolyfill_special_values_witness :
  FloatPolyfill_get float64 (reverse [255; 248; 0; 0; 0; 0; 0; 1]) 0 true = nan.
Proof.
  pose proof (FloatPolyfill_special_values float64 (or_intror eq_refl))
    as (_ & _ & _ & Hnan & _).
  apply (Hnan [255; 248; 0; 0; 0; 0; 0; 1] true).
  - reflexivity.
  - repeat constructor; unfold is_byte; lia.
  - vm_compute; reflexivity.
  - vm_compute; discriminate.
Defined.

(** * The boolean array codec packs its flags *)

Lemma bits_value_range l : 0 <= bits_value l < 2 ^ Z.of_nat (length l).
Proof.
  induction l as [|b l IH]; simpl length; [simpl; lia|].
  rewrite Nat2Z.inj_succ, Z.pow_succ_r by lia.
  simpl bits_value. destruct b; simpl Z.b2z; lia.
Qed.

Lemma bits_value_snoc l b :
  bits_value (l ++ [b]) = bits_value l + Z.b2z b * 2 ^ Z.of_nat (length l).
Proof.
  induction l as [|a l IH]; simpl length.
  - simpl. lia.
  - rewrite Nat2Z.inj_succ, Z.pow_succ_r by lia.
    change ((a :: l) ++ [b]) with (a :: (l ++ [b])).
    simpl bits_value. rewrite IH. lia.
Qed.

Lemma lor_disjoint a k : 0 <= a < 2 ^ k → 0 <= k → Z.lor a (2 ^ k) = a + 2 ^ k.
Proof.
  intros Ha Hk.
  rewrite <- Z.lxor_lor, <- Z.add_nocarry_lxor; try reflexivity.
  all: apply Z.bits_inj'; intros n Hn; rewrite Z.land_spec, Z.bits_0, Z.pow2_bits_eqb by lia;
    destruct (Z.eqb_spec k n) as [<-|]; rewrite ?andb_false_r; try reflexivity;
    rewrite andb_true_r; destruct (Z.eq_dec a 0) as [->|]; [apply Z.bits_0|];
    apply Z.bits_above_log2; [lia|]; apply Z.log2_lt_pow2; lia.
Qed.

Lemma pack_step (cur : list bool) (b : bool) :
  (length cur < 8)%nat →
  js_or (Int (bits_value cur)) (Int (js_shl (Int (if b then 1 else 0)) (Z.of_nat (length cur))))
  = bits_value (cur ++ [b]).
Proof.
  intros Hlen. pose proof (bits_value_range cur) as Hr.
  assert (2 ^ Z.of_nat (length cur) <= 2 ^ 7) by (apply Z.pow_le_mono_r; lia).
  change (2 ^ 7) with 128 in *.
  rewrite bits_value_snoc. unfold js_or, js_shl, ToInt32.
  rewrite Z.mod_small by lia. rewrite (wrap32_small (bits_value cur)) by lia.
  destruct b.
  - rewrite (wrap32_small 1) by lia. rewrite Z.shiftl_1_l.
    rewrite !(wrap32_small (2 ^ _)) by lia. simpl Z.b2z. rewrite lor_disjoint by lia. lia.
  - rewrite (wrap32_small 0) by lia. rewrite Z.shiftl_0_l.
    rewrite !(wrap32_small 0) by lia. rewrite Z.lor_0_r. simpl Z.b2z. lia.
Qed.

Lemma chunks_cons N b bits :
  chunks (S N) (b :: bits) = take 8 (b :: bits) :: chunks N (drop 8 (b :: bits)).
Proof. reflexivity. Qed.

Lemma chunks_nil N : chunks N [] = [].
Proof. by destruct N. Qed.

Lemma chunks_partial N cur :
  (0 < length cur ≤ 8)%nat → (length cur ≤ N)%nat → chunks N cur = [cur].
Proof.
  intros Hc HN. destruct N as [|N]; [lia|]. destruct cur as [|b cur]; [simpl in Hc; lia|].
  rewrite chunks_cons, take_ge, drop_ge by lia. by rewrite chunks_nil.
Qed.

Lemma chunks_full N cur rest :
  length cur = 8%nat → rest ≠ [] → (length cur + length rest ≤ N)%nat →
  chunks N (cur ++ rest) = cur :: chunks (N - 1) rest.
Proof.
  intros Hc Hr HN. destruct N as [|N]; [lia|].
  destruct cur as [|b cur]; [done|].
  change ((b :: cur) ++ rest) with (b :: (cur ++ rest)).
  rewrite chunks_cons. change (b :: (cur ++ rest)) with ((b :: cur) ++ rest).
  rewrite take_app_length', drop_app_length' by done.
  by replace (S N - 1)%nat with N by lia.
Qed.

Lemma chunks_fuel N M bits :
  (length bits ≤ N)%nat → (length bits ≤ M)%nat → chunks N bits = chunks M bits.
Proof.
  revert M bits. induction N as [|N IH]; intros M bits HN HM.
  - destruct bits; [by rewrite !chunks_nil|simpl in HN; lia].
  - destruct bits as [|b bits]; [by rewrite !chunks_nil|].
    destruct M as [|M]; [simpl in HM; lia|].
    rewrite !chunks_cons. f_equal. apply IH; rewrite length_drop; simpl in *; lia.
Qed.

Lemma pack_loop_chunks values cur N le :
  (length cur ≤ 8)%nat →
  (length cur + length values ≤ N)%nat →
  finish_pack (pack_loop values (bits_value cur) (Z.of_nat (length cur)) le) le
  = map bits_value (chunks N (cur ++ map ToBoolean values)).
Proof.
  revert cur N. induction values as [|v values IH]; intros cur N Hc HN.
  - simpl. rewrite app_nil_r.
    destruct cur as [|b cur]; [by rewrite chunks_nil|].
    destruct (Z.ltb_spec 0 (Z.of_nat (length (b :: cur)))); [|simpl in *; lia].
    rewrite chunks_partial by (simpl in *; lia). simpl map.
    rewrite uint8_bytes_byte; [done|].
    pose proof (bits_value_range (b :: cur)) as Hr. unfold is_byte.
    assert (2 ^ Z.of_nat (length (b :: cur)) <= 2 ^ 8) by (apply Z.pow_le_mono_r; lia).
    change (2 ^ 8) with 256 in *. lia.
  - simpl pack_loop. simpl length in HN.
    destruct (Z.eqb_spec (Z.of_nat (length cur)) 8) as [H8|H8].
    + change 0 with (bits_value []) at 1.
      change 0 with (Z.of_nat (length (@nil bool))) at 2.
      rewrite (pack_step [] (ToBoolean v)) by (simpl; lia).
      change (Z.of_nat (length []) + 1) with (Z.of_nat (length ([] ++ [ToBoolean v]))).
      specialize (IH ([] ++ [ToBoolean v]) (N - 1)%nat).
      destruct (pack_loop values _ _ le) as [[rest byte] bit].
      simpl in IH |- *. rewrite <- app_assoc.
      assert (chunks N (cur ++ ToBoolean v :: map ToBoolean values)
              = cur :: chunks (N - 1) (ToBoolean v :: map ToBoolean values)) as ->.
      { apply chunks_full; [lia|done|simpl; rewrite length_map; lia]. }
      simpl map. rewrite <- IH by lia.
      rewrite uint8_bytes_byte.
      * by destruct (0 <? bit).
      * pose proof (bits_value_range cur) as Hr. rewrite H8 in Hr.
        change (2 ^ 8) with 256 in Hr. done.
    + rewrite pack_step by lia.
      replace (Z.of_nat (length cur) + 1) with (Z.of_nat (length (cur ++ [ToBoolean v])))
        by (rewrite length_app; simpl; lia).
      specialize (IH (cur ++ [ToBoolean v]) N).
      destruct (pack_loop values _ _ le) as [[rest byte] bit].
      simpl in IH |- *. rewrite <- app_assoc in IH. simpl in IH.
      apply IH; rewrite length_app; simpl; lia.
Qed.

Lemma pack_packed_flags values le : pack values le = packed_flags (map ToBoolean values).
Proof.
  unfold packed_flags. rewrite length_map.
  change (map ToBoolean values) with ([] ++ map ToBoolean values).
  rewrite <- (pack_loop_chunks values [] (length values) le) by (simpl; lia).
  reflexivity.
Qed.

Lemma bits_value_testbit l j :
  Z.testbit (bits_value l) (Z.of_nat j) = default false (l !! j).
Proof.
  revert j. induction l as [|b l IH]; intros j; simpl bits_value.
  - by rewrite Z.bits_0.
  - rewrite Z.add_comm. destruct j as [|j].
    + by rewrite Z.testbit_0_r.
    + rewrite Nat2Z.inj_succ, Z.testbit_succ_r by lia. apply IH.
Qed.

Lemma chunks_lookup N bits k :
  (length bits ≤ N)%nat → (8 * k < length bits)%nat →
  chunks N bits !! k = Some (take 8 (drop (8 * k) bits)).
Proof.
  revert bits k. induction N as [|N IH]; intros bits k HN Hk; [lia|].
  destruct bits as [|b bits]; [simpl in Hk; lia|].
  rewrite chunks_cons. destruct k as [|k]; [done|].
  change ((?x :: ?l) !! S k) with (l !! k).
  rewrite IH by (rewrite length_drop; simpl in *; lia).
  rewrite drop_drop. by replace (8 * S k)%nat with (8 + 8 * k)%nat by lia.
Qed.

Lemma chunks_length N bits :
  (length bits ≤ N)%nat → length (chunks N bits) = ((length bits + 7) / 8)%nat.
Proof.
  revert bits. induction N as [|N IH]; intros bits HN.
  - destruct bits; [done|simpl in HN; lia].
  - destruct bits as [|b bits]; [done|].
    rewrite chunks_cons. change (length (?x :: ?l)) with (S (length l)) in *.
    rewrite IH by (rewrite length_drop; simpl in *; lia).
    rewrite length_drop. change (length (b :: bits)) with (S (length bits)).
    pose proof (Nat.div_mod_eq (S (length bits) + 7) 8).
    pose proof (Nat.mod_upper_bound (S (length bits) + 7) 8).
    pose proof (Nat.div_mod_eq (S (length bits) - 8 + 7) 8).
    pose proof (Nat.mod_upper_bound (S (length bits) - 8 + 7) 8).
    lia.
Qed.

Lemma packed_flags_length bits :
  length (packed_flags bits) = ((length bits + 7) / 8)%nat.
Proof. unfold packed_flags. rewrite length_map. by apply chunks_length. Qed.

Lemma packed_flags_lookup bits k byte :
  packed_flags bits !! k = Some byte →
  is_byte byte
  ∧ ∀ j, (j < 8)%nat →
      Z.testbit byte (Z.of_nat j) = default false (bits !! (8 * k + j)%nat).
Proof.
  intros Hk.
  pose proof (lookup_lt_Some _ _ _ Hk) as Hlt. rewrite packed_flags_length in Hlt.
  assert (8 * k < length bits)%nat as Hk8.
  { pose proof (Nat.div_mod_eq (length bits + 7) 8).
    pose proof (Nat.mod_upper_bound (length bits + 7) 8). lia. }
  unfold packed_flags in Hk. rewrite list_lookup_fmap, chunks_lookup in Hk by lia.
  change (Some (bits_value (take 8 (drop (8 * k) bits))) = Some byte) in Hk.
  assert (byte = bits_value (take 8 (drop (8 * k) bits))) as -> by congruence.
  clear Hk. split.
  - pose proof (bits_value_range (take 8 (drop (8 * k) bits))) as Hr.
    assert (2 ^ Z.of_nat (length (take 8 (drop (8 * k) bits))) <= 2 ^ 8)
      by (apply Z.pow_le_mono_r; [lia|rewrite length_take; lia]).
    change (2 ^ 8) with 256 in *. unfold is_byte. lia.
  - intros j Hj. rewrite bits_value_testbit, lookup_take_lt, lookup_drop by done. done.
Qed.

(** C6: [BooleanArrayCodec.set] stores an empty array as the single byte 0,
    and 255 [true] values as the length bytes 255, 1 followed by 32 flag
    bytes, 31 of 0xFF and a last one 0x7F.  In general it stores the length
    bytes and then the flags eight to a byte: [(n + 7) / 8] bytes for [n]
    flags, where bit [j] (bit 0 the least significant) of byte [k] is the
    truth value of element [8 * k + j], and is clear past the end of the
    array. *)
Theorem BooleanArrayCodec_set_packed :
  (∀ le, BooleanArrayCodec_set (StreamView_create 1) (VArray []) le
         = Ok {| dataView := [0]; byteOffset := 1 |})
  ∧ (∀ le, BooleanArrayCodec_set (StreamView_create 34)
             (VArray (replicate 255 (VBoolean true))) le
           = Ok {| dataView := [255; 1] ++ replicate 31 255 ++ [127];
                   byteOffset := 34 |})
  ∧ (∀ sv l le, in_bounds sv →
       BooleanArrayCodec_set sv (VArray l) le
       = writes sv (varint (length l) le ++ packed_flags (map ToBoolean l)))
  ∧ (∀ bits, length (packed_flags bits) = ((length bits + 7) / 8)%nat)
  ∧ (∀ bits k byte, packed_flags bits !! k = Some byte →
       is_byte byte
       ∧ ∀ j, (j < 8)%nat →
           Z.testbit byte (Z.of_nat j) = default false (bits !! (8 * k + j)%nat)).
Proof.
  split_and!.
  - intros []; vm_compute; reflexivity.
  - intros []; vm_compute; reflexivity.
  - intros sv l le Hsv. rewrite BooleanArrayCodec_set_writes by done.
    simpl. by rewrite pack_packed_flags.
  - apply packed_flags_length.
  - apply packed_flags_lookup.
Qed.

(** An instance of C6: [true, false, true] is stored as the length 3 and
    the byte 5. *)
Lemma BooleanArrayCodec_set_packed_witness :
  BooleanArrayCodec_set (StreamView_create 2)
    (VArray [VBoolean true; VBoolean false; VBoolean true]) false
  = Ok {| dataView := [3; 5]; byteOffset := 2 |}.
Proof.
  pose proof BooleanArrayCodec_set_packed as (_ & _ & H & _).
  rewrite H; [reflexivity | vm_compute; lia].
Defined.

(** * The byte lengths of arrays and strings *)

Lemma ArrayCodec_getByteLength_loop_sum (g : value → result nat) l ns acc :
  Forall2 (fun v n => g v = Ok n) l ns →
  ArrayCodec_getByteLength_loop g l acc = Ok (acc + sum_list ns)%nat.
Proof.
  intros H. revert acc. induction H as [|v n l ns Hv _ IH]; intros acc; simpl.
  - by rewrite Nat.add_0_r.
  - rewrite Hv. simpl. rewrite IH. f_equal. lia.
Qed.

Lemma ArrayCodec_set_empty (set : StreamView → value → bool → result StreamView) sv values le :
  array_elements values = Ok [] →
  ArrayCodec_set set sv values le = writes sv (uint32_bytes 0 le).
Proof.
  intros H. unfold ArrayCodec_set. rewrite H. simpl.
  rewrite uint32_set_writes. by destruct (writes sv _).
Qed.

Lemma uint32_bytes_0 le : uint32_bytes 0 le = [0; 0; 0; 0].
Proof. by destruct le. Qed.

(** C4: what [ArrayCodec.getByteLength] returns.  For a non-empty array it
    is 4 plus the length times the element width when the element codec has
    a fixed width, and 4 plus the sum of the elements' own byte lengths when
    it has none.  For an absent or empty array it is 0, not 4, although
    [set] then stores the 4 bytes of a zero length: a Definition whose only
    field is such an array allocates no byte and [stringify] ends in the
    range error of the first write. *)
Theorem ArrayCodec_getByteLength_cases (utf8_encode : jsstring → result jsstring)
    (c : codec) (values : value) (l : list value) :
  array_elements values = Ok l →
  (l = [] →
     codec_getByteLength utf8_encode (ArrayCodec c) values = Ok 0%nat
     ∧ (∀ le, codec_set utf8_encode (ArrayCodec c) (StreamView_create 4) values le
              = Ok {| dataView := [0; 0; 0; 0]; byteOffset := 4 |})
     ∧ (∀ f o le, f_codec f = ArrayCodec c → prop o (f_key f) = values →
          (Definition_stringify utf8_encode (Definition_new [f] None None le) o).1
          = Throw (RangeError "Invalid data view length")))
  ∧ (l ≠ [] → ∀ w, codec_byteLength c = Some w →
       codec_getByteLength utf8_encode (ArrayCodec c) values
       = Ok (4 + length l * w)%nat)
  ∧ (l ≠ [] → codec_byteLength c = None →
       ∀ ns, Forall2 (fun v n => codec_getByteLength utf8_encode c v = Ok n) l ns →
             codec_getByteLength utf8_encode (ArrayCodec c) values
             = Ok (4 + sum_list ns)%nat).
Proof.
  intros Hl. split_and!.
  - intros ->.
    assert (codec_getByteLength utf8_encode (ArrayCodec c) values = Ok 0%nat) as Hlen.
    { simpl. unfold ArrayCodec_getByteLength. by rewrite Hl. }
    split_and!; [done| |].
    + intros le. simpl. rewrite ArrayCodec_set_empty by done.
      rewrite uint32_bytes_0. reflexivity.
    + intros f o le Hc Hp.
      unfold Definition_stringify, Definition_getByteLength, Definition_set. simpl.
      rewrite Hc, Hp. simpl codec_byteLength. cbv iota. rewrite Hlen. simpl.
      rewrite Hc, Hp. simpl codec_set.
      rewrite ArrayCodec_set_empty by done. by rewrite uint32_bytes_0.
  - intros Hne w Hw. simpl. unfold ArrayCodec_getByteLength. rewrite Hl, Hw. simpl.
    by rewrite bool_decide_eq_false_2.
  - intros Hne Hw ns Hns. simpl. unfold ArrayCodec_getByteLength. rewrite Hl, Hw. simpl.
    rewrite bool_decide_eq_false_2 by done.
    by apply (ArrayCodec_getByteLength_loop_sum _ l ns 4).
Qed.

(** An instance of C4: a [uint8] array field, empty and with two elements. *)
Lemma ArrayCodec_getByteLength_cases_witness :
  let f := {| f_key := "a"; f_type := "array"; f_valueType := Some "uint8";
              f_codec := ArrayCodec (IntegerCodec 1 false) |} in
  codec_getByteLength Ok (f_codec f) (VArray []) = Ok 0%nat
  ∧ (Definition_stringify Ok (Definition_new [f] None None None) {[ "a" := VArray [] ]}).1
    = Throw (RangeError "Invalid data view length")
  ∧ codec_getByteLength Ok (f_codec f) (VArray [VNumber (Int 7); VNumber (Int 8)])
    = Ok 6%nat.
Proof.
  intros f.
  pose proof (ArrayCodec_getByteLength_cases Ok (IntegerCodec 1 false) (VArray []) []
                eq_refl) as (Hempty & _ & _).
  destruct (Hempty eq_refl) as (Hlen & _ & Hs).
  pose proof (ArrayCodec_getByteLength_cases Ok (IntegerCodec 1 false)
                (VArray [VNumber (Int 7); VNumber (Int 8)]) _ eq_refl) as (_ & Hfixed & _).
  split_and!.
  - exact Hlen.
  - apply (Hs f); reflexivity.
  - apply (Hfixed ltac:(discriminate) 1%nat eq_refl).
Defined.

(** C7: an absent ([undefined] or [null]) or empty string is stored by
    [StringCodec.set] as the 4 bytes of a zero length and nothing more, and
    [getByteLength] is 4 for the empty string; for [undefined] and [null]
    [getByteLength] reads [value.length] and throws a [TypeError], so
    [Definition.stringify] succeeds on an empty string field and throws on an
    absent one. *)
Theorem StringCodec_absent (utf8_encode : jsstring → result jsstring) :
  (∀ v le, v ∈ [VUndefined; VNull; VString []] →
     codec_set utf8_encode StringCodec (StreamView_create 4) v le
     = Ok {| dataView := [0; 0; 0; 0]; byteOffset := 4 |})
  ∧ codec_getByteLength utf8_encode StringCodec (VString []) = Ok 4%nat
  ∧ (∀ v, v ∈ [VUndefined; VNull] →
       codec_getByteLength utf8_encode StringCodec v
       = Throw (TypeError "Cannot read property 'length' of undefined"))
  ∧ (∀ f o le, f_codec f = StringCodec →
       (prop o (f_key f) = VString [] →
          (Definition_stringify utf8_encode (Definition_new [f] None None le) o).1
          = Ok [0; 0; 0; 0])
       ∧ (prop o (f_key f) ∈ [VUndefined; VNull] →
            (Definition_stringify utf8_encode (Definition_new [f] None None le) o).1
            = Throw (TypeError "Cannot read property 'length' of undefined"))).
Proof.
  split_and!.
  - intros v le Hv. set_unfold. destruct Hv as [-> | [-> | [-> | []]]]; by destruct le.
  - reflexivity.
  - intros v Hv. set_unfold. by destruct Hv as [-> | [-> | []]].
  - intros f o le Hc. split.
    + intros Hp. unfold Definition_stringify, Definition_getByteLength, Definition_set.
      simpl. rewrite Hc. simpl. rewrite Hp. simpl. rewrite Hc, Hp.
      by destruct le as [[]|].
    + intros Hp. unfold Definition_stringify, Definition_getByteLength, Definition_set.
      simpl. rewrite Hc. simpl. set_unfold. by destruct Hp as [-> | [-> | []]].
Qed.

(** An instance of C7: a string field missing from the object. *)
Lemma StringCodec_absent_witness :
  let f := {| f_key := "name"; f_type := "string"; f_valueType := None;
              f_codec := StringCodec |} in
  (Definition_stringify Ok (Definition_new [f] None None None) ∅).1
  = Throw (TypeError "Cannot read property 'length' of undefined").
Proof.
  intros f.
  pose proof (StringCodec_absent Ok) as (_ & _ & _ & H).
  apply (H f ∅ None eq_refl).
  change (VUndefined ∈ [VUndefined; VNull]). constructor.
Defined.

(** * The cached byte length of a Definition *)



(** * The byte length of a boolean array *)

Lemma getByteLength_loop_booleanArray (utf8_encode : jsstring → result jsstring)
    fields1 f fields2 o acc fx :
  all_fixed fields1 = true → f_codec f = BooleanArrayCodec →
  getByteLength_loop utf8_encode (fields1 ++ f :: fields2) o acc fx
  = Throw (TypeError "polyfill.log2 is not a function").
Proof.
  intros Hfixed Hf. revert acc.
  induction fields1 as [|g fields1 IH]; intros acc; simpl.
  - by rewrite Hf.
  - rewrite all_fixed_cons in Hfixed. apply andb_true_iff in Hfixed as [Hg Hfixed].
    apply bool_decide_eq_true in Hg as [w Hw]. rewrite Hw. by apply IH.
Qed.

(** A Definition with a [booleanArray] field cannot be stringified: its
    [getByteLength] calls [polyfill.log2], which [polyfill.js] does not
    export, and the [TypeError] of that call is what [stringify] throws when
    every field before the boolean array has a fixed width, whatever the
    object. *)
Theorem booleanArray_stringify_throws (utf8_encode : jsstring → result jsstring)
    fields1 f fields2 o id key le :
  all_fixed fields1 = true → f_codec f = BooleanArrayCodec →
  (Definition_stringify utf8_encode
     (Definition_new (fields1 ++ f :: fields2) id key le) o).1
  = Throw (TypeError "polyfill.log2 is not a function").
Proof.
  intros Hfixed Hf. unfold Definition_stringify, Definition_getByteLength. simpl.
  by rewrite getByteLength_loop_booleanArray.
Qed.

(** An instance: a [uint8] id followed by the flags. *)
Lemma booleanArray_stringify_throws_witness :
  (d ← define [{| o_key := "id"; o_type := "uint8"; o_valueType := None |};
               {| o_key := "flags"; o_type := "booleanArray"; o_valueType := None |}];
   (Definition_stringify Ok d
      {[ "id" := VNumber (Int 1); "flags" := VArray [VBoolean true] ]}).1)
  = Throw (TypeError "polyfill.log2 is not a function").
Proof.
  change (define _) with
    (Ok (Definition_new
           ([{| f_key := "id"; f_type := "uint8"; f_valueType := None;
                f_codec := IntegerCodec 1 false |}]
            ++ {| f_key := "flags"; f_type := "booleanArray"; f_valueType := None;
                  f_codec := BooleanArrayCodec |} :: []) None None None)).
  apply (booleanArray_stringify_throws Ok); reflexivity.
Defined.

(** * Schemas: what every reachable Schema satisfies *)

Section Schemas.

Variable utf8_encode : jsstring → result jsstring.
Variable utf8_decode : jsstring → result jsstring.

Abbreviation reachable := (reachable utf8_encode).
Abbreviation Schema_stringify := (Schema_stringify utf8_encode).
Abbreviation Schema_parse := (Schema_parse utf8_decode).
Abbreviation Definition_getByteLength := (Definition_getByteLength utf8_encode).

Lemma createSchema_invariant : schema_invariant createSchema.
Proof. split; simpl; try done; intros; simplify_map_eq; done. Qed.

Lemma Schema_define_tables s key fields :
  let s' := (Schema_define s key fields).2 in
  s_nextDefinitionId s' = s_nextDefinitionId s + 1
  ∧ s_idType s' = s_idType s
  ∧ match Field_map fields with
    | Ok fs =>
        let d := Definition_new fs (Some (s_nextDefinitionId s)) (Some key) None in
        s_heap s' = s_heap s ++ [d]
        ∧ s_definitions s' = <[key := length (s_heap s)]> (s_definitions s)
        ∧ s_definitionsById s'
          = <[s_nextDefinitionId s := length (s_heap s)]> (s_definitionsById s)
    | _ =>
        s_heap s' = s_heap s ∧ s_definitions s' = s_definitions s
        ∧ s_definitionsById s' = s_definitionsById s
    end.
Proof. unfold Schema_define. by destruct (Field_map fields). Qed.

Lemma Schema_define_invariant s key fields :
  schema_invariant s → schema_invariant (Schema_define s key fields).2.
Proof.
  intros [HidType Hnext Hdefs HbyId Hheap Horder].
  pose proof (Schema_define_tables s key fields) as (Hn & Ht & Htab).
  set (s' := (Schema_define s key fields).2) in *. clearbody s'.
  destruct (Field_map fields) as [fs| |].
  - destruct Htab as (Hh & Hd & Hi).
    set (d := Definition_new fs _ _ _) in *.
    assert (∀ r d0, s_heap s' !! r = Some d0 →
              s_heap s !! r = Some d0 ∨ r = length (s_heap s) ∧ d0 = d) as Hcases.
    { intros r d0. rewrite Hh, lookup_app_Some, list_lookup_singleton_Some.
      intros [?|(? & ? & ?)]; [by left|right; split; [lia|done]]. }
    split.
    + congruence.
    + lia.
    + intros key' r. rewrite Hd, Hh, lookup_insert_Some.
      intros [[<- <-]|[_ Hr]].
      * exists d. split; [by apply list_lookup_middle|done].
      * destruct (Hdefs _ _ Hr) as (d0 & Hd0 & Hk). exists d0.
        split; [by apply lookup_app_l_Some|done].
    + intros id r. rewrite Hi, Hh, lookup_insert_Some.
      intros [[<- <-]|[_ Hr]].
      * exists d. split; [by apply list_lookup_middle|done].
      * destruct (HbyId _ _ Hr) as (d0 & Hd0 & Hk). exists d0.
        split; [by apply lookup_app_l_Some|done].
    + intros r d0 Hr. rewrite Hn, Hi.
      destruct (Hcases _ _ Hr) as [Hold|[-> ->]].
      * destruct (Hheap _ _ Hold) as (Hle & (id & Hid & Hrange & Hlook) & Hcache).
        split_and!; [done| |done].
        exists id. split_and!; [done|lia|lia|].
        rewrite lookup_insert_ne by lia. done.
      * split_and!; [done| |done].
        exists (s_nextDefinitionId s). split_and!; [done|lia|lia|].
        by rewrite lookup_insert_eq.
    + intros r1 r2 d1 d2 id1 id2 H1 H2 Hid1 Hid2 Hlt.
      destruct (Hcases _ _ H1) as [Hold1|[-> ->]], (Hcases _ _ H2) as [Hold2|[-> ->]].
      * eauto.
      * destruct (Hheap _ _ Hold1) as (_ & (id & Hid & Hrange & _) & _).
        simpl in Hid2. simplify_eq. lia.
      * apply lookup_lt_Some in Hold2. lia.
      * lia.
  - destruct Htab as (Hh & Hd & Hi). split; rewrite ?Hn, ?Ht, ?Hh, ?Hd, ?Hi; try done.
    + lia.
    + intros r d Hr. destruct (Hheap _ _ Hr) as (Hle & (id & Hid & Hrange & Hlook) & Hcache).
      split_and!; [done| |done]. exists id. split_and!; [done|lia|lia|done].
  - destruct Htab as (Hh & Hd & Hi). split; rewrite ?Hn, ?Ht, ?Hh, ?Hd, ?Hi; try done.
    + lia.
    + intros r d Hr. destruct (Hheap _ _ Hr) as (Hle & (id & Hid & Hrange & Hlook) & Hcache).
      split_and!; [done| |done]. exists id. split_and!; [done|lia|lia|done].
Qed.

(** [getByteLength] changes nothing of a Definition but its cache, and what
    it caches is the sum of the fixed widths. *)
Lemma Definition_getByteLength_cache d o :
  let d' := (Definition_getByteLength d o).2 in
  d_fields d' = d_fields d ∧ d_id d' = d_id d ∧ d_key d' = d_key d
  ∧ d_littleEndian d' = d_littleEndian d
  ∧ ∀ n, d_byteLength d' = Some n →
         d_byteLength d = Some n
         ∨ all_fixed (d_fields d) = true ∧ n = fixed_byteLength (d_fields d).
Proof.
  unfold Definition_getByteLength.
  destruct (d_byteLength d) as [n|] eqn:Hc; simpl.
  { split_and!; try done. intros n' Hn'. left. congruence. }
  destruct (getByteLength_loop utf8_encode (d_fields d) o 0 true) as [[n fx]| |] eqn:E;
    simpl; [|split_and!; try done; intros n'; rewrite Hc; done..].
  pose proof (getByteLength_loop_flag _ _ _ _ _ _ _ E) as ->. simpl.
  destruct (all_fixed (d_fields d)) eqn:Hfixed; simpl.
  - rewrite (getByteLength_loop_fixed utf8_encode) in E by done.
    split_and!; try done. intros n' [= <-]. right. split; [done|]. by simplify_eq.
  - split_and!; try done. intros n'; rewrite Hc; done.
Qed.

Lemma Schema_stringify_tables s key o :
  let s' := (Schema_stringify s key o).2 in
  s_definitions s' = s_definitions s
  ∧ s_definitionsById s' = s_definitionsById s
  ∧ s_nextDefinitionId s' = s_nextDefinitionId s
  ∧ s_idType s' = s_idType s
  ∧ length (s_heap s') = length (s_heap s)
  ∧ ∀ r d', s_heap s' !! r = Some d' →
      ∃ d, s_heap s !! r = Some d
        ∧ (d' = d ∨ ∃ o', d' = (Definition_getByteLength d o').2).
Proof.
  unfold Schema_stringify.
  destruct (s_definitions s !! key) as [r|] eqn:Hkey; simpl;
    [|case_bool_decide; simpl; split_and!; try done; intros; eauto].
  destruct (s_heap s !! r) as [d|] eqn:Hr; simpl;
    [|case_bool_decide; simpl; split_and!; try done; intros; eauto].
  destruct (_codecs (s_idType s)) as [idCodec|]; simpl;
    [|split_and!; try done; intros; eauto].
  destruct (Definition_getByteLength d o) as [n d'] eqn:E. simpl.
  split_and!; try done.
  - by rewrite length_insert.
  - intros r' d''. rewrite list_lookup_insert_Some.
    intros [(<- & <- & _)|[_ Hr']]; [|eauto].
    exists d. split; [done|]. right. exists o. by rewrite E.
Qed.

Lemma Schema_stringify_invariant s key o :
  schema_invariant s → schema_invariant (Schema_stringify s key o).2.
Proof.
  intros [HidType Hnext Hdefs HbyId Hheap Horder].
  pose proof (Schema_stringify_tables s key o) as (Hd & Hi & Hn & Ht & Hlen & Hh).
  set (s' := (Schema_stringify s key o).2) in *. clearbody s'.
  assert (∀ r d', s_heap s' !! r = Some d' →
            ∃ d, s_heap s !! r = Some d
              ∧ d_fields d' = d_fields d ∧ d_id d' = d_id d ∧ d_key d' = d_key d
              ∧ d_littleEndian d' = d_littleEndian d
              ∧ ∀ n, d_byteLength d' = Some n →
                  d_byteLength d = Some n
                  ∨ all_fixed (d_fields d) = true ∧ n = fixed_byteLength (d_fields d))
    as Hsame.
  { intros r d' Hr. destruct (Hh _ _ Hr) as (d & Hd0 & [->|[o' ->]]).
    - exists d. split_and!; try done. intros; by left.
    - exists d. split; [done|]. apply Definition_getByteLength_cache. }
  assert (∀ r d, s_heap s !! r = Some d → ∃ d', s_heap s' !! r = Some d') as Hback.
  { intros r d Hr. apply lookup_lt_is_Some. rewrite Hlen. by eapply lookup_lt_Some. }
  split; rewrite ?Hd, ?Hi, ?Hn, ?Ht; try done.
  - intros key' r Hr. destruct (Hdefs _ _ Hr) as (d & Hd0 & Hk).
    destruct (Hback _ _ Hd0) as (d' & Hd').
    destruct (Hsame _ _ Hd') as (d0 & Hd0' & _ & _ & Hk' & _).
    exists d'. split; [done|]. congruence.
  - intros id r Hr. destruct (HbyId _ _ Hr) as (d & Hd0 & Hk).
    destruct (Hback _ _ Hd0) as (d' & Hd').
    destruct (Hsame _ _ Hd') as (d0 & Hd0' & _ & Hid' & _).
    exists d'. split; [done|]. congruence.
  - intros r d' Hr.
    destruct (Hsame _ _ Hr) as (d & Hd0 & Hf & Hid & Hk & Hle & Hc).
    destruct (Hheap _ _ Hd0) as (Hle0 & (id & Hid0 & Hrange & Hlook) & Hcache).
    split_and!.
    + congruence.
    + exists id. split_and!; [congruence|lia|lia|done].
    + intros n Hn'. rewrite Hf. destruct (Hc _ Hn') as [Hold|?]; [by apply Hcache|done].
  - intros r1 r2 d1 d2 id1 id2 H1 H2 Hid1 Hid2 Hlt.
    destruct (Hsame _ _ H1) as (d1' & Hd1 & _ & Hid1' & _).
    destruct (Hsame _ _ H2) as (d2' & Hd2 & _ & Hid2' & _).
    apply (Horder r1 r2 d1' d2'); congruence.
Qed.

Lemma reachable_invariant s : reachable s → schema_invariant s.
Proof.
  induction 1.
  - apply createSchema_invariant.
  - by apply Schema_define_invariant.
  - by apply Schema_stringify_invariant.
Qed.

End Schemas.

(** * Schemas: the wire format of stringify and parse *)

Lemma uint8_bytes_clamp c le : uint8_bytes c le = [Z.max 0 (Z.min c 255)].
Proof.
  assert (is_Some (integer_accessor 1 false)) as Ha by (by eexists).
  destruct (Z.ltb_spec c 0) as [Hlo|Hlo].
  - unfold uint8_bytes. rewrite IntegerCodec_clamp_below by (unfold number_ltb; simpl; lia).
    replace (Z.max 0 (Z.min c 255)) with 0 by lia. by destruct le.
  - destruct (Z.ltb_spec 255 c) as [Hhi|Hhi].
    + unfold uint8_bytes. rewrite IntegerCodec_clamp_above
        by (done || (unfold number_gtb, number_ltb;
                     change (IntegerCodec_maxValue 1 false) with 255; lia)).
      replace (Z.max 0 (Z.min c 255)) with 255 by lia. by destruct le.
    + replace (Z.max 0 (Z.min c 255)) with c by lia.
      apply uint8_bytes_byte. unfold is_byte. lia.
Qed.

Lemma concat_uint8_bytes_clamp u le :
  concat (map (fun c => uint8_bytes c le) u) = map (fun c => Z.max 0 (Z.min c 255)) u.
Proof. induction u as [|c u IH]; simpl; [done|]. by rewrite uint8_bytes_clamp, IH. Qed.

Lemma uint8_get_first b rest :
  is_byte b →
  uint8_get {| dataView := b :: rest; byteOffset := 0 |} false
  = Ok (Int b, {| dataView := b :: rest; byteOffset := 1 |}).
Proof.
  intros Hb. pose proof (uint8_get_reads [] b rest false Hb) as H.
  by rewrite uint8_bytes_byte in H.
Qed.

Section SchemaWire.

Variable utf8_encode : jsstring → result jsstring.
Variable utf8_decode : jsstring → result jsstring.

Abbreviation reachable := (reachable utf8_encode).
Abbreviation Schema_stringify := (Schema_stringify utf8_encode).
Abbreviation Schema_parse := (Schema_parse utf8_decode).
Abbreviation Definition_getByteLength := (Definition_getByteLength utf8_encode).
Abbreviation Definition_set_loop := (Definition_set_loop utf8_encode).
Abbreviation Definition_get_loop := (Definition_get_loop utf8_decode).
Abbreviation encode_fields := (encode_fields utf8_encode).
Abbreviation representable_object := (representable_object utf8_encode utf8_decode).

(** [parse] on a Schema whose ids are [uint8]: the first code unit, clamped
    to a byte, is the id. *)
Lemma Schema_parse_uint8 s string :
  s_idType s = "uint8" →
  Schema_parse s string
  = match map (fun c => Z.max 0 (Z.min c 255)) string with
    | [] => Throw (RangeError "Invalid data view length")
    | id :: rest =>
        match deref s (s_definitionsById s !! id) with
        | None => Throw (IdNotDefined id)
        | Some definition =>
            '(data, _) ← Definition_get_loop (d_fields definition)
                           {| dataView := id :: rest; byteOffset := 1 |} ∅
                           (littleEndian_flag definition);
            Ok {| p_key := d_key definition; p_data := data |}
        end
    end.
Proof.
  intros Ht. unfold Schema_parse.
  rewrite StreamView_createFromString_spec, concat_uint8_bytes_clamp, Ht. simpl.
  destruct string as [|c string]; [reflexivity|]. simpl map.
  set (id := Z.max 0 (Z.min c 255)).
  change (IntegerCodec_get 1 false) with uint8_get.
  rewrite uint8_get_first by (unfold is_byte; lia). simpl.
  by destruct (deref s (s_definitionsById s !! id)).
Qed.

(** [stringify] of a key that is not registered. *)
Lemma Schema_stringify_unregistered s key o :
  s_idType s = "uint8" →
  s_definitions s !! key = None →
  Schema_stringify s key o
  = (if bool_decide (key ∈ Object_prototype)
     then Throw (TypeError "definition.getByteLength is not a function")
     else Throw (KeyNotDefined key), s).
Proof.
  intros Ht Hk. unfold Schema_stringify. rewrite Hk, Ht. simpl.
  by case_bool_decide.
Qed.

(** The byte length [getByteLength] announces for an object that the fields
    encode, when [set] then finds room for it. *)
Lemma Definition_getByteLength_exact d o n es :
  (∀ m, d_byteLength d = Some m →
        all_fixed (d_fields d) = true ∧ m = fixed_byteLength (d_fields d)) →
  (Definition_getByteLength d o).1 = Ok n →
  encode_fields (d_fields d) o false = Ok es →
  (n ≤ length es)%nat.
Proof.
  intros Hcache Hn Hes. unfold Definition_getByteLength in Hn.
  destruct (d_byteLength d) as [m|] eqn:Hc; simpl in Hn.
  - destruct (Hcache m eq_refl) as [Hf ->]. injection Hn as <-.
    assert (length es = fixed_byteLength (d_fields d)) as ->
      by (by eapply encode_fields_fixed_length).
    done.
  - destruct (getByteLength_loop utf8_encode (d_fields d) o 0 true) as [[n' fx]| |] eqn:E;
      simpl in Hn; [|done|done].
    injection Hn as ->.
    change (n ≤ 0 + length es)%nat. by eapply getByteLength_loop_le.
Qed.

Lemma codec_set_uint8 sv id :
  codec_set utf8_encode (IntegerCodec 1 false) sv (VNumber (Int id)) false
  = writes sv (uint8_bytes id false).
Proof. simpl. apply uint8_set_writes. Qed.

(** [stringify] of a registered key, on a reachable Schema. *)
Lemma Schema_stringify_registered s key o r d id :
  schema_invariant s →
  s_definitions s !! key = Some r → s_heap s !! r = Some d → d_id d = Some id →
  (Schema_stringify s key o).1
  = (n ← (Definition_getByteLength d o).1;
     sv ← writes (StreamView_create (1 + n)) (uint8_bytes id false);
     sv ← Definition_set_loop (d_fields d) sv o false;
     Ok (StreamView_toString sv)).
Proof.
  intros Hinv Hk Hr Hid. unfold Schema_stringify, deref. rewrite Hk.
  change (Some r ≫= (s_heap s !!.)) with (s_heap s !! r). rewrite Hr.
  rewrite (inv_idType _ Hinv).
  change (_codecs "uint8") with (Some (IntegerCodec 1 false)). cbv iota beta.
  pose proof (Definition_getByteLength_cache utf8_encode d o) as (Hf & Hi & _ & Hle & _).
  destruct (Definition_getByteLength d o) as [n d'] eqn:E.
  unfold fst, snd in *. simpl codec_byteLength. rewrite Hi, Hid.
  destruct n as [n| |]; [|done|done].
  unfold mbind, result_bind. rewrite codec_set_uint8.
  unfold Definition_set, littleEndian_flag. rewrite Hle, Hf.
  destruct (inv_heap _ Hinv _ _ Hr) as (-> & _). done.
Qed.

Lemma Schema_stringify_wire s key o r d id str :
  schema_invariant s →
  s_definitions s !! key = Some r → s_heap s !! r = Some d → d_id d = Some id →
  (Schema_stringify s key o).1 = Ok str →
  ∃ es, encode_fields (d_fields d) o false = Ok es
    ∧ str = Z.max 0 (Z.min id 255) :: es.
Proof.
  intros Hinv Hk Hr Hid. rewrite (Schema_stringify_registered s key o r d id) by done.
  rewrite uint8_bytes_clamp. set (b := Z.max 0 (Z.min id 255)).
  destruct (Definition_getByteLength d o).1 as [n| |] eqn:Hn; simpl; [|done|done].
  change (splice (0 :: replicate n 0) 0 [b]) with (b :: replicate n 0).
  set (sv := {| dataView := _; byteOffset := _ |}).
  assert (in_bounds sv) as Hsv by (unfold in_bounds; simpl; lia).
  pose proof (Definition_set_loop_writes utf8_encode (d_fields d) sv o false Hsv) as Hset.
  destruct (encode_fields (d_fields d) o false) as [es| |] eqn:Hes.
  - rewrite Hset. intros Hstr. exists es. split; [done|].
    destruct (inv_heap _ Hinv _ _ Hr) as (_ & _ & Hcache).
    pose proof (Definition_getByteLength_exact d o n es Hcache Hn Hes) as Hle.
    destruct (writes sv es) as [sv'| |] eqn:Hw; simpl in Hstr; [|done|done].
    injection Hstr as <-.
    apply writes_Ok in Hw as (Hfit & Hd & _).
    subst sv. simpl in *. rewrite length_replicate in Hfit.
    assert (n = length es) as -> by lia.
    assert (dataView sv' = b :: es) as Hdv.
    { rewrite Hd. unfold splice. simpl.
      rewrite drop_ge by (rewrite length_replicate; lia). by rewrite app_nil_r. }
    rewrite StreamView_toString_bytes; [done|]. rewrite Hdv.
    apply Forall_cons. split; [unfold is_byte; lia|].
    by eapply encode_fields_is_byte.
  - destruct (Definition_set_loop _ _ _ _); simpl in *; done.
  - destruct (Definition_set_loop _ _ _ _); simpl in *; done.
Qed.


Lemma Schema_stringify_representable s key o r d id :
  schema_invariant s →
  s_definitions s !! key = Some r → s_heap s !! r = Some d → d_id d = Some id →
  representable_object (d_fields d) o false →
  ∃ es, encode_fields (d_fields d) o false = Ok es
    ∧ (Schema_stringify s key o).1 = Ok (Z.max 0 (Z.min id 255) :: es).
Proof.
  intros Hinv Hk Hr Hid [_ Hrep].
  destruct (getByteLength_loop_representable utf8_encode utf8_decode
              (d_fields d) o false 0 true Hrep) as (es & Hes & Hloop).
  exists es. split; [done|].
  assert ((Definition_getByteLength d o).1 = Ok (length es)) as Hn.
  { unfold Definition_getByteLength.
    destruct (d_byteLength d) as [m|] eqn:Hc; simpl.
    - destruct (inv_heap _ Hinv _ _ Hr) as (_ & _ & Hcache).
      destruct (Hcache m Hc) as [Hf ->]. f_equal. symmetry.
      by eapply encode_fields_fixed_length.
    - by rewrite Hloop. }
  rewrite (Schema_stringify_registered s key o r d id) by done.
  rewrite Hn, uint8_bytes_clamp. set (b := Z.max 0 (Z.min id 255)). simpl.
  change (splice (0 :: replicate (length es) 0) 0 [b]) with (b :: replicate (length es) 0).
  set (sv := {| dataView := _; byteOffset := _ |}).
  assert (in_bounds sv) as Hsv by (unfold in_bounds; simpl; lia).
  pose proof (Definition_set_loop_writes utf8_encode (d_fields d) sv o false Hsv) as Hset.
  rewrite Hes in Hset. rewrite Hset.
  rewrite writes_fits by (simpl; rewrite length_replicate; lia). simpl.
  rewrite StreamView_toString_bytes; simpl; unfold splice; simpl;
    rewrite drop_ge, app_nil_r by (rewrite length_replicate; lia); [done|].
  apply Forall_cons. split; [unfold is_byte; lia|].
  by eapply encode_fields_is_byte.
Qed.

Lemma Schema_parse_encoded s r d id key o es :
  s_idType s = "uint8" →
  s_definitionsById s !! id = Some r → s_heap s !! r = Some d →
  d_key d = Some key → d_littleEndian d = None →
  0 <= id <= 255 →
  representable_object (d_fields d) o false →
  encode_fields (d_fields d) o false = Ok es →
  Schema_parse s (id :: es) = Ok {| p_key := Some key; p_data := o |}.
Proof.
  intros Ht Hi Hr Hk Hle Hid Hrep Hes.
  rewrite Schema_parse_uint8 by done.
  assert (map (fun c => Z.max 0 (Z.min c 255)) (id :: es) = id :: es) as ->.
  { rewrite <- (concat_uint8_bytes_clamp _ false). apply concat_uint8_bytes.
    apply Forall_cons. split; [unfold is_byte; lia|]. by eapply encode_fields_is_byte. }
  rewrite Hi. unfold deref. change (Some r ≫= (s_heap s !!.)) with (s_heap s !! r).
  rewrite Hr. unfold littleEndian_flag. rewrite Hle, Hk. simpl.
  destruct (Definition_get_loop_reads utf8_encode utf8_decode (d_fields d) o false
              (proj2 Hrep)) as (es' & Hes' & Hget).
  rewrite Hes in Hes'. injection Hes' as <-.
  specialize (Hget [id] [] ∅). rewrite app_nil_r in Hget. simpl in Hget.
  rewrite Hget. simpl.
  by rewrite (merge_fields_representable utf8_encode utf8_decode _ _ _ Hrep).
Qed.

Lemma Schema_roundtrip s key o r :
  schema_invariant s →
  s_definitions s !! key = Some r →
  ∃ d id, s_heap s !! r = Some d ∧ d_id d = Some id ∧ d_key d = Some key
    ∧ 1 <= id < s_nextDefinitionId s
    ∧ (id <= 255 → representable_object (d_fields d) o false →
       ∃ str, (Schema_stringify s key o).1 = Ok str
         ∧ Schema_parse (Schema_stringify s key o).2 str
           = Ok {| p_key := Some key; p_data := o |}
         ∧ Schema_parse s str = Ok {| p_key := Some key; p_data := o |}).
Proof.
  intros Hinv Hk.
  destruct (inv_definitions _ Hinv _ _ Hk) as (d & Hr & Hkey).
  destruct (inv_heap _ Hinv _ _ Hr) as (Hle & (id & Hid & Hrange & Hlook) & Hcache).
  exists d, id. split_and!; try done; try lia.
  intros Hmax Hrep.
  destruct (Schema_stringify_representable s key o r d id Hinv Hk Hr Hid Hrep)
    as (es & Hes & Hstr).
  replace (Z.max 0 (Z.min id 255)) with id in Hstr by lia.
  exists (id :: es). split_and!; [done| |].
  - pose proof (Schema_stringify_invariant utf8_encode s key o Hinv) as Hinv'.
    pose proof (Schema_stringify_tables utf8_encode s key o)
      as (Hd' & Hi' & Hn' & Ht' & Hlen' & Hh').
    set (s' := (Schema_stringify s key o).2) in *. clearbody s'.
    assert (is_Some (s_heap s' !! r)) as [d' Hr'].
    { apply lookup_lt_is_Some. rewrite Hlen'. by eapply lookup_lt_Some. }
    destruct (Hh' _ _ Hr') as (d0 & Hd0 & Hrel).
    assert (d0 = d) as -> by congruence.
    assert (d_fields d' = d_fields d ∧ d_key d' = d_key d) as [Hf' Hk'].
    { destruct Hrel as [->|[o' ->]]; [done|].
      pose proof (Definition_getByteLength_cache utf8_encode d o') as (? & ? & ? & _).
      done. }
    destruct (inv_heap _ Hinv' _ _ Hr') as (Hle' & _).
    apply (Schema_parse_encoded s' r d'); rewrite ?Hf', ?Hk', ?Hi', ?Ht'; try done.
    + apply (inv_idType _ Hinv).
    + lia.
  - apply (Schema_parse_encoded s r d); try done.
    + apply (inv_idType _ Hinv).
    + lia.
Qed.

End SchemaWire.

(** * The errors the codecs raise *)

Lemma raises_other_bind {A B} (r : result A) (f : A → result B) :
  raises_other r → (∀ a, raises_other (f a)) → raises_other (r ≫= f).
Proof. intros Hr Hf. destruct r as [a| |]; simpl; [apply Hf|done|done]. Qed.

Lemma DataView_get_other a bytes off le : raises_other (DataView_get a bytes off le).
Proof.
  unfold DataView_get, _validateRange.
  apply raises_other_bind; [by destruct (_ <? _)%nat|done].
Qed.

Lemma DataView_set_other a bytes off v le : raises_other (DataView_set a bytes off v le).
Proof.
  unfold DataView_set, _validateRange.
  apply raises_other_bind; [by destruct (_ <? _)%nat|done].
Qed.

Lemma Codec_get_other bl a sv le : raises_other (Codec_get bl a sv le).
Proof. unfold Codec_get. apply raises_other_bind; [apply DataView_get_other|done]. Qed.

Lemma Codec_set_other bl a sv v le : raises_other (Codec_set bl a sv v le).
Proof. unfold Codec_set. apply raises_other_bind; [apply DataView_set_other|done]. Qed.

Lemma IntegerCodec_get_other bl signed sv le :
  raises_other (IntegerCodec_get bl signed sv le).
Proof.
  unfold IntegerCodec_get. destruct (integer_accessor bl signed); [|done].
  apply Codec_get_other.
Qed.

Lemma IntegerCodec_set_other bl signed sv v le :
  raises_other (IntegerCodec_set bl signed sv v le).
Proof.
  unfold IntegerCodec_set. destruct (integer_accessor bl signed); [|done].
  apply Codec_set_other.
Qed.

Lemma FloatCodec_get_other bl sv le : raises_other (FloatCodec_get bl sv le).
Proof.
  unfold FloatCodec_get. destruct (float_accessor bl); [|done]. apply Codec_get_other.
Qed.

Lemma FloatCodec_set_other bl sv v le : raises_other (FloatCodec_set bl sv v le).
Proof.
  unfold FloatCodec_set. destruct (float_accessor bl); [|done]. apply Codec_set_other.
Qed.

Lemma BooleanCodec_get_other sv le : raises_other (BooleanCodec_get sv le).
Proof.
  unfold BooleanCodec_get. apply raises_other_bind; [apply Codec_get_other|].
  by intros [v sv'].
Qed.

Lemma _setLength_loop_other fuel : ∀ sv n le, raises_other (_setLength_loop fuel sv n le).
Proof.
  induction fuel as [|fuel IH]; intros sv n le; cbn [_setLength_loop]; [done|].
  destruct (number_gtb n (Int 0)); [|done].
  apply raises_other_bind; [apply IntegerCodec_set_other|]. intros sv'. apply IH.
Qed.

Lemma BooleanArrayCodec_set_loop_other l : ∀ sv byte bit le,
  raises_other (BooleanArrayCodec_set_loop l sv byte bit le).
Proof.
  induction l as [|v l IH]; intros sv byte bit le; cbn [BooleanArrayCodec_set_loop];
    [done|].
  apply raises_other_bind.
  - destruct (bit =? 8); [|done].
    apply raises_other_bind; [apply IntegerCodec_set_other|done].
  - intros [[sv' byte'] bit']. apply IH.
Qed.

Lemma BooleanArrayCodec_set_other sv v le : raises_other (BooleanArrayCodec_set sv v le).
Proof.
  unfold BooleanArrayCodec_set, BooleanArrayCodec__setLength, array_elements.
  apply raises_other_bind; [by destruct v as [| | | |[|]|]|]. intros l.
  apply raises_other_bind.
  { destruct (_ =? _)%nat; [apply IntegerCodec_set_other|apply _setLength_loop_other]. }
  intros sv1. apply raises_other_bind; [apply BooleanArrayCodec_set_loop_other|].
  intros [[sv2 byte] bit]. destruct (0 <? bit); [apply IntegerCodec_set_other|done].
Qed.

Lemma _getLength_loop_other fuel : ∀ sv n i byte le,
  raises_other (_getLength_loop fuel sv n i byte le).
Proof.
  induction fuel as [|fuel IH]; intros sv n i byte le; cbn [_getLength_loop]; [done|].
  destruct (negb _); [|done].
  apply raises_other_bind; [apply IntegerCodec_get_other|]. intros [b sv']. apply IH.
Qed.

Lemma BooleanArrayCodec_get_loop_other n : ∀ sv remaining le,
  raises_other (BooleanArrayCodec_get_loop n sv remaining le).
Proof.
  induction n as [|n IH]; intros sv remaining le; cbn [BooleanArrayCodec_get_loop];
    [done|].
  apply raises_other_bind; [apply IntegerCodec_get_other|]. intros [b sv'].
  apply raises_other_bind; [apply IH|]. by intros [values sv''].
Qed.

Lemma BooleanArrayCodec_get_other sv le : raises_other (BooleanArrayCodec_get sv le).
Proof.
  unfold BooleanArrayCodec_get, BooleanArrayCodec__getLength.
  apply raises_other_bind; [apply _getLength_loop_other|]. intros [n sv'].
  apply raises_other_bind; [apply BooleanArrayCodec_get_loop_other|]. by intros [values sv''].
Qed.

Lemma ArrayCodec_get_loop_other (get : StreamView → bool → result (value * StreamView)) n :
  (∀ sv le, raises_other (get sv le)) →
  ∀ sv le, raises_other (ArrayCodec_get_loop get n sv le).
Proof.
  intros Hget. induction n as [|n IH]; intros sv le; cbn [ArrayCodec_get_loop]; [done|].
  apply raises_other_bind; [apply Hget|]. intros [v sv'].
  apply raises_other_bind; [apply IH|]. by intros [values sv''].
Qed.

Lemma ArrayCodec_get_other (get : StreamView → bool → result (value * StreamView)) sv le :
  (∀ sv le, raises_other (get sv le)) → raises_other (ArrayCodec_get get sv le).
Proof.
  intros Hget. unfold ArrayCodec_get.
  apply raises_other_bind; [apply IntegerCodec_get_other|]. intros [[n|f] sv']; [|done].
  destruct (0 <? n); [|done].
  apply raises_other_bind; [by apply ArrayCodec_get_loop_other|]. by intros [values sv''].
Qed.

Lemma ArrayCodec_set_loop_other (set : StreamView → value → bool → result StreamView) l :
  (∀ sv v le, raises_other (set sv v le)) →
  ∀ sv le, raises_other (ArrayCodec_set_loop set l sv le).
Proof.
  intros Hset. induction l as [|v l IH]; intros sv le; cbn [ArrayCodec_set_loop]; [done|].
  apply raises_other_bind; [apply Hset|]. intros sv'. apply IH.
Qed.

Lemma ArrayCodec_set_other (set : StreamView → value → bool → result StreamView) sv v le :
  (∀ sv v le, raises_other (set sv v le)) → raises_other (ArrayCodec_set set sv v le).
Proof.
  intros Hset. unfold ArrayCodec_set, array_elements.
  apply raises_other_bind; [by destruct v as [| | | |[|]|]|]. intros l.
  apply raises_other_bind; [apply IntegerCodec_set_other|]. intros sv'.
  destruct (0 <? length l)%nat; [by apply ArrayCodec_set_loop_other|done].
Qed.

Lemma ArrayCodec_getByteLength_loop_other (g : value → result nat) l :
  (∀ v, raises_other (g v)) →
  ∀ acc, raises_other (ArrayCodec_getByteLength_loop g l acc).
Proof.
  intros Hg. induction l as [|v l IH]; intros acc; cbn [ArrayCodec_getByteLength_loop];
    [done|].
  apply raises_other_bind; [apply Hg|]. intros n. apply IH.
Qed.

Lemma ArrayCodec_getByteLength_other w (g : value → result nat) v :
  (∀ v, raises_other (g v)) → raises_other (ArrayCodec_getByteLength w g v).
Proof.
  intros Hg. unfold ArrayCodec_getByteLength, array_elements.
  apply raises_other_bind; [by destruct v as [| | | |[|]|]|]. intros l.
  case_bool_decide; [done|]. destruct w; [done|].
  by apply ArrayCodec_getByteLength_loop_other.
Qed.

Lemma StringCodec_get_loop_other n : ∀ sv s le,
  raises_other (StringCodec_get_loop n sv s le).
Proof.
  induction n as [|n IH]; intros sv s le; cbn [StringCodec_get_loop]; [done|].
  apply raises_other_bind; [apply IntegerCodec_get_other|]. intros [[c|f] sv']; [|done].
  apply IH.
Qed.

Lemma StringCodec_set_loop_other u : ∀ sv le, raises_other (StringCodec_set_loop u sv le).
Proof.
  induction u as [|c u IH]; intros sv le; cbn [StringCodec_set_loop]; [done|].
  apply raises_other_bind; [apply IntegerCodec_set_other|]. intros sv'. apply IH.
Qed.

Section OtherErrors.

Variable utf8_encode : jsstring → result jsstring.
Variable utf8_decode : jsstring → result jsstring.

(** [utf8] is a package of its own: it raises its own errors, not the
    Schema's. *)
Hypothesis utf8_encode_other : ∀ s, raises_other (utf8_encode s).
Hypothesis utf8_decode_other : ∀ s, raises_other (utf8_decode s).

Lemma StringCodec_get_other sv le : raises_other (StringCodec_get utf8_decode sv le).
Proof.
  unfold StringCodec_get.
  apply raises_other_bind; [apply IntegerCodec_get_other|]. intros [[n|f] sv']; [|done].
  destruct (0 <? n); [|done].
  apply raises_other_bind; [apply StringCodec_get_loop_other|]. intros [s sv''].
  apply raises_other_bind; [apply utf8_decode_other|done].
Qed.

Lemma StringCodec_set_other sv v le : raises_other (StringCodec_set utf8_encode sv v le).
Proof.
  unfold StringCodec_set. destruct (ToBoolean v); [|apply IntegerCodec_set_other].
  destruct v; try done.
  apply raises_other_bind; [apply utf8_encode_other|]. intros u.
  apply raises_other_bind; [apply IntegerCodec_set_other|]. intros sv'.
  apply StringCodec_set_loop_other.
Qed.

Lemma StringCodec_getByteLength_other v :
  raises_other (StringCodec_getByteLength utf8_encode v).
Proof.
  unfold StringCodec_getByteLength. destruct v; try done.
  destruct (ToBoolean _); [|done].
  apply raises_other_bind; [apply utf8_encode_other|done].
Qed.

Lemma codec_get_other c : ∀ sv le, raises_other (codec_get utf8_decode c sv le).
Proof.
  induction c as [| |bl|bl signed|c IH|]; intros sv le; cbn [codec_get].
  - apply raises_other_bind; [apply BooleanCodec_get_other|]. by intros [b sv'].
  - apply BooleanArrayCodec_get_other.
  - apply raises_other_bind; [apply FloatCodec_get_other|]. by intros [n sv'].
  - apply raises_other_bind; [apply IntegerCodec_get_other|]. by intros [n sv'].
  - by apply ArrayCodec_get_other.
  - apply StringCodec_get_other.
Qed.

Lemma codec_set_other c : ∀ sv v le, raises_other (codec_set utf8_encode c sv v le).
Proof.
  induction c as [| |bl|bl signed|c IH|]; intros sv v le; cbn [codec_set].
  - apply Codec_set_other.
  - apply BooleanArrayCodec_set_other.
  - apply raises_other_bind; [by destruct v|]. intros n. apply FloatCodec_set_other.
  - apply raises_other_bind; [by destruct v|]. intros n. apply IntegerCodec_set_other.
  - by apply ArrayCodec_set_other.
  - apply StringCodec_set_other.
Qed.

Lemma codec_getByteLength_other c : ∀ v,
  raises_other (codec_getByteLength utf8_encode c v).
Proof.
  induction c as [| |bl|bl signed|c IH|]; intros v; cbn [codec_getByteLength]; try done.
  - by apply ArrayCodec_getByteLength_other.
  - apply StringCodec_getByteLength_other.
Qed.

Lemma Definition_get_loop_other fields : ∀ sv values le,
  raises_other (Definition_get_loop utf8_decode fields sv values le).
Proof.
  induction fields as [|f fields IH]; intros sv values le; cbn [Definition_get_loop];
    [done|].
  apply raises_other_bind; [apply codec_get_other|]. intros [v sv'].
  case_bool_decide; [done|apply IH].
Qed.

Lemma Definition_set_loop_other fields : ∀ sv o le,
  raises_other (Definition_set_loop utf8_encode fields sv o le).
Proof.
  induction fields as [|f fields IH]; intros sv o le; cbn [Definition_set_loop]; [done|].
  apply raises_other_bind; [apply codec_set_other|]. intros sv'. apply IH.
Qed.

Lemma getByteLength_loop_other fields : ∀ o n fixed,
  raises_other (getByteLength_loop utf8_encode fields o n fixed).
Proof.
  induction fields as [|f fields IH]; intros o n fixed; cbn [getByteLength_loop]; [done|].
  destruct (codec_byteLength (f_codec f)); [apply IH|].
  apply raises_other_bind; [apply codec_getByteLength_other|]. intros m. apply IH.
Qed.

Lemma Definition_getByteLength_other d o :
  raises_other (Definition_getByteLength utf8_encode d o).1.
Proof.
  unfold Definition_getByteLength. destruct (d_byteLength d); [done|].
  pose proof (getByteLength_loop_other (d_fields d) o 0%nat true) as H.
  by destruct (getByteLength_loop _ _ _ _ _) as [[n fx]| |].
Qed.

End OtherErrors.

(** * Schemas: ids, round trips and lookup errors *)

Section SchemaProperties.

Variable utf8_encode : jsstring → result jsstring.
Variable utf8_decode : jsstring → result jsstring.

Abbreviation reachable := (reachable utf8_encode).
Abbreviation Schema_stringify := (Schema_stringify utf8_encode).
Abbreviation Schema_parse := (Schema_parse utf8_decode).
Abbreviation Definition_getByteLength := (Definition_getByteLength utf8_encode).
Abbreviation Definition_get_loop := (Definition_get_loop utf8_decode).
Abbreviation encode_fields := (encode_fields utf8_encode).
Abbreviation representable_object := (representable_object utf8_encode utf8_decode).

(** [utf8] is a package of its own: it raises its own errors, not the
    Schema's. *)
Hypothesis utf8_encode_other : ∀ str, raises_other (utf8_encode str).
Hypothesis utf8_decode_other : ∀ str, raises_other (utf8_decode str).

Lemma define_all_reachable defs s :
  reachable s → Forall accepted defs → reachable (define_all s defs).
Proof.
  intros Hs Hdefs. revert s Hs.
  induction Hdefs as [|[key fields] defs [Hkey _] _ IH]; intros s Hs; simpl; [done|].
  apply IH. by apply reachable_define.
Qed.

Lemma define_all_heap_prefix defs s r d :
  s_heap s !! r = Some d → s_heap (define_all s defs) !! r = Some d.
Proof.
  revert s. induction defs as [|[key fields] defs IH]; intros s Hr; simpl; [done|].
  apply IH. pose proof (Schema_define_tables s key fields) as (_ & _ & Htab).
  destruct (Field_map fields); [destruct Htab as (-> & _)|destruct Htab as (-> & _)..];
    [by apply lookup_app_l_Some|done|done].
Qed.

Lemma define_all_heap defs s i key fields :
  Forall accepted defs →
  defs !! i = Some (key, fields) →
  ∃ fs, Field_map fields = Ok fs
    ∧ s_heap (define_all s defs) !! (length (s_heap s) + i)%nat
      = Some (Definition_new fs (Some (s_nextDefinitionId s + Z.of_nat i))
                (Some key) None).
Proof.
  intros Hdefs. revert s i.
  induction Hdefs as [|[key' fields'] defs [_ Hok] _ IH]; intros s i Hi; [done|].
  simpl in Hok. simpl define_all.
  pose proof (Schema_define_tables s key' fields') as (Hn & _ & Htab).
  destruct (Field_map fields') as [fs'| |] eqn:Hfs; [|done|done].
  destruct Htab as (Hh & _).
  destruct i as [|i]; simpl in Hi.
  - injection Hi as <- <-. exists fs'. split; [done|].
    apply define_all_heap_prefix. rewrite Hh, Nat.add_0_r, Z.add_0_r.
    by apply list_lookup_middle.
  - destruct (IH (Schema_define s key' fields').2 i Hi) as (fs & Hfs' & Hlook).
    exists fs. split; [done|]. rewrite Hh, length_app, Hn in Hlook. simpl in Hlook.
    replace (length (s_heap s) + S i)%nat with (length (s_heap s) + 1 + i)%nat by lia.
    replace (s_nextDefinitionId s + Z.of_nat (S i))
      with (s_nextDefinitionId s + 1 + Z.of_nat i) by lia.
    done.
Qed.

(** [parse] on the id byte of a Definition followed by the big-endian bytes
    of an object and by anything else. *)
Lemma Schema_parse_consumes s r d id key o es rest :
  s_idType s = "uint8" →
  s_definitionsById s !! id = Some r → s_heap s !! r = Some d →
  d_key d = Some key → d_littleEndian d = None →
  0 <= id <= 255 →
  representable_object (d_fields d) o false →
  encode_fields (d_fields d) o false = Ok es →
  Schema_parse s (id :: es ++ rest) = Ok {| p_key := Some key; p_data := o |}.
Proof.
  intros Ht Hi Hr Hk Hle Hid Hrep Hes.
  rewrite (Schema_parse_uint8 utf8_encode utf8_decode) by done.
  assert (Forall is_byte es) as Hbytes by (by eapply encode_fields_is_byte).
  assert (map (fun c => Z.max 0 (Z.min c 255)) (id :: es ++ rest)
          = id :: es ++ map (fun c => Z.max 0 (Z.min c 255)) rest) as ->.
  { cbn [map]. rewrite map_app. f_equal; [lia|]. f_equal.
    rewrite <- (concat_uint8_bytes_clamp _ false). by apply concat_uint8_bytes. }
  rewrite Hi. unfold deref. change (Some r ≫= (s_heap s !!.)) with (s_heap s !! r).
  rewrite Hr. unfold littleEndian_flag. rewrite Hle, Hk. cbn [default].
  destruct (Definition_get_loop_reads utf8_encode utf8_decode (d_fields d) o false
              (proj2 Hrep)) as (es' & Hes' & Hget).
  rewrite Hes in Hes'. injection Hes' as <-.
  specialize (Hget [id] (map (fun c => Z.max 0 (Z.min c 255)) rest) ∅).
  cbn [app length] in Hget. rewrite Hget. cbn [mbind result_bind].
  by rewrite (merge_fields_representable utf8_encode utf8_decode _ _ _ Hrep).
Qed.

(** C10: on every Schema reached from [createSchema] by [define] and
    [stringify] calls, ids are [uint8] and no Definition carries a
    [littleEndian] flag.  So the wire format is the default one in both
    directions.  Whatever [stringify] returns is one byte, the id (at most
    255), followed by the fields' big-endian bytes; and for a registered
    key, with an id up to 255, and an object its fields carry without loss,
    [stringify] returns exactly the id byte followed by the big-endian
    bytes of the fields.  [parse] consumes that format: given the id byte,
    then those bytes, then anything, it returns the Definition's key and
    that object. *)
Theorem createSchema_wire_format s :
  reachable s →
  s_idType s = "uint8"
  ∧ (∀ r d, s_heap s !! r = Some d → d_littleEndian d = None)
  ∧ (∀ key o str,
       (Schema_stringify s key o).1 = Ok str →
       ∃ r d id es,
         s_definitions s !! key = Some r ∧ s_heap s !! r = Some d
         ∧ d_id d = Some id
         ∧ encode_fields (d_fields d) o false = Ok es
         ∧ str = Z.min id 255 :: es)
  ∧ (∀ key r d id o es rest,
       s_definitions s !! key = Some r → s_heap s !! r = Some d →
       d_id d = Some id → id <= 255 →
       representable_object (d_fields d) o false →
       encode_fields (d_fields d) o false = Ok es →
       (Schema_stringify s key o).1 = Ok (id :: es)
       ∧ Schema_parse s (id :: es ++ rest)
         = Ok {| p_key := Some key; p_data := o |}).
Proof.
  intros Hs. pose proof (reachable_invariant utf8_encode s Hs) as Hinv.
  split_and!.
  - apply (inv_idType _ Hinv).
  - intros r d Hr. by destruct (inv_heap _ Hinv _ _ Hr) as (? & _).
  - intros key o str Hstr.
    destruct (s_definitions s !! key) as [r|] eqn:Hk.
    + destruct (inv_definitions _ Hinv _ _ Hk) as (d & Hr & _).
      destruct (inv_heap _ Hinv _ _ Hr) as (_ & (id & Hid & Hrange & _) & _).
      destruct (Schema_stringify_wire utf8_encode utf8_decode s key o r d id str
                  Hinv Hk Hr Hid Hstr)
        as (es & Hes & ->).
      exists r, d, id, es. split_and!; try done. f_equal. lia.
    + rewrite Schema_stringify_unregistered in Hstr
        by (done || apply (inv_idType _ Hinv)).
      simpl in Hstr. by case_bool_decide.
  - intros key r d id o es rest Hk Hr Hid Hmax Hrep Hes.
    destruct (inv_definitions _ Hinv _ _ Hk) as (d' & Hr' & Hkey).
    assert (d' = d) as -> by congruence.
    destruct (inv_heap _ Hinv _ _ Hr) as (Hle & (id' & Hid' & Hrange & Hlook) & _).
    assert (id' = id) as -> by congruence.
    split.
    + destruct (Schema_stringify_representable utf8_encode utf8_decode s key o r d id
                  Hinv Hk Hr Hid Hrep) as (es' & Hes' & Hstr).
      rewrite Hes in Hes'. injection Hes' as <-. rewrite Hstr. do 2 f_equal. lia.
    + apply (Schema_parse_consumes s r d); try done.
      * apply (inv_idType _ Hinv).
      * lia.
Qed.

Lemma writes_other sv enc : raises_other (writes sv enc).
Proof. unfold writes. by destruct (_ <? _)%nat. Qed.

(** [stringify] of a registered key raises neither lookup error. *)
Lemma Schema_stringify_other s key o r :
  schema_invariant s → s_definitions s !! key = Some r →
  raises_other (Schema_stringify s key o).1.
Proof.
  intros Hinv Hk.
  destruct (inv_definitions _ Hinv _ _ Hk) as (d & Hr & _).
  destruct (inv_heap _ Hinv _ _ Hr) as (_ & (id & Hid & _) & _).
  rewrite (Schema_stringify_registered utf8_encode s key o r d id) by done.
  apply raises_other_bind; [by apply Definition_getByteLength_other|]. intros n.
  apply raises_other_bind; [apply writes_other|]. intros sv.
  apply raises_other_bind; [by apply Definition_set_loop_other|done].
Qed.


(** [stringify] with an empty or absent array as the only field: the
    Definition announces no byte, so the buffer holds the id alone and the
    write of the array's length runs past its end. *)
Lemma Schema_stringify_empty_array s key r d f c o :
  schema_invariant s →
  s_definitions s !! key = Some r → s_heap s !! r = Some d →
  d_fields d = [f] → f_codec f = ArrayCodec c →
  array_elements (prop o (f_key f)) = Ok [] →
  (Schema_stringify s key o).1 = Throw (RangeError "Invalid data view length").
Proof.
  intros Hinv Hk Hr Hf Hc Hv.
  destruct (inv_heap _ Hinv _ _ Hr) as (_ & (id & Hid & _) & Hcache).
  rewrite (Schema_stringify_registered utf8_encode s key o r d id) by done.
  assert (d_byteLength d = None) as Hnone.
  { destruct (d_byteLength d) as [m|] eqn:Hm; [|done].
    destruct (Hcache m eq_refl) as [Hfix _]. rewrite Hf in Hfix.
    unfold all_fixed in Hfix. cbn [forallb] in Hfix. rewrite Hc in Hfix.
    cbn [codec_byteLength] in Hfix. apply andb_prop in Hfix as [Hfix _].
    apply bool_decide_eq_true in Hfix. by destruct Hfix. }
  assert (codec_getByteLength utf8_encode (ArrayCodec c) (prop o (f_key f)) = Ok 0%nat)
    as Hlen.
  { simpl. unfold ArrayCodec_getByteLength. by rewrite Hv. }
  unfold Definition_getByteLength. rewrite Hnone, Hf. simpl getByteLength_loop.
  rewrite Hc. simpl codec_byteLength. cbv iota. rewrite Hlen.
  rewrite uint8_bytes_clamp. simpl.
  rewrite Hc. simpl codec_set. rewrite ArrayCodec_set_empty by done.
  by rewrite uint32_bytes_0.
Qed.

(** C1: [define] gives each Definition the value of a counter that starts
    at 1 and that every call advances, so accepted registrations on a fresh
    Schema get the ids 1, 2, 3, ... in order.  On a reachable Schema every
    registered key has a Definition with that key and an id of at least 1;
    when the id is at most 255, the capacity of a Schema, and the object has
    exactly the fields' keys with values their codecs carry without loss
    (booleans, in-range integers, floats the codec returns unchanged,
    strings that [utf8] transcodes, non-empty arrays of these), [stringify]
    returns a string that [parse] maps back to the key and the object.  The
    round trip fails where the claim promises it too: for an array field
    that is empty or absent [stringify] throws the range error of the
    buffer, since [ArrayCodec.getByteLength] announces 0 bytes for the 4
    that [set] writes. *)
Theorem Schema_ids_and_roundtrip :
  (∀ defs i key fields,
     Forall accepted defs → defs !! i = Some (key, fields) →
     ∃ fs, Field_map fields = Ok fs
       ∧ s_heap (define_all createSchema defs) !! i
         = Some (Definition_new fs (Some (Z.of_nat i + 1)) (Some key) None))
  ∧ (∀ s key fields,
       s_nextDefinitionId (Schema_define s key fields).2 = s_nextDefinitionId s + 1
       ∧ ∀ d, (Schema_define s key fields).1 = Ok d →
              d_id d = Some (s_nextDefinitionId s))
  ∧ (∀ s key r,
       reachable s → s_definitions s !! key = Some r →
       ∃ d id,
         s_heap s !! r = Some d ∧ d_id d = Some id ∧ d_key d = Some key
         ∧ 1 <= id < s_nextDefinitionId s
         ∧ ∀ o, id <= 255 → representable_object (d_fields d) o false →
             ∃ str, (Schema_stringify s key o).1 = Ok str
               ∧ Schema_parse (Schema_stringify s key o).2 str
                 = Ok {| p_key := Some key; p_data := o |})
  ∧ (∀ s key r d f c o,
       reachable s → s_definitions s !! key = Some r → s_heap s !! r = Some d →
       d_fields d = [f] → f_codec f = ArrayCodec c →
       prop o (f_key f) = VArray [] ∨ prop o (f_key f) = VUndefined
       ∨ prop o (f_key f) = VNull →
       (Schema_stringify s key o).1 = Throw (RangeError "Invalid data view length")).
Proof.
  split_and!.
  - intros defs i key fields Hdefs Hi.
    destruct (define_all_heap defs createSchema i key fields Hdefs Hi) as (fs & Hfs & Hl).
    exists fs. split; [done|]. simpl in Hl.
    by replace (Z.of_nat i + 1) with (1 + Z.of_nat i) by lia.
  - intros s key fields. split.
    + apply Schema_define_tables.
    + intros d. unfold Schema_define.
      destruct (Field_map fields); simpl; [|done|done].
      case_bool_decide; [done|]. by intros [= <-].
  - intros s key r Hs Hk.
    pose proof (reachable_invariant utf8_encode s Hs) as Hinv.
    destruct (inv_definitions _ Hinv _ _ Hk) as (d & Hr & Hkey).
    destruct (inv_heap _ Hinv _ _ Hr) as (_ & (id & Hid & Hrange & _) & _).
    exists d, id. split_and!; try done; try lia.
    intros o Hmax Hrep.
    destruct (Schema_roundtrip utf8_encode utf8_decode s key o r Hinv Hk)
      as (d0 & id0 & Hr0 & Hid0 & _ & _ & Hround).
    assert (d0 = d) as -> by congruence. assert (id0 = id) as -> by congruence.
    destruct (Hround Hmax Hrep) as (str & Hstr & Hparse & _). eauto.
  - intros s key r d f c o Hs Hk Hr Hf Hc Hv.
    pose proof (reachable_invariant utf8_encode s Hs) as Hinv.
    apply (Schema_stringify_empty_array s key r d f c o); try done.
    by destruct Hv as [-> | [-> | ->]].
Qed.

End SchemaProperties.

(** An instance of C10: the [uint16] field of id 1 is written big endian
    after the id byte, and read big endian from there whatever follows. *)
Lemma createSchema_wire_format_witness :
  let s := (Schema_define createSchema "spawn"
              [{| o_key := "x"; o_type := "uint16"; o_valueType := None |}]).2 in
  s_idType s = "uint8"
  ∧ (Schema_stringify Ok s "spawn" {[ "x" := VNumber (Int 258) ]}).1 = Ok [1; 1; 2]
  ∧ Schema_parse Ok s [1; 1; 2; 9]
    = Ok {| p_key := Some "spawn"; p_data := {[ "x" := VNumber (Int 258) ]} |}.
Proof.
  intros s.
  assert (reachable Ok s) as Hs
    by (apply reachable_define; [apply reachable_createSchema | discriminate]).
  destruct (createSchema_wire_format Ok Ok s Hs) as (Ht & _ & _ & Hformat).
  split; [exact Ht|].
  eapply (Hformat "spawn" 0%nat _ 1 {[ "x" := VNumber (Int 258) ]} [1; 2] [9]).
  - reflexivity.
  - reflexivity.
  - reflexivity.
  - lia.
  - split.
    + intros k [v Hk]. apply lookup_singleton_Some in Hk as [<- _]. repeat constructor.
    + repeat constructor; [discriminate|].
      exists (VNumber (Int 258)). split; [reflexivity|].
      exists 258. split_and!; [by eexists|done|vm_compute; discriminate..].
  - vm_compute. reflexivity.
Defined.



(** An instance of C1: two registrations, ids 1 and 2, the round trip of
    an object of the second, and the failure on an empty array. *)
Lemma Schema_ids_and_roundtrip_witness :
  let s := define_all createSchema
             [("spawn", [{| o_key := "x"; o_type := "uint16"; o_valueType := None |}]);
              ("position", [{| o_key := "x"; o_type := "int8"; o_valueType := None |};
                            {| o_key := "ok"; o_type := "boolean"; o_valueType := None |}]);
              ("path", [{| o_key := "a"; o_type := "array"; o_valueType := Some "uint8" |}])] in
  let o : object := {[ "x" := VNumber (Int (-3)); "ok" := VBoolean true ]} in
  (∃ str, (Schema_stringify Ok s "position" o).1 = Ok str
     ∧ Schema_parse Ok (Schema_stringify Ok s "position" o).2 str
       = Ok {| p_key := Some "position"; p_data := o |})
  ∧ (Schema_stringify Ok s "path" {[ "a" := VArray [] ]}).1
    = Throw (RangeError "Invalid data view length").
Proof.
  intros s o.
  pose proof (Schema_ids_and_roundtrip Ok Ok) as (_ & _ & H & Hfail).
  assert (reachable Ok s) as Hs.
  { apply define_all_reachable; [apply reachable_createSchema|].
    repeat constructor; simpl; discriminate. }
  split.
  - destruct (H s "position" 1%nat Hs eq_refl) as (d & id & Hd & Hid & _ & _ & Hround).
    vm_compute in Hd. injection Hd as <-. vm_compute in Hid. injection Hid as <-.
    apply Hround; [lia|].
    split.
    + intros k [v Hk]. subst o. simpl.
      apply lookup_insert_Some in Hk as [[<- _]|[_ Hk]]; [repeat constructor|].
      apply lookup_singleton_Some in Hk as [<- _]. repeat constructor.
    + repeat constructor; try discriminate.
      * exists (VNumber (Int (-3))). split; [reflexivity|].
        exists (-3). split_and!; [by eexists|done|vm_compute; discriminate..].
      * exists (VBoolean true). split; [reflexivity|]. by eexists.
  - eapply (Hfail s "path" 2%nat _ _ (IntegerCodec 1 false) _ Hs).
    + reflexivity.
    + reflexivity.
    + reflexivity.
    + reflexivity.
    + left. reflexivity.
Defined.

(** Past the capacity of a Schema: ids are written as one byte.  After 256
    registrations on a fresh Schema the last key has id 256, which
    [stringify] stores as 255, so [parse] answers with the key registered
    255th. *)
Lemma Schema_ids_clamp_past_255 :
  let s := define_all createSchema (empty_definitions 256) in
  reachable Ok s
  ∧ (∃ r d, s_definitions s !! unary_key 256 = Some r ∧ s_heap s !! r = Some d
            ∧ d_id d = Some 256 ∧ d_fields d = [])
  ∧ (Schema_stringify Ok s (unary_key 256) ∅).1 = Ok [255]
  ∧ Schema_parse Ok s [255] = Ok {| p_key := Some (unary_key 255); p_data := ∅ |}
  ∧ unary_key 255 ≠ unary_key 256.
Proof.
  intros s. split_and!.
  - apply define_all_reachable; [apply reachable_createSchema|].
    apply Forall_forall. intros [key fields] Hin. unfold empty_definitions in Hin.
    apply list_elem_of_fmap in Hin as (i & [= -> ->] & Hi).
    split; [|done]. simpl. destruct i; [by apply elem_of_seq in Hi; lia|discriminate].
  - exists 255%nat. eexists. split_and!; [vm_compute; reflexivity..].
  - vm_compute. reflexivity.
  - vm_compute. reflexivity.
  - vm_compute. discriminate.
Qed.

(** * Integers: round trips and byte layout *)

Lemma take_splice bytes off enc :
  (off ≤ length bytes)%nat → take off (splice bytes off enc) = take off bytes.
Proof.
  intros H. unfold splice. rewrite take_app_le by (rewrite length_take; lia).
  rewrite take_take. f_equal. lia.
Qed.

Lemma drop_splice bytes off enc :
  (off + length enc ≤ length bytes)%nat →
  drop (off + length enc) (splice bytes off enc) = drop (off + length enc) bytes.
Proof.
  intros H. unfold splice. rewrite app_assoc.
  rewrite drop_app_length'; [done|]. rewrite length_app, length_take. lia.
Qed.

(** Every integer codec, at any cursor of any buffer and in either byte
    order: without room for its width both [set] and [get] throw the range
    error; with room, [set] of a value inside the codec's range moves the
    cursor by the width, changes no byte outside the [byteLength] bytes at
    the cursor, and [get] from the old cursor returns the value. *)
Theorem IntegerCodec_roundtrip bl signed sv z le :
  is_Some (integer_accessor bl signed) →
  IntegerCodec_minValue bl signed <= z <= IntegerCodec_maxValue bl signed →
  if (length (dataView sv) <? byteOffset sv + bl)%nat
  then IntegerCodec_set bl signed sv (Int z) le
       = Throw (RangeError "Invalid data view length")
       ∧ IntegerCodec_get bl signed sv le
         = Throw (RangeError "Invalid data view length")
  else ∃ sv',
         IntegerCodec_set bl signed sv (Int z) le = Ok sv'
         ∧ byteOffset sv' = (byteOffset sv + bl)%nat
         ∧ length (dataView sv') = length (dataView sv)
         ∧ take (byteOffset sv) (dataView sv') = take (byteOffset sv) (dataView sv)
         ∧ drop (byteOffset sv + bl) (dataView sv')
           = drop (byteOffset sv + bl) (dataView sv)
         ∧ IntegerCodec_get bl signed
             {| dataView := dataView sv'; byteOffset := byteOffset sv |} le
           = Ok (Int z, sv').
Proof.
  intros Ha Hz.
  destruct (Nat.ltb_spec (length (dataView sv)) (byteOffset sv + bl)) as [Hroom|Hroom].
  - destruct Ha as [a Ha].
    pose proof (integer_accessor_byteLength _ _ _ Ha) as Hbl.
    split.
    + rewrite (IntegerCodec_set_writes bl signed a) by done.
      apply writes_overflow. rewrite accessor_bytes_length. lia.
    + unfold IntegerCodec_get. rewrite Ha. rewrite <- Hbl.
      apply Codec_get_range. lia.
  - destruct (IntegerCodec_set_get bl signed sv z le Ha Hz Hroom)
      as (sv' & Hset & Hoff & Hlen & Hget).
    exists sv'. split_and!; try done.
    + destruct Ha as [a Ha].
      pose proof (integer_accessor_byteLength _ _ _ Ha) as Hbl.
      rewrite (IntegerCodec_set_writes bl signed a) in Hset by done.
      apply writes_Ok in Hset as (_ & -> & _). apply take_splice. lia.
    + destruct Ha as [a Ha].
      pose proof (integer_accessor_byteLength _ _ _ Ha) as Hbl.
      rewrite (IntegerCodec_set_writes bl signed a) in Hset by done.
      apply writes_Ok in Hset as (_ & -> & _).
      set (enc := accessor_bytes a _ le).
      assert (length enc = bl) as Henc by (subst enc; by rewrite accessor_bytes_length).
      rewrite <- Henc. apply drop_splice. lia.
Qed.

Lemma IntegerCodec_roundtrip_witness :
  IntegerCodec_get 2 true
    {| dataView := [9; 255; 254; 9]; byteOffset := 1 |} true
  = Ok (Int (-257), {| dataView := [9; 255; 254; 9]; byteOffset := 3 |}).
Proof.
  pose proof (IntegerCodec_roundtrip 2 true {| dataView := [9; 0; 0; 9]; byteOffset := 1 |}
                (-257) true ltac:(by eexists) ltac:(vm_compute; split; discriminate))
    as (sv' & Hset & _ & _ & _ & _ & Hget).
  vm_compute in Hset. injection Hset as <-. exact Hget.
Defined.

(** ** The bytes of an integer *)

Lemma IntegerPolyfill_set_digits p z :
  ip_byteLength p ∈ [1; 2; 4]%nat →
  ip_minValue p <= z <= ip_maxValue p →
  be_value (IntegerPolyfill_set p (replicate (ip_byteLength p) 0) 0 (Int z) false)
  = z mod 2 ^ ip_bitLength p.
Proof.
  intros Hp Hz. unfold IntegerPolyfill_set.
  rewrite ip_clamp_in_range by done.
  destruct p as [bl signed]. unfold ip_minValue, ip_maxValue, ip_bitLength in *. simpl in *.
  set_unfold.
  pose proof (wrap32_range z) as HW.
  destruct Hp as [->|[->|[->|[]]]]; destruct signed; simpl in Hz |- *;
    unfold byte_set, be_value; simpl; rewrite ?js_shr_8, ?js_and_255;
    change (Z.pow_pos 2 7) with 128 in *; change (Z.pow_pos 2 8) with 256 in *;
    change (Z.pow_pos 2 15) with 32768 in *; change (Z.pow_pos 2 16) with 65536 in *;
    change (Z.pow_pos 2 31) with 2147483648 in *; change (Z.pow_pos 2 32) with 4294967296 in *;
    change (2 ^ 31) with 2147483648 in *;
    (assert (wrap32 z = z ∨ wrap32 z = z - 4294967296) as HWz
       by (unfold wrap32; change (2 ^ 31) with 2147483648; change (2 ^ 32) with 4294967296; lia));
    set (W := wrap32 z) in *; clearbody W;
    rewrite ?(wrap32_small (W / 256)) by (change (2 ^ 31) with 2147483648; lia);
    rewrite ?(wrap32_small (W / 256 / 256)) by (change (2 ^ 31) with 2147483648; lia);
    rewrite ?(wrap32_small (W / 256 / 256 / 256)) by (change (2 ^ 31) with 2147483648; lia);
    lia.
Qed.

Lemma ip_clamp_Int p z :
  ip_minValue p <= ip_maxValue p →
  ip_clamp p (Int z) = Int (Z.max (ip_minValue p) (Z.min z (ip_maxValue p))).
Proof.
  intros Hr. unfold ip_clamp, number_gtb, number_ltb.
  destruct (Z.ltb_spec z (ip_minValue p)); [f_equal; lia|].
  destruct (Z.ltb_spec (ip_maxValue p) z); f_equal; lia.
Qed.

Lemma ip_range p : ip_byteLength p ∈ [1; 2; 4]%nat → ip_minValue p <= ip_maxValue p.
Proof.
  destruct p as [bl signed]. unfold ip_minValue, ip_maxValue, ip_bitLength. simpl.
  set_unfold. intros [->|[->|[->|[]]]]; destruct signed; vm_compute; discriminate.
Qed.

Lemma IntegerPolyfill_set_clamped p bytes off z le :
  ip_byteLength p ∈ [1; 2; 4]%nat →
  IntegerPolyfill_set p bytes off (Int z) le
  = IntegerPolyfill_set p bytes off
      (Int (Z.max (ip_minValue p) (Z.min z (ip_maxValue p)))) le.
Proof.
  intros Hp. pose proof (ip_range p Hp) as Hr. unfold IntegerPolyfill_set.
  rewrite ip_clamp_Int by done. rewrite ip_clamp_in_range by lia. done.
Qed.

Lemma IntegerPolyfill_set_reverse p v :
  ip_byteLength p ∈ [1; 2; 4]%nat →
  IntegerPolyfill_set p (replicate (ip_byteLength p) 0) 0 v true
  = reverse (IntegerPolyfill_set p (replicate (ip_byteLength p) 0) 0 v false).
Proof.
  intros Hp. unfold IntegerPolyfill_set. destruct p as [bl signed]. simpl in *.
  set (c := ip_clamp _ v). clearbody c.
  set_unfold. destruct Hp as [->|[->|[->|[]]]]; reflexivity.
Qed.

Lemma IntegerPolyfill_get_reverse p bytes :
  ip_byteLength p ∈ [1; 2; 4]%nat → length bytes = ip_byteLength p →
  IntegerPolyfill_get p (reverse bytes) 0 true = IntegerPolyfill_get p bytes 0 false.
Proof.
  intros Hp Hlen. destruct p as [bl signed]. simpl in *.
  set_unfold. destruct Hp as [->|[->|[->|[]]]]; list_of_length bytes Hlen; reflexivity.
Qed.

(** What [IntegerPolyfill.set] stores for an integer, whatever its size: the
    value is first brought into the type's range, and the [byteLength] bytes
    at the offset become its two's-complement digits in base 256, most
    significant first for big endian and least significant first for little
    endian.  No other byte of the array changes. *)
Theorem IntegerPolyfill_set_layout p bytes off z le :
  ip_byteLength p ∈ [1; 2; 4]%nat →
  (off + ip_byteLength p ≤ length bytes)%nat →
  let after := IntegerPolyfill_set p bytes off (Int z) le in
  let stored := take (ip_byteLength p) (drop off after) in
  let clamped := Z.max (ip_minValue p) (Z.min z (ip_maxValue p)) in
  length after = length bytes
  ∧ take off after = take off bytes
  ∧ drop (off + ip_byteLength p) after = drop (off + ip_byteLength p) bytes
  ∧ Forall is_byte stored
  ∧ be_value (if le then reverse stored else stored)
    = clamped mod 2 ^ ip_bitLength p.
Proof.
  intros Hp Hroom after stored clamped.
  destruct (split_at bytes off (ip_byteLength p) Hroom) as (Hsplit & Hpre & Hmid).
  set (pre := take off bytes) in *.
  set (mid := take (ip_byteLength p) (drop off bytes)) in *.
  set (post := drop (off + ip_byteLength p) bytes) in *.
  assert (after = pre ++ IntegerPolyfill_set p (replicate (ip_byteLength p) 0) 0
                           (Int clamped) le ++ post) as Hafter.
  { subst after. rewrite Hsplit, <- Hpre at 1.
    rewrite IntegerPolyfill_set_frame' by done.
    by rewrite IntegerPolyfill_set_clamped by done. }
  destruct (IntegerPolyfill_set_bytes p (Int clamped) le Hp) as [Hbytes Hlen].
  set (enc := IntegerPolyfill_set p (replicate (ip_byteLength p) 0) 0 (Int clamped) le) in *.
  assert (stored = enc) as Hstored.
  { subst stored. rewrite Hafter, <- Hpre at 1. rewrite drop_app_length.
    rewrite take_app_length'; done. }
  split_and!.
  - rewrite Hafter, Hsplit, !length_app. lia.
  - rewrite Hafter, <- Hpre at 1. rewrite take_app_length. done.
  - rewrite Hafter, app_assoc. apply drop_app_length'. rewrite length_app. lia.
  - by rewrite Hstored.
  - rewrite Hstored. subst enc. destruct le.
    + rewrite IntegerPolyfill_set_reverse, reverse_involutive by done.
      apply IntegerPolyfill_set_digits; [done|].
      pose proof (ip_range p Hp). subst clamped. lia.
    + apply IntegerPolyfill_set_digits; [done|].
      pose proof (ip_range p Hp). subst clamped. lia.
Qed.

Lemma IntegerPolyfill_set_layout_witness :
  IntegerPolyfill_set int16 [7; 0; 0; 7] 1 (Int (-2)) true = [7; 254; 255; 7]
  ∧ be_value [255; 254] = (-2) mod 2 ^ 16.
Proof.
  split; [reflexivity|].
  pose proof (IntegerPolyfill_set_layout int16 [7; 0; 0; 7] 1 (-2) true
                ltac:(set_solver) ltac:(simpl; lia)) as (_ & _ & _ & _ & H).
  exact H.
Defined.

Lemma be_value_snoc l b : be_value (l ++ [b]) = be_value l * 256 + b.
Proof. unfold be_value. by rewrite foldl_app. Qed.

Lemma be_value_range l :
  Forall is_byte l → 0 <= be_value l < 256 ^ Z.of_nat (length l).
Proof.
  induction l as [|b l IH] using rev_ind; intros Hl.
  - unfold be_value. simpl. lia.
  - apply Forall_app in Hl as [Hl Hb]. apply Forall_cons in Hb as [Hb _].
    rewrite be_value_snoc, length_app. simpl length.
    replace (Z.of_nat (length l + 1)) with (Z.succ (Z.of_nat (length l))) by lia.
    rewrite Z.pow_succ_r by lia. specialize (IH Hl). unfold is_byte in Hb. lia.
Qed.

Lemma be_value_inj l1 l2 :
  length l1 = length l2 → Forall is_byte l1 → Forall is_byte l2 →
  be_value l1 = be_value l2 → l1 = l2.
Proof.
  revert l2. induction l1 as [|b1 l1 IH] using rev_ind; intros l2 Hlen H1 H2 Hv.
  - destruct l2; [done|simpl in Hlen; lia].
  - destruct l2 as [|b2 l2 _] using rev_ind;
      [rewrite length_app in Hlen; simpl in Hlen; lia|].
    rewrite !length_app in Hlen. simpl in Hlen.
    apply Forall_app in H1 as [H1 Hb1]. apply Forall_cons in Hb1 as [Hb1 _].
    apply Forall_app in H2 as [H2 Hb2]. apply Forall_cons in Hb2 as [Hb2 _].
    rewrite !be_value_snoc in Hv. unfold is_byte in *.
    assert (b1 = b2) as -> by lia.
    f_equal. apply IH; [lia|done|done|lia].
Qed.

Lemma IntegerPolyfill_get_pattern p bytes le :
  ip_byteLength p ∈ [1; 2; 4]%nat →
  length bytes = ip_byteLength p → Forall is_byte bytes →
  let z := IntegerPolyfill_get p bytes 0 le in
  ip_minValue p <= z <= ip_maxValue p
  ∧ IntegerPolyfill_set p (replicate (ip_byteLength p) 0) 0 (Int z) le = bytes.
Proof.
  intros Hp Hlen Hbytes.
  assert (∀ bs, length bs = ip_byteLength p → Forall is_byte bs →
            ip_minValue p <= IntegerPolyfill_get p bs 0 false <= ip_maxValue p
            ∧ IntegerPolyfill_set p (replicate (ip_byteLength p) 0) 0
                (Int (IntegerPolyfill_get p bs 0 false)) false = bs) as Hbe.
  { clear bytes Hlen Hbytes. intros bytes Hlen Hbytes.
    pose proof (be_value_range bytes Hbytes) as Hn. rewrite Hlen in Hn.
    set (n := be_value bytes) in *.
    set (z := if ip_signed p && (2 ^ (ip_bitLength p - 1) <=? n)
              then n - 2 ^ ip_bitLength p else n).
    assert (256 ^ Z.of_nat (ip_byteLength p) = 2 ^ ip_bitLength p
            ∧ 2 ^ ip_bitLength p = 2 * 2 ^ (ip_bitLength p - 1)
            ∧ 0 < 2 ^ (ip_bitLength p - 1)) as (Hpow & Hhalf & Hpos).
    { destruct p as [bl signed]. unfold ip_bitLength. simpl in *. set_unfold.
      destruct Hp as [->|[->|[->|[]]]]; vm_compute; done. }
    assert (ip_minValue p <= z <= ip_maxValue p ∧ z mod 2 ^ ip_bitLength p = n)
      as [Hz Hmod].
    { subst z. unfold ip_minValue, ip_maxValue.
      destruct (ip_signed p); simpl.
      - destruct (Z.leb_spec (2 ^ (ip_bitLength p - 1)) n).
        + split; [lia|]. symmetry.
          apply (Z.mod_unique_pos _ _ (-1)); lia.
        + split; [lia|]. apply Z.mod_small. lia.
      - split; [lia|]. apply Z.mod_small. lia. }
    assert (IntegerPolyfill_set p (replicate (ip_byteLength p) 0) 0 (Int z) false = bytes)
      as Hset.
    { destruct (IntegerPolyfill_set_bytes p (Int z) false Hp) as [Hb Hl].
      apply be_value_inj; [congruence|done|done|].
      rewrite IntegerPolyfill_set_digits by done. done. }
    assert (IntegerPolyfill_get p bytes 0 false = z) as ->.
    { rewrite <- Hset at 1. by apply IntegerPolyfill_roundtrip. }
    done. }
  destruct le; [|by apply Hbe].
  assert (IntegerPolyfill_get p bytes 0 true
          = IntegerPolyfill_get p (reverse bytes) 0 false) as Hg.
  { rewrite <- (IntegerPolyfill_get_reverse p (reverse bytes))
      by (done || by rewrite length_reverse).
    by rewrite reverse_involutive. }
  intros z. subst z. rewrite Hg.
  destruct (Hbe (reverse bytes)) as [Hr Hs];
    [by rewrite length_reverse|by apply Forall_reverse|].
  split; [done|].
  rewrite IntegerPolyfill_set_reverse, Hs by done. apply reverse_involutive.
Qed.

(** Every pattern of [byteLength] bytes is the image of exactly one value of
    the type: [IntegerPolyfill.get] reads a value inside the range, and
    storing that value gives the bytes back. *)
Theorem IntegerPolyfill_get_set p bytes le :
  ip_byteLength p ∈ [1; 2; 4]%nat →
  length bytes = ip_byteLength p → Forall is_byte bytes →
  let z := IntegerPolyfill_get p bytes 0 le in
  ip_minValue p <= z <= ip_maxValue p
  ∧ IntegerPolyfill_set p (replicate (ip_byteLength p) 0) 0 (Int z) le = bytes.
Proof. apply IntegerPolyfill_get_pattern. Qed.

Lemma IntegerPolyfill_get_set_witness :
  IntegerPolyfill_set int16 [0; 0] 0 (Int (IntegerPolyfill_get int16 [254; 255] 0 true)) true
  = [254; 255].
Proof.
  apply (IntegerPolyfill_get_set int16 [254; 255] true);
    [set_solver | reflexivity | repeat constructor; unfold is_byte; lia].
Defined.

(** * Booleans and boolean arrays: round trips *)

Lemma accessor_bytes_uint8 b le : is_byte b → accessor_bytes Uint8 (Int b) le = [b].
Proof.
  intros Hb. rewrite <- (uint8_bytes_byte b le Hb). unfold uint8_bytes.
  rewrite IntegerCodec_clamp_in_range; [done|]. unfold is_byte in Hb.
  change (IntegerCodec_minValue 1 false) with 0.
  change (IntegerCodec_maxValue 1 false) with 255. lia.
Qed.

Lemma accessor_value_uint8 b le : is_byte b → accessor_value Uint8 [b] le = Int b.
Proof.
  intros Hb. rewrite <- (accessor_bytes_uint8 b le Hb).
  apply (integer_accessor_roundtrip 1 false); [done|]. unfold is_byte in Hb.
  change (IntegerCodec_minValue 1 false) with 0.
  change (IntegerCodec_maxValue 1 false) with 255. lia.
Qed.

(** [BooleanCodec]: [set] stores one byte, 1 for a truthy value and 0 for a
    falsy one, and [get] from the old cursor returns that truth value; [get]
    reads any byte other than 0 as [true].  Without room for the byte both
    throw the range error. *)
Theorem BooleanCodec_roundtrip sv v le :
  (if (length (dataView sv) <? byteOffset sv + 1)%nat
   then BooleanCodec_set sv v le = Throw (RangeError "Invalid data view length")
        ∧ BooleanCodec_get sv le = Throw (RangeError "Invalid data view length")
   else ∃ sv',
          BooleanCodec_set sv v le = Ok sv'
          ∧ dataView sv'
            = splice (dataView sv) (byteOffset sv) [if ToBoolean v then 1 else 0]
          ∧ byteOffset sv' = (byteOffset sv + 1)%nat
          ∧ BooleanCodec_get {| dataView := dataView sv'; byteOffset := byteOffset sv |} le
            = Ok (ToBoolean v, sv'))
  ∧ ∀ pre b post,
      is_byte b →
      BooleanCodec_get {| dataView := pre ++ b :: post; byteOffset := length pre |} le
      = Ok (negb (b =? 0),
            {| dataView := pre ++ b :: post; byteOffset := (length pre + 1)%nat |}).
Proof.
  assert (∀ pre b post,
            is_byte b →
            BooleanCodec_get {| dataView := pre ++ b :: post; byteOffset := length pre |} le
            = Ok (negb (b =? 0),
                  {| dataView := pre ++ b :: post;
                     byteOffset := (length pre + 1)%nat |})) as Hget.
  { intros pre b post Hb. unfold BooleanCodec_get.
    pose proof (Codec_get_reads Uint8 pre [b] post le eq_refl) as Hr.
    simpl in Hr. rewrite Hr. rewrite accessor_value_uint8 by done. done. }
  split; [|exact Hget].
  destruct (Nat.ltb_spec (length (dataView sv)) (byteOffset sv + 1)) as [Hroom|Hroom].
  - split.
    + rewrite BooleanCodec_set_writes. apply writes_overflow.
      rewrite accessor_bytes_length. simpl. lia.
    + unfold BooleanCodec_get. rewrite (Codec_get_range Uint8) by (simpl; lia). done.
  - rewrite BooleanCodec_set_writes.
    set (b := if ToBoolean v then 1 else 0).
    assert (is_byte b) as Hb by (subst b; unfold is_byte; destruct (ToBoolean v); lia).
    rewrite accessor_bytes_uint8 by done.
    rewrite writes_fits by (simpl; lia).
    eexists. split_and!; [reflexivity..|]. simpl.
    destruct (split_at (dataView sv) (byteOffset sv) 1 Hroom) as (Hsplit & Hpre & Hmid).
    unfold splice. simpl length.
    pose proof (Hget (take (byteOffset sv) (dataView sv)) b
                  (drop (byteOffset sv + 1) (dataView sv)) Hb) as Hg.
    rewrite Hpre in Hg. simpl app. rewrite Hg.
    subst b. by destruct (ToBoolean v).
Qed.

Lemma BooleanCodec_roundtrip_witness :
  BooleanCodec_get {| dataView := [0; 7; 0]; byteOffset := 1 |} false
  = Ok (true, {| dataView := [0; 7; 0]; byteOffset := 2 |}).
Proof.
  pose proof (BooleanCodec_roundtrip (StreamView_create 1) VNull false) as [_ H].
  apply (H [0] 7 [0]). unfold is_byte. lia.
Defined.

(** ** Boolean arrays: the length prefix *)

Lemma lor_shifted a b k :
  0 <= a < 2 ^ k → 0 <= b → 0 <= k → Z.lor a (b * 2 ^ k) = a + b * 2 ^ k.
Proof.
  intros Ha Hb Hk.
  rewrite <- Z.lxor_lor, <- Z.add_nocarry_lxor; try reflexivity.
  all: apply Z.bits_inj'; intros n Hn; rewrite Z.land_spec, Z.bits_0;
    destruct (Z.lt_ge_cases n k);
    [rewrite Z.mul_pow2_bits_low by lia; apply andb_false_r|];
    destruct (Z.eq_dec a 0) as [->|]; [by rewrite Z.bits_0|];
    rewrite (Z.bits_above_log2 a n); [done|lia|];
    apply Z.lt_le_trans with k; [apply Z.log2_lt_pow2; lia|lia].
Qed.

Lemma getLength_loop_stop fuel sv length i prev le :
  (js_and (Int prev) (Int 128) =? 0) = true →
  _getLength_loop fuel sv length i prev le = Ok (length, sv).
Proof. intros H. destruct fuel; simpl; [done|]. by rewrite H. Qed.

Lemma js_and_128_high b : 128 <= b < 256 → (js_and (Int b) (Int 128) =? 0) = false.
Proof.
  intros Hb. change (Int 128) with (Int (2 ^ 7)). rewrite sign_test_small by (simpl; lia).
  apply Z.ltb_ge. simpl. lia.
Qed.

Lemma js_and_128_low b : 0 <= b < 128 → (js_and (Int b) (Int 128) =? 0) = true.
Proof.
  intros Hb. change (Int 128) with (Int (2 ^ 7)). rewrite sign_test_small by (simpl; lia).
  apply Z.ltb_lt. simpl. lia.
Qed.

Lemma js_shl_small x n :
  0 <= x → 0 <= n < 32 → x * 2 ^ n < 2 ^ 31 → js_shl (Int x) n = x * 2 ^ n.
Proof.
  intros Hx Hn Hlt. unfold js_shl, ToInt32.
  assert (0 < 2 ^ n) by (apply Z.pow_pos_nonneg; lia).
  assert (x < 2 ^ 31) by nia.
  rewrite (wrap32_small x) by lia. rewrite Z.mod_small by lia.
  rewrite Z.shiftl_mul_pow2 by lia. apply wrap32_small. nia.
Qed.

Lemma js_and_127 x : 0 <= x < 2147483648 → js_and (Int x) (Int 127) = x mod 128.
Proof. intros Hx. apply (js_and_ones x 7); change (2 ^ 31) with 2147483648; lia. Qed.

Lemma js_shr_7 x : 0 <= x < 2147483648 → js_shr (Int x) 7 = x / 128.
Proof. intros Hx. apply (js_shr_small x 7); change (2 ^ 31) with 2147483648; lia. Qed.

Lemma getLength_loop_step fuel pre b post acc i prev le :
  is_byte b → (js_and (Int prev) (Int 128) =? 0) = false →
  _getLength_loop (S fuel)
    {| dataView := pre ++ uint8_bytes b le ++ post; byteOffset := length pre |}
    acc i prev le
  = _getLength_loop fuel
      {| dataView := pre ++ uint8_bytes b le ++ post;
         byteOffset := (length pre + 1)%nat |}
      (js_or (Int acc) (Int (js_shl (Int (js_and (Int b) (Int 127))) (i * 7))))
      (i + 1) (ToInt32 (Int b)) le.
Proof.
  intros Hb Hprev. cbn [_getLength_loop]. rewrite Hprev. cbn [negb].
  by rewrite uint8_get_reads by done.
Qed.

(** One round of the loop of [_setLength]. *)
Lemma varint_loop_step f r le :
  0 < r < 2147483648 →
  varint_loop (S f) (Int r) le
  = uint8_bytes (if r / 128 =? 0 then r mod 128 else r mod 128 + 128) le
    ++ varint_loop f (Int (r / 128)) le.
Proof.
  intros Hr. cbn [varint_loop].
  assert (number_gtb (Int r) (Int 0) = true) as ->
    by (unfold number_gtb, number_ltb; apply Z.ltb_lt; lia).
  rewrite js_and_127, js_shr_7 by lia.
  destruct (r / 128 =? 0); simpl; [done|].
  do 2 f_equal. unfold js_or, ToInt32.
  rewrite !wrap32_small by (change (2 ^ 31) with 2147483648; lia).
  change 128 with (2 ^ 7). apply lor_disjoint; simpl; lia.
Qed.

(** [_getLength] inverts the loop of [_setLength]. *)
Lemma getLength_varint_loop f :
  ∀ r i acc fuel pre post prev le,
    0 < r < 128 ^ Z.of_nat f → 0 <= i → r * 2 ^ (7 * i) < 2 ^ 31 →
    0 <= acc < 2 ^ (7 * i) →
    (js_and (Int prev) (Int 128) =? 0) = false →
    (length (varint_loop f (Int r) le) < fuel)%nat →
    _getLength_loop fuel
      {| dataView := pre ++ varint_loop f (Int r) le ++ post; byteOffset := length pre |}
      acc i prev le
    = Ok (acc + r * 2 ^ (7 * i),
          {| dataView := pre ++ varint_loop f (Int r) le ++ post;
             byteOffset := (length pre + length (varint_loop f (Int r) le))%nat |}).
Proof.
  induction f as [|f IH]; intros r i acc fuel pre post prev le Hr Hi Hlt Hacc Hprev Hfuel.
  { simpl in Hr. lia. }
  destruct fuel as [|fuel]; [lia|].
  assert (0 < 2 ^ (7 * i)) as HP by (apply Z.pow_pos_nonneg; lia).
  assert (2 ^ (7 * (i + 1)) = 128 * 2 ^ (7 * i)) as HP'.
  { replace (7 * (i + 1)) with (7 + 7 * i) by lia. by rewrite Z.pow_add_r by lia. }
  assert (7 * i < 31) as Hi31.
  { apply (Z.pow_lt_mono_r_iff 2); [lia|lia|]. nia. }
  remember (2 ^ (7 * i)) as P eqn:HPdef.
  assert (r < 2 ^ 31) as Hr31 by nia.
  change (2 ^ 31) with 2147483648 in *.
  rewrite Nat2Z.inj_succ, Z.pow_succ_r in Hr by lia.
  rewrite varint_loop_step in * by lia.
  set (byte0 := r mod 128) in *. set (r' := r / 128) in *.
  assert (0 <= byte0 < 128) as Hb0 by (subst byte0; lia).
  assert (r = 128 * r' + byte0) as Hrr by (subst byte0 r'; lia).
  assert (0 <= r') as Hr' by (subst r'; lia).
  set (byte := if r' =? 0 then byte0 else byte0 + 128) in *.
  assert (is_byte byte) as Hbyteb
    by (subst byte; unfold is_byte; destruct (r' =? 0); lia).
  assert (byte mod 128 = byte0) as Hbmod
    by (subst byte; destruct (r' =? 0); lia).
  rewrite <- (app_assoc (uint8_bytes byte le)).
  rewrite getLength_loop_step by done.
  rewrite js_and_127 by (unfold is_byte in Hbyteb; lia).
  rewrite Hbmod.
  assert (byte0 * P <= 127 * P) as Hb0P by (apply Z.mul_le_mono_nonneg_r; lia).
  assert (byte0 * P <= r * P) as Hb0r by (apply Z.mul_le_mono_nonneg_r; lia).
  assert (1 * P <= r * P) as HPr by (apply Z.mul_le_mono_nonneg_r; lia).
  replace (i * 7) with (7 * i) by lia.
  rewrite js_shl_small by lia.
  rewrite <- HPdef.
  assert (js_or (Int acc) (Int (byte0 * P)) = acc + byte0 * P) as ->.
  { unfold js_or, ToInt32.
    rewrite !wrap32_small by (change (2 ^ 31) with 2147483648; lia).
    subst P. apply lor_shifted; lia. }
  assert (ToInt32 (Int byte) = byte) as ->
    by (unfold ToInt32, is_byte in *; apply wrap32_small;
        change (2 ^ 31) with 2147483648; lia).
  rewrite length_app, uint8_bytes_length in *.
  destruct (Z.eqb_spec r' 0) as [Hz|Hnz].
  - assert (varint_loop f (Int r') le = []) as ->.
    { rewrite Hz. by destruct f. }
    rewrite getLength_loop_stop by (apply js_and_128_low; subst byte; lia).
    rewrite app_nil_l. simpl length.
    assert (r = byte0) as Hrb by lia. rewrite <- Hrb. by rewrite Nat.add_0_r.
  - specialize (IH r' (i + 1) (acc + byte0 * P) fuel (pre ++ uint8_bytes byte le)
                  post byte le).
    rewrite HP' in IH. rewrite length_app, uint8_bytes_length, <- !app_assoc in IH.
    rewrite IH.
    + do 2 f_equal; [nia|f_equal; lia].
    + lia.
    + lia.
    + change (2 ^ 31) with 2147483648.
      assert (r' * 128 * P <= r * P) by (apply Z.mul_le_mono_nonneg_r; lia). lia.
    + lia.
    + apply js_and_128_high. subst byte. lia.
    + lia.
Qed.

Lemma getLength_varint n pre post le :
  Z.of_nat n < 2 ^ 31 →
  BooleanArrayCodec__getLength
    {| dataView := pre ++ varint n le ++ post; byteOffset := length pre |} le
  = Ok (Z.of_nat n,
        {| dataView := pre ++ varint n le ++ post;
           byteOffset := (length pre + length (varint n le))%nat |}).
Proof.
  intros Hn. unfold BooleanArrayCodec__getLength, varint.
  destruct (Nat.eqb_spec n 0) as [->|Hnz].
  - rewrite getLength_loop_step by (reflexivity || (unfold is_byte; lia)).
    rewrite getLength_loop_stop by reflexivity.
    rewrite uint8_bytes_length. reflexivity.
  - assert (0 < Z.of_nat n < 128 ^ Z.of_nat 5) as H1
      by (split; [lia|eapply Z.lt_trans; [exact Hn|reflexivity]]).
    assert (Z.of_nat n * 2 ^ (7 * 0) < 2 ^ 31) as H2
      by (change (2 ^ (7 * 0)) with 1; lia).
    assert (0 <= 0 < 2 ^ (7 * 0)) as H3 by (change (2 ^ (7 * 0)) with 1; lia).
    rewrite (getLength_varint_loop 5 (Z.of_nat n) 0 0 _ pre post 128 le
               H1 (Z.le_refl 0) H2 H3 eq_refl)
      by (cbn [dataView]; rewrite !length_app; lia).
    change (2 ^ (7 * 0)) with 1. by rewrite Z.mul_1_r.
Qed.

(** ** Boolean arrays: the flags *)

Lemma flag_test byte j :
  0 <= j → negb (Z.land (Z.shiftr byte j) 1 =? 0) = Z.testbit byte j.
Proof.
  intros Hj. change 1 with (Z.ones 1). rewrite Z.land_ones by lia.
  change (2 ^ 1) with 2. rewrite <- Z.bit0_mod, Z.shiftr_spec by lia.
  rewrite Z.add_0_l. by destruct (Z.testbit byte j).
Qed.

Lemma byte_flags_bits_value c n j remaining :
  (j + Nat.min n remaining ≤ length c)%nat →
  byte_flags n (bits_value c) (Z.of_nat j) remaining
  = map VBoolean (take (Nat.min n remaining) (drop j c)).
Proof.
  revert j remaining. induction n as [|n IH]; intros j remaining Hlen; [done|].
  destruct remaining as [|remaining]; [by rewrite Nat.min_0_r|].
  cbn [byte_flags]. rewrite flag_test by lia. rewrite bits_value_testbit.
  replace (Z.of_nat j + 1) with (Z.of_nat (S j)) by lia.
  rewrite IH by (simpl in Hlen; lia).
  simpl Nat.min in *.
  destruct (c !! j) as [b|] eqn:Hb; [|apply lookup_ge_None in Hb; lia].
  rewrite (drop_S c b j Hb). done.
Qed.

Lemma get_loop_packed N :
  ∀ bits pre post le,
    (length bits ≤ N)%nat →
    BooleanArrayCodec_get_loop (length (chunks N bits))
      {| dataView := pre ++ map bits_value (chunks N bits) ++ post;
         byteOffset := length pre |}
      (length bits) le
    = Ok (map VBoolean bits,
          {| dataView := pre ++ map bits_value (chunks N bits) ++ post;
             byteOffset := (length pre + length (chunks N bits))%nat |}).
Proof.
  induction N as [|N IH]; intros bits pre post le HN.
  - destruct bits; [|simpl in HN; lia]. simpl. by rewrite Nat.add_0_r.
  - destruct bits as [|b bits]; [simpl; by rewrite Nat.add_0_r|].
    rewrite chunks_cons. set (l := b :: bits) in *.
    set (byte := bits_value (take 8 l)).
    assert (is_byte byte) as Hbyte.
    { pose proof (bits_value_range (take 8 l)) as Hr.
      assert (2 ^ Z.of_nat (length (take 8 l)) <= 2 ^ 8)
        by (apply Z.pow_le_mono_r; [lia|rewrite length_take; lia]).
      change (2 ^ 8) with 256 in *. subst byte. unfold is_byte. lia. }
    cbn [length map BooleanArrayCodec_get_loop]. fold byte.
    set (rest := map bits_value (chunks N (drop 8 l))).
    assert (pre ++ (byte :: rest) ++ post
            = pre ++ uint8_bytes byte le ++ rest ++ post) as ->
      by (by rewrite uint8_bytes_byte by done).
    rewrite uint8_get_reads by done. cbn [mbind result_bind].
    subst rest.
    specialize (IH (drop 8 l) (pre ++ uint8_bytes byte le) post le).
    rewrite length_app, uint8_bytes_length, <- !app_assoc, length_drop in IH.
    rewrite IH by (rewrite ?length_drop; subst l; simpl in *; lia).
    cbn [mbind result_bind].
    assert (ToInt32 (Int byte) = byte) as ->
      by (unfold ToInt32, is_byte in *; apply wrap32_small;
          change (2 ^ 31) with 2147483648; lia).
    subst byte.
    pose proof (byte_flags_bits_value (take 8 l) 8 0 (length l)) as Hbf.
    change (Z.of_nat 0) with 0 in Hbf.
    rewrite Hbf by (rewrite length_take; lia).
    rewrite drop_0, take_take, <- map_app.
    assert (take (Nat.min (Nat.min 8 (length l)) 8) l = take 8 l) as ->.
    { destruct (le_lt_dec 8 (length l)).
      - f_equal. lia.
      - rewrite !take_ge by lia. done. }
    rewrite take_drop. do 3 f_equal. lia.
Qed.

(** [BooleanArrayCodec.get] inverts [set]: for an array of fewer than 2^31
    elements that [set] finds room for, [get] from the old cursor returns
    the elements' truth values, in order, and ends at the cursor [set] left.
    The buffer outside the written bytes is whatever it was. *)
Theorem BooleanArrayCodec_roundtrip sv l le sv' :
  in_bounds sv → Z.of_nat (length l) < 2 ^ 31 →
  BooleanArrayCodec_set sv (VArray l) le = Ok sv' →
  BooleanArrayCodec_get {| dataView := dataView sv'; byteOffset := byteOffset sv |} le
  = Ok (VArray (map (fun v => VBoolean (ToBoolean v)) l), sv').
Proof.
  intros Hsv Hlen Hset.
  rewrite BooleanArrayCodec_set_writes in Hset by done. simpl in Hset.
  rewrite pack_packed_flags in Hset.
  apply writes_Ok in Hset as (Hfit & Hd & Ho).
  set (bits := map ToBoolean l) in *.
  set (enc := varint (length l) le ++ packed_flags bits) in *.
  assert (length bits = length l) as Hbits by (subst bits; by rewrite length_map).
  destruct (split_at (dataView sv) (byteOffset sv) (length enc) Hfit)
    as (_ & Hpre & _).
  set (pre := take (byteOffset sv) (dataView sv)) in *.
  set (post := drop (byteOffset sv + length enc) (dataView sv)) in *.
  assert (dataView sv' = pre ++ varint (length l) le ++ packed_flags bits ++ post)
    as Hdv.
  { rewrite Hd. unfold splice. fold pre post. subst enc. by rewrite <- app_assoc. }
  unfold BooleanArrayCodec_get. rewrite Hdv, <- Hpre.
  rewrite getLength_varint by done. cbn [mbind result_bind].
  rewrite Nat2Z.id.
  assert (Z.to_nat ((Z.of_nat (length l) + 7) / 8) = length (chunks (length bits) bits))
    as ->.
  { rewrite chunks_length by done. rewrite Hbits.
    rewrite <- (Nat2Z.id ((length l + 7) / 8)). f_equal.
    rewrite Nat2Z.inj_div. f_equal. lia. }
  pose proof (get_loop_packed (length bits) bits (pre ++ varint (length l) le) post le
                (Nat.le_refl _)) as Hloop.
  rewrite length_app, <- !app_assoc in Hloop. fold (packed_flags bits) in Hloop.
  rewrite Hbits in Hloop at 2. rewrite Hloop.
  cbn [mbind result_bind]. subst bits. rewrite map_map.
  do 2 f_equal. destruct sv' as [dv' off']. simpl in *. subst dv' off'.
  f_equal.
  - unfold splice. fold pre post. subst enc. rewrite <- app_assoc. done.
  - subst enc. rewrite length_app. unfold packed_flags.
    rewrite (length_map bits_value), Hpre. lia.
Qed.

Lemma BooleanArrayCodec_roundtrip_witness :
  BooleanArrayCodec_get {| dataView := [9; 3; 5; 9]; byteOffset := 1 |} false
  = Ok (VArray [VBoolean true; VBoolean false; VBoolean true],
        {| dataView := [9; 3; 5; 9]; byteOffset := 3 |}).
Proof.
  apply (BooleanArrayCodec_roundtrip {| dataView := [9; 0; 0; 9]; byteOffset := 1 |}
           [VNumber (Int 7); VNull; VString [97]] false
           {| dataView := [9; 3; 5; 9]; byteOffset := 3 |});
    [vm_compute; lia | vm_compute; reflexivity | vm_compute; reflexivity].
Defined.

(** * Codecs and Definitions: round trips and framing *)

Lemma Codec_get_short a pre p le :
  (length p < accessor_byteLength a)%nat →
  Codec_get (accessor_byteLength a) a
    {| dataView := pre ++ p; byteOffset := length pre |} le
  = Throw (RangeError "Invalid data view length").
Proof. intros H. apply Codec_get_range. simpl. rewrite length_app. lia. Qed.

Lemma uint32_get_short pre p le :
  (length p < 4)%nat →
  uint32_get {| dataView := pre ++ p; byteOffset := length pre |} le
  = Throw (RangeError "Invalid data view length").
Proof. intros H. by apply (Codec_get_short Uint32). Qed.

Lemma uint8_get_short pre le :
  uint8_get {| dataView := pre ++ []; byteOffset := length pre |} le
  = Throw (RangeError "Invalid data view length").
Proof. apply (Codec_get_short Uint8). simpl. lia. Qed.

Lemma StringCodec_get_loop_truncated u :
  ∀ pre k string le,
    Forall is_byte u → (k < length u)%nat →
    StringCodec_get_loop (length u)
      {| dataView := pre ++ take k u; byteOffset := length pre |} string le
    = Throw (RangeError "Invalid data view length").
Proof.
  induction u as [|c u IH]; intros pre k string le Hu Hk; [simpl in Hk; lia|].
  apply Forall_cons in Hu as [Hc Hu]. cbn [length StringCodec_get_loop].
  destruct k as [|k].
  - rewrite take_0, uint8_get_short. done.
  - rewrite firstn_cons.
    assert (pre ++ c :: take k u = pre ++ uint8_bytes c le ++ take k u) as ->
      by (by rewrite uint8_bytes_byte by done).
    rewrite uint8_get_reads by done. cbn [mbind result_bind].
    specialize (IH (pre ++ uint8_bytes c le) k (string ++ [String_fromCharCode c]) le Hu).
    rewrite length_app, uint8_bytes_length, <- app_assoc in IH.
    apply IH. simpl in Hk. lia.
Qed.

Section CodecRoundTrips.

Variable utf8_encode : jsstring → result jsstring.
Variable utf8_decode : jsstring → result jsstring.

Abbreviation encode := (encode utf8_encode).
Abbreviation encode_fields := (encode_fields utf8_encode).
Abbreviation codec_set := (codec_set utf8_encode).
Abbreviation codec_get := (codec_get utf8_decode).
Abbreviation representable := (representable utf8_encode utf8_decode).
Abbreviation representable_object := (representable_object utf8_encode utf8_decode).
Abbreviation announced := (announced utf8_encode).
Abbreviation Definition_stringify := (Definition_stringify utf8_encode).
Abbreviation Definition_parse := (Definition_parse utf8_decode).
Abbreviation Definition_getByteLength := (Definition_getByteLength utf8_encode).
Abbreviation fields_representable := (fields_representable utf8_encode utf8_decode).
Abbreviation Definition_get_loop := (Definition_get_loop utf8_decode).

(** Every codec but the boolean array, on a value it carries without loss:
    the length it announces ([byteLength], or [getByteLength] of the value)
    is the number of bytes [set] stores; [set] throws the range error when
    the buffer has fewer bytes than that after the cursor, and otherwise
    stores them at the cursor, leaves the rest of the buffer as it was and
    moves the cursor past them; [get] from the old cursor then returns the
    value and stops at the same place. *)
Theorem codec_roundtrip c v le sv :
  representable c v le → in_bounds sv →
  ∃ enc,
    Forall is_byte enc
    ∧ announced c v = Ok (length enc)
    ∧ if (length (dataView sv) <? byteOffset sv + length enc)%nat
      then codec_set c sv v le = Throw (RangeError "Invalid data view length")
      else ∃ sv',
             codec_set c sv v le = Ok sv'
             ∧ dataView sv' = splice (dataView sv) (byteOffset sv) enc
             ∧ byteOffset sv' = (byteOffset sv + length enc)%nat
             ∧ codec_get c {| dataView := dataView sv'; byteOffset := byteOffset sv |} le
               = Ok (v, sv').
Proof.
  intros Hrep Hsv.
  destruct (announced_representable utf8_encode utf8_decode c v le Hrep)
    as (enc & Henc & Hann).
  destruct (codec_get_spec utf8_encode utf8_decode c v le Hrep) as (enc' & Henc' & Hget).
  rewrite Henc in Henc'. injection Henc' as <-.
  pose proof (codec_set_spec utf8_encode c v le sv Hsv) as Hset. rewrite Henc in Hset.
  exists enc. split_and!.
  - by eapply encode_is_byte.
  - done.
  - destruct (Nat.ltb_spec (length (dataView sv)) (byteOffset sv + length enc))
      as [Hroom|Hroom].
    + rewrite Hset. by apply writes_overflow.
    + rewrite Hset, writes_fits by done. eexists. split_and!; [reflexivity..|].
      cbn [dataView byteOffset].
      destruct (split_at (dataView sv) (byteOffset sv) (length enc) Hroom)
        as (_ & Hpre & _).
      unfold splice.
      specialize (Hget (take (byteOffset sv) (dataView sv))
                    (drop (byteOffset sv + length enc) (dataView sv))).
      rewrite Hpre in Hget. exact Hget.
Qed.


(** ** A Definition on its own *)

Lemma Definition_getByteLength_valid d o :
  cache_valid d → cache_valid (Definition_getByteLength d o).2.
Proof.
  intros Hc n Hn.
  pose proof (Definition_getByteLength_cache utf8_encode d o) as (Hf & _ & _ & _ & Hcache).
  rewrite Hf. destruct (Hcache n Hn) as [Hold|?]; [by apply Hc|done].
Qed.

Lemma Definition_parse_encoded d o es extra :
  representable_object (d_fields d) o (littleEndian_flag d) →
  encode_fields (d_fields d) o (littleEndian_flag d) = Ok es →
  Forall is_byte extra →
  Definition_parse d (es ++ extra) = Ok o.
Proof.
  intros Hrep Hes Hextra. unfold Definition_parse.
  rewrite StreamView_createFromString_bytes
    by (apply Forall_app; split; [by eapply encode_fields_is_byte|done]).
  cbn [mbind result_bind]. unfold Definition_get.
  destruct (Definition_get_loop_reads utf8_encode utf8_decode (d_fields d) o
              (littleEndian_flag d) (proj2 Hrep)) as (es' & Hes' & Hget).
  rewrite Hes in Hes'. injection Hes' as <-.
  specialize (Hget [] extra ∅). simpl in Hget. rewrite Hget. simpl.
  by rewrite (merge_fields_representable utf8_encode utf8_decode _ _ _ Hrep).
Qed.

(** What [stringify] returns for an object the fields encode, and what it
    leaves of the Definition. *)
Lemma Definition_stringify_encoded d o :
  cache_valid d →
  representable_object (d_fields d) o (littleEndian_flag d) →
  ∃ es,
    encode_fields (d_fields d) o (littleEndian_flag d) = Ok es
    ∧ (Definition_stringify d o).1 = Ok es
    ∧ d_fields (Definition_stringify d o).2 = d_fields d
    ∧ d_littleEndian (Definition_stringify d o).2 = d_littleEndian d
    ∧ cache_valid (Definition_stringify d o).2.
Proof.
  intros Hc Hrep.
  destruct (getByteLength_loop_representable utf8_encode utf8_decode
              (d_fields d) o (littleEndian_flag d) 0 true (proj2 Hrep))
    as (es & Hes & Hloop).
  pose proof (Definition_getByteLength_cache utf8_encode d o)
    as (Hf & _ & _ & Hle & _).
  pose proof (Definition_getByteLength_valid d o Hc) as Hc'.
  assert ((Definition_getByteLength d o).1 = Ok (length es)) as Hn.
  { unfold Definition_getByteLength.
    destruct (d_byteLength d) as [m|] eqn:Hm; simpl.
    - destruct (Hc m Hm) as [Hfixed ->]. f_equal. symmetry.
      by eapply encode_fields_fixed_length.
    - by rewrite Hloop. }
  unfold Definition_stringify.
  destruct (Definition_getByteLength d o) as [r d'] eqn:E.
  cbn [fst snd] in *. subst r. cbn [mbind result_bind].
  unfold Definition_set, littleEndian_flag in *. rewrite Hle, Hf in *.
  pose proof (Definition_set_loop_writes utf8_encode (d_fields d)
                (StreamView_create (length es)) o (default false (d_littleEndian d)))
    as Hset.
  rewrite Hes in Hset. rewrite Hset by (unfold in_bounds; simpl; lia).
  rewrite writes_fits by (simpl; rewrite length_replicate; lia).
  cbn [mbind result_bind].
  assert (Forall is_byte es) as Hbytes by (by eapply encode_fields_is_byte).
  assert (splice (replicate (length es) 0) 0 es = es) as Hsp.
  { unfold splice. simpl. rewrite drop_ge by (rewrite length_replicate; lia).
    apply app_nil_r. }
  unfold StreamView_create. cbn [dataView byteOffset]. rewrite Hsp.
  rewrite StreamView_toString_bytes by done.
  exists es. split_and!; done.
Qed.

(** A Definition used on its own, in either byte order: for an object that
    has exactly the fields' keys with values the codecs carry without loss,
    [stringify] returns a string of bytes, and [parse] of that string gives
    the object back, also when more bytes follow it: [parse] does not look
    past the last field.  The call leaves the Definition with a cache that
    is still right, so this holds again for the next call. *)
Theorem Definition_roundtrip d o :
  cache_valid d →
  representable_object (d_fields d) o (littleEndian_flag d) →
  ∃ str,
    (Definition_stringify d o).1 = Ok str
    ∧ Forall is_byte str
    ∧ cache_valid (Definition_stringify d o).2
    ∧ ∀ extra, Forall is_byte extra →
        Definition_parse d (str ++ extra) = Ok o
        ∧ Definition_parse (Definition_stringify d o).2 (str ++ extra) = Ok o.
Proof.
  intros Hc Hrep.
  destruct (Definition_stringify_encoded d o Hc Hrep) as (es & Hes & Hstr & Hf & Hle & Hc').
  exists es. split_and!; try done.
  - by eapply encode_fields_is_byte.
  - intros extra Hextra. split.
    + apply Definition_parse_encoded; done.
    + apply Definition_parse_encoded; unfold littleEndian_flag in *;
        rewrite ?Hle, ?Hf; done.
Qed.

(** ** Messages cut short *)

Lemma ArrayCodec_get_loop_truncated c l :
  (∀ v le enc k pre,
     representable c v le → encode c v le = Ok enc → (k < length enc)%nat →
     codec_get c {| dataView := pre ++ take k enc; byteOffset := length pre |} le
     = Throw (RangeError "Invalid data view length")) →
  ∀ le es k pre,
    Forall (fun v => representable c v le) l →
    encode_list (fun v => encode c v le) l = Ok es →
    (k < length es)%nat →
    ArrayCodec_get_loop (codec_get c) (length l)
      {| dataView := pre ++ take k es; byteOffset := length pre |} le
    = Throw (RangeError "Invalid data view length").
Proof.
  intros Hc le. induction l as [|v l IH]; intros es k pre Hl Hes Hk.
  - injection Hes as <-. simpl in Hk. lia.
  - apply Forall_cons in Hl as [Hv Hl]. cbn [encode_list] in Hes.
    destruct (encode c v le) as [e| |] eqn:He; [|done|done].
    destruct (encode_list _ l) as [es'| |] eqn:Hes'; [|done|done].
    simpl in Hes. injection Hes as <-.
    cbn [length ArrayCodec_get_loop].
    destruct (le_lt_dec (length e) k) as [Hge|Hlt].
    + rewrite take_app_ge by done.
      destruct (codec_get_spec utf8_encode utf8_decode c v le Hv) as (e' & He' & Hget).
      rewrite He in He'. injection He' as <-.
      rewrite Hget. cbn [mbind result_bind].
      specialize (IH es' (k - length e)%nat (pre ++ e) Hl eq_refl).
      rewrite length_app, <- app_assoc in IH. rewrite IH; [done|].
      rewrite length_app in Hk. lia.
    + rewrite take_app_le by lia.
      by rewrite (Hc v le e k pre Hv He Hlt).
Qed.

Lemma codec_get_truncated c v le enc k pre :
  representable c v le → encode c v le = Ok enc → (k < length enc)%nat →
  codec_get c {| dataView := pre ++ take k enc; byteOffset := length pre |} le
  = Throw (RangeError "Invalid data view length").
Proof.
  revert v le enc k pre.
  induction c as [| |bl|bl signed|c IH|]; intros v le enc k pre Hv Henc Hk;
    simpl in Hv.
  - destruct Hv as [b ->]. simpl in Henc. injection Henc as <-.
    rewrite accessor_bytes_length in Hk. simpl in Hk.
    simpl. unfold BooleanCodec_get.
    rewrite (Codec_get_short Uint8) by (rewrite length_take; simpl; lia). done.
  - done.
  - destruct Hv as (a & f & Ha & -> & Hf). simpl in Henc. rewrite Ha in Henc.
    injection Henc as <-. rewrite accessor_bytes_length in Hk.
    simpl. unfold FloatCodec_get. rewrite Ha.
    rewrite <- (float_accessor_byteLength _ _ Ha) at 1.
    rewrite Codec_get_short by (rewrite length_take; lia). done.
  - destruct Hv as (z & [a Ha] & -> & Hz). simpl in Henc. rewrite Ha in Henc.
    injection Henc as <-. rewrite accessor_bytes_length in Hk.
    simpl. unfold IntegerCodec_get. rewrite Ha.
    rewrite <- (integer_accessor_byteLength _ _ _ Ha) at 1.
    rewrite Codec_get_short by (rewrite length_take; lia). done.
  - destruct Hv as (l & -> & Hne & Hlen & Hl). simpl in Henc.
    destruct (encode_list _ l) as [es| |] eqn:Hes; [|done|done].
    simpl in Henc. injection Henc as <-.
    simpl. unfold ArrayCodec_get.
    destruct (le_lt_dec 4 k) as [Hge|Hlt].
    + rewrite take_app_ge by (by rewrite uint32_bytes_length).
      rewrite uint32_bytes_length.
      rewrite uint32_get_reads by lia. cbn [mbind result_bind].
      destruct (Z.ltb_spec 0 (Z.of_nat (length l))); [|destruct l; simpl in *; [done|lia]].
      rewrite Nat2Z.id.
      pose proof (ArrayCodec_get_loop_truncated c l IH le es (k - 4)
                    (pre ++ uint32_bytes (Z.of_nat (length l)) le) Hl Hes) as Hloop.
      rewrite length_app, uint32_bytes_length, <- app_assoc in Hloop.
      rewrite Hloop; [done|]. rewrite length_app, uint32_bytes_length in Hk. lia.
    + rewrite take_app_le by (rewrite uint32_bytes_length; lia).
      rewrite uint32_get_short by (rewrite length_take; lia). done.
  - destruct Hv as (s & -> & Hs). simpl. unfold StringCodec_get.
    assert (∃ u, enc = uint32_bytes (Z.of_nat (length u)) le ++ u
                 ∧ Forall is_byte u ∧ Z.of_nat (length u) < 2 ^ 32)
      as (u & -> & Hbytes & Hlen).
    { destruct Hs as [-> | (u & Hu & Hne & Hbytes & Hlen & Hdec)].
      - simpl in Henc. injection Henc as <-. exists []. rewrite app_nil_r.
        split_and!; done.
      - destruct s as [|c s].
        + simpl in Henc. injection Henc as <-. exists []. rewrite app_nil_r.
          split_and!; done.
        + simpl in Henc. rewrite Hu in Henc. simpl in Henc. injection Henc as <-.
          exists u. by rewrite concat_uint8_bytes by done. }
    destruct (le_lt_dec 4 k) as [Hge|Hlt].
    + rewrite take_app_ge by (by rewrite uint32_bytes_length).
      rewrite uint32_bytes_length.
      rewrite uint32_get_reads by lia. cbn [mbind result_bind].
      rewrite length_app, uint32_bytes_length in Hk.
      destruct (Z.ltb_spec 0 (Z.of_nat (length u))); [|lia].
      rewrite Nat2Z.id.
      pose proof (StringCodec_get_loop_truncated u
                    (pre ++ uint32_bytes (Z.of_nat (length u)) le) (k - 4) [] le Hbytes)
        as Hloop.
      rewrite length_app, uint32_bytes_length, <- app_assoc in Hloop.
      rewrite Hloop by lia. done.
    + rewrite take_app_le by (rewrite uint32_bytes_length; lia).
      rewrite uint32_get_short by (rewrite length_take; lia). done.
Qed.

Lemma Definition_get_loop_truncated fields o le :
  fields_representable fields o le →
  ∀ es k pre values,
    encode_fields fields o le = Ok es → (k < length es)%nat →
    Definition_get_loop fields
      {| dataView := pre ++ take k es; byteOffset := length pre |} values le
    = Throw (RangeError "Invalid data view length").
Proof.
  induction 1 as [|f fields (Hkey & v & Hv & Hr) Hfs IH]; intros es k pre values Hes Hk.
  - injection Hes as <-. simpl in Hk. lia.
  - cbn [encode_fields] in Hes.
    assert (prop o (f_key f) = v) as Hp by (unfold prop; by rewrite Hv).
    rewrite Hp in Hes.
    destruct (encode (f_codec f) v le) as [e| |] eqn:He; [|done|done].
    destruct (encode_fields fields o le) as [es'| |] eqn:Hes'; [|done|done].
    simpl in Hes. injection Hes as <-.
    cbn [Definition_get_loop].
    destruct (le_lt_dec (length e) k) as [Hge|Hlt].
    + rewrite take_app_ge by done.
      destruct (codec_get_spec utf8_encode utf8_decode (f_codec f) v le Hr)
        as (e' & He' & Hget).
      rewrite He in He'. injection He' as <-.
      rewrite Hget. cbn [mbind result_bind].
      rewrite bool_decide_eq_false_2 by done.
      specialize (IH es' (k - length e)%nat (pre ++ e) (<[f_key f := v]> values) eq_refl).
      rewrite length_app, <- app_assoc in IH. apply IH.
      rewrite length_app in Hk. lia.
    + rewrite take_app_le by lia.
      by rewrite (codec_get_truncated (f_codec f) v le e k pre Hr He Hlt).
Qed.


(** A message cut short is rejected, never misread: [parse] of any proper
    prefix of what [stringify] returned throws the range error of the
    buffer, whatever the fields are. *)
Theorem Definition_parse_truncated d o str k :
  cache_valid d →
  representable_object (d_fields d) o (littleEndian_flag d) →
  (Definition_stringify d o).1 = Ok str →
  (k < length str)%nat →
  Definition_parse d (take k str) = Throw (RangeError "Invalid data view length").
Proof.
  intros Hc Hrep Hstr Hk.
  destruct (Definition_stringify_encoded d o Hc Hrep) as (es & Hes & Hstr' & _).
  rewrite Hstr in Hstr'. injection Hstr' as ->.
  unfold Definition_parse.
  rewrite StreamView_createFromString_bytes
    by (apply Forall_take; by eapply encode_fields_is_byte).
  cbn [mbind result_bind]. unfold Definition_get.
  by rewrite (Definition_get_loop_truncated (d_fields d) o (littleEndian_flag d)
                (proj2 Hrep) es k [] ∅ Hes Hk).
Qed.

End CodecRoundTrips.

Lemma codec_roundtrip_witness :
  codec_get Ok (ArrayCodec (IntegerCodec 2 false))
    {| dataView := [7; 2; 0; 0; 0; 1; 1; 255; 255; 7]; byteOffset := 1 |} true
  = Ok (VArray [VNumber (Int 257); VNumber (Int 65535)],
        {| dataView := [7; 2; 0; 0; 0; 1; 1; 255; 255; 7]; byteOffset := 9 |}).
Proof.
  destruct (codec_roundtrip Ok Ok (ArrayCodec (IntegerCodec 2 false))
              (VArray [VNumber (Int 257); VNumber (Int 65535)]) true
              {| dataView := [7; 0; 0; 0; 0; 0; 0; 0; 0; 7]; byteOffset := 1 |})
    as (enc & _ & Hlen & H).
  - eexists. split_and!; [reflexivity|discriminate|vm_compute; reflexivity|].
    repeat constructor; eexists; (split_and!; [by eexists|reflexivity|vm_compute; discriminate..]).
  - unfold in_bounds. simpl. lia.
  - assert (announced Ok (ArrayCodec (IntegerCodec 2 false))
              (VArray [VNumber (Int 257); VNumber (Int 65535)]) = Ok 8%nat) as Ha
      by reflexivity.
    rewrite Ha in Hlen. injection Hlen as Hlen. rewrite <- Hlen in H.
    simpl (_ <? _)%nat in H.
    destruct H as (sv' & Hset & _ & _ & Hget).
    vm_compute in Hset. injection Hset as <-. exact Hget.
Defined.

Lemma Definition_roundtrip_witness :
  let d := Definition_new
    [{| f_key := "id"; f_type := "int16"; f_valueType := None;
        f_codec := IntegerCodec 2 true |};
     {| f_key := "on"; f_type := "boolean"; f_valueType := None;
        f_codec := BooleanCodec |}] None None (Some true) in
  let o : object := {[ "id" := VNumber (Int (-2)); "on" := VBoolean true ]} in
  Definition_parse Ok d [254; 255; 1; 42] = Ok o.
Proof.
  intros d o.
  destruct (Definition_roundtrip Ok Ok d o) as (str & Hstr & _ & _ & Hparse).
  - intros n Hn. discriminate.
  - split.
    + intros k [v Hk]. subst o. simpl.
      apply lookup_insert_Some in Hk as [[<- _]|[_ Hk]]; [repeat constructor|].
      apply lookup_singleton_Some in Hk as [<- _]. repeat constructor.
    + repeat constructor; try discriminate.
      * exists (VNumber (Int (-2))). split; [reflexivity|].
        exists (-2). split_and!; [by eexists|done|vm_compute; discriminate..].
      * exists (VBoolean true). split; [reflexivity|]. by eexists.
  - vm_compute in Hstr. injection Hstr as <-.
    apply (Hparse [42]). repeat constructor; unfold is_byte; lia.
Defined.

Lemma Definition_parse_truncated_witness :
  let d := Definition_new
    [{| f_key := "name"; f_type := "string"; f_valueType := None;
        f_codec := StringCodec |}] None None None in
  Definition_parse Ok d [0; 0; 0; 2; 104] = Throw (RangeError "Invalid data view length").
Proof.
  intros d.
  apply (Definition_parse_truncated Ok Ok d {[ "name" := VString [104; 105] ]}
           [0; 0; 0; 2; 104; 105] 5).
  - intros n Hn. discriminate.
  - split.
    + intros k [v Hk]. apply lookup_singleton_Some in Hk as [<- _]. repeat constructor.
    + repeat constructor; try discriminate.
      exists (VString [104; 105]). split; [reflexivity|].
      exists [104; 105]. split; [done|]. right. exists [104; 105].
      split_and!; try done; repeat constructor; unfold is_byte; lia.
  - reflexivity.
  - simpl. lia.
Defined.

(** * Schemas: framing, the cache and later registrations *)

Section SchemaFraming.

Variable utf8_encode : jsstring → result jsstring.
Variable utf8_decode : jsstring → result jsstring.

Abbreviation representable_object := (representable_object utf8_encode utf8_decode).
Abbreviation reachable := (reachable utf8_encode).
Abbreviation Schema_stringify := (Schema_stringify utf8_encode).
Abbreviation Schema_parse := (Schema_parse utf8_decode).

Lemma clamp_bytes (u : list Z) :
  Forall is_byte u → map (fun c => Z.max 0 (Z.min c 255)) u = u.
Proof.
  induction 1 as [|c u Hc Hu IH]; simpl; [done|].
  rewrite IH. f_equal. unfold is_byte in Hc. lia.
Qed.

(** A Schema's messages are self-delimiting: on a Schema built by
    [createSchema], [define] and [stringify] with at most 255 [define]
    calls so far, the string [stringify] returns for a registered key and
    an object its fields carry without loss is parsed back to that key and
    object whatever follows it in the string, and every proper prefix of
    it, the empty string included, makes [parse] throw the range error of
    the buffer. *)
Theorem Schema_parse_framing s key r d o str :
  reachable s → s_nextDefinitionId s <= 256 →
  s_definitions s !! key = Some r → s_heap s !! r = Some d →
  representable_object (d_fields d) o false →
  (Schema_stringify s key o).1 = Ok str →
  (∀ extra, Schema_parse s (str ++ extra) = Ok {| p_key := Some key; p_data := o |})
  ∧ (∀ k, (k < length str)%nat →
          Schema_parse s (take k str) = Throw (RangeError "Invalid data view length")).
Proof.
  intros Hs Hmax Hk Hr Hrep Hstr.
  pose proof (reachable_invariant utf8_encode s Hs) as Hinv.
  destruct (inv_definitions _ Hinv _ _ Hk) as (d' & Hr' & Hkey).
  assert (d' = d) as -> by congruence.
  destruct (inv_heap _ Hinv _ _ Hr) as (Hle & (id & Hid & Hrange & Hlook) & Hcache).
  destruct (Schema_stringify_wire utf8_encode utf8_decode s key o r d id str
              Hinv Hk Hr Hid Hstr) as (es & Hes & ->).
  replace (Z.max 0 (Z.min id 255)) with id by lia.
  assert (Forall is_byte es) as Hbytes by (by eapply encode_fields_is_byte).
  assert (is_byte id) as Hidb by (unfold is_byte; lia).
  pose proof (inv_idType _ Hinv) as Ht.
  split.
  - intros extra. rewrite (Schema_parse_uint8 utf8_encode utf8_decode) by done.
    rewrite map_app, (clamp_bytes (id :: es)) by (by apply Forall_cons).
    cbn [app]. replace (Z.max 0 (Z.min id 255)) with id by lia.
    rewrite Hlook. unfold deref.
    change (Some r ≫= (s_heap s !!.)) with (s_heap s !! r).
    rewrite Hr. unfold Definition_get, littleEndian_flag. rewrite Hle, Hkey.
    cbn [default].
    destruct (Definition_get_loop_reads utf8_encode utf8_decode (d_fields d) o false
                (proj2 Hrep)) as (es' & Hes' & Hget).
    rewrite Hes in Hes'. injection Hes' as <-.
    specialize (Hget [id] (map (fun c => Z.max 0 (Z.min c 255)) extra) ∅).
    cbn [app length] in Hget. rewrite Hget. cbn [mbind result_bind].
    by rewrite (merge_fields_representable utf8_encode utf8_decode _ _ _ Hrep).
  - intros k Hlen. rewrite (Schema_parse_uint8 utf8_encode utf8_decode) by done.
    rewrite clamp_bytes by (apply Forall_take; by apply Forall_cons).
    destruct k as [|k]; [done|].
    rewrite firstn_cons.
    replace (Z.max 0 (Z.min id 255)) with id by lia.
    rewrite Hlook. unfold deref.
    change (Some r ≫= (s_heap s !!.)) with (s_heap s !! r).
    rewrite Hr. unfold Definition_get, littleEndian_flag. rewrite Hle.
    cbn [default].
    cbn [length] in Hlen.
    by rewrite (Definition_get_loop_truncated utf8_encode utf8_decode (d_fields d) o false
                  (proj2 Hrep) es k [id] ∅ Hes) by lia.
Qed.

End SchemaFraming.

Lemma Schema_parse_framing_witness :
  let s := define_all createSchema
             [("spawn", [{| o_key := "x"; o_type := "uint16"; o_valueType := None |}]);
              ("position", [{| o_key := "x"; o_type := "int8"; o_valueType := None |};
                            {| o_key := "ok"; o_type := "boolean"; o_valueType := None |}])] in
  let o : object := {[ "x" := VNumber (Int (-3)); "ok" := VBoolean true ]} in
  Schema_parse Ok s [2; 253; 1; 9; 300] = Ok {| p_key := Some "position"; p_data := o |}
  ∧ Schema_parse Ok s [2; 253] = Throw (RangeError "Invalid data view length").
Proof.
  intros s o.
  assert (reachable Ok s) as Hs.
  { apply define_all_reachable; [apply reachable_createSchema|].
    repeat constructor; simpl; discriminate. }
  destruct (Schema_parse_framing Ok Ok s "position" 1%nat
              (Definition_new
                 [{| f_key := "x"; f_type := "int8"; f_valueType := None;
                     f_codec := IntegerCodec 1 true |};
                  {| f_key := "ok"; f_type := "boolean"; f_valueType := None;
                     f_codec := BooleanCodec |}] (Some 2) (Some "position") None)
              o [2; 253; 1] Hs) as [Hmore Hless].
  - vm_compute. discriminate.
  - reflexivity.
  - reflexivity.
  - split.
    + intros k [v Hk]. subst o. simpl.
      apply lookup_insert_Some in Hk as [[<- _]|[_ Hk]]; [repeat constructor|].
      apply lookup_singleton_Some in Hk as [<- _]. repeat constructor.
    + repeat constructor; try discriminate.
      * exists (VNumber (Int (-3))). split; [reflexivity|].
        exists (-3). split_and!; [by eexists|done|vm_compute; discriminate..].
      * exists (VBoolean true). split; [reflexivity|]. by eexists.
  - vm_compute. reflexivity.
  - split; [apply (Hmore [9; 300])|apply (Hless 2%nat); simpl; lia].
Defined.

(** ** The cached byte length *)

Section CacheTransparency.

Variable utf8_encode : jsstring → result jsstring.
Variable utf8_decode : jsstring → result jsstring.

Abbreviation reachable := (reachable utf8_encode).
Abbreviation Schema_stringify := (Schema_stringify utf8_encode).
Abbreviation Schema_parse := (Schema_parse utf8_decode).
Abbreviation Definition_getByteLength := (Definition_getByteLength utf8_encode).

Lemma Definition_getByteLength_same d d' o :
  same_definition d d' → cache_valid d → cache_valid d' →
  (Definition_getByteLength d' o).1 = (Definition_getByteLength d o).1
  ∧ same_definition (Definition_getByteLength d o).2 (Definition_getByteLength d' o).2.
Proof.
  intros (Hf & Hi & Hk & Hle) Hc Hc'. split.
  - unfold Definition_getByteLength. rewrite Hf.
    destruct (d_byteLength d') as [n'|] eqn:Hn'; destruct (d_byteLength d) as [n|] eqn:Hn.
    + destruct (Hc' n' Hn') as [_ ->], (Hc n Hn) as [_ ->]. by rewrite Hf.
    + destruct (Hc' n' Hn') as [Hfx ->]. rewrite Hf in *.
      by rewrite (getByteLength_loop_fixed utf8_encode) by done.
    + destruct (Hc n Hn) as [Hfx ->].
      by rewrite (getByteLength_loop_fixed utf8_encode) by done.
    + by destruct (getByteLength_loop _ _ _ _ _) as [[? ?]| |].
  - pose proof (Definition_getByteLength_cache utf8_encode d o) as (? & ? & ? & ? & _).
    pose proof (Definition_getByteLength_cache utf8_encode d' o) as (? & ? & ? & ? & _).
    unfold same_definition. split_and!; congruence.
Qed.

Lemma Schema_stringify_same s s' key o :
  s_definitions s' = s_definitions s → s_idType s' = s_idType s →
  Forall2 (fun d d' => same_definition d d' ∧ cache_valid d ∧ cache_valid d')
    (s_heap s) (s_heap s') →
  (Schema_stringify s' key o).1 = (Schema_stringify s key o).1.
Proof.
  intros Hd Ht Hh. unfold Schema_stringify, deref. rewrite Hd, Ht.
  destruct (s_definitions s !! key) as [r|]; [|by case_bool_decide].
  change (Some r ≫= (s_heap s' !!.)) with (s_heap s' !! r).
  change (Some r ≫= (s_heap s !!.)) with (s_heap s !! r).
  pose proof (fun y => Forall2_lookup_r _ _ _ r y Hh) as Hr.
  destruct (s_heap s' !! r) as [d'|] eqn:Hr'.
  - destruct (Hr d' eq_refl) as (d & -> & Hsame & Hc & Hc').
    destruct (_codecs (s_idType s)) as [idCodec|]; [|done].
    destruct (Definition_getByteLength_same d d' o Hsame Hc Hc') as (Hn & Hf & Hi & _ & Hle).
    destruct (Definition_getByteLength d' o) as [n' e'].
    destruct (Definition_getByteLength d o) as [n e].
    cbn [fst snd] in *. subst n'. rewrite Hi.
    unfold Definition_set, littleEndian_flag. by rewrite Hf, Hle.
  - assert (s_heap s !! r = None) as ->; [|by case_bool_decide].
    apply lookup_ge_None. apply lookup_ge_None in Hr'.
    by rewrite (Forall2_length _ _ _ Hh).
Qed.

Lemma Schema_parse_same s s' str :
  s_definitionsById s' = s_definitionsById s → s_idType s' = s_idType s →
  Forall2 (fun d d' => same_definition d d' ∧ cache_valid d ∧ cache_valid d')
    (s_heap s) (s_heap s') →
  Schema_parse s' str = Schema_parse s str.
Proof.
  intros Hi Ht Hh. unfold Schema_parse, deref. rewrite Hi, Ht.
  destruct (StreamView_createFromString str) as [sv| |]; [|done|done].
  cbn [mbind result_bind].
  destruct (_codecs (s_idType s)) as [idCodec|]; [|done].
  destruct (codec_get utf8_decode idCodec sv false) as [[id sv']| |]; [|done|done].
  cbn [mbind result_bind].
  destruct id as [| | |[id|]| |]; try done.
  destruct (s_definitionsById s !! id) as [r|]; [|done].
  change (Some r ≫= (s_heap s' !!.)) with (s_heap s' !! r).
  change (Some r ≫= (s_heap s !!.)) with (s_heap s !! r).
  pose proof (fun y => Forall2_lookup_r _ _ _ r y Hh) as Hr.
  destruct (s_heap s' !! r) as [d'|] eqn:Hr'.
  - destruct (Hr d' eq_refl) as (d & -> & (Hf & _ & Hk & Hle) & _).
    unfold Definition_get, littleEndian_flag. by rewrite Hf, Hk, Hle.
  - assert (s_heap s !! r = None) as ->; [|done].
    apply lookup_ge_None. apply lookup_ge_None in Hr'.
    by rewrite (Forall2_length _ _ _ Hh).
Qed.

Lemma Schema_stringify_heap s key o :
  schema_invariant s →
  Forall2 (fun d d' => same_definition d d' ∧ cache_valid d ∧ cache_valid d')
    (s_heap s) (s_heap (Schema_stringify s key o).2).
Proof.
  intros Hinv.
  pose proof (Schema_stringify_invariant utf8_encode s key o Hinv) as Hinv'.
  pose proof (Schema_stringify_tables utf8_encode s key o) as (_ & _ & _ & _ & Hlen & Hh).
  apply Forall2_same_length_lookup_2; [done|].
  intros r d d' Hr Hr'.
  destruct (Hh _ _ Hr') as (d0 & Hd0 & Hrel).
  assert (d0 = d) as -> by congruence.
  split_and!.
  - destruct Hrel as [->|[o' ->]]; [done|].
    pose proof (Definition_getByteLength_cache utf8_encode d o') as (? & ? & ? & ? & _).
    done.
  - by destruct (inv_heap _ Hinv _ _ Hr) as (_ & _ & ?).
  - by destruct (inv_heap _ Hinv' _ _ Hr') as (_ & _ & ?).
Qed.

(** The cached byte length never shows: on a Schema built by
    [createSchema], [define] and [stringify], an earlier [stringify] call,
    whether it returned or threw, changes the result of no later
    [stringify] or [parse] call. *)
Theorem Schema_stringify_leaves_results s key o :
  reachable s →
  (∀ key' o', (Schema_stringify (Schema_stringify s key o).2 key' o').1
              = (Schema_stringify s key' o').1)
  ∧ (∀ str, Schema_parse (Schema_stringify s key o).2 str = Schema_parse s str).
Proof.
  intros Hs. pose proof (reachable_invariant utf8_encode s Hs) as Hinv.
  pose proof (Schema_stringify_tables utf8_encode s key o) as (Hd & Hi & _ & Ht & _).
  pose proof (Schema_stringify_heap s key o Hinv) as Hh.
  split.
  - intros key' o'. by apply Schema_stringify_same.
  - intros str. by apply Schema_parse_same.
Qed.

End CacheTransparency.

Lemma Schema_stringify_leaves_results_witness :
  let s := (Schema_define createSchema "spawn"
              [{| o_key := "x"; o_type := "uint16"; o_valueType := None |}]).2 in
  let s' := (Schema_stringify Ok s "spawn" {[ "x" := VNumber (Int 258) ]}).2 in
  s' ≠ s
  ∧ (Schema_stringify Ok s' "spawn" {[ "x" := VNumber (Int 7) ]}).1 = Ok [1; 0; 7]
  ∧ Schema_parse Ok s' [1; 0; 7]
    = Ok {| p_key := Some "spawn"; p_data := {[ "x" := VNumber (Int 7) ]} |}.
Proof.
  intros s s'.
  assert (reachable Ok s) as Hs
    by (apply reachable_define; [apply reachable_createSchema | discriminate]).
  destruct (Schema_stringify_leaves_results Ok Ok s "spawn" {[ "x" := VNumber (Int 258) ]} Hs)
    as [Hstr Hparse].
  fold s' in Hstr, Hparse. split_and!.
  - vm_compute. discriminate.
  - rewrite Hstr. reflexivity.
  - rewrite Hparse. reflexivity.
Defined.

(** ** [define] on a Schema in use *)

Section DefineConservative.

Variable utf8_encode : jsstring → result jsstring.
Variable utf8_decode : jsstring → result jsstring.

Abbreviation reachable := (reachable utf8_encode).
Abbreviation Schema_stringify := (Schema_stringify utf8_encode).
Abbreviation Schema_parse := (Schema_parse utf8_decode).

(** [define] only adds: on a Schema built by [createSchema], [define] and
    [stringify], a [define] call, accepted or not, leaves [stringify] of
    every other key with the result it had, and leaves [parse] of every
    string with the result it had, unless that was the error for the id the
    call has just taken.  In particular a key that is registered again keeps
    its old id readable.  The key is any but [__proto__], which the table
    cannot hold as a property. *)
Theorem Schema_define_conservative s key fields :
  reachable s → key ≠ "__proto__" →
  (∀ key' o, key' ≠ key →
     (Schema_stringify (Schema_define s key fields).2 key' o).1
     = (Schema_stringify s key' o).1)
  ∧ (∀ str,
       Schema_parse s str ≠ Throw (IdNotDefined (s_nextDefinitionId s)) →
       Schema_parse (Schema_define s key fields).2 str = Schema_parse s str).
Proof.
  intros Hs _. pose proof (reachable_invariant utf8_encode s Hs) as Hinv.
  pose proof (Schema_define_tables s key fields) as (_ & Ht & Htab).
  set (s' := (Schema_define s key fields).2) in *. clearbody s'.
  assert (∀ r, r ≠ length (s_heap s) → s_heap s' !! r = s_heap s !! r) as Hheap.
  { intros r Hr. destruct (Field_map fields) as [fs| |];
      destruct Htab as (-> & _); try done.
    destruct (le_lt_dec (length (s_heap s)) r).
    - rewrite !lookup_ge_None_2; [done|lia|rewrite length_app; simpl; lia].
    - by rewrite lookup_app_l. }
  split.
  - intros key' o Hne.
    assert (s_definitions s' !! key' = s_definitions s !! key') as Hk.
    { destruct (Field_map fields) as [fs| |]; destruct Htab as (_ & -> & _); try done.
      by rewrite lookup_insert_ne. }
    unfold Schema_stringify, deref. rewrite Hk, Ht.
    destruct (s_definitions s !! key') as [r|] eqn:Hr; [|by case_bool_decide].
    change (Some r ≫= (s_heap s' !!.)) with (s_heap s' !! r).
    change (Some r ≫= (s_heap s !!.)) with (s_heap s !! r).
    destruct (inv_definitions _ Hinv _ _ Hr) as (d & Hd & _).
    rewrite Hheap by (apply lookup_lt_Some in Hd; lia). rewrite Hd.
    destruct (_codecs (s_idType s)); [|done].
    by destruct (Definition_getByteLength _ _ _).
  - intros str. unfold Schema_parse, deref. rewrite Ht.
    destruct (StreamView_createFromString str) as [sv| |]; [|done|done].
    cbn [mbind result_bind].
    destruct (_codecs (s_idType s)) as [idCodec|]; [|done].
    destruct (codec_get utf8_decode idCodec sv false) as [[id sv']| |]; [|done|done].
    cbn [mbind result_bind].
    destruct id as [| | |[id|]| |]; try done.
    destruct (decide (id = s_nextDefinitionId s)) as [->|Hid].
    + assert (s_definitionsById s !! s_nextDefinitionId s = None) as ->; [|done].
      destruct (s_definitionsById s !! s_nextDefinitionId s) as [r|] eqn:Hr; [|done].
      destruct (inv_definitionsById _ Hinv _ _ Hr) as (d & Hd & Hdid).
      destruct (inv_heap _ Hinv _ _ Hd) as (_ & (id & Hid & Hrange & _) & _).
      rewrite Hdid in Hid. injection Hid as <-. lia.
    + intros _.
      assert (s_definitionsById s' !! id = s_definitionsById s !! id) as ->.
      { destruct (Field_map fields) as [fs| |]; destruct Htab as (_ & _ & ->); try done.
        by rewrite lookup_insert_ne. }
      destruct (s_definitionsById s !! id) as [r|] eqn:Hr; [|done].
      change (Some r ≫= (s_heap s' !!.)) with (s_heap s' !! r).
      change (Some r ≫= (s_heap s !!.)) with (s_heap s !! r).
      destruct (inv_definitionsById _ Hinv _ _ Hr) as (d & Hd & _).
      by rewrite Hheap by (apply lookup_lt_Some in Hd; lia).
Qed.

End DefineConservative.

Lemma Schema_define_conservative_witness :
  let s := (Schema_define createSchema "spawn"
              [{| o_key := "x"; o_type := "uint16"; o_valueType := None |}]).2 in
  let s' := (Schema_define s "spawn"
               [{| o_key := "name"; o_type := "string"; o_valueType := None |}]).2 in
  Schema_parse Ok s' [1; 1; 2]
  = Ok {| p_key := Some "spawn"; p_data := {[ "x" := VNumber (Int 258) ]} |}.
Proof.
  intros s s'.
  assert (reachable Ok s) as Hs
    by (apply reachable_define; [apply reachable_createSchema | discriminate]).
  destruct (Schema_define_conservative Ok Ok s "spawn"
              [{| o_key := "name"; o_type := "string"; o_valueType := None |}] Hs)
    as [_ Hparse]; [discriminate|].
  fold s' in Hparse. rewrite (Hparse [1; 1; 2]); [reflexivity|].
  vm_compute. discriminate.
Defined.

(** * What [set] and [stringify] leave alone *)

Lemma writes_frame sv enc sv' :
  in_bounds sv → Forall is_byte enc → writes sv enc = Ok sv' →
  length (dataView sv') = length (dataView sv)
  ∧ (byteOffset sv ≤ byteOffset sv' ≤ length (dataView sv))%nat
  ∧ take (byteOffset sv) (dataView sv') = take (byteOffset sv) (dataView sv)
  ∧ drop (byteOffset sv') (dataView sv') = drop (byteOffset sv') (dataView sv)
  ∧ Forall is_byte (take (byteOffset sv' - byteOffset sv)
                      (drop (byteOffset sv) (dataView sv'))).
Proof.
  intros Hsv Henc Hw. apply writes_Ok in Hw as (Hfit & -> & ->).
  unfold in_bounds in Hsv. split_and!.
  - by apply splice_length.
  - lia.
  - lia.
  - by apply take_splice.
  - by apply drop_splice.
  - unfold splice. rewrite drop_app_length' by (rewrite length_take; lia).
    replace (byteOffset sv + length enc - byteOffset sv)%nat with (length enc) by lia.
    by rewrite take_app_length.
Qed.

Section SetFrame.

Variable utf8_encode : jsstring → result jsstring.

Abbreviation codec_set := (codec_set utf8_encode).
Abbreviation Definition_set := (Definition_set utf8_encode).
Abbreviation Definition_stringify := (Definition_stringify utf8_encode).
Abbreviation Schema_stringify := (Schema_stringify utf8_encode).

(** What [set] never does.  For every codec and every value, and for every
    Definition and every object: a [set] call that returns has left the
    buffer at its length, has moved the cursor forward and not past the end,
    has changed no byte before the old cursor and none from the new cursor
    on, and has stored integers between 0 and 255 in between. *)
Theorem set_frame :
  (∀ c v le sv sv',
     in_bounds sv → codec_set c sv v le = Ok sv' →
     length (dataView sv') = length (dataView sv)
     ∧ (byteOffset sv ≤ byteOffset sv' ≤ length (dataView sv))%nat
     ∧ take (byteOffset sv) (dataView sv') = take (byteOffset sv) (dataView sv)
     ∧ drop (byteOffset sv') (dataView sv') = drop (byteOffset sv') (dataView sv)
     ∧ Forall is_byte (take (byteOffset sv' - byteOffset sv)
                         (drop (byteOffset sv) (dataView sv'))))
  ∧ (∀ d o sv sv',
       in_bounds sv → Definition_set d sv o = Ok sv' →
       length (dataView sv') = length (dataView sv)
       ∧ (byteOffset sv ≤ byteOffset sv' ≤ length (dataView sv))%nat
       ∧ take (byteOffset sv) (dataView sv') = take (byteOffset sv) (dataView sv)
       ∧ drop (byteOffset sv') (dataView sv') = drop (byteOffset sv') (dataView sv)
       ∧ Forall is_byte (take (byteOffset sv' - byteOffset sv)
                           (drop (byteOffset sv) (dataView sv')))).
Proof.
  split.
  - intros c v le sv sv' Hsv Hset.
    pose proof (codec_set_spec utf8_encode c v le sv Hsv) as Hspec.
    destruct (encode utf8_encode c v le) as [enc| |] eqn:Henc;
      [|by rewrite Hset in Hspec..].
    rewrite Hspec in Hset. apply (writes_frame sv enc); [done| |done].
    by eapply encode_is_byte.
  - intros d o sv sv' Hsv Hset. unfold Definition_set in Hset.
    pose proof (Definition_set_loop_writes utf8_encode (d_fields d) sv o
                  (littleEndian_flag d) Hsv) as Hspec.
    destruct (encode_fields utf8_encode (d_fields d) o (littleEndian_flag d))
      as [enc| |] eqn:Henc; [|by rewrite Hset in Hspec..].
    rewrite Hspec in Hset. apply (writes_frame sv enc); [done| |done].
    by eapply encode_fields_is_byte.
Qed.

Lemma toString_create_bytes n sv es :
  Forall is_byte es → writes (StreamView_create n) es = Ok sv →
  Forall is_byte (StreamView_toString sv) ∧ length (StreamView_toString sv) = n.
Proof.
  intros Hes Hw. apply writes_create in Hw as (Hle & Hd & _).
  assert (Forall is_byte (dataView sv)) as Hb.
  { rewrite Hd. apply Forall_app. split; [done|].
    apply Forall_replicate. unfold is_byte. lia. }
  rewrite StreamView_toString_bytes by done. split; [done|].
  rewrite Hd, length_app, length_replicate. lia.
Qed.

(** Messages are strings of bytes: whenever [stringify] returns, of a
    Definition or of a Schema, whatever the object and the state of the
    cache, every code unit of the string is between 0 and 255. *)
Theorem stringify_bytes :
  (∀ d o str, (Definition_stringify d o).1 = Ok str → Forall is_byte str)
  ∧ (∀ s key o str, (Schema_stringify s key o).1 = Ok str → Forall is_byte str).
Proof.
  split.
  - intros d o str. unfold Definition_stringify.
    destruct (Definition_getByteLength utf8_encode d o) as [[n| |] d']; cbn [fst];
      [|done|done].
    cbn [mbind result_bind]. unfold Definition_set.
    pose proof (Definition_set_loop_writes utf8_encode (d_fields d')
                  (StreamView_create n) o (littleEndian_flag d')) as Hspec.
    destruct (Definition_set_loop _ _ _ _ _) as [sv| |] eqn:Hset; [|done|done].
    intros [= <-].
    destruct (encode_fields utf8_encode (d_fields d') o (littleEndian_flag d'))
      as [es| |] eqn:Hes;
      [|by specialize (Hspec ltac:(unfold in_bounds; simpl; lia))..].
    symmetry in Hspec. apply toString_create_bytes in Hspec.
    + by destruct Hspec.
    + by eapply encode_fields_is_byte.
    + unfold in_bounds. simpl. lia.
  - intros s key o str. unfold Schema_stringify.
    destruct (s_definitions s !! key) as [r|];
      [|case_bool_decide; [destruct (_codecs _)|]; done].
    destruct (deref s (Some r)) as [d|];
      [|case_bool_decide; [destruct (_codecs _)|]; done].
    destruct (_codecs (s_idType s)) as [idCodec|]; [|done].
    destruct (Definition_getByteLength utf8_encode d o) as [n d']. cbn [fst].
    destruct (codec_byteLength idCodec) as [w|]; [|by destruct n].
    destruct (d_id d') as [id|]; [|by destruct n].
    destruct n as [n| |]; [|done|done]. cbn [mbind result_bind].
    assert (in_bounds (StreamView_create (w + n))) as Hsv0
      by (unfold in_bounds; simpl; lia).
    pose proof (codec_set_spec utf8_encode idCodec (VNumber (Int id)) false
                  (StreamView_create (w + n)) Hsv0) as Hid.
    destruct (codec_set idCodec _ _ _) as [sv1| |] eqn:Hset1; [|done|done].
    destruct (encode utf8_encode idCodec (VNumber (Int id)) false) as [e1| |] eqn:He1;
      [|by simpl in Hid..].
    symmetry in Hid.
    pose proof (writes_in_bounds _ _ _ Hid) as Hsv1.
    unfold Definition_set.
    pose proof (Definition_set_loop_writes utf8_encode (d_fields d') sv1 o
                  (littleEndian_flag d') Hsv1) as Hspec.
    cbn [mbind result_bind].
    destruct (Definition_set_loop _ _ _ _ _) as [sv| |] eqn:Hset; [|done|done].
    destruct (encode_fields utf8_encode (d_fields d') o (littleEndian_flag d'))
      as [es| |] eqn:Hes; [|by simpl in Hspec..].
    intros [= <-].
    assert (writes (StreamView_create (w + n)) (e1 ++ es) = Ok sv) as Hw.
    { rewrite <- writes_app, Hid. simpl. by rewrite <- Hspec. }
    apply toString_create_bytes in Hw; [by destruct Hw|].
    apply Forall_app. split; [by eapply encode_is_byte|by eapply encode_fields_is_byte].
Qed.

End SetFrame.

Lemma set_frame_witness :
  let sv := {| dataView := [1; 2; 3; 4]; byteOffset := 1 |} in
  let sv' := {| dataView := [1; 255; 255; 4]; byteOffset := 3 |} in
  codec_set Ok (IntegerCodec 2 false) sv (VNumber (Int 70000)) true = Ok sv'
  ∧ take (byteOffset sv) (dataView sv') = take (byteOffset sv) (dataView sv)
  ∧ drop (byteOffset sv') (dataView sv') = drop (byteOffset sv') (dataView sv).
Proof.
  intros sv sv'.
  assert (codec_set Ok (IntegerCodec 2 false) sv (VNumber (Int 70000)) true = Ok sv')
    as Hset by (vm_compute; reflexivity).
  split; [exact Hset|].
  destruct (set_frame Ok) as [Hcodec _].
  destruct (Hcodec (IntegerCodec 2 false) (VNumber (Int 70000)) true sv sv')
    as (_ & _ & Htake & Hdrop & _).
  - unfold in_bounds. simpl. lia.
  - exact Hset.
  - split; [exact Htake|exact Hdrop].
Defined.

Lemma stringify_bytes_witness :
  let d := Definition_new
    [{| f_key := "x"; f_type := "uint16"; f_valueType := None;
        f_codec := IntegerCodec 2 false |}] None None None in
  (Definition_stringify Ok d {[ "x" := VNumber (Int 70000) ]}).1 = Ok [255; 255]
  ∧ Forall is_byte [255; 255].
Proof.
  intros d.
  assert ((Definition_stringify Ok d {[ "x" := VNumber (Int 70000) ]}).1 = Ok [255; 255])
    as Hstr by (vm_compute; reflexivity).
  split; [exact Hstr|].
  destruct (stringify_bytes Ok) as [Hdef _].
  exact (Hdef d {[ "x" := VNumber (Int 70000) ]} [255; 255] Hstr).
Defined.

(** ** Strings and buffers *)

(** Strings and buffers.  [createFromString] never throws: it stores one
    byte per code unit, a code unit above 255 as 255, and leaves the cursor
    at 0, so [toString] of the result is the string with its code units
    clamped, and the string itself when it is a string of bytes.  The other
    way round, [createFromString] of [toString] of a buffer of bytes is that
    buffer, with the cursor at 0. *)
Theorem StreamView_string_roundtrip :
  (∀ string, ∃ sv,
     StreamView_createFromString string = Ok sv
     ∧ byteOffset sv = 0%nat
     ∧ StreamView_toArray sv = map (fun c => Z.max 0 (Z.min c 255)) string
     ∧ StreamView_toString sv = map (fun c => Z.max 0 (Z.min c 255)) string
     ∧ (Forall is_byte string → StreamView_toString sv = string))
  ∧ (∀ sv, Forall is_byte (dataView sv) →
       StreamView_createFromString (StreamView_toString sv)
       = Ok {| dataView := dataView sv; byteOffset := 0 |}).
Proof.
  split.
  - intros string. eexists. split; [apply StreamView_createFromString_spec|].
    rewrite concat_uint8_bytes_clamp.
    assert (Forall is_byte (map (fun c => Z.max 0 (Z.min c 255)) string)) as Hb.
    { apply Forall_map, Forall_true. intros c. unfold is_byte. simpl. lia. }
    split_and!; try done.
    + by apply StreamView_toString_bytes.
    + intros Hs. rewrite StreamView_toString_bytes by done. simpl.
      rewrite <- (concat_uint8_bytes_clamp _ false). by apply concat_uint8_bytes.
  - intros sv Hb. rewrite StreamView_toString_bytes by done.
    by apply StreamView_createFromString_bytes.
Qed.

Lemma StreamView_string_roundtrip_witness :
  StreamView_createFromString
    (StreamView_toString {| dataView := [104; 0; 255]; byteOffset := 2 |})
  = Ok {| dataView := [104; 0; 255]; byteOffset := 0 |}.
Proof.
  destruct StreamView_string_roundtrip as [_ H].
  apply (H {| dataView := [104; 0; 255]; byteOffset := 2 |}).
  repeat constructor; unfold is_byte; lia.
Defined.

(** * Decoding arbitrary input *)

Lemma Codec_get_cases a sv le :
  Codec_get (accessor_byteLength a) a sv le
  = if (length (dataView sv) <? byteOffset sv + accessor_byteLength a)%nat
    then Throw (RangeError "Invalid data view length")
    else Ok (accessor_value a (take (accessor_byteLength a)
                                 (drop (byteOffset sv) (dataView sv))) le,
             {| dataView := dataView sv;
                byteOffset := (byteOffset sv + accessor_byteLength a)%nat |}).
Proof.
  destruct (Nat.ltb_spec (length (dataView sv)) (byteOffset sv + accessor_byteLength a))
    as [H|H]; [by apply Codec_get_range|].
  destruct (split_at (dataView sv) (byteOffset sv) (accessor_byteLength a) H)
    as (Hsplit & Hpre & Hmid).
  destruct sv as [bytes off]. simpl in *.
  pose proof (Codec_get_reads a (take off bytes)
                (take (accessor_byteLength a) (drop off bytes))
                (drop (off + accessor_byteLength a) bytes) le Hmid) as Hget.
  rewrite Hpre, Hmid, <- Hsplit in Hget. exact Hget.
Qed.

Lemma integer_accessor_range bl signed a bytes le :
  integer_accessor bl signed = Some a →
  length bytes = bl → Forall is_byte bytes →
  ∃ z, accessor_value a bytes le = Int z
       ∧ IntegerCodec_minValue bl signed <= z <= IntegerCodec_maxValue bl signed.
Proof.
  intros Ha Hlen Hb.
  destruct bl as [|[|[|[|[|]]]]], signed; simpl in Ha; try discriminate;
    injection Ha as <-; unfold accessor_value; eexists; (split; [reflexivity|]);
    match goal with
    | |- _ <= IntegerPolyfill_get ?p _ _ _ <= _ =>
        apply (IntegerPolyfill_get_pattern p bytes le); simpl; [set_solver|done|done]
    end.
Qed.

Lemma uint8_get_cases sv le :
  uint8_get sv le
  = if (length (dataView sv) <? byteOffset sv + 1)%nat
    then Throw (RangeError "Invalid data view length")
    else Ok (accessor_value Uint8 (take 1 (drop (byteOffset sv) (dataView sv))) le,
             {| dataView := dataView sv; byteOffset := (byteOffset sv + 1)%nat |}).
Proof. apply (Codec_get_cases Uint8). Qed.

Lemma uint32_get_cases sv le :
  uint32_get sv le
  = if (length (dataView sv) <? byteOffset sv + 4)%nat
    then Throw (RangeError "Invalid data view length")
    else Ok (accessor_value Uint32 (take 4 (drop (byteOffset sv) (dataView sv))) le,
             {| dataView := dataView sv; byteOffset := (byteOffset sv + 4)%nat |}).
Proof. apply (Codec_get_cases Uint32). Qed.

Lemma byte_flags_booleans bits byte bit remaining :
  ∃ l, byte_flags bits byte bit remaining = map VBoolean l.
Proof.
  revert bit remaining. induction bits as [|bits IH]; intros bit remaining.
  - by exists [].
  - destruct remaining as [|remaining]; [by exists []|].
    destruct (IH (bit + 1) remaining) as (l & Hl). simpl. rewrite Hl.
    by eexists (_ :: l).
Qed.

Lemma codecs_valid type c : _codecs type = Some c → codec_valid c.
Proof.
  unfold _codecs. repeat case_bool_decide; intros [= <-]; simpl; by eauto.
Qed.

Lemma Field_new_valid o f :
  Field_new o = Ok f → codec_valid (f_codec f) ∧ f_key f = o_key o.
Proof.
  unfold Field_new. case_bool_decide; [done|].
  destruct (negb (isValidType (Some (o_type o)))); [done|].
  case_bool_decide.
  - destruct (_ || _); [done|]. unfold ArrayCodec_new.
    destruct (o_valueType o ≫= _codecs) as [c|] eqn:Hc; [|done].
    intros [= <-]. split; [|done]. simpl.
    destruct (o_valueType o) as [t|]; [|done]. by eapply codecs_valid.
  - destruct (_codecs (o_type o)) as [c|] eqn:Hc; [|done].
    intros [= <-]. split; [|done]. by eapply codecs_valid.
Qed.

Lemma Field_map_valid options fs :
  Field_map options = Ok fs →
  Forall (fun f => codec_valid (f_codec f)) fs ∧ map f_key fs = map o_key options.
Proof.
  revert fs. induction options as [|o options IH]; intros fs; simpl.
  - by intros [= <-].
  - destruct (Field_new o) as [f| |] eqn:Hf; [|done|done]. simpl.
    destruct (Field_map options) as [fs'| |]; [|done|done]. simpl.
    intros [= <-]. destruct (Field_new_valid o f Hf) as [Hv Hk].
    destruct (IH fs' eq_refl) as [Hvs Hks].
    split; [by constructor|]. simpl. by rewrite Hk, Hks.
Qed.

Section Decoding.

Variable utf8_decode : jsstring → result jsstring.

Abbreviation decodes := (decodes utf8_decode).

Lemma decodes_bind {A B} (r : result A) (k : A → result B) (P : A → Prop) (Q : B → Prop) :
  decodes r P → (∀ a, P a → decodes (k a) Q) → decodes (r ≫= k) Q.
Proof. destruct r as [a| |]; simpl; [by auto|done|done]. Qed.

Lemma decodes_mono {A} (r : result A) (P Q : A → Prop) :
  decodes r P → (∀ a, P a → Q a) → decodes r Q.
Proof. destruct r as [a| |]; simpl; [by auto|done|done]. Qed.

(** One read through an accessor. *)
Lemma Codec_get_decodes a sv le :
  decodes (Codec_get (accessor_byteLength a) a sv le)
    (fun p => p.1 = accessor_value a (take (accessor_byteLength a)
                                        (drop (byteOffset sv) (dataView sv))) le
              ∧ dataView p.2 = dataView sv
              ∧ byteOffset p.2 = (byteOffset sv + accessor_byteLength a)%nat
              ∧ (byteOffset p.2 ≤ length (dataView sv))%nat).
Proof.
  rewrite Codec_get_cases.
  destruct (Nat.ltb_spec (length (dataView sv)) (byteOffset sv + accessor_byteLength a));
    simpl; [by left|done].
Qed.

Lemma uint8_get_decodes sv le :
  Forall is_byte (dataView sv) →
  decodes (uint8_get sv le)
    (fun p => (∃ b, p.1 = Int b ∧ is_byte b)
              ∧ dataView p.2 = dataView sv
              ∧ (byteOffset sv < byteOffset p.2 ≤ length (dataView sv))%nat).
Proof.
  intros Hb. eapply decodes_mono; [apply (Codec_get_decodes Uint8)|].
  intros [n sv'] (Hn & Hd & Ho & Hle). simpl in *. split_and!; [|done|lia|lia].
  destruct (integer_accessor_range 1 false Uint8
              (take 1 (drop (byteOffset sv) (dataView sv))) le eq_refl)
    as (z & Hz & Hr).
  - rewrite length_take, length_drop. lia.
  - by apply Forall_take, Forall_drop.
  - exists z. split; [congruence|]. unfold is_byte. simpl in Hr. lia.
Qed.

Lemma uint32_get_decodes sv le :
  Forall is_byte (dataView sv) →
  decodes (uint32_get sv le)
    (fun p => (∃ n, p.1 = Int n)
              ∧ dataView p.2 = dataView sv
              ∧ (byteOffset sv < byteOffset p.2 ≤ length (dataView sv))%nat).
Proof.
  intros Hb. eapply decodes_mono; [apply (Codec_get_decodes Uint32)|].
  intros [n sv'] (Hn & Hd & Ho & Hle). simpl in *. split_and!; [|done|lia|lia].
  rewrite Hn. by eexists.
Qed.

Lemma getLength_loop_decodes fuel : ∀ sv acc i byte le,
  Forall is_byte (dataView sv) →
  decodes (_getLength_loop fuel sv acc i byte le)
    (fun p => dataView p.2 = dataView sv
              ∧ (byteOffset sv ≤ byteOffset p.2)%nat
              ∧ (byteOffset sv < byteOffset p.2 → byteOffset p.2 ≤ length (dataView sv))%nat).
Proof.
  induction fuel as [|fuel IH]; intros sv len i byte le Hb; simpl.
  { split_and!; [done|lia|lia]. }
  destruct (negb _); [|simpl; split_and!; [done|lia|lia]].
  eapply decodes_bind; [by apply uint8_get_decodes|].
  intros [b sv1] ((b' & Hb' & _) & Hd & Ho). simpl in *.
  eapply decodes_mono; [apply IH; by rewrite Hd|].
  intros [l sv2] (Hd2 & Ho2 & Hin). simpl in *. rewrite Hd in *.
  split_and!; [congruence|lia|]. intros _.
  destruct (decide (byteOffset sv1 < byteOffset sv2)%nat); [by apply Hin|lia].
Qed.

Lemma BooleanArrayCodec_get_loop_decodes byteLength : ∀ sv remaining le,
  Forall is_byte (dataView sv) →
  decodes (BooleanArrayCodec_get_loop byteLength sv remaining le)
    (fun p => (∃ l, p.1 = map VBoolean l)
              ∧ dataView p.2 = dataView sv
              ∧ (byteOffset sv ≤ byteOffset p.2)%nat
              ∧ (byteOffset sv < byteOffset p.2 → byteOffset p.2 ≤ length (dataView sv))%nat).
Proof.
  induction byteLength as [|n IH]; intros sv remaining le Hb;
    cbn [BooleanArrayCodec_get_loop].
  { simpl. split_and!; [by exists []|done|lia|lia]. }
  eapply decodes_bind; [by apply uint8_get_decodes|].
  intros [b sv1] (_ & Hd & Ho). cbn [fst snd] in *.
  eapply decodes_bind; [apply IH; by rewrite Hd|].
  intros [vs sv2] ((l & Hl) & Hd2 & Ho2 & Hin). unfold decodes. cbn [fst snd] in *.
  rewrite Hd in *.
  split_and!; [|congruence|lia|].
  - destruct (byte_flags_booleans 8 (ToInt32 b) 0 remaining) as (l' & ->).
    exists (l' ++ l). by rewrite Hl, map_app.
  - intros _. destruct (decide (byteOffset sv1 < byteOffset sv2)%nat); [by apply Hin|lia].
Qed.

Lemma StringCodec_get_loop_decodes n : ∀ sv string le,
  Forall is_byte (dataView sv) →
  decodes (StringCodec_get_loop n sv string le)
    (fun p => dataView p.2 = dataView sv
              ∧ (byteOffset sv ≤ byteOffset p.2)%nat
              ∧ (byteOffset sv < byteOffset p.2 → byteOffset p.2 ≤ length (dataView sv))%nat).
Proof.
  induction n as [|n IH]; intros sv string le Hb; simpl.
  { split_and!; [done|lia|lia]. }
  eapply decodes_bind; [by apply uint8_get_decodes|].
  intros [b sv1] ((b' & Hb' & _) & Hd & Ho). simpl in *. subst b.
  eapply decodes_mono; [apply IH; by rewrite Hd|].
  intros [l sv2] (Hd2 & Ho2 & Hin). simpl in *. rewrite Hd in *.
  split_and!; [congruence|lia|]. intros _.
  destruct (decide (byteOffset sv1 < byteOffset sv2)%nat); [by apply Hin|lia].
Qed.

Lemma ArrayCodec_get_loop_decodes c n :
  (∀ sv le, Forall is_byte (dataView sv) →
     decodes (codec_get utf8_decode c sv le)
       (fun p => decoded c p.1 ∧ dataView p.2 = dataView sv
                 ∧ (byteOffset sv < byteOffset p.2 ≤ length (dataView sv))%nat)) →
  ∀ sv le, Forall is_byte (dataView sv) →
    decodes (ArrayCodec_get_loop (codec_get utf8_decode c) n sv le)
      (fun p => Forall (decoded c) p.1 ∧ dataView p.2 = dataView sv
                ∧ (byteOffset sv ≤ byteOffset p.2)%nat
                ∧ (byteOffset sv < byteOffset p.2 → byteOffset p.2 ≤ length (dataView sv))%nat).
Proof.
  intros Hc. induction n as [|n IH]; intros sv le Hb; simpl.
  { split_and!; [done|done|lia|lia]. }
  eapply decodes_bind; [by apply Hc|].
  intros [v sv1] (Hv & Hd & Ho). simpl in *.
  eapply decodes_bind; [apply IH; by rewrite Hd|].
  intros [vs sv2] (Hvs & Hd2 & Ho2 & Hin). simpl in *. rewrite Hd in *.
  split_and!; [by constructor|congruence|lia|]. intros _.
  destruct (decide (byteOffset sv1 < byteOffset sv2)%nat); [by apply Hin|lia].
Qed.

Lemma BooleanCodec_get_decodes sv le :
  Forall is_byte (dataView sv) →
  decodes (BooleanCodec_get sv le)
    (fun p => dataView p.2 = dataView sv
              ∧ (byteOffset sv < byteOffset p.2 ≤ length (dataView sv))%nat).
Proof.
  intros Hb. unfold BooleanCodec_get.
  change (Codec_get 1 Uint8 sv le) with (uint8_get sv le).
  eapply decodes_bind; [by apply uint8_get_decodes|].
  by intros [n sv1] (_ & Hd & Ho).
Qed.

Lemma IntegerCodec_get_decodes bl signed sv le :
  is_Some (integer_accessor bl signed) → Forall is_byte (dataView sv) →
  decodes (IntegerCodec_get bl signed sv le)
    (fun p => (∃ z, p.1 = Int z
                    ∧ IntegerCodec_minValue bl signed <= z
                      <= IntegerCodec_maxValue bl signed)
              ∧ dataView p.2 = dataView sv
              ∧ (byteOffset sv < byteOffset p.2 ≤ length (dataView sv))%nat).
Proof.
  intros [a Ha] Hb. unfold IntegerCodec_get. rewrite Ha.
  pose proof (Codec_get_decodes a sv le) as Hget.
  pose proof (integer_accessor_byteLength _ _ _ Ha) as Hbl.
  rewrite Hbl in Hget.
  eapply decodes_mono; [exact Hget|].
  intros [n sv'] (Hn & Hd & Ho & Hle). simpl in *.
  assert (bl ≠ 0)%nat by (by destruct bl).
  split_and!; [|done|lia|lia].
  destruct (integer_accessor_range bl signed a
              (take bl (drop (byteOffset sv) (dataView sv))) le Ha)
    as (z & Hz & Hr).
  - rewrite length_take, length_drop. lia.
  - by apply Forall_take, Forall_drop.
  - exists z. split; [congruence|done].
Qed.

Lemma FloatCodec_get_decodes bl sv le :
  is_Some (float_accessor bl) →
  decodes (FloatCodec_get bl sv le)
    (fun p => (∃ f, p.1 = Float f)
              ∧ dataView p.2 = dataView sv
              ∧ (byteOffset sv < byteOffset p.2 ≤ length (dataView sv))%nat).
Proof.
  intros [a Ha]. unfold FloatCodec_get. rewrite Ha.
  pose proof (Codec_get_decodes a sv le) as Hget.
  pose proof (float_accessor_byteLength _ _ Ha) as Hbl.
  rewrite Hbl in Hget.
  eapply decodes_mono; [exact Hget|].
  intros [n sv'] (Hn & Hd & Ho & Hle). simpl in *.
  assert (bl ≠ 0)%nat by (by destruct bl).
  split_and!; [|done|lia|lia].
  rewrite Hn. destruct bl as [|[|[|[|[|[|[|[|[|]]]]]]]]]; simpl in Ha; try discriminate;
    injection Ha as <-; by eexists.
Qed.

Lemma BooleanArrayCodec__getLength_decodes sv le :
  Forall is_byte (dataView sv) →
  decodes (BooleanArrayCodec__getLength sv le)
    (fun p => dataView p.2 = dataView sv
              ∧ (byteOffset sv < byteOffset p.2 ≤ length (dataView sv))%nat).
Proof.
  intros Hb. unfold BooleanArrayCodec__getLength.
  set (fuel := S (length (dataView sv))). cbn [_getLength_loop].
  change (negb (js_and (Int 128) (Int 128) =? 0)) with true. cbv iota.
  eapply decodes_bind; [by apply uint8_get_decodes|].
  intros [b sv1] (_ & Hd & Ho). cbn [fst snd] in *.
  eapply decodes_mono; [apply getLength_loop_decodes; by rewrite Hd|].
  intros [l sv2] (Hd2 & Ho2 & Hin). cbn [fst snd] in *. rewrite Hd in *.
  split; [congruence|].
  destruct (decide (byteOffset sv1 < byteOffset sv2)%nat); [specialize (Hin ltac:(done))|]; lia.
Qed.

Lemma BooleanArrayCodec_get_decodes sv le :
  Forall is_byte (dataView sv) →
  decodes (BooleanArrayCodec_get sv le)
    (fun p => (∃ l, p.1 = VArray (map VBoolean l))
              ∧ dataView p.2 = dataView sv
              ∧ (byteOffset sv < byteOffset p.2 ≤ length (dataView sv))%nat).
Proof.
  intros Hb. unfold BooleanArrayCodec_get.
  eapply decodes_bind; [by apply BooleanArrayCodec__getLength_decodes|].
  intros [len sv1] (Hd & Ho). cbn [fst snd] in *.
  eapply decodes_bind; [apply BooleanArrayCodec_get_loop_decodes; by rewrite Hd|].
  intros [vs sv2] ((l & Hl) & Hd2 & Ho2 & Hin). unfold decodes. cbn [fst snd] in *.
  rewrite Hd in *. split; [exists l; by rewrite Hl|]. split; [congruence|].
  destruct (decide (byteOffset sv1 < byteOffset sv2)%nat); [specialize (Hin ltac:(done))|]; lia.
Qed.

Lemma StringCodec_get_decodes sv le :
  Forall is_byte (dataView sv) →
  decodes (StringCodec_get utf8_decode sv le)
    (fun p => (∃ s, p.1 = VString s)
              ∧ dataView p.2 = dataView sv
              ∧ (byteOffset sv < byteOffset p.2 ≤ length (dataView sv))%nat).
Proof.
  intros Hb. unfold StringCodec_get.
  eapply decodes_bind; [by apply uint32_get_decodes|].
  intros [n sv1] ((len & Hn) & Hd & Ho). cbn [fst snd] in *. subst n.
  destruct (0 <? len); [|simpl; split_and!; [by eexists|done|lia|lia]].
  eapply decodes_bind; [apply StringCodec_get_loop_decodes; by rewrite Hd|].
  intros [string sv2] (Hd2 & Ho2 & Hin). cbn [fst snd] in *. rewrite Hd in *.
  destruct (utf8_decode string) as [s|e|] eqn:Hs; simpl.
  - split; [by eexists|]. split; [congruence|].
    destruct (decide (byteOffset sv1 < byteOffset sv2)%nat);
      [specialize (Hin ltac:(done))|]; lia.
  - right. by exists string.
  - by exists string.
Qed.

(** Decoding a buffer that [set] has not written.  Every codec the
    constructors build, at any cursor of any buffer of bytes: [get] returns a
    value of the codec's type (a boolean, a number, inside the range for an
    integer type, a string, an array of such values), leaves the buffer as it
    is and moves the cursor forward and not past the end; or it throws the
    range error of the buffer; or it ends as [utf8.decode] ends on the bytes
    of a string.  Nothing else can happen. *)
Theorem codec_get_decodes c sv le :
  codec_valid c → Forall is_byte (dataView sv) →
  decodes (codec_get utf8_decode c sv le)
    (fun p => decoded c p.1 ∧ dataView p.2 = dataView sv
              ∧ (byteOffset sv < byteOffset p.2 ≤ length (dataView sv))%nat).
Proof.
  revert sv le. induction c as [| |bl|bl signed|c IH|]; intros sv le Hc Hb;
    cbn [codec_get codec_valid decoded] in *.
  - eapply decodes_bind; [by apply BooleanCodec_get_decodes|].
    intros [b sv1] (Hd & Ho). simpl in *. split_and!; [by eexists|done|lia|lia].
  - eapply decodes_mono; [by apply BooleanArrayCodec_get_decodes|]. by intros [v sv1].
  - eapply decodes_bind; [by apply FloatCodec_get_decodes|].
    intros [n sv1] ((f & Hf) & Hd & Ho). simpl in *. subst n.
    split_and!; [by eexists|done|lia|lia].
  - eapply decodes_bind; [by apply IntegerCodec_get_decodes|].
    intros [n sv1] ((z & Hz & Hr) & Hd & Ho). simpl in *. subst n.
    split_and!; [by eexists|done|lia|lia].
  - unfold ArrayCodec_get.
    eapply decodes_bind; [by apply uint32_get_decodes|].
    intros [n sv1] ((len & Hn) & Hd & Ho). cbn [fst snd] in *. subst n.
    destruct (0 <? len); [|simpl; split_and!; [by exists []|done|lia|lia]].
    eapply decodes_bind.
    { apply (ArrayCodec_get_loop_decodes c); [|by rewrite Hd].
      intros sv' le' Hb'. by apply IH. }
    intros [vs sv2] (Hvs & Hd2 & Ho2 & Hin). unfold decodes. cbn [fst snd] in *.
    rewrite Hd in *. split; [by exists vs|]. split; [congruence|].
    destruct (decide (byteOffset sv1 < byteOffset sv2)%nat);
      [specialize (Hin ltac:(done))|]; lia.
  - eapply decodes_mono; [by apply StringCodec_get_decodes|]. by intros [v sv1].
Qed.

Lemma Definition_get_loop_decodes fields : ∀ sv values le,
  Forall (fun f => codec_valid (f_codec f) ∧ f_key f ≠ "__proto__") fields →
  Forall is_byte (dataView sv) →
  decodes (Definition_get_loop utf8_decode fields sv values le)
    (fun p => (∀ k, is_Some (p.1 !! k)
                    ↔ k ∈ map f_key fields ∨ is_Some (values !! k))
              ∧ (∀ k v, p.1 !! k = Some v →
                   (∃ f, f ∈ fields ∧ f_key f = k ∧ decoded (f_codec f) v)
                   ∨ values !! k = Some v)).
Proof.
  induction fields as [|f fields IH]; intros sv values le Hf Hb;
    cbn [Definition_get_loop].
  { simpl. split.
    - intros k. split; [by right|]. intros [Hk|Hk]; [by apply elem_of_nil in Hk|done].
    - intros k v Hk. by right. }
  apply Forall_cons in Hf as [[Hv Hkey] Hf].
  eapply decodes_bind; [by apply codec_get_decodes|].
  intros [v sv1] (Hdec & Hd & _). cbn [fst snd] in *.
  rewrite bool_decide_eq_false_2 by done.
  eapply decodes_mono; [apply IH; [done|by rewrite Hd]|].
  intros [o sv2] [Hdom Hval]. cbn [fst snd] in *. split.
  - intros k. rewrite Hdom, map_cons, elem_of_cons.
    destruct (decide (k = f_key f)) as [->|Hne].
    + rewrite lookup_insert_eq. split; [by auto|]. intros _. right. by eexists.
    + rewrite lookup_insert_ne by done. split; [intros [?|?]; by auto|].
      intros [[?|?]|?]; by auto.
  - intros k w Hk. destruct (Hval k w Hk) as [(f' & Hin & Hk' & Hd')|Hold].
    + left. exists f'. split; [by apply elem_of_cons; right|done].
    + destruct (decide (k = f_key f)) as [->|Hne].
      * rewrite lookup_insert_eq in Hold. injection Hold as <-.
        left. exists f. split; [by apply elem_of_cons; left|done].
      * rewrite lookup_insert_ne in Hold by done. by right.
Qed.

(** Parsing a string that [stringify] has not produced.  For a Definition
    that [define] has built from fields with keys other than [__proto__],
    and any string at all: [parse] returns an object that has exactly the
    fields' keys, each with a value of the type of a field of that key; or
    it throws the range error of the buffer; or it ends as [utf8.decode]
    ends on the bytes of a string field.  Nothing else can happen. *)
Theorem Definition_parse_decodes options d string :
  define options = Ok d →
  Forall (fun o => o_key o ≠ "__proto__") options →
  decodes (Definition_parse utf8_decode d string)
    (fun o => (∀ k, is_Some (o !! k) ↔ k ∈ map o_key options)
              ∧ (∀ k v, o !! k = Some v →
                   ∃ f, f ∈ d_fields d ∧ f_key f = k ∧ decoded (f_codec f) v)).
Proof.
  intros Hd Hkeys. unfold define in Hd.
  destruct (Field_map options) as [fs| |] eqn:Hfs; [|done|done].
  injection Hd as <-. cbn [d_fields Definition_new].
  destruct (Field_map_valid options fs Hfs) as [Hvalid Hmap].
  assert (Forall (fun f => codec_valid (f_codec f) ∧ f_key f ≠ "__proto__") fs) as Hf.
  { apply Forall_and. split; [done|].
    apply Forall_forall. intros f Hin Heq.
    assert (f_key f ∈ map o_key options) as Hk
      by (rewrite <- Hmap; by apply list_elem_of_fmap_2).
    apply list_elem_of_fmap in Hk as (o & Ho & Hino).
    rewrite Forall_forall in Hkeys. apply (Hkeys o Hino). congruence. }
  unfold Definition_parse. rewrite StreamView_createFromString_spec.
  cbn [mbind result_bind]. unfold Definition_get. cbn [d_fields Definition_new].
  eapply decodes_bind.
  { apply Definition_get_loop_decodes; [done|].
    cbn [dataView]. rewrite concat_uint8_bytes_clamp.
    apply Forall_map, Forall_true. intros c. unfold is_byte. simpl. lia. }
  intros [o sv] [Hdom Hval]. cbn [fst snd] in *. split.
  - intros k. rewrite Hdom, Hmap, lookup_empty. split; [|by auto].
    intros [?|[? ?]]; done.
  - intros k v Hk. destruct (Hval k v Hk) as [?|Hold]; [done|].
    by rewrite lookup_empty in Hold.
Qed.

End Decoding.

Lemma codec_get_decodes_witness :
  let sv := {| dataView := [0; 0; 0; 2; 200; 7; 9]; byteOffset := 0 |} in
  decodes Ok (codec_get Ok (ArrayCodec (IntegerCodec 1 true)) sv false)
    (fun p => decoded (ArrayCodec (IntegerCodec 1 true)) p.1
              ∧ dataView p.2 = dataView sv
              ∧ (byteOffset sv < byteOffset p.2 ≤ length (dataView sv))%nat).
Proof.
  intros sv. apply codec_get_decodes.
  - simpl. by eexists.
  - repeat constructor; unfold is_byte; lia.
Defined.

Lemma Definition_parse_decodes_witness :
  let options := [{| o_key := "id"; o_type := "int16"; o_valueType := None |};
                  {| o_key := "name"; o_type := "string"; o_valueType := None |}] in
  let d := Definition_new
    [{| f_key := "id"; f_type := "int16"; f_valueType := None;
        f_codec := IntegerCodec 2 true |};
     {| f_key := "name"; f_type := "string"; f_valueType := None;
        f_codec := StringCodec |}] None None None in
  decodes Ok (Definition_parse Ok d [255; 254; 0; 0; 0; 9; 104])
    (fun o => (∀ k, is_Some (o !! k) ↔ k ∈ map o_key options)
              ∧ (∀ k v, o !! k = Some v →
                   ∃ f, f ∈ d_fields d ∧ f_key f = k ∧ decoded (f_codec f) v)).
Proof.
  intros options d. apply Definition_parse_decodes.
  - reflexivity.
  - repeat constructor; discriminate.
Defined.

(** * The float64 codec: every double round-trips *)

(** ** Binary64: the exact operations *)

Ltac pow_atoms :=
  repeat match goal with
         | |- context [2 ^ ?x] =>
             let P := fresh "P" in set (P := 2 ^ x) in *; clearbody P
         | H : context [2 ^ ?x] |- _ =>
             let P := fresh "P" in set (P := 2 ^ x) in *; clearbody P
         end.

Lemma digits2_pos_bounds (m : positive) :
  2 ^ (Z.pos (digits2_pos m) - 1) <= Z.pos m < 2 ^ Z.pos (digits2_pos m).
Proof.
  induction m as [m IH|m IH|]; cbn [digits2_pos].
  - rewrite Pos2Z.inj_succ. change (Z.pos m~1) with (2 * Z.pos m + 1).
    replace (Z.succ (Z.pos (digits2_pos m)) - 1) with (Z.succ (Z.pos (digits2_pos m) - 1)) by lia.
    rewrite !Z.pow_succ_r by lia. pow_atoms. lia.
  - rewrite Pos2Z.inj_succ. change (Z.pos m~0) with (2 * Z.pos m).
    replace (Z.succ (Z.pos (digits2_pos m)) - 1) with (Z.succ (Z.pos (digits2_pos m) - 1)) by lia.
    rewrite !Z.pow_succ_r by lia. pow_atoms. lia.
  - simpl. lia.
Qed.

Lemma digits2_pos_unique (m : positive) (d : Z) :
  2 ^ (d - 1) <= Z.pos m < 2 ^ d → Z.pos (digits2_pos m) = d.
Proof.
  intros [Hlo Hhi]. pose proof (digits2_pos_bounds m) as [Hlo' Hhi'].
  set (d' := Z.pos (digits2_pos m)) in *.
  assert (0 < d).
  { destruct (Z.ltb_spec 0 d); [done|]. rewrite Z.pow_neg_r in Hlo by lia.
    assert (2 ^ d <= 2 ^ 0) by (apply Z.pow_le_mono_r; lia). simpl in *. lia. }
  destruct (Z.lt_trichotomy d' d) as [Hlt|[Heq|Hgt]]; [|done|].
  - assert (2 ^ d' <= 2 ^ (d - 1)) by (apply Z.pow_le_mono_r; lia). lia.
  - assert (2 ^ d <= 2 ^ (d' - 1)) by (apply Z.pow_le_mono_r; lia). lia.
Qed.

Lemma digits2_pos_shift (m p : positive) (k : Z) :
  0 <= k → Z.pos p = Z.pos m * 2 ^ k →
  Z.pos (digits2_pos p) = Z.pos (digits2_pos m) + k.
Proof.
  intros Hk Hp. apply digits2_pos_unique.
  pose proof (digits2_pos_bounds m) as [Hlo Hhi].
  set (d := Z.pos (digits2_pos m)) in *.
  assert (0 < d) by (subst d; lia).
  replace (d + k - 1) with ((d - 1) + k) by lia.
  rewrite !Z.pow_add_r by lia. rewrite Hp.
  assert (0 < 2 ^ k) by (apply Z.pow_pos_nonneg; lia). nia.
Qed.

Lemma bounded_spec (m : positive) (e : Z) :
  bounded prec emax m e = true
  ↔ (Z.pos (digits2_pos m) = 53 ∧ -1074 <= e <= 971)
    ∨ (Z.pos (digits2_pos m) < 53 ∧ e = -1074).
Proof.
  unfold bounded, canonical_mantissa, fexp, SpecFloat.emin, prec, emax.
  rewrite andb_true_iff, Z.eqb_eq, Z.leb_le. lia.
Qed.

Lemma shr_1_even z :
  0 < z →
  shr_1 {| shr_m := 2 * z; shr_r := false; shr_s := false |}
  = {| shr_m := z; shr_r := false; shr_s := false |}.
Proof. destruct z as [|p|p]; [lia|reflexivity|lia]. Qed.

Lemma iter_pos_shr_exact (n : positive) :
  ∀ z, 0 < z →
    SpecFloat.iter_pos shr_1 n {| shr_m := z * 2 ^ Z.pos n; shr_r := false; shr_s := false |}
    = {| shr_m := z; shr_r := false; shr_s := false |}.
Proof.
  induction n as [n IH|n IH|]; intros z Hz; cbn [SpecFloat.iter_pos].
  - change (Z.pos n~1) with (2 * Z.pos n + 1).
    replace (z * 2 ^ (2 * Z.pos n + 1)) with (2 * ((z * 2 ^ Z.pos n) * 2 ^ Z.pos n))
      by (rewrite Z.pow_add_r, Z.pow_1_r by lia;
          replace (2 * Z.pos n) with (Z.pos n + Z.pos n) by lia;
          rewrite Z.pow_add_r by lia; ring).
    assert (0 < 2 ^ Z.pos n) by (apply Z.pow_pos_nonneg; lia).
    rewrite shr_1_even by nia. rewrite IH by nia. by apply IH.
  - change (Z.pos n~0) with (2 * Z.pos n).
    replace (z * 2 ^ (2 * Z.pos n)) with ((z * 2 ^ Z.pos n) * 2 ^ Z.pos n)
      by (replace (2 * Z.pos n) with (Z.pos n + Z.pos n) by lia;
          rewrite Z.pow_add_r by lia; ring).
    assert (0 < 2 ^ Z.pos n) by (apply Z.pow_pos_nonneg; lia).
    rewrite IH by nia. by apply IH.
  - rewrite Z.pow_1_r, Z.mul_comm. by apply shr_1_even.
Qed.

(** Rounding a value that the format holds is exact. *)
Lemma binary_round_aux_exact (sx : bool) (M m : positive) (ex e : Z) :
  bounded prec emax m e = true → ex <= e →
  Z.pos M = Z.pos m * 2 ^ (e - ex) →
  binary_round_aux prec emax sx (Z.pos M) ex loc_Exact = S754_finite sx m e.
Proof.
  intros Hb He HM.
  pose proof (digits2_pos_shift m M (e - ex) ltac:(lia) HM) as Hd.
  pose proof Hb as Hb'. unfold bounded in Hb'.
  apply andb_true_iff in Hb' as [Hcan Hle].
  unfold canonical_mantissa in Hcan. apply Z.eqb_eq in Hcan.
  unfold binary_round_aux, shr_fexp. cbn [Zdigits2 shr_record_of_loc].
  replace (Z.pos (digits2_pos M) + ex) with (Z.pos (digits2_pos m) + e) by lia.
  rewrite Hcan. unfold shr.
  destruct (e - ex) as [|n|n] eqn:Hn; [| |lia].
  - assert (M = m) as -> by lia.
    cbn [shr_m loc_of_shr_record round_nearest_even Zdigits2].
    replace (ex + 0) with ex by lia.
    assert (ex = e) as -> by lia. rewrite Hcan, Z.sub_diag. cbn [shr_m].
    by rewrite Hle.
  - rewrite HM, iter_pos_shr_exact by lia.
    cbn [shr_m loc_of_shr_record round_nearest_even Zdigits2].
    replace (ex + Z.pos n) with e by lia. rewrite Hcan, Z.sub_diag. cbn [shr_m].
    by rewrite Hle.
Qed.

Lemma Pos_iter_xO (m d : positive) : Z.pos (Pos.iter xO m d) = Z.pos m * 2 ^ Z.pos d.
Proof.
  revert m. induction d as [|d IH] using Pos.peano_ind; intros m.
  - simpl. lia.
  - rewrite Pos.iter_succ. change (Z.pos (Pos.iter xO m d)~0) with (2 * Z.pos (Pos.iter xO m d)).
    rewrite IH, Pos2Z.inj_succ, Z.pow_succ_r by lia. ring.
Qed.

Lemma binary_round_exact (sx : bool) (mx m : positive) (ex e : Z) :
  bounded prec emax m e = true →
  (ex <= e ∧ Z.pos mx = Z.pos m * 2 ^ (e - ex)
   ∨ e < ex ∧ Z.pos m = Z.pos mx * 2 ^ (ex - e)) →
  binary_round prec emax sx mx ex = S754_finite sx m e.
Proof.
  intros Hb Hcase.
  pose proof Hb as Hb'. unfold bounded in Hb'.
  apply andb_true_iff in Hb' as [Hcan _].
  unfold canonical_mantissa in Hcan. apply Z.eqb_eq in Hcan.
  unfold binary_round, shl_align.
  destruct Hcase as [[He HM]|[He HM]].
  - pose proof (digits2_pos_shift m mx (e - ex) ltac:(lia) HM) as Hd.
    replace (Z.pos (digits2_pos mx) + ex) with (Z.pos (digits2_pos m) + e) by lia.
    rewrite Hcan. destruct (e - ex) as [|n|n] eqn:Hn; [| |lia].
    + apply binary_round_aux_exact; [done|lia|]. by rewrite Hn.
    + apply binary_round_aux_exact; [done|lia|]. by rewrite Hn.
  - pose proof (digits2_pos_shift mx m (ex - e) ltac:(lia) HM) as Hd.
    replace (Z.pos (digits2_pos mx) + ex) with (Z.pos (digits2_pos m) + e) by lia.
    rewrite Hcan. destruct (e - ex) as [|n|n] eqn:Hn; [lia|lia|].
    assert (Pos.iter xO mx n = m) as ->.
    { apply Pos2Z.inj. rewrite Pos_iter_xO, HM. f_equal. f_equal. lia. }
    apply binary_round_aux_exact; [done|lia|]. rewrite Z.sub_diag. simpl. lia.
Qed.

Lemma Prim2SF_bounded f s m e :
  Prim2SF f = S754_finite s m e → bounded prec emax m e = true.
Proof. intros H. pose proof (Prim2SF_valid f) as Hv. by rewrite H in Hv. Qed.

Lemma fexp_normal d e : d = 53 → -1074 <= e → fexp prec emax (d + e) = e.
Proof. intros -> He. unfold fexp, SpecFloat.emin, prec, emax. lia. Qed.

Lemma mul_exact x y sx mx ex sy my ey m e :
  Prim2SF x = S754_finite sx mx ex → Prim2SF y = S754_finite sy my ey →
  bounded prec emax m e = true → ex + ey <= e →
  Z.pos mx * Z.pos my = Z.pos m * 2 ^ (e - (ex + ey)) →
  Prim2SF (x * y) = S754_finite (xorb sx sy) m e.
Proof.
  intros Hx Hy Hb He Hm. rewrite mul_spec, Hx, Hy. unfold SF64mul, SFmul.
  apply binary_round_aux_exact; [done|done|]. by rewrite Pos2Z.inj_mul.
Qed.

Lemma Prim2SF_one : Prim2SF 1 = S754_finite false 4503599627370496 (-52).
Proof. reflexivity. Qed.

Lemma Math_pow2_spec k :
  Prim2SF (Math_pow2 k) = binary_round prec emax false 4503599627370496 (-52 + k).
Proof. unfold Math_pow2. by rewrite Z_ldexp_spec, Prim2SF_one. Qed.

Lemma Math_pow2_normal k :
  -1022 <= k <= 1023 →
  Prim2SF (Math_pow2 k) = S754_finite false 4503599627370496 (k - 52).
Proof.
  intros Hk. rewrite Math_pow2_spec. apply binary_round_exact.
  - apply bounded_spec. left. split; [reflexivity|lia].
  - left. split; [lia|]. replace (k - 52 - (-52 + k)) with 0 by lia. reflexivity.
Qed.

Lemma Math_pow2_subnormal k :
  -1074 <= k < -1022 →
  Prim2SF (Math_pow2 k) = S754_finite false (Z.to_pos (2 ^ (k + 1074))) (-1074).
Proof.
  intros Hk. rewrite Math_pow2_spec.
  assert (0 < 2 ^ (k + 1074)) as Hpos by (apply Z.pow_pos_nonneg; lia).
  assert (2 ^ (k + 1074) * 2 ^ (-1074 - (-52 + k)) = 4503599627370496) as Hprod.
  { rewrite <- Z.pow_add_r by lia. replace (k + 1074 + (-1074 - (-52 + k))) with 52 by lia.
    reflexivity. }
  apply binary_round_exact.
  - apply bounded_spec. right. split; [|done].
    assert (Z.pos (digits2_pos (Z.to_pos (2 ^ (k + 1074)))) = k + 1075) as ->; [|lia].
    apply digits2_pos_unique. rewrite Z2Pos.id by done.
    replace (k + 1075 - 1) with (k + 1074) by lia.
    split; [lia|]. apply Z.pow_lt_mono_r; lia.
  - left. split; [lia|]. rewrite Z2Pos.id by done. lia.
Qed.

Lemma Math_pow2_overflow k :
  1024 <= k → Prim2SF (Math_pow2 k) = S754_infinity false.
Proof.
  intros Hk. rewrite Math_pow2_spec.
  unfold binary_round, shl_align.
  change (Z.pos (digits2_pos 4503599627370496)) with 53.
  rewrite fexp_normal by lia. rewrite Z.sub_diag.
  unfold binary_round_aux, shr_fexp. cbn [Zdigits2 shr_record_of_loc].
  change (Z.pos (digits2_pos 4503599627370496)) with 53.
  rewrite fexp_normal by lia. rewrite Z.sub_diag.
  cbn [shr shr_m loc_of_shr_record round_nearest_even Zdigits2].
  change (Z.pos (digits2_pos 4503599627370496)) with 53.
  rewrite fexp_normal by lia. rewrite Z.sub_diag. cbn [shr shr_m].
  destruct (Z.leb_spec (-52 + k) (emax - prec)) as [H|H]; [|done].
  unfold emax, prec in H. lia.
Qed.

Lemma Math_floor_log2_finite x s m e :
  Prim2SF x = S754_finite s m e →
  Math_floor_log2 x = e + Z.pos (digits2_pos m) - 1.
Proof.
  intros Hx. unfold Math_floor_log2.
  pose proof (Z_frexp_spec x) as Hf. destruct (Z.frexp x) as [mm ee].
  rewrite Hx in Hf. unfold SFfrexp in Hf. cbn [snd].
  destruct (Z.leb_spec prec (Z.pos (digits2_pos m))) as [Hd|Hd].
  - injection Hf as _ ->. pose proof (Prim2SF_bounded _ _ _ _ Hx) as Hb.
    apply bounded_spec in Hb. unfold prec in *. lia.
  - injection Hf as _ ->. unfold prec in *. lia.
Qed.

Lemma abs_finite x s m e :
  Prim2SF x = S754_finite s m e → Prim2SF (abs x) = S754_finite false m e.
Proof. intros Hx. by rewrite abs_spec, Hx. Qed.

Lemma Z_to_float_0 : Z_to_float 0 = 0%float.
Proof. reflexivity. Qed.

(** The canonical form of a positive integer below 2^53. *)
Lemma Z_to_float_pos (z : positive) :
  Z.pos (digits2_pos z) <= 53 →
  ∃ m, Prim2SF (Z_to_float (Z.pos z)) = S754_finite false m (Z.pos (digits2_pos z) - 53)
       ∧ Z.pos (digits2_pos m) = 53
       ∧ Z.pos m = Z.pos z * 2 ^ (53 - Z.pos (digits2_pos z)).
Proof.
  intros Hd. set (d := Z.pos (digits2_pos z)) in *.
  assert (0 < Z.pos z * 2 ^ (53 - d)) as Hpos.
  { assert (0 < 2 ^ (53 - d)) by (apply Z.pow_pos_nonneg; lia). lia. }
  set (m := Z.to_pos (Z.pos z * 2 ^ (53 - d))).
  assert (Z.pos m = Z.pos z * 2 ^ (53 - d)) as Hm by (subst m; by rewrite Z2Pos.id).
  assert (Z.pos (digits2_pos m) = 53) as Hdm.
  { rewrite (digits2_pos_shift z m (53 - d)) by (lia || done). subst d. lia. }
  assert (bounded prec emax m (d - 53) = true) as Hb.
  { apply bounded_spec. left. split; [done|]. subst d. lia. }
  exists m. split_and!; [|done|done].
  unfold Z_to_float. rewrite Prim2SF_SF2Prim.
  - cbn [binary_normalize]. apply binary_round_exact; [done|].
    destruct (decide (d = 53)) as [Heq|Hne].
    + left. split; [lia|]. rewrite Hm, Heq. simpl. lia.
    + right. split; [lia|]. rewrite Hm. f_equal. f_equal. lia.
  - cbn [binary_normalize].
    rewrite (binary_round_exact false z m 0 (d - 53)); [done|done|].
    destruct (decide (d = 53)) as [Heq|Hne].
    + left. split; [lia|]. rewrite Hm, Heq. simpl. lia.
    + right. split; [lia|]. rewrite Hm. f_equal. f_equal. lia.
Qed.

(** ** [FloatPolyfill.set] takes a double apart *)

Lemma Pos_compare_cont_Eq (a b : positive) :
  Pos.compare_cont Eq a b = (Z.pos a ?= Z.pos b).
Proof. reflexivity. Qed.

Lemma div_zero_finite y sy my ey :
  Prim2SF y = S754_finite sy my ey → (0 / y)%float = 0%float ∨ (0 / y)%float = (-0)%float.
Proof.
  intros Hy. assert (Prim2SF (0 / y) = S754_zero sy) as H.
  { rewrite div_spec, Hy. reflexivity. }
  destruct sy; [right|left]; by apply Prim2SF_inj.
Qed.

Lemma add_zero_finite x s m e z :
  Prim2SF x = S754_finite s m e → (z = 0%float ∨ z = (-0)%float) → (x + z)%float = x.
Proof.
  intros Hx Hz. apply Prim2SF_inj. rewrite add_spec, Hx.
  by destruct Hz as [-> | ->].
Qed.

(** The magnitude of a normal double, scaled into [1, 2). *)
Lemma scale_to_unit x s m e :
  Prim2SF x = S754_finite s m e → Z.pos (digits2_pos m) = 53 →
  Prim2SF (abs x * Math_pow2 (- (e + 52))) = S754_finite false m (-52).
Proof.
  intros Hx Hd. pose proof (Prim2SF_bounded _ _ _ _ Hx) as Hb.
  pose proof Hb as Hb'. apply bounded_spec in Hb' as [[_ He]|[? _]]; [|lia].
  assert (bounded prec emax m (-52) = true) as Hb1
    by (apply bounded_spec; left; split; [done|lia]).
  pose proof (abs_finite _ _ _ _ Hx) as Ha.
  destruct (decide (e = 971)) as [->|Hne].
  - change (- (971 + 52)) with (-1023).
    rewrite (mul_exact _ _ _ _ _ _ _ _ m (-52) Ha (Math_pow2_subnormal (-1023) ltac:(lia)));
      [done|done|lia|].
    reflexivity.
  - rewrite (mul_exact _ _ _ _ _ _ _ _ m (-52) Ha (Math_pow2_normal (- (e + 52)) ltac:(lia)));
      [done|done|lia|].
    replace (-52 - (e + (- (e + 52) - 52))) with 52 by lia. reflexivity.
Qed.

Lemma ltb_unit_1 x m :
  Prim2SF x = S754_finite false m (-52) → Z.pos (digits2_pos m) = 53 →
  (x <? 1)%float = false.
Proof.
  intros Hx Hd. rewrite ltb_spec, Hx, Prim2SF_one. unfold SFltb, SFcompare.
  rewrite Z.compare_refl, Pos_compare_cont_Eq.
  pose proof (digits2_pos_bounds m) as [Hlo _]. rewrite Hd in Hlo.
  change (2 ^ (53 - 1)) with 4503599627370496 in Hlo.
  by destruct (Z.compare_spec (Z.pos m) 4503599627370496); [| lia |].
Qed.

Lemma leb_2_unit x m :
  Prim2SF x = S754_finite false m (-52) → (2 <=? x)%float = false.
Proof. intros Hx. rewrite leb_spec, Hx. reflexivity. Qed.

Lemma fp_round_normal x s m e :
  Prim2SF x = S754_finite s m e → Z.pos (digits2_pos m) = 53 →
  fp_round float64 x = (abs x, Math_pow2 (- (e + 52)), e + 52).
Proof.
  intros Hx Hd. pose proof (Prim2SF_bounded _ _ _ _ Hx) as Hb.
  apply bounded_spec in Hb as [[_ He]|[? _]]; [|lia].
  pose proof (abs_finite _ _ _ _ Hx) as Ha.
  pose proof (scale_to_unit x s m e Hx Hd) as Hu.
  unfold fp_round.
  rewrite (Math_floor_log2_finite _ _ _ _ Ha), Hd.
  replace (e + 53 - 1) with (e + 52) by lia.
  rewrite (ltb_unit_1 _ m Hu Hd).
  change (fp_exponentBias float64) with 1023. change (fp_roundTo float64) with 0%float.
  destruct (Z.leb_spec 1 (e + 52 + 1023)) as [_|?]; [|lia].
  assert (∃ sy my ey, Prim2SF (Math_pow2 (- (e + 52))) = S754_finite sy my ey)
    as (sy & my & ey & Hc).
  { destruct (decide (e = 971)) as [->|Hne].
    - do 3 eexists. by apply (Math_pow2_subnormal (-1023)).
    - do 3 eexists. apply Math_pow2_normal. lia. }
  rewrite (add_zero_finite _ _ _ _ _ Ha (div_zero_finite _ _ _ _ Hc)).
  by rewrite (leb_2_unit _ m Hu).
Qed.

Lemma eqb_finite_refl x s m e :
  Prim2SF x = S754_finite s m e → (x =? x)%float = true.
Proof.
  intros Hx. rewrite FloatAxioms.eqb_spec, Hx. unfold SFeqb, SFcompare.
  rewrite Z.compare_refl, Pos_compare_cont_Eq, Z.compare_refl. by destruct s.
Qed.

Lemma eqb_finite_special x s m e :
  Prim2SF x = S754_finite s m e →
  (x =? infinity)%float = false ∧ (x =? neg_infinity)%float = false
  ∧ (x =? 0)%float = false.
Proof.
  intros Hx. rewrite !FloatAxioms.eqb_spec, Hx.
  change (Prim2SF infinity) with (S754_infinity false).
  change (Prim2SF neg_infinity) with (S754_infinity true).
  change (Prim2SF 0) with (S754_zero false).
  by destruct s.
Qed.

Lemma ltb_finite_zero x s m e :
  Prim2SF x = S754_finite s m e → (x <? 0)%float = s.
Proof.
  intros Hx. rewrite ltb_spec, Hx. change (Prim2SF 0) with (S754_zero false).
  by destruct s.
Qed.

(** An integer below 2^53 as a double, from its value scaled by a power
    of two. *)
Lemma scaled_integer u (z : positive) (k : Z) m :
  Z.pos (digits2_pos z) <= 53 → 0 <= k <= 1000 →
  Prim2SF u = S754_finite false m (Z.pos (digits2_pos z) - 53 - k) →
  Z.pos m = Z.pos z * 2 ^ (53 - Z.pos (digits2_pos z)) →
  (u * Math_pow2 k)%float = Z_to_float (Z.pos z).
Proof.
  intros Hd Hk Hu Hm.
  destruct (Z_to_float_pos z Hd) as (m' & Hz & Hdm & Hm').
  assert (m' = m) as -> by lia.
  apply Prim2SF_inj. rewrite Hz.
  pose proof (Prim2SF_bounded _ _ _ _ Hz) as Hb.
  destruct (decide (k <= 1023)) as [Hle|?]; [|lia].
  rewrite (mul_exact _ _ _ _ _ _ _ _ m (Z.pos (digits2_pos z) - 53) Hu
             (Math_pow2_normal k ltac:(lia))); [done|done|lia|].
  replace (Z.pos (digits2_pos z) - 53 - (Z.pos (digits2_pos z) - 53 - k + (k - 52)))
    with 52 by lia.
  reflexivity.
Qed.

Lemma sub_one_significand u m :
  Prim2SF u = S754_finite false m (-52) → Z.pos (digits2_pos m) = 53 →
  ((u - 1) * Math_pow2 52)%float = Z_to_float (Z.pos m - 2 ^ 52).
Proof.
  intros Hu Hd.
  pose proof (digits2_pos_bounds m) as [Hlo Hhi]. rewrite Hd in Hlo, Hhi.
  change (2 ^ (53 - 1)) with 4503599627370496 in Hlo.
  change (2 ^ 53) with 9007199254740992 in Hhi.
  change (2 ^ 52) with 4503599627370496.
  assert (Prim2SF (u - 1)
          = binary_normalize prec emax (Z.pos m - 4503599627370496) (-52) false) as Hsub.
  { rewrite sub_spec, Hu, Prim2SF_one. unfold SF64sub, SFsub, shl_align.
    change (Z.min (-52) (-52)) with (-52). change (-52 - -52) with 0.
    reflexivity. }
  destruct (Z.pos m - 4503599627370496) as [|z|z] eqn:Hz; [| |lia].
  - assert ((u - 1)%float = 0%float) as -> by (by apply Prim2SF_inj).
    reflexivity.
  - cbn [binary_normalize] in Hsub.
    assert (Z.pos (digits2_pos z) <= 52) as Hdz.
    { pose proof (digits2_pos_bounds z) as [Hzlo _].
      destruct (Z.leb_spec (Z.pos (digits2_pos z)) 52); [done|].
      assert (2 ^ 52 <= 2 ^ (Z.pos (digits2_pos z) - 1)) by (apply Z.pow_le_mono_r; lia).
      change (2 ^ 52) with 4503599627370496 in *. lia. }
    destruct (Z_to_float_pos z ltac:(lia)) as (mz & Hfz & Hdmz & Hmz).
    apply (scaled_integer _ z 52 mz); [lia|lia| |done].
    rewrite Hsub. apply binary_round_exact.
    + apply bounded_spec. left. split; [done|lia].
    + right. split; [lia|]. rewrite Hmz. f_equal. f_equal. lia.
Qed.

(** The three parts [set] computes for a normal double: the sign, the
    biased exponent, and the significand without its leading bit, as an
    integer-valued double. *)
Lemma fp_parts_normal x s m e :
  Prim2SF x = S754_finite s m e → Z.pos (digits2_pos m) = 53 →
  fp_parts float64 x
  = (if s then 1 else 0, e + 1075, Z_to_float (Z.pos m - 2 ^ 52)).
Proof.
  intros Hx Hd. pose proof (Prim2SF_bounded _ _ _ _ Hx) as Hb.
  apply bounded_spec in Hb as [[_ He]|[? _]]; [|lia].
  unfold fp_parts.
  rewrite (eqb_finite_refl _ _ _ _ Hx).
  destruct (eqb_finite_special _ _ _ _ Hx) as (-> & -> & ->).
  cbn [negb]. rewrite (ltb_finite_zero _ _ _ _ Hx).
  rewrite (fp_round_normal _ _ _ _ Hx Hd).
  change (fp_exponentBias float64) with 1023. change (fp_exponentMax float64) with 2047.
  change (fp_numSignificandBits float64) with 52.
  destruct (Z.leb_spec 2047 (e + 52 + 1023)) as [?|_]; [lia|].
  destruct (Z.ltb_spec (e + 52 + 1023) 1) as [?|_]; [lia|].
  rewrite (sub_one_significand _ m (scale_to_unit _ _ _ _ Hx Hd) Hd).
  do 2 f_equal. lia.
Qed.

Lemma mul_zero_finite y sy my ey :
  Prim2SF y = S754_finite sy my ey → (0 * y)%float = 0%float ∨ (0 * y)%float = (-0)%float.
Proof.
  intros Hy. assert (Prim2SF (0 * y) = S754_zero sy) as H.
  { rewrite mul_spec, Hy. reflexivity. }
  destruct sy; [right|left]; by apply Prim2SF_inj.
Qed.

Lemma fp_round_subnormal x s m :
  Prim2SF x = S754_finite s m (-1074) → Z.pos (digits2_pos m) < 53 →
  ∃ c ex, fp_round float64 x = (abs x, c, ex) ∧ -1074 <= ex <= -1023.
Proof.
  intros Hx Hd. pose proof (abs_finite _ _ _ _ Hx) as Ha.
  set (d := Z.pos (digits2_pos m)) in *.
  assert (1 <= d) by (subst d; lia).
  unfold fp_round.
  rewrite (Math_floor_log2_finite _ _ _ _ Ha). fold d.
  change (fp_exponentBias float64) with 1023. change (fp_roundTo float64) with 0%float.
  change (1 - 1023) with (-1022).
  assert ((abs x + 0 * Math_pow2 (-1022))%float = abs x) as Hadd.
  { apply (add_zero_finite _ _ _ _ _ Ha).
    apply (mul_zero_finite _ _ _ _ (Math_pow2_normal (-1022) ltac:(lia))). }
  destruct (decide (d = 52)) as [Hd52|Hne].
  - rewrite Hd52. change (- (-1074 + 52 - 1)) with 1023.
    assert (Prim2SF (abs x * Math_pow2 1023) = S754_finite false m~0 (-52)) as Hu.
    { rewrite (mul_exact _ _ _ _ _ _ _ _ (m~0)%positive (-52) Ha
                 (Math_pow2_normal 1023 ltac:(lia))); [done| |lia|].
      - apply bounded_spec. left. split; [|lia]. cbn [digits2_pos].
        rewrite Pos2Z.inj_succ. fold d. lia.
      - change (Z.pos m~0) with (2 * Z.pos m). change (-52 - (-1074 + (1023 - 52))) with 51.
        change (2 ^ 51) with 2251799813685248. lia. }
    assert (Z.pos (digits2_pos m~0) = 53) as Hd0
      by (cbn [digits2_pos]; rewrite Pos2Z.inj_succ; fold d; lia).
    rewrite (ltb_unit_1 _ _ Hu Hd0).
    destruct (Z.leb_spec 1 (-1074 + 52 - 1 + 1023)) as [?|_]; [lia|].
    rewrite Hadd, (leb_2_unit _ _ Hu).
    do 2 eexists. split; [reflexivity|lia].
  - assert (Math_pow2 (- (-1074 + d - 1)) = infinity) as ->.
    { apply Prim2SF_inj. rewrite Math_pow2_overflow by lia. reflexivity. }
    assert ((abs x * infinity)%float = infinity) as Hinf.
    { apply Prim2SF_inj. rewrite mul_spec, Ha. reflexivity. }
    rewrite Hinf. change (infinity <? 1)%float with false. cbv iota.
    destruct (Z.leb_spec 1 (-1074 + d - 1 + 1023)) as [?|_]; [lia|].
    rewrite Hadd, Hinf. change (2 <=? infinity)%float with true. cbv iota.
    do 2 eexists. split; [reflexivity|lia].
Qed.

(** The parts of a subnormal double: biased exponent 0 and the whole
    mantissa. *)
Lemma fp_parts_subnormal x s m :
  Prim2SF x = S754_finite s m (-1074) → Z.pos (digits2_pos m) < 53 →
  fp_parts float64 x = (if s then 1 else 0, 0, Z_to_float (Z.pos m)).
Proof.
  intros Hx Hd. pose proof (abs_finite _ _ _ _ Hx) as Ha.
  unfold fp_parts.
  rewrite (eqb_finite_refl _ _ _ _ Hx).
  destruct (eqb_finite_special _ _ _ _ Hx) as (-> & -> & ->).
  cbn [negb]. rewrite (ltb_finite_zero _ _ _ _ Hx).
  destruct (fp_round_subnormal _ _ _ Hx Hd) as (c & ex & -> & Hex).
  change (fp_exponentBias float64) with 1023. change (fp_exponentMax float64) with 2047.
  change (fp_numSignificandBits float64) with 52. change (1023 - 1) with 1022.
  destruct (Z.leb_spec 2047 (ex + 1023)) as [?|_]; [lia|].
  destruct (Z.ltb_spec (ex + 1023) 1) as [_|?]; [|lia].
  do 2 f_equal.
  set (d := Z.pos (digits2_pos m)) in *.
  assert (1 <= d) by (subst d; lia).
  destruct (Z_to_float_pos m ltac:(fold d; lia)) as (mz & Hfz & Hdmz & Hmz). fold d in Hfz, Hmz.
  apply (scaled_integer _ m 52 mz); [fold d; lia|lia| |done]. fold d.
  rewrite (mul_exact _ _ _ _ _ _ _ _ mz (d - 53 - 52) Ha (Math_pow2_normal 1022 ltac:(lia)));
    [done| |lia|].
  - apply bounded_spec. left. split; [done|lia].
  - rewrite Hmz. replace (d - 53 - 52 - (-1074 + (1022 - 52))) with (d - 1) by lia.
    rewrite <- Z.mul_assoc, <- Z.pow_add_r by lia.
    replace (53 - d + (d - 1)) with 52 by lia. reflexivity.
Qed.

(** ** [_floatPartsToByteArray] lays the parts out *)

Lemma Prim2SF_256 : Prim2SF 256 = S754_finite false 4503599627370496 (-44).
Proof. reflexivity. Qed.

Lemma Z_div_eucl_spec a b : Z.div_eucl a b = (a / b, a mod b).
Proof. unfold Z.div, Z.modulo. by destruct (Z.div_eucl a b). Qed.

(** Dividing a normal double by 256 is exact while the quotient is
    normal. *)
Lemma div_256_exact x m e :
  Prim2SF x = S754_finite false m e → Z.pos (digits2_pos m) = 53 →
  -1074 <= e - 9 →
  Prim2SF (x / 256) = S754_finite false m (e - 8).
Proof.
  intros Hx Hd He. pose proof (Prim2SF_bounded _ _ _ _ Hx) as Hb.
  apply bounded_spec in Hb as [[_ Hr]|[? _]]; [|lia].
  rewrite div_spec, Hx, Prim2SF_256. unfold SF64div, SFdiv, SFdiv_core_binary.
  cbn [Zdigits2]. rewrite Hd. change (Z.pos (digits2_pos 4503599627370496)) with 53.
  replace (fexp prec emax (53 + e - (53 + -44))) with (e - 9)
    by (unfold fexp, SpecFloat.emin, prec, emax; lia).
  replace (Z.min (e - 9) (e - -44)) with (e - 9) by lia.
  replace (e - -44 - (e - 9)) with 53 by lia. cbv iota.
  rewrite Z.shiftl_mul_pow2 by lia. rewrite Z_div_eucl_spec.
  assert (Z.pos m * 2 ^ 53 = 4503599627370496 * (2 * Z.pos m)) as Hmul
    by (change (2 ^ 53) with 9007199254740992; lia).
  assert (Z.pos m * 2 ^ 53 / 4503599627370496 = Z.pos m~0) as ->.
  { rewrite Hmul, Z.mul_comm, Z.div_mul by lia. reflexivity. }
  assert ((Z.pos m * 2 ^ 53) mod 4503599627370496 = 0) as ->.
  { rewrite Hmul, Z.mul_comm. apply Z.mod_mul. lia. }
  change (new_location 4503599627370496 0) with loc_Exact. cbn [xorb].
  apply binary_round_aux_exact.
  - apply bounded_spec. left. split; [done|lia].
  - lia.
  - replace (e - 8 - (e - 9)) with 1 by lia. change (Z.pos m~0) with (2 * Z.pos m). lia.
Qed.

Lemma float_trunc_finite x m e :
  Prim2SF x = S754_finite false m e → e <= 0 → float_trunc x = Z.pos m / 2 ^ (- e).
Proof.
  intros Hx He. unfold float_trunc. rewrite Hx.
  destruct (Z.leb_spec 0 e); [|done].
  assert (e = 0) as -> by lia. simpl. rewrite Z.div_1_r. lia.
Qed.

(** The bytes of an integer below 2^53 held in a double: dividing by 256
    [k] times and truncating gives the integer shifted right by [8 k]
    bits. *)
Lemma div_256_chain z k :
  0 <= z < 2 ^ 53 → (k ≤ 6)%nat →
  float_trunc (Nat.iter k (fun x => x / 256)%float (Z_to_float z))
  = z / 2 ^ (8 * Z.of_nat k).
Proof.
  intros Hz Hk. destruct z as [|z|z]; [| |lia].
  - assert (Nat.iter k (fun x => x / 256)%float (Z_to_float 0) = 0%float) as ->.
    { clear Hk. induction k as [|k IH]; [reflexivity|]. rewrite Nat.iter_succ, IH. reflexivity. }
    by rewrite Z.div_0_l by (apply Z.pow_nonzero; lia).
  - assert (Z.pos (digits2_pos z) <= 53) as Hd.
    { pose proof (digits2_pos_bounds z) as [Hlo _].
      destruct (Z.leb_spec (Z.pos (digits2_pos z)) 53); [done|].
      assert (2 ^ 53 <= 2 ^ (Z.pos (digits2_pos z) - 1)) by (apply Z.pow_le_mono_r; lia).
      lia. }
    destruct (Z_to_float_pos z Hd) as (m & Hf & Hdm & Hm).
    set (d := Z.pos (digits2_pos z)) in *.
    assert (1 <= d) by (subst d; lia).
    assert (Prim2SF (Nat.iter k (fun x => x / 256)%float (Z_to_float (Z.pos z)))
            = S754_finite false m (d - 53 - 8 * Z.of_nat k)) as Hk'.
    { induction k as [|k IH].
      - simpl Nat.iter. rewrite Hf. f_equal. lia.
      - rewrite Nat.iter_succ. rewrite (div_256_exact _ m (d - 53 - 8 * Z.of_nat k)); [|apply IH; lia|done|lia].
        f_equal. lia. }
    rewrite (float_trunc_finite _ _ _ Hk') by lia. rewrite Hm.
    replace (- (d - 53 - 8 * Z.of_nat k)) with (8 * Z.of_nat k + (53 - d)) by lia.
    rewrite Z.pow_add_r by lia. rewrite Z.div_mul_cancel_r; [done| |].
    + apply Z.pow_nonzero; lia.
    + apply Z.pow_nonzero; lia.
Qed.

Lemma js_and_float_255 g : js_and (Float g) (Int 255) = float_trunc g mod 256.
Proof.
  change (js_and (Float g) (Int 255)) with (js_and (Int (float_trunc g)) (Int 255)).
  rewrite js_and_255. unfold wrap32. change (2 ^ 32) with 4294967296.
  change (2 ^ 31) with 2147483648. lia.
Qed.

Lemma js_and_int_255 x : js_and (Int x) (Int 255) = x mod 256.
Proof.
  rewrite js_and_255. unfold wrap32. change (2 ^ 32) with 4294967296.
  change (2 ^ 31) with 2147483648. lia.
Qed.

(** The eight bytes, most significant first: together they are the 64-bit
    pattern sign, exponent, significand. *)
Lemma floatPartsToByteArray_pattern signed exponent z :
  (signed = 0 ∨ signed = 1) → 0 <= exponent < 2048 → 0 <= z < 2 ^ 52 →
  let bytes := _floatPartsToByteArray float64 (replicate 8 0) 0 signed exponent
                 (Z_to_float z) false in
  length bytes = 8%nat ∧ Forall is_byte bytes
  ∧ be_value bytes = signed * 2 ^ 63 + exponent * 2 ^ 52 + z.
Proof.
  intros Hs He Hz bytes. subst bytes.
  change (2 ^ 52) with 4503599627370496 in *. change (2 ^ 63) with 9223372036854775808.
  assert (∀ k, (k ≤ 6)%nat →
            float_trunc (Nat.iter k (fun x => x / 256)%float (Z_to_float z))
            = z / 2 ^ (8 * Z.of_nat k)) as Hchain.
  { intros k Hk. apply div_256_chain; [|done].
    change (2 ^ 53) with 9007199254740992. lia. }
  pose proof (Hchain 0%nat ltac:(lia)) as H0. pose proof (Hchain 1%nat ltac:(lia)) as H1.
  pose proof (Hchain 2%nat ltac:(lia)) as H2. pose proof (Hchain 3%nat ltac:(lia)) as H3.
  pose proof (Hchain 4%nat ltac:(lia)) as H4. pose proof (Hchain 5%nat ltac:(lia)) as H5.
  pose proof (Hchain 6%nat ltac:(lia)) as H6. clear Hchain.
  cbv [Nat.iter nat_rect] in H0, H1, H2, H3, H4, H5, H6.
  change (2 ^ (8 * Z.of_nat 0)) with 1 in H0. change (2 ^ (8 * Z.of_nat 1)) with 256 in H1.
  change (2 ^ (8 * Z.of_nat 2)) with 65536 in H2.
  change (2 ^ (8 * Z.of_nat 3)) with 16777216 in H3.
  change (2 ^ (8 * Z.of_nat 4)) with 4294967296 in H4.
  change (2 ^ (8 * Z.of_nat 5)) with 1099511627776 in H5.
  change (2 ^ (8 * Z.of_nat 6)) with 281474976710656 in H6.
  set (t := z / 281474976710656) in *.
  assert (0 <= t < 16) as Ht by (subst t; lia).
  set (g6 := (Z_to_float z / 256 / 256 / 256 / 256 / 256 / 256)%float) in *.
  set (ex := js_or (Int (js_shl (Int exponent) 4)) (Float g6)).
  assert (ex = exponent * 16 + t) as Hex.
  { subst ex. unfold js_or, ToInt32. rewrite H6.
    rewrite (js_shl_small exponent 4) by (change (2 ^ 4) with 16; change (2 ^ 31) with 2147483648; lia).
    change (2 ^ 4) with 16.
    rewrite !wrap32_small by (change (2 ^ 31) with 2147483648; lia).
    rewrite Z.lor_comm, Z.add_comm. apply (lor_shifted t exponent 4); [|lia|lia].
    change (2 ^ 4) with 16. lia. }
  assert (float_trunc (to_float (Int ex) / 256) = ex / 256) as Hhi.
  { pose proof (div_256_chain ex 1) as Hc. cbv [Nat.iter nat_rect] in Hc.
    change (2 ^ (8 * Z.of_nat 1)) with 256 in Hc. apply Hc; [|lia].
    change (2 ^ 53) with 9007199254740992. lia. }
  set (sb := signed * 128).
  assert (_floatPartsToByteArray float64 (replicate 8 0) 0 signed exponent
            (Z_to_float z) false
          = [js_or (Int (js_and (Float (to_float (Int ex) / 256)) (Int 255))) (Int sb);
             js_and (Int ex) (Int 255);
             js_and (Float (Z_to_float z / 256 / 256 / 256 / 256 / 256)) (Int 255);
             js_and (Float (Z_to_float z / 256 / 256 / 256 / 256)) (Int 255);
             js_and (Float (Z_to_float z / 256 / 256 / 256)) (Int 255);
             js_and (Float (Z_to_float z / 256 / 256)) (Int 255);
             js_and (Float (Z_to_float z / 256)) (Int 255);
             js_and (Float (Z_to_float z)) (Int 255)]) as ->.
  { unfold _floatPartsToByteArray. fold sb. subst ex g6.
    cbv -[js_and js_or js_shl js_shr to_float PrimFloat.div sb Z_to_float].
    reflexivity. }
  rewrite !js_and_float_255, js_and_int_255, Hhi, H0, H1, H2, H3, H4, H5.
  rewrite Z.div_1_r.
  assert (js_or (Int ((ex / 256) mod 256)) (Int sb) = ex / 256 + signed * 128) as ->.
  { rewrite (Z.mod_small (ex / 256)) by lia. unfold js_or, ToInt32. subst sb.
    rewrite !wrap32_small by (change (2 ^ 31) with 2147483648; lia).
    destruct Hs as [-> | ->].
    - rewrite Z.lor_0_r. lia.
    - apply (lor_disjoint (ex / 256) 7); [|lia]. change (2 ^ 7) with 128. lia. }
  split_and!.
  - reflexivity.
  - repeat constructor; unfold is_byte; lia.
  - unfold be_value. cbn [foldl]. lia.
Qed.

(** ** [FloatPolyfill.get] puts the parts together *)

Lemma pattern_fields signed exponent z bytes :
  (signed = 0 ∨ signed = 1) → 0 <= exponent < 2048 → 0 <= z < 2 ^ 52 →
  be_value bytes = signed * 2 ^ 63 + exponent * 2 ^ 52 + z →
  (pattern_sign float64 bytes, pattern_exponent float64 bytes,
   pattern_significand float64 bytes) = (signed, exponent, z).
Proof.
  intros Hs He Hz Hv. unfold pattern_sign, pattern_exponent, pattern_significand.
  rewrite Hv. change (fp_numSignificandBits float64) with 52.
  change (fp_numExponentBits float64) with 11.
  change (2 ^ (52 + 11)) with 9223372036854775808. change (2 ^ 63) with 9223372036854775808.
  change (2 ^ 52) with 4503599627370496 in *. change (2 ^ 11) with 2048.
  f_equal; [f_equal|]; lia.
Qed.

Lemma sign_factor (s : bool) :
  Prim2SF (if negb ((if s then 1 else 0) =? 0) then -1 else 1)
  = S754_finite s 4503599627370496 (-52).
Proof. by destruct s. Qed.

Lemma signed_integer (s : bool) (z m : positive) (e : Z) :
  Prim2SF (Z_to_float (Z.pos z)) = S754_finite false m e → -52 <= e <= 0 →
  Prim2SF ((if negb ((if s then 1 else 0) =? 0) then -1 else 1) * Z_to_float (Z.pos z))
  = S754_finite s m e.
Proof.
  intros Hz He. pose proof (Prim2SF_bounded _ _ _ _ Hz) as Hb.
  rewrite (mul_exact _ _ _ _ _ _ _ _ m e (sign_factor s) Hz); [|done|lia|].
  - by rewrite xorb_false_r.
  - replace (e - (-52 + e)) with 52 by lia. change (2 ^ 52) with 4503599627370496. lia.
Qed.

Lemma fp_value_normal x s m e :
  Prim2SF x = S754_finite s m e → Z.pos (digits2_pos m) = 53 →
  fp_value float64 (if s then 1 else 0, e + 1075, Z.pos m - 2 ^ 52) = x.
Proof.
  intros Hx Hd. pose proof (Prim2SF_bounded _ _ _ _ Hx) as Hb.
  pose proof Hb as Hb'. apply bounded_spec in Hb' as [[_ He]|[? _]]; [|lia].
  unfold fp_value. change (fp_exponentBias float64) with 1023.
  change (fp_exponentMax float64) with 2047. change (fp_numSignificandBits float64) with 52.
  destruct (Z.eqb_spec (e + 1075) 0) as [?|_]; [lia|].
  destruct (Z.eqb_spec (e + 1075) 2047) as [?|_]; [lia|].
  replace (Z.pos m - 2 ^ 52 + 2 ^ 52) with (Z.pos m) by lia.
  replace (e + 1075 - 1023 - 52) with e by lia.
  destruct (Z_to_float_pos m ltac:(lia)) as (m' & Hf & _ & Hm').
  rewrite Hd in Hf, Hm'. change (53 - 53) with 0 in *. change (2 ^ 0) with 1 in Hm'.
  assert (m' = m) as -> by lia.
  pose proof (signed_integer s m m 0 Hf ltac:(lia)) as Hsz.
  apply Prim2SF_inj. rewrite Hx.
  destruct (decide (-1022 <= e)) as [Hn|Hn].
  - rewrite (mul_exact _ _ _ _ _ _ _ _ m e Hsz (Math_pow2_normal e ltac:(lia)));
      [|done|lia|].
    + by rewrite xorb_false_r.
    + replace (e - (0 + (e - 52))) with 52 by lia. reflexivity.
  - rewrite (mul_exact _ _ _ _ _ _ _ _ m e Hsz (Math_pow2_subnormal e ltac:(lia)));
      [|done|lia|].
    + by rewrite xorb_false_r.
    + rewrite Z2Pos.id by (apply Z.pow_pos_nonneg; lia).
      f_equal; f_equal; lia.
Qed.

Lemma fp_value_subnormal x s m :
  Prim2SF x = S754_finite s m (-1074) → Z.pos (digits2_pos m) < 53 →
  fp_value float64 (if s then 1 else 0, 0, Z.pos m) = x.
Proof.
  intros Hx Hd. pose proof (Prim2SF_bounded _ _ _ _ Hx) as Hb.
  unfold fp_value. change (fp_exponentBias float64) with 1023.
  change (fp_numSignificandBits float64) with 52.
  change (0 =? 0) with true. cbv iota. change (1 - 1023 - 52) with (-1074).
  destruct (Z_to_float_pos m ltac:(lia)) as (mz & Hf & Hdz & Hmz).
  set (d := Z.pos (digits2_pos m)) in *.
  assert (1 <= d) by (subst d; lia).
  pose proof (signed_integer s m mz (d - 53) Hf ltac:(lia)) as Hsz.
  apply Prim2SF_inj. rewrite Hx.
  rewrite (mul_exact _ _ _ _ _ _ _ _ m (-1074) Hsz (Math_pow2_subnormal (-1074) ltac:(lia)));
    [|done|lia|].
  - by rewrite xorb_false_r.
  - change (Z.pos (Z.to_pos (2 ^ (-1074 + 1074)))) with 1. rewrite Hmz, Z.mul_1_r.
    f_equal; f_equal; lia.
Qed.

(** The special values, by evaluation. *)
Lemma float64_special_roundtrip v le :
  v ∈ special_values →
  FloatPolyfill_get float64
    (FloatPolyfill_set float64 (replicate 8 0) 0 (Float v) le) 0 le = v.
Proof.
  unfold special_values. set_unfold.
  intros [->|[->|[->|[->|[->|[]]]]]]; destruct le; vm_compute; reflexivity.
Qed.

Lemma Prim2SF_special f :
  (∀ s m e, Prim2SF f ≠ S754_finite s m e) → f ∈ special_values.
Proof.
  intros Hf. rewrite <- (SF2Prim_Prim2SF f).
  unfold special_values. set_unfold.
  destruct (Prim2SF f) as [[]|[]| |s m e]; simpl; auto 10.
  by destruct (Hf s m e).
Qed.

(** Every double survives [setFloat64] and [getFloat64], from a fresh
    buffer and big endian first. *)
Lemma float64_fresh_roundtrip f le :
  FloatPolyfill_get float64
    (FloatPolyfill_set float64 (replicate 8 0) 0 (Float f) le) 0 le = f.
Proof.
  destruct (Prim2SF f) as [s0|s0| |s m e] eqn:Hf;
    [apply float64_special_roundtrip, Prim2SF_special; intros s m e; by rewrite Hf..|].
  assert (∃ signed exponent z,
            fp_parts float64 f = (signed, exponent, Z_to_float z)
            ∧ (signed = 0 ∨ signed = 1) ∧ 0 <= exponent < 2048 ∧ 0 <= z < 2 ^ 52
            ∧ fp_value float64 (signed, exponent, z) = f)
    as (signed & exponent & z & Hparts & Hs & He & Hz & Hval).
  { pose proof (Prim2SF_bounded _ _ _ _ Hf) as Hb.
    pose proof (digits2_pos_bounds m) as [Hlo Hhi].
    apply bounded_spec in Hb as [[Hd Hr]|[Hd ->]].
    - exists (if s then 1 else 0), (e + 1075), (Z.pos m - 2 ^ 52).
      rewrite Hd in Hlo, Hhi. change (2 ^ (53 - 1)) with (2 ^ 52) in Hlo.
      change (2 ^ 53) with (2 * 2 ^ 52) in Hhi.
      split_and!; [by apply fp_parts_normal|destruct s; auto|lia|lia|lia|lia|
                   by apply fp_value_normal].
    - exists (if s then 1 else 0), 0, (Z.pos m).
      assert (2 ^ Z.pos (digits2_pos m) <= 2 ^ 52) by (apply Z.pow_le_mono_r; lia).
      split_and!; [by apply fp_parts_subnormal|destruct s; auto|lia|lia|lia|lia|
                   by apply fp_value_subnormal]. }
  assert (FloatPolyfill_get float64
            (FloatPolyfill_set float64 (replicate 8 0) 0 (Float f) false) 0 false = f)
    as Hbe.
  { unfold FloatPolyfill_get, FloatPolyfill_set. change (to_float (Float f)) with f.
    rewrite Hparts.
    destruct (floatPartsToByteArray_pattern signed exponent z Hs He Hz)
      as (Hlen & Hbytes & Hpat).
    rewrite fp_fields_pattern by (auto || done).
    by rewrite (pattern_fields signed exponent z). }
  destruct le; [|done].
  rewrite (FloatPolyfill_set_reverse float64) by auto.
  unfold FloatPolyfill_get. rewrite fp_fields_reverse; [exact Hbe|auto|].
  apply (FloatPolyfill_set_bytes float64); auto.
Qed.

(** [DataViewPolyfill]'s [setFloat64] and [getFloat64] lose nothing: for
    every double, NaN, the infinities, both zeros and the subnormal numbers
    included, [FloatPolyfill.set] writes 8 bytes at the offset from which
    [FloatPolyfill.get] reads the same double back, in either byte order;
    the array keeps its length and no other byte changes. *)
Theorem FloatPolyfill_float64_roundtrip (f : float) (bytes : list Z) (off : nat)
    (le : bool) :
  (off + 8 ≤ length bytes)%nat →
  let after := FloatPolyfill_set float64 bytes off (Float f) le in
  FloatPolyfill_get float64 after off le = f
  ∧ length after = length bytes
  ∧ take off after = take off bytes
  ∧ drop (off + 8) after = drop (off + 8) bytes.
Proof.
  intros Hroom after.
  destruct (split_at bytes off 8 Hroom) as (Hsplit & Hpre & Hmid).
  set (pre := take off bytes) in *. set (mid := take 8 (drop off bytes)) in *.
  set (post := drop (off + 8) bytes) in *.
  destruct (FloatPolyfill_set_bytes float64 (Float f) le ltac:(auto)) as [_ Hlen].
  set (enc := FloatPolyfill_set float64 (replicate (fp_byteLength float64) 0) 0 (Float f) le)
    in *.
  assert (after = pre ++ enc ++ post) as Hafter.
  { subst after. rewrite Hsplit, <- Hpre at 1.
    apply (FloatPolyfill_set_frame float64); auto. }
  split_and!.
  - rewrite Hafter, <- Hpre at 1.
    rewrite (FloatPolyfill_get_frame float64) by auto.
    apply float64_fresh_roundtrip.
  - rewrite Hafter, Hsplit, !length_app. change (fp_byteLength float64) with 8%nat in Hlen. lia.
  - rewrite Hafter, <- Hpre at 1. by rewrite take_app_length.
  - rewrite Hafter, app_assoc. apply drop_app_length'. rewrite length_app.
    change (fp_byteLength float64) with 8%nat in Hlen. lia.
Qed.

Lemma FloatPolyfill_float64_roundtrip_witness :
  FloatPolyfill_get float64
    (FloatPolyfill_set float64 [7; 0; 0; 0; 0; 0; 0; 0; 0; 7] 1 (Float 0x1.999999999999ap-4) true) 1 true
  = 0x1.999999999999ap-4%float.
Proof.
  apply (FloatPolyfill_float64_roundtrip 0x1.999999999999ap-4 [7; 0; 0; 0; 0; 0; 0; 0; 0; 7] 1 true).
  simpl. lia.
Defined.

Section Float64Codec.

Variable utf8_encode : jsstring → result jsstring.
Variable utf8_decode : jsstring → result jsstring.

Lemma float64_representable (f : float) (le : bool) :
  representable utf8_encode utf8_decode (FloatCodec 8) (VNumber (Float f)) le.
Proof.
  exists Float64, f. split_and!; [done|done|].
  unfold accessor_value, accessor_bytes. f_equal. apply float64_fresh_roundtrip.
Qed.

(** The [float64] codec carries every Number: at any cursor with 8 bytes
    of room, in either byte order, [set] of any double writes 8 bytes and
    moves the cursor past them, and [get] from the old cursor returns the
    same double, NaN, infinities, signed zeros and subnormal numbers
    included. *)
Theorem float64_codec_roundtrip (f : float) (sv : StreamView) (le : bool) :
  (byteOffset sv + 8 ≤ length (dataView sv))%nat →
  ∃ sv',
    codec_set utf8_encode (FloatCodec 8) sv (VNumber (Float f)) le = Ok sv'
    ∧ byteOffset sv' = (byteOffset sv + 8)%nat
    ∧ length (dataView sv') = length (dataView sv)
    ∧ codec_get utf8_decode (FloatCodec 8)
        {| dataView := dataView sv'; byteOffset := byteOffset sv |} le
      = Ok (VNumber (Float f), sv').
Proof.
  intros Hroom.
  pose proof (float64_representable f le) as Hrep.
  destruct (codec_get_spec utf8_encode utf8_decode (FloatCodec 8) _ le Hrep)
    as (enc & Henc & Hget).
  assert (length enc = 8%nat) as Hlen.
  { simpl in Henc. injection Henc as <-. apply accessor_bytes_length. }
  pose proof (codec_set_spec utf8_encode (FloatCodec 8) (VNumber (Float f)) le sv) as Hset.
  rewrite Henc in Hset. rewrite Hset by (unfold in_bounds; lia).
  rewrite writes_fits by lia. eexists. split; [reflexivity|].
  cbn [dataView byteOffset]. split_and!.
  - by rewrite Hlen.
  - apply splice_length. lia.
  - destruct (split_at (dataView sv) (byteOffset sv) (length enc) ltac:(lia))
      as (_ & Hpre & _).
    specialize (Hget (take (byteOffset sv) (dataView sv))
                  (drop (byteOffset sv + length enc) (dataView sv))).
    rewrite Hpre in Hget. unfold splice. exact Hget.
Qed.

End Float64Codec.

Lemma float64_codec_roundtrip_witness :
  ∃ sv',
    codec_set Ok (FloatCodec 8) (StreamView_create 8) (VNumber (Float (-0x1.999999999999ap-4))) false
    = Ok sv'
    ∧ codec_get Ok (FloatCodec 8) {| dataView := dataView sv'; byteOffset := 0 |} false
      = Ok (VNumber (Float (-0x1.999999999999ap-4)), sv').
Proof.
  destruct (float64_codec_roundtrip Ok Ok (-0x1.999999999999ap-4) (StreamView_create 8) false)
    as (sv' & Hset & _ & _ & Hget).
  - simpl. lia.
  - exists sv'. split; [exact Hset|exact Hget].
Defined.

(** * Integer codecs on doubles *)


(** ** The order of doubles *)

Lemma finite_scaled_bounds (m : positive) (e : Z) :
  bounded prec emax m e = true →
  0 < Z.pos m * 2 ^ (e + 1074) < 2 ^ (e + 1074) * 2 ^ 53
  ∧ (-1074 < e → 2 ^ (e + 1074) * 2 ^ 52 <= Z.pos m * 2 ^ (e + 1074)).
Proof.
  intros Hb. apply bounded_spec in Hb.
  assert (-1074 <= e ∧ Z.pos (digits2_pos m) <= 53
          ∧ (-1074 < e → Z.pos (digits2_pos m) = 53)) as (He & Hd & Hn) by lia.
  clear Hb.
  pose proof (digits2_pos_bounds m) as [Hlo Hhi].
  assert (0 < 2 ^ (e + 1074)) as HP by (apply Z.pow_pos_nonneg; lia).
  assert (2 ^ Z.pos (digits2_pos m) <= 2 ^ 53) as Hle by (apply Z.pow_le_mono_r; lia).
  split.
  - change (2 ^ 53) with 9007199254740992 in *.
    set (P := 2 ^ (e + 1074)) in *. set (D := 2 ^ Z.pos (digits2_pos m)) in *.
    clearbody P D. clear Hlo. nia.
  - intros He'. rewrite (Hn He') in Hlo. change (2 ^ (53 - 1)) with 4503599627370496 in Hlo.
    change (2 ^ 52) with 4503599627370496.
    set (P := 2 ^ (e + 1074)) in *. clearbody P. clear Hhi Hle. nia.
Qed.

Lemma pow2_step (a b : Z) : 0 <= a < b → 2 * 2 ^ a <= 2 ^ b.
Proof.
  intros H. replace b with (Z.succ a + (b - a - 1)) by lia.
  rewrite Z.pow_add_r, Z.pow_succ_r by lia.
  assert (0 < 2 ^ a) by (apply Z.pow_pos_nonneg; lia).
  assert (0 < 2 ^ (b - a - 1)) by (apply Z.pow_pos_nonneg; lia).
  set (A := 2 ^ a) in *. set (B := 2 ^ (b - a - 1)) in *. clearbody A B. nia.
Qed.

Lemma scaled_compare_pos (m1 m2 : positive) (e1 e2 : Z) :
  bounded prec emax m1 e1 = true → bounded prec emax m2 e2 = true →
  match e1 ?= e2 with
  | Lt => Lt
  | Gt => Gt
  | Eq => Pos.compare_cont Eq m1 m2
  end = (Z.pos m1 * 2 ^ (e1 + 1074) ?= Z.pos m2 * 2 ^ (e2 + 1074)).
Proof.
  intros H1 H2.
  pose proof (finite_scaled_bounds _ _ H1) as [[Hp1 Hu1] Hn1].
  pose proof (finite_scaled_bounds _ _ H2) as [[Hp2 Hu2] Hn2].
  apply bounded_spec in H1, H2.
  assert (-1074 <= e1 ∧ -1074 <= e2) as [He1 He2] by lia.
  clear H1 H2.
  change (2 ^ 53) with (2 * 4503599627370496) in *.
  change (2 ^ 52) with 4503599627370496 in *.
  symmetry. destruct (Z.compare_spec e1 e2) as [->|Hlt|Hgt].
  - rewrite Pos_compare_cont_Eq.
    assert (0 < 2 ^ (e2 + 1074)) by (apply Z.pow_pos_nonneg; lia).
    set (P := 2 ^ (e2 + 1074)) in *. clearbody P.
    destruct (Z.compare_spec (Z.pos m1) (Z.pos m2)) as [Heq|?|?].
    + rewrite Heq. apply Z.compare_refl.
    + apply Z.compare_lt_iff. nia.
    + apply Z.compare_gt_iff. nia.
  - apply Z.compare_lt_iff. specialize (Hn2 ltac:(lia)).
    pose proof (pow2_step (e1 + 1074) (e2 + 1074) ltac:(lia)) as Hs.
    set (P1 := 2 ^ (e1 + 1074)) in *. set (P2 := 2 ^ (e2 + 1074)) in *.
    clearbody P1 P2. nia.
  - apply Z.compare_gt_iff. specialize (Hn1 ltac:(lia)).
    pose proof (pow2_step (e2 + 1074) (e1 + 1074) ltac:(lia)) as Hs.
    set (P1 := 2 ^ (e1 + 1074)) in *. set (P2 := 2 ^ (e2 + 1074)) in *.
    clearbody P1 P2. nia.
Qed.

(** Two doubles that are finite compare as their values do. *)
Lemma SFcompare_scaled (x y : spec_float) :
  valid_binary x = true → valid_binary y = true →
  x ≠ S754_nan → y ≠ S754_nan →
  (∀ s, x ≠ S754_infinity s) → (∀ s, y ≠ S754_infinity s) →
  SFcompare x y = Some (SF_scaled x ?= SF_scaled y).
Proof.
  intros Hx Hy Hxn Hyn Hxi Hyi.
  destruct x as [sx|sx| |sx mx ex]; [|by destruct (Hxi sx)|done|];
    (destruct y as [sy|sy| |sy my ey]; [|by destruct (Hyi sy)|done|]).
  - reflexivity.
  - cbn [valid_binary] in Hy. pose proof (finite_scaled_bounds _ _ Hy) as [[Hp _] _].
    unfold SFcompare, SF_scaled. f_equal. symmetry.
    destruct sy; [apply Z.compare_gt_iff|apply Z.compare_lt_iff]; lia.
  - cbn [valid_binary] in Hx. pose proof (finite_scaled_bounds _ _ Hx) as [[Hp _] _].
    unfold SFcompare, SF_scaled. f_equal. symmetry.
    destruct sx; [apply Z.compare_lt_iff|apply Z.compare_gt_iff]; lia.
  - cbn [valid_binary] in Hx, Hy.
    pose proof (finite_scaled_bounds _ _ Hx) as [[Hpx _] _].
    pose proof (finite_scaled_bounds _ _ Hy) as [[Hpy _] _].
    pose proof (scaled_compare_pos mx my ex ey Hx Hy) as Hc.
    unfold SFcompare, SF_scaled. f_equal.
    set (X := Z.pos mx * 2 ^ (ex + 1074)) in *.
    set (Y := Z.pos my * 2 ^ (ey + 1074)) in *. clearbody X Y.
    destruct sx, sy.
    + replace (-1 * X) with (- X) by lia. replace (-1 * Y) with (- Y) by lia.
      rewrite Z.compare_opp, (Z.compare_antisym X Y), <- Hc.
      by destruct (ex ?= ey).
    + symmetry. apply Z.compare_lt_iff. lia.
    + symmetry. apply Z.compare_gt_iff. lia.
    + rewrite Hc. f_equal; lia.
Qed.

(** ** Integer codecs on Numbers that are not integers *)

Lemma float_trunc_scaled f :
  float_trunc f = Z.quot (SF_scaled (Prim2SF f)) (2 ^ 1074).
Proof.
  unfold float_trunc, SF_scaled.
  destruct (Prim2SF f) as [s|s| |s m e] eqn:Hf; try (by rewrite Z.quot_0_l).
  pose proof (Prim2SF_bounded _ _ _ _ Hf) as Hb. apply bounded_spec in Hb.
  assert (-1074 <= e) as He by (destruct Hb as [[_ ?]|[_ ->]]; lia). clear Hb.
  assert (Z.pos m * 2 ^ (e + 1074) / 2 ^ 1074
          = if 0 <=? e then Z.pos m * 2 ^ e else Z.pos m / 2 ^ (- e)) as Hdiv.
  { destruct (Z.leb_spec 0 e).
    - rewrite (Z.pow_add_r 2 e 1074), Z.mul_assoc by lia. apply Z.div_mul.
      by apply Z.pow_nonzero.
    - assert (2 ^ 1074 = 2 ^ (- e) * 2 ^ (e + 1074)) as ->
        by (rewrite <- Z.pow_add_r by lia; f_equal; lia).
      apply Z.div_mul_cancel_r; apply Z.pow_nonzero; lia. }
  assert (0 <= Z.pos m * 2 ^ (e + 1074)) as Hnn.
  { apply Z.mul_nonneg_nonneg; [lia|]. apply Z.pow_nonneg. lia. }
  assert (0 < 2 ^ 1074) as HK by (by apply Z.pow_pos_nonneg).
  rewrite <- Hdiv. destruct s.
  - replace (-1 * (Z.pos m * 2 ^ (e + 1074))) with (- (Z.pos m * 2 ^ (e + 1074))) by lia.
    rewrite Z.quot_opp_l by lia. by rewrite Z.quot_div_nonneg by lia.
  - rewrite Z.mul_1_l. by rewrite Z.quot_div_nonneg by lia.
Qed.

Lemma ip_set_loop_float fuel bytes off i inc stop f :
  ip_set_loop fuel bytes off i inc stop (Float f)
  = ip_set_loop fuel bytes off i inc stop (Int (float_trunc f)).
Proof. by destruct fuel. Qed.

(** The bounds of the six integer types, as doubles. *)
Lemma integer_bounds_scaled c :
  c ∈ [0; -128; -32768; -2147483648; 127; 255; 32767; 65535; 2147483647; 4294967295] →
  ∃ y, Prim2SF (Z_to_float c) = y
       ∧ y ≠ S754_nan ∧ (∀ s, y ≠ S754_infinity s)
       ∧ SF_scaled y = c * 2 ^ 1074.
Proof.
  intros Hc. eexists. split; [reflexivity|].
  set_unfold.
  destruct Hc as [->|[->|[->|[->|[->|[->|[->|[->|[->|[->|[]]]]]]]]]]];
    (split_and!; [vm_compute; discriminate|intros s; vm_compute; discriminate|
                  vm_compute; reflexivity]).
Qed.

Lemma ltb_scaled f g :
  Prim2SF f ≠ S754_nan → (∀ s, Prim2SF f ≠ S754_infinity s) →
  Prim2SF g ≠ S754_nan → (∀ s, Prim2SF g ≠ S754_infinity s) →
  (f <? g)%float = (SF_scaled (Prim2SF f) <? SF_scaled (Prim2SF g)).
Proof.
  intros Hfn Hfi Hgn Hgi. rewrite ltb_spec. unfold SFltb.
  rewrite SFcompare_scaled by (done || apply Prim2SF_valid).
  unfold Z.ltb. by destruct (_ ?= _).
Qed.

(** What the two comparisons of [set] make of a double. *)
Lemma clamp_double (mn mx : Z) (f : float) :
  mn ∈ [0; -128; -32768; -2147483648; 127; 255; 32767; 65535; 2147483647; 4294967295] →
  mx ∈ [0; -128; -32768; -2147483648; 127; 255; 32767; 65535; 2147483647; 4294967295] →
  mn <= 0 <= mx →
  let stored := match Prim2SF f with
                | S754_infinity true => mn
                | S754_infinity false => mx
                | _ => float_trunc f
                end in
  let clamped := if number_ltb (Float f) (Int mn) then Int mn
                 else if number_gtb (Float f) (Int mx) then Int mx
                 else Float f in
  clamped = Int (Z.max mn (Z.min stored mx))
  ∨ (clamped = Float f ∧ mn <= float_trunc f <= mx ∧ stored = float_trunc f).
Proof.
  intros Hmn Hmx Hr stored clamped.
  destruct (integer_bounds_scaled mn Hmn) as (ymn & Hymn & Hn1 & Hi1 & Hs1).
  destruct (integer_bounds_scaled mx Hmx) as (ymx & Hymx & Hn2 & Hi2 & Hs2).
  subst clamped. unfold number_gtb, number_ltb.
  change (to_float (Float f)) with f. change (to_float (Int mn)) with (Z_to_float mn).
  change (to_float (Int mx)) with (Z_to_float mx).
  destruct (Prim2SF f) as [s|s| |s m e] eqn:Hf.
  - (* a zero *)
    rewrite !ltb_scaled by (rewrite ?Hf, ?Hymn, ?Hymx; done).
    rewrite Hf, Hymn, Hymx, Hs1, Hs2. cbn [SF_scaled].
    assert (float_trunc f = 0) as Ht by (unfold float_trunc; by rewrite Hf).
    assert (0 < 2 ^ 1074) as HK by (by apply Z.pow_pos_nonneg).
    set (K := 2 ^ 1074) in *. clearbody K.
    destruct (Z.ltb_spec 0 (mn * K)); [nia|].
    destruct (Z.ltb_spec (mx * K) 0); [nia|].
    right. subst stored. rewrite Ht. split_and!; [done|lia|lia|done].
  - (* an infinity *)
    left. rewrite !ltb_spec, Hf, Hymn, Hymx. subst stored.
    destruct s.
    + assert (SFltb (S754_infinity true) ymn = true) as ->
        by (destruct ymn as [| | |]; try done; by destruct (Hi1 s)).
      f_equal. lia.
    + assert (SFltb (S754_infinity false) ymn = false) as ->
        by (by destruct ymn as [|[]| |]).
      assert (SFltb ymx (S754_infinity false) = true) as ->
        by (destruct ymx as [| | |]; try done; by destruct (Hi2 s)).
      f_equal. lia.
  - (* NaN *)
    rewrite !ltb_spec, Hf.
    assert (SFltb S754_nan (Prim2SF (Z_to_float mn)) = false) as -> by reflexivity.
    assert (SFltb (Prim2SF (Z_to_float mx)) S754_nan = false) as ->
      by (unfold SFltb, SFcompare; by destruct (Prim2SF (Z_to_float mx))).
    assert (float_trunc f = 0) as Ht by (unfold float_trunc; by rewrite Hf).
    right. subst stored. rewrite Ht. split_and!; [done|lia|lia|done].
  - (* a finite double *)
    rewrite !ltb_scaled by (rewrite ?Hf, ?Hymn, ?Hymx; done).
    rewrite Hymn, Hymx, Hs1, Hs2. subst stored.
    pose proof (float_trunc_scaled f) as Ht. rewrite Hf in *.
    set (F := SF_scaled (S754_finite s m e)) in *. clearbody F.
    assert (0 < 2 ^ 1074) as HK by (by apply Z.pow_pos_nonneg).
    set (K := 2 ^ 1074) in *. clearbody K.
    destruct (Z.ltb_spec F (mn * K)) as [Hlt|Hge].
    + left. f_equal.
      assert (float_trunc f <= mn); [|lia].
      rewrite Ht, <- (Z.quot_mul mn K) by lia. apply Z.quot_le_mono; lia.
    + destruct (Z.ltb_spec (mx * K) F) as [Hgt|Hle].
      * left. f_equal.
        assert (mx <= float_trunc f); [|lia].
        rewrite Ht, <- (Z.quot_mul mx K) at 1 by lia. apply Z.quot_le_mono; lia.
      * right. split_and!; [done| | |done].
        -- rewrite Ht, <- (Z.quot_mul mn K) at 1 by lia. apply Z.quot_le_mono; lia.
        -- rewrite Ht, <- (Z.quot_mul mx K) by lia. apply Z.quot_le_mono; lia.
Qed.

Lemma IntegerCodec_clamp_Int bl signed z :
  IntegerCodec_minValue bl signed <= IntegerCodec_maxValue bl signed →
  IntegerCodec_clamp bl signed (Int z)
  = Int (Z.max (IntegerCodec_minValue bl signed)
           (Z.min z (IntegerCodec_maxValue bl signed))).
Proof.
  intros Hr. unfold IntegerCodec_clamp, number_gtb, number_ltb.
  destruct (Z.ltb_spec z (IntegerCodec_minValue bl signed)); [f_equal; lia|].
  destruct (Z.ltb_spec (IntegerCodec_maxValue bl signed) z); f_equal; lia.
Qed.

(** An integer codec handed a Number that is not an integer.  Every
    integer codec stores a double as it stores an integer: the double's
    integer part (the fraction is dropped, rounding toward zero) brought into
    the codec's range; NaN is stored as 0, +Infinity as the maximum and
    -Infinity as the minimum. *)
Theorem IntegerCodec_set_double bl signed sv (f : float) le :
  is_Some (integer_accessor bl signed) →
  let minValue := IntegerCodec_minValue bl signed in
  let maxValue := IntegerCodec_maxValue bl signed in
  let stored := Z.max minValue (Z.min (stored_integer bl signed f) maxValue) in
  minValue <= stored <= maxValue
  ∧ IntegerCodec_set bl signed sv (Float f) le
    = IntegerCodec_set bl signed sv (Int stored) le.
Proof.
  intros [a Ha] mn mx stored.
  assert (mn ∈ [0; -128; -32768; -2147483648; 127; 255; 32767; 65535; 2147483647;
                4294967295]
          ∧ mx ∈ [0; -128; -32768; -2147483648; 127; 255; 32767; 65535; 2147483647;
                  4294967295]
          ∧ mn <= 0 <= mx
          ∧ ∃ p, ip_minValue p = mn ∧ ip_maxValue p = mx
                 ∧ ∀ v, accessor_bytes a v le
                        = IntegerPolyfill_set p (replicate (accessor_byteLength a) 0) 0 v le)
    as (Hmn & Hmx & Hr & p & Hpmn & Hpmx & Hbytes).
  { subst mn mx.
    destruct bl as [|[|[|[|[|]]]]], signed; simpl in Ha; try discriminate;
      injection Ha as <-;
      (split_and!; [set_solver|set_solver|done|done|eexists; split_and!; [| |done]; done]). }
  split; [lia|].
  rewrite !(IntegerCodec_set_writes bl signed a) by done. f_equal.
  rewrite (IntegerCodec_clamp_Int bl signed stored) by (fold mn mx; lia).
  fold mn mx. replace (Z.max mn (Z.min stored mx)) with stored by lia.
  pose proof (clamp_double mn mx f Hmn Hmx Hr) as Hc. cbv zeta in Hc.
  change (IntegerCodec_clamp bl signed (Float f))
    with (if number_ltb (Float f) (Int mn) then Int mn
          else if number_gtb (Float f) (Int mx) then Int mx else Float f).
  change (stored_integer bl signed f)
    with (match Prim2SF f with
          | S754_infinity true => mn
          | S754_infinity false => mx
          | _ => float_trunc f
          end) in stored.
  destruct Hc as [Hc|(Hc & Ht & Hst)].
  - rewrite Hc. done.
  - rewrite Hc, !Hbytes. subst stored. rewrite Hst.
    replace (Z.max mn (Z.min (float_trunc f) mx)) with (float_trunc f) by lia.
    unfold IntegerPolyfill_set.
    assert (ip_clamp p (Float f) = Float f) as ->.
    { unfold ip_clamp. rewrite Hpmn, Hpmx. exact Hc. }
    rewrite ip_clamp_in_range by lia.
    destruct (lsb_first (ip_byteLength p) le). apply ip_set_loop_float.
Qed.

Lemma IntegerCodec_set_double_witness :
  IntegerCodec_set 1 true (StreamView_create 1) (Float (-0x1.cp1)) false
  = IntegerCodec_set 1 true (StreamView_create 1) (Int (-3)) false.
Proof.
  pose proof (IntegerCodec_set_double 1 true (StreamView_create 1) (-0x1.cp1) false
                ltac:(by eexists)) as [_ H].
  exact H.
Defined.

(** * FloatPolyfill.set and the host's logarithm *)

Lemma Prim2SF_two : Prim2SF 2 = S754_finite false 4503599627370496 (-51).
Proof. reflexivity. Qed.

(** Doubling and halving a power of two. *)
Lemma Math_pow2_double k :
  -1024 <= k <= 1023 → (Math_pow2 k * 2)%float = Math_pow2 (k + 1).
Proof.
  intros Hk.
  destruct (decide (k = -1024)) as [->|?]; [reflexivity|].
  destruct (decide (k = -1023)) as [->|?]; [reflexivity|].
  destruct (decide (k = 1023)) as [->|?]; [reflexivity|].
  apply Prim2SF_inj.
  rewrite (Math_pow2_normal (k + 1)) by lia.
  rewrite (mul_exact _ _ _ _ _ _ _ _ 4503599627370496 (k + 1 - 52)
             (Math_pow2_normal k ltac:(lia)) Prim2SF_two); [done| |lia|].
  - apply bounded_spec. left. split; [reflexivity|lia].
  - replace (k + 1 - 52 - (k - 52 + -51)) with 52 by lia. reflexivity.
Qed.

Lemma div_2_exact x m e :
  Prim2SF x = S754_finite false m e → Z.pos (digits2_pos m) = 53 →
  -1074 <= e - 2 →
  Prim2SF (x / 2) = S754_finite false m (e - 1).
Proof.
  intros Hx Hd He. pose proof (Prim2SF_bounded _ _ _ _ Hx) as Hb.
  apply bounded_spec in Hb as [[_ Hr]|[? _]]; [|lia].
  rewrite div_spec, Hx, Prim2SF_two. unfold SF64div, SFdiv, SFdiv_core_binary.
  cbn [Zdigits2]. rewrite Hd. change (Z.pos (digits2_pos 4503599627370496)) with 53.
  replace (fexp prec emax (53 + e - (53 + -51))) with (e - 2)
    by (unfold fexp, SpecFloat.emin, prec, emax; lia).
  replace (Z.min (e - 2) (e - -51)) with (e - 2) by lia.
  replace (e - -51 - (e - 2)) with 53 by lia. cbv iota.
  rewrite Z.shiftl_mul_pow2 by lia. rewrite Z_div_eucl_spec.
  assert (Z.pos m * 2 ^ 53 = 4503599627370496 * (2 * Z.pos m)) as Hmul
    by (change (2 ^ 53) with 9007199254740992; lia).
  assert (Z.pos m * 2 ^ 53 / 4503599627370496 = Z.pos m~0) as ->.
  { rewrite Hmul, Z.mul_comm, Z.div_mul by lia. reflexivity. }
  assert ((Z.pos m * 2 ^ 53) mod 4503599627370496 = 0) as ->.
  { rewrite Hmul, Z.mul_comm. apply Z.mod_mul. lia. }
  change (new_location 4503599627370496 0) with loc_Exact. cbn [xorb].
  apply binary_round_aux_exact.
  - apply bounded_spec. left. split; [done|lia].
  - lia.
  - replace (e - 1 - (e - 2)) with 1 by lia. change (Z.pos m~0) with (2 * Z.pos m). lia.
Qed.

Lemma Math_pow2_halve k :
  -1022 <= k <= 1023 → (Math_pow2 k / 2)%float = Math_pow2 (k - 1).
Proof.
  intros Hk.
  destruct (decide (k = -1022)) as [->|?]; [reflexivity|].
  destruct (decide (k = -1021)) as [->|?]; [reflexivity|].
  apply Prim2SF_inj.
  rewrite (Math_pow2_normal (k - 1)) by lia.
  rewrite (div_2_exact _ _ _ (Math_pow2_normal k ltac:(lia))); [|reflexivity|lia].
  f_equal. lia.
Qed.

(** The magnitude of a normal double times a power of two, while the
    product is normal. *)
Lemma scale_normal x s m e k :
  Prim2SF x = S754_finite s m e → Z.pos (digits2_pos m) = 53 →
  -1074 <= k <= 1023 → -1074 <= e + k <= 971 →
  Prim2SF (abs x * Math_pow2 k) = S754_finite false m (e + k).
Proof.
  intros Hx Hd Hk Hek. pose proof (abs_finite _ _ _ _ Hx) as Ha.
  assert (bounded prec emax m (e + k) = true) as Hb
    by (apply bounded_spec; left; split; [done|lia]).
  pose proof (Prim2SF_bounded _ _ _ _ Hx) as Hbx.
  apply bounded_spec in Hbx as [[_ He]|[? _]]; [|lia].
  destruct (decide (-1022 <= k)) as [Hn|Hs].
  - rewrite (mul_exact _ _ _ _ _ _ _ _ m (e + k) Ha (Math_pow2_normal k ltac:(lia)));
      [done|done|lia|].
    replace (e + k - (e + (k - 52))) with 52 by lia. reflexivity.
  - rewrite (mul_exact _ _ _ _ _ _ _ _ m (e + k) Ha (Math_pow2_subnormal k ltac:(lia)));
      [done|done|lia|].
    rewrite Z2Pos.id by (apply Z.pow_pos_nonneg; lia).
    f_equal. f_equal. lia.
Qed.

Lemma ltb_half_1 x m :
  Prim2SF x = S754_finite false m (-53) → (x <? 1)%float = true.
Proof. intros Hx. rewrite ltb_spec, Hx, Prim2SF_one. reflexivity. Qed.

Lemma leb_2_double x m :
  Prim2SF x = S754_finite false m (-51) → Z.pos (digits2_pos m) = 53 →
  (2 <=? x)%float = true.
Proof.
  intros Hx Hd. rewrite leb_spec, Hx, Prim2SF_two. unfold SFleb, SFcompare.
  rewrite Z.compare_refl, Pos_compare_cont_Eq.
  pose proof (digits2_pos_bounds m) as [Hlo _]. rewrite Hd in Hlo.
  change (2 ^ (53 - 1)) with 4503599627370496 in Hlo.
  by destruct (Z.compare_spec 4503599627370496 (Z.pos m)); [| |lia].
Qed.

Lemma Math_pow2_finite k :
  -1074 <= k <= 1023 → ∃ s m e, Prim2SF (Math_pow2 k) = S754_finite s m e.
Proof.
  intros Hk. destruct (decide (-1022 <= k)).
  - do 3 eexists. apply Math_pow2_normal. lia.
  - do 3 eexists. apply Math_pow2_subnormal. lia.
Qed.

(** On a normal double the two corrections of [set] absorb an error of
    one in either direction. *)
Lemma fp_round_on_normal lg x s m e :
  Prim2SF x = S754_finite s m e → Z.pos (digits2_pos m) = 53 →
  e + 52 - 1 <= lg (abs x) <= e + 52 + 1 →
  fp_round_on lg float64 x = (abs x, Math_pow2 (- (e + 52)), e + 52).
Proof.
  intros Hx Hd Hlg. pose proof (Prim2SF_bounded _ _ _ _ Hx) as Hb.
  apply bounded_spec in Hb as [[_ He]|[? _]]; [|lia].
  pose proof (abs_finite _ _ _ _ Hx) as Ha.
  pose proof (scale_to_unit x s m e Hx Hd) as Hu.
  destruct (Math_pow2_finite (- (e + 52)) ltac:(lia)) as (sy & my & ey & Hc).
  assert ((abs x + 0 / Math_pow2 (- (e + 52)))%float = abs x) as Hadd
    by apply (add_zero_finite _ _ _ _ _ Ha (div_zero_finite _ _ _ _ Hc)).
  unfold fp_round_on.
  change (fp_exponentBias float64) with 1023. change (fp_roundTo float64) with 0%float.
  set (L := lg (abs x)) in *.
  assert (L = e + 52 ∨ L = e + 52 + 1 ∨ L = e + 52 - 1) as [->|[->| ->]] by lia.
  - rewrite (ltb_unit_1 _ m Hu Hd).
    destruct (Z.leb_spec 1 (e + 52 + 1023)) as [_|?]; [|lia].
    by rewrite Hadd, (leb_2_unit _ m Hu).
  - pose proof (scale_normal x s m e (- (e + 52 + 1)) Hx Hd ltac:(lia) ltac:(lia)) as Hh.
    replace (e + - (e + 52 + 1)) with (-53) in Hh by lia.
    rewrite (ltb_half_1 _ m Hh).
    rewrite Math_pow2_double by lia.
    replace (e + 52 + 1 - 1) with (e + 52) by lia.
    replace (- (e + 52 + 1) + 1) with (- (e + 52)) by lia.
    destruct (Z.leb_spec 1 (e + 52 + 1023)) as [_|?]; [|lia].
    by rewrite Hadd, (leb_2_unit _ m Hu).
  - pose proof (scale_normal x s m e (- (e + 52 - 1)) Hx Hd ltac:(lia) ltac:(lia)) as Hh.
    replace (e + - (e + 52 - 1)) with (-51) in Hh by lia.
    assert ((abs x * Math_pow2 (- (e + 52 - 1)) <? 1)%float = false) as ->.
    { rewrite ltb_spec, Hh, Prim2SF_one. reflexivity. }
    destruct (Math_pow2_finite (- (e + 52 - 1)) ltac:(lia)) as (sz & mz & ez & Hz).
    assert ((if 1 <=? e + 52 - 1 + 1023
             then (abs x + 0 / Math_pow2 (- (e + 52 - 1)))%float
             else (abs x + 0 * Math_pow2 (1 - 1023))%float) = abs x) as ->.
    { destruct (1 <=? e + 52 - 1 + 1023).
      - apply (add_zero_finite _ _ _ _ _ Ha (div_zero_finite _ _ _ _ Hz)).
      - apply (add_zero_finite _ _ _ _ _ Ha).
        apply (mul_zero_finite _ _ _ _ (Math_pow2_normal (-1022) ltac:(lia))). }
    rewrite (leb_2_double _ m Hh Hd).
    rewrite Math_pow2_halve by lia.
    replace (- (e + 52 - 1) - 1) with (- (e + 52)) by lia.
    replace (e + 52 - 1 + 1) with (e + 52) by lia.
    reflexivity.
Qed.

(** The magnitude of a subnormal double times a power of two that makes the
    product normal. *)
Lemma scale_subnormal x s m k m' :
  Prim2SF x = S754_finite s m (-1074) →
  Z.pos m' = Z.pos m * 2 ^ (53 - Z.pos (digits2_pos m)) →
  Z.pos (digits2_pos m) <= 53 → 52 <= k <= 1023 →
  Prim2SF (abs x * Math_pow2 k)
  = S754_finite false m' (-1074 + k - (53 - Z.pos (digits2_pos m))).
Proof.
  intros Hx Hm' Hd Hk. pose proof (abs_finite _ _ _ _ Hx) as Ha.
  set (d := Z.pos (digits2_pos m)) in *.
  assert (1 <= d) by (subst d; lia).
  assert (Z.pos (digits2_pos m') = 53) as Hdm.
  { rewrite (digits2_pos_shift m m' (53 - d)) by (lia || done). fold d. lia. }
  rewrite (mul_exact _ _ _ _ _ _ _ _ m' (-1074 + k - (53 - d)) Ha
             (Math_pow2_normal k ltac:(lia))); [done| |lia|].
  - apply bounded_spec. left. split; [done|lia].
  - rewrite Hm'. replace (-1074 + k - (53 - d) - (-1074 + (k - 52))) with (d - 1) by lia.
    rewrite <- Z.mul_assoc, <- Z.pow_add_r by lia.
    replace (53 - d + (d - 1)) with 52 by lia. reflexivity.
Qed.

(** On a subnormal double every estimate within one of the exponent ends
    with an exponent below the normal range, and the magnitude untouched. *)
Lemma fp_round_on_subnormal lg x s m :
  Prim2SF x = S754_finite s m (-1074) → Z.pos (digits2_pos m) < 53 →
  Z.pos (digits2_pos m) - 1075 - 1 <= lg (abs x) <= Z.pos (digits2_pos m) - 1075 + 1 →
  ∃ c ex, fp_round_on lg float64 x = (abs x, c, ex) ∧ -1080 <= ex <= -1023.
Proof.
  intros Hx Hd Hlg. pose proof (abs_finite _ _ _ _ Hx) as Ha.
  set (d := Z.pos (digits2_pos m)) in *.
  assert (1 <= d) by (subst d; lia).
  unfold fp_round_on.
  change (fp_exponentBias float64) with 1023. change (fp_roundTo float64) with 0%float.
  change (1 - 1023) with (-1022).
  assert ((abs x + 0 * Math_pow2 (-1022))%float = abs x) as Hadd.
  { apply (add_zero_finite _ _ _ _ _ Ha).
    apply (mul_zero_finite _ _ _ _ (Math_pow2_normal (-1022) ltac:(lia))). }
  assert ((abs x * infinity)%float = infinity) as Hinf.
  { apply Prim2SF_inj. rewrite mul_spec, Ha. reflexivity. }
  assert (Z.pos (digits2_pos m~0) = d + 1) as Hd0
    by (cbn [digits2_pos]; rewrite Pos2Z.inj_succ; fold d; lia).
  assert (Z.pos (digits2_pos m~0~0) = d + 2) as Hd00
    by (cbn [digits2_pos]; rewrite !Pos2Z.inj_succ; fold d; lia).
  set (L := lg (abs x)) in *.
  destruct (decide (L <= -1024)) as [Hover|Hnear].
  - assert (Math_pow2 (- L) = infinity) as ->.
    { apply Prim2SF_inj. rewrite Math_pow2_overflow by lia. reflexivity. }
    rewrite Hinf. change (infinity <? 1)%float with false. cbv iota.
    destruct (Z.leb_spec 1 (L + 1023)) as [?|_]; [lia|].
    rewrite Hadd, Hinf. change (2 <=? infinity)%float with true. cbv iota.
    do 2 eexists. split; [reflexivity|lia].
  - assert ((L = -1023 ∧ d = 52) ∨ (L = -1023 ∧ d = 51) ∨ (L = -1022 ∧ d = 52))
      as [[-> Hd52]|[[-> Hd51]|[-> Hd52]]] by lia.
    + change (- -1023) with 1023.
      pose proof (scale_subnormal x s m 1023 (m~0)%positive Hx) as Hu.
      fold d in Hu. rewrite Hd52 in Hu. change (-1074 + 1023 - (53 - 52)) with (-52) in Hu.
      specialize (Hu ltac:(change (2 ^ (53 - 52)) with 2; change (2 ^ (53 - 51)) with 4; change (Z.pos m~0~0) with (2 * (2 * Z.pos m)); change (Z.pos m~0) with (2 * Z.pos m); lia) ltac:(lia) ltac:(lia)).
      rewrite (ltb_unit_1 _ _ Hu ltac:(lia)).
      change (1 <=? -1023 + 1023) with false. cbv iota.
      rewrite Hadd, (leb_2_unit _ _ Hu).
      do 2 eexists. split; [reflexivity|lia].
    + change (- -1023) with 1023.
      pose proof (scale_subnormal x s m 1023 (m~0~0)%positive Hx) as Hu.
      fold d in Hu. rewrite Hd51 in Hu. change (-1074 + 1023 - (53 - 51)) with (-53) in Hu.
      specialize (Hu ltac:(change (2 ^ (53 - 52)) with 2; change (2 ^ (53 - 51)) with 4; change (Z.pos m~0~0) with (2 * (2 * Z.pos m)); change (Z.pos m~0) with (2 * Z.pos m); lia) ltac:(lia) ltac:(lia)).
      rewrite (ltb_half_1 _ _ Hu).
      change (Math_pow2 1023 * 2)%float with infinity.
      change (1 <=? -1023 - 1 + 1023) with false. cbv iota.
      rewrite Hadd, Hinf. change (2 <=? infinity)%float with true. cbv iota.
      do 2 eexists. split; [reflexivity|lia].
    + change (- -1022) with 1022.
      pose proof (scale_subnormal x s m 1022 (m~0)%positive Hx) as Hh.
      fold d in Hh. rewrite Hd52 in Hh. change (-1074 + 1022 - (53 - 52)) with (-53) in Hh.
      specialize (Hh ltac:(change (2 ^ (53 - 52)) with 2; change (2 ^ (53 - 51)) with 4; change (Z.pos m~0~0) with (2 * (2 * Z.pos m)); change (Z.pos m~0) with (2 * Z.pos m); lia) ltac:(lia) ltac:(lia)).
      pose proof (scale_subnormal x s m 1023 (m~0)%positive Hx) as Hu.
      fold d in Hu. rewrite Hd52 in Hu. change (-1074 + 1023 - (53 - 52)) with (-52) in Hu.
      specialize (Hu ltac:(change (2 ^ (53 - 52)) with 2; change (2 ^ (53 - 51)) with 4; change (Z.pos m~0~0) with (2 * (2 * Z.pos m)); change (Z.pos m~0) with (2 * Z.pos m); lia) ltac:(lia) ltac:(lia)).
      rewrite (ltb_half_1 _ _ Hh).
      change (Math_pow2 1022 * 2)%float with (Math_pow2 1023).
      change (1 <=? -1022 - 1 + 1023) with false. cbv iota.
      rewrite Hadd, (leb_2_unit _ _ Hu).
      do 2 eexists. split; [reflexivity|lia].
Qed.

Lemma fp_parts_on_normal lg x s m e :
  Prim2SF x = S754_finite s m e → Z.pos (digits2_pos m) = 53 →
  e + 52 - 1 <= lg (abs x) <= e + 52 + 1 →
  fp_parts_on lg float64 x = fp_parts float64 x.
Proof.
  intros Hx Hd Hlg. unfold fp_parts_on, fp_parts.
  rewrite (fp_round_on_normal lg _ _ _ _ Hx Hd Hlg), (fp_round_normal _ _ _ _ Hx Hd).
  reflexivity.
Qed.

Lemma fp_parts_on_subnormal lg x s m :
  Prim2SF x = S754_finite s m (-1074) → Z.pos (digits2_pos m) < 53 →
  Z.pos (digits2_pos m) - 1075 - 1 <= lg (abs x) <= Z.pos (digits2_pos m) - 1075 + 1 →
  fp_parts_on lg float64 x = fp_parts float64 x.
Proof.
  intros Hx Hd Hlg. unfold fp_parts_on, fp_parts.
  destruct (fp_round_on_subnormal lg _ _ _ Hx Hd Hlg) as (c & ex & -> & Hex).
  destruct (fp_round_subnormal _ _ _ Hx Hd) as (c' & ex' & -> & Hex').
  change (fp_exponentBias float64) with 1023. change (fp_exponentMax float64) with 2047.
  destruct (Z.leb_spec 2047 (ex + 1023)) as [?|_]; [lia|].
  destruct (Z.ltb_spec (ex + 1023) 1) as [_|?]; [|lia].
  destruct (Z.leb_spec 2047 (ex' + 1023)) as [?|_]; [lia|].
  destruct (Z.ltb_spec (ex' + 1023) 1) as [_|?]; [|lia].
  reflexivity.
Qed.

(** [FloatPolyfill.set] of a float64 does not need an exact [Math.log2].
    On a host whose [Math.floor(log2(x))] is off by one in either direction,
    for the magnitude of the double being written, [set] writes the same
    bytes as with the exact logarithm: the comparisons with 1 and 2 after
    it repair the exponent.  NaN, the infinities and the zeros do not reach
    the logarithm. *)
Theorem FloatPolyfill_set_log2_tolerant (log2_floor : float → Z) (f : float)
    (bytes : list Z) (off : nat) (le : bool) :
  (∀ s m e, Prim2SF f = S754_finite s m e →
     Math_floor_log2 (abs f) - 1 <= log2_floor (abs f) <= Math_floor_log2 (abs f) + 1) →
  FloatPolyfill_set_on log2_floor float64 bytes off (Float f) le
  = FloatPolyfill_set float64 bytes off (Float f) le.
Proof.
  intros Hlg. unfold FloatPolyfill_set_on, FloatPolyfill_set.
  change (to_float (Float f)) with f.
  assert (fp_parts_on log2_floor float64 f = fp_parts float64 f) as ->; [|done].
  destruct (Prim2SF f) as [sz|si| |s m e] eqn:Hf.
  - unfold fp_parts_on, fp_parts.
    assert ((f =? 0)%float = true) as Hz
      by (rewrite FloatAxioms.eqb_spec, Hf; by destruct sz).
    rewrite Hz. by repeat destruct (_ =? _)%float.
  - unfold fp_parts_on, fp_parts.
    assert ((f =? f)%float = true) as ->
      by (rewrite FloatAxioms.eqb_spec, Hf; by destruct si).
    cbn [negb].
    destruct si.
    + assert ((f =? neg_infinity)%float = true) as ->
        by (by rewrite FloatAxioms.eqb_spec, Hf).
      by destruct (f =? infinity)%float.
    + assert ((f =? infinity)%float = true) as ->
        by (by rewrite FloatAxioms.eqb_spec, Hf).
      done.
  - unfold fp_parts_on, fp_parts.
    assert ((f =? f)%float = false) as -> by (by rewrite FloatAxioms.eqb_spec, Hf).
    done.
  - specialize (Hlg s m e eq_refl).
    rewrite (Math_floor_log2_finite _ _ _ _ (abs_finite _ _ _ _ Hf)) in Hlg.
    pose proof (Prim2SF_bounded _ _ _ _ Hf) as Hb.
    apply bounded_spec in Hb as [[Hd He]|[Hd He]].
    + apply (fp_parts_on_normal _ _ s m e Hf Hd). lia.
    + subst e. apply (fp_parts_on_subnormal _ _ s m Hf Hd). lia.
Qed.

Lemma FloatPolyfill_set_log2_tolerant_witness :
  FloatPolyfill_set_on (λ x, Math_floor_log2 x + 1) float64 (replicate 8 0) 0
    (Float 0x1.999999999999ap-4) false
  = FloatPolyfill_set float64 (replicate 8 0) 0 (Float 0x1.999999999999ap-4) false.
Proof.
  apply (FloatPolyfill_set_log2_tolerant (λ x, Math_floor_log2 x + 1)).
  intros. lia.
Defined.

(** * The float32 codec: overflow to Infinity *)

(** ** Binary64: a sum that is rounded *)

Lemma shr_1_m mrs : 0 <= shr_m mrs → shr_m (shr_1 mrs) = shr_m mrs / 2.
Proof.
  destruct mrs as [m r s]. cbn [shr_m]. intros Hm.
  destruct m as [|[p|p|]|p]; cbn [shr_1 shr_m]; [done| | |done|lia].
  - change (Z.pos p~1) with (2 * Z.pos p + 1). lia.
  - change (Z.pos p~0) with (2 * Z.pos p). lia.
Qed.

Lemma iter_pos_shr_m (n : positive) :
  ∀ mrs, 0 <= shr_m mrs →
    shr_m (SpecFloat.iter_pos shr_1 n mrs) = shr_m mrs / 2 ^ Z.pos n.
Proof.
  induction n as [n IH|n IH|]; intros mrs Hm; cbn [SpecFloat.iter_pos].
  - assert (0 < 2 ^ Z.pos n) as Hp by (apply Z.pow_pos_nonneg; lia).
    assert (0 <= shr_m (shr_1 mrs)) as H1 by (rewrite shr_1_m by done; lia).
    assert (0 <= shr_m (SpecFloat.iter_pos shr_1 n (shr_1 mrs))) as H2.
    { rewrite IH by done. apply Z.div_pos; lia. }
    rewrite IH, IH, shr_1_m by done.
    change (Z.pos n~1) with (2 * Z.pos n + 1).
    replace (2 * Z.pos n + 1) with (1 + Z.pos n + Z.pos n) by lia.
    rewrite !Z.pow_add_r, Z.pow_1_r by lia.
    rewrite !Z.div_div by lia. f_equal. ring.
  - assert (0 < 2 ^ Z.pos n) as Hp by (apply Z.pow_pos_nonneg; lia).
    assert (0 <= shr_m (SpecFloat.iter_pos shr_1 n mrs)) as H2.
    { rewrite IH by done. apply Z.div_pos; lia. }
    rewrite IH, IH by done.
    change (Z.pos n~0) with (2 * Z.pos n).
    replace (2 * Z.pos n) with (Z.pos n + Z.pos n) by lia.
    rewrite !Z.pow_add_r by lia.
    rewrite !Z.div_div by lia. reflexivity.
  - rewrite Z.pow_1_r. by apply shr_1_m.
Qed.

Lemma round_nearest_even_near m l :
  m <= round_nearest_even m l <= m + 1.
Proof. destruct l as [|[]]; cbn [round_nearest_even]; [lia|destruct (Z.even m); lia|lia..]. Qed.

(** Rounding an integer of more than 53 bits: the quotient by the power
    of two that leaves 53 bits, or the next integer. *)
Lemma binary_round_near (N : positive) (ex n : Z) :
  Z.pos (digits2_pos N) = 53 + n → 0 < n → -1074 <= ex + n <= 971 →
  Z.pos N / 2 ^ n + 1 < 2 ^ 53 →
  ∃ r, binary_round prec emax false N ex = S754_finite false r (ex + n)
       ∧ Z.pos N / 2 ^ n <= Z.pos r <= Z.pos N / 2 ^ n + 1
       ∧ Z.pos (digits2_pos r) = 53.
Proof.
  intros Hd Hn He Hq.
  pose proof (digits2_pos_bounds N) as [Hlo Hhi]. rewrite Hd in Hlo, Hhi.
  assert (0 < 2 ^ n) as Hpn by (apply Z.pow_pos_nonneg; lia).
  assert (2 ^ 52 <= Z.pos N / 2 ^ n) as Hq52.
  { apply Z.div_le_lower_bound; [done|].
    replace (53 + n - 1) with (n + 52) in Hlo by lia.
    rewrite Z.pow_add_r in Hlo by lia.
    exact Hlo. }
  assert (fexp prec emax (Z.pos (digits2_pos N) + ex) = ex + n) as Hfexp
    by (unfold fexp, SpecFloat.emin, prec, emax; lia).
  unfold binary_round, shl_align. rewrite Hfexp.
  replace (ex + n - ex) with n by lia.
  destruct n as [|p|p] eqn:Hp; [lia| |lia].
  unfold binary_round_aux, shr_fexp. cbn [Zdigits2 shr_record_of_loc].
  rewrite Hfexp. replace (ex + Z.pos p - ex) with (Z.pos p) by lia.
  cbn [shr].
  set (mrs := SpecFloat.iter_pos shr_1 p _).
  assert (shr_m mrs = Z.pos N / 2 ^ Z.pos p) as Hm
    by (subst mrs; by rewrite iter_pos_shr_m by (simpl; lia)).
  pose proof (round_nearest_even_near (shr_m mrs) (loc_of_shr_record mrs)) as Hr.
  set (r0 := round_nearest_even (shr_m mrs) (loc_of_shr_record mrs)) in *.
  rewrite Hm in Hr. clearbody r0.
  change (2 ^ 52) with 4503599627370496 in *. change (2 ^ 53) with 9007199254740992 in *.
  clear Hlo Hhi Hpn. set (q := Z.pos N / 2 ^ Z.pos p) in *. clearbody q.
  destruct r0 as [|r|r] eqn:Hr0; [lia| |lia].
  assert (Z.pos (digits2_pos r) = 53) as Hdr.
  { apply digits2_pos_unique. change (2 ^ (53 - 1)) with 4503599627370496.
    change (2 ^ 53) with 9007199254740992. lia. }
  cbn [Zdigits2]. rewrite Hdr.
  replace (fexp prec emax (53 + (ex + Z.pos p)) - (ex + Z.pos p)) with 0
    by (unfold fexp, SpecFloat.emin, prec, emax; lia).
  cbn [shr shr_m].
  destruct (Z.leb_spec (ex + Z.pos p) (emax - prec)) as [_|Hbad];
    [|unfold emax, prec in Hbad; lia].
  exists r. split_and!; [done|lia|lia|done].
Qed.

Lemma Prim2SF_half_ulp :
  Prim2SF (fp_roundTo float32 / Math_pow2 (-127))
  = S754_finite false 9007199254740991 50.
Proof. reflexivity. Qed.

(** The magnitude of a double in the top binade of float32 after the
    rounding addition of [set]: it reaches 2^128 exactly from
    2^128 - 2^103 on. *)
Lemma add_half_ulp x m :
  Prim2SF x = S754_finite false m 75 → Z.pos (digits2_pos m) = 53 →
  ∃ r e, Prim2SF (x + fp_roundTo float32 / Math_pow2 (-127)) = S754_finite false r e
    ∧ Z.pos (digits2_pos r) = 53
    ∧ (e = if 2 ^ 53 - 2 ^ 28 <=? Z.pos m then 76 else 75).
Proof.
  intros Hx Hd.
  pose proof (digits2_pos_bounds m) as [Hlo Hhi]. rewrite Hd in Hlo, Hhi.
  change (2 ^ (53 - 1)) with 4503599627370496 in Hlo.
  change (2 ^ 53) with 9007199254740992 in *. change (2 ^ 28) with 268435456.
  destruct (decide (Z.pos m = 9007199254740992 - 268435456)) as [Heq|Hne].
  { assert (m = 9007198986305536%positive) as -> by lia.
    rewrite <- (SF2Prim_Prim2SF x), Hx.
    exists 4503599627370496%positive, 76. split_and!; reflexivity. }
  rewrite add_spec, Hx, Prim2SF_half_ulp. unfold SF64add, SFadd.
  change (Z.min 75 50) with 50. unfold shl_align at 1 2.
  change (50 - 75) with (Z.neg 25). change (50 - 50) with 0. cbn [fst cond_Zopp].
  set (a := Pos.iter xO m 25).
  assert (Z.pos a = Z.pos m * 2 ^ 25) as Ha by (subst a; apply Pos_iter_xO).
  change (2 ^ 25) with 33554432 in Ha.
  change (Z.pos a + 9007199254740991) with (Z.pos (a + 9007199254740991)).
  cbn [binary_normalize].
  set (N := (a + 9007199254740991)%positive).
  assert (Z.pos N = Z.pos m * 33554432 + 9007199254740991) as HN by (subst N; lia).
  destruct (Z.leb_spec (9007199254740992 - 268435456) (Z.pos m)) as [Hge|Hlt].
  - assert (Z.pos (digits2_pos N) = 53 + 26) as HdN.
    { apply digits2_pos_unique. rewrite HN.
      change (2 ^ (53 + 26 - 1)) with 302231454903657293676544.
      change (2 ^ (53 + 26)) with 604462909807314587353088. lia. }
    destruct (binary_round_near N 50 26 HdN ltac:(lia) ltac:(lia)) as (r & Hr & _ & Hdr).
    { rewrite HN. change (2 ^ 26) with 67108864. change (2 ^ 53) with 9007199254740992.
      lia. }
    exists r, 76. split_and!; [exact Hr|done|done].
  - assert (Z.pos (digits2_pos N) = 53 + 25) as HdN.
    { apply digits2_pos_unique. rewrite HN.
      change (2 ^ (53 + 25 - 1)) with 151115727451828646838272.
      change (2 ^ (53 + 25)) with 302231454903657293676544. lia. }
    destruct (binary_round_near N 50 25 HdN ltac:(lia) ltac:(lia)) as (r & Hr & _ & Hdr).
    { rewrite HN. change (2 ^ 25) with 33554432. change (2 ^ 53) with 9007199254740992.
      lia. }
    exists r, 75. split_and!; [exact Hr|done|done].
Qed.

(** ** [FloatPolyfill.set] as float32: where the exponent overflows *)

(** The exponent [set] ends with is at most one above the first estimate. *)
Lemma fp_round_exponent_le p v : (fp_round p v).2 <= Math_floor_log2 (abs v) + 1.
Proof.
  unfold fp_round.
  destruct (abs v * Math_pow2 (- Math_floor_log2 (abs v)) <? 1)%float;
    match goal with |- context [(2 <=? ?x)%float] => destruct (2 <=? x)%float end;
    cbn [snd]; lia.
Qed.

(** A double of magnitude m * 2^e against 2^128 - 2^103, on integers. *)
Lemma magnitude_threshold (m : positive) (e : Z) :
  bounded prec emax m e = true →
  ((2 ^ 128 - 2 ^ 103) * 2 ^ 1074 <= Z.pos m * 2 ^ (e + 1074)
   ↔ 75 < e ∨ e = 75 ∧ 2 ^ 53 - 2 ^ 28 <= Z.pos m).
Proof.
  intros Hb. pose proof (digits2_pos_bounds m) as [Hlo Hhi].
  assert (-1074 <= e ∧ Z.pos m < 2 ^ 53 ∧ (75 <= e → 2 ^ 52 <= Z.pos m)) as (He & Hm & Hn).
  { apply bounded_spec in Hb as [[Hd He]|[Hd ->]].
    - rewrite Hd in Hlo, Hhi. split_and!; [lia|done|done].
    - split_and!; [lia| |lia].
      assert (2 ^ Z.pos (digits2_pos m) <= 2 ^ 53) by (apply Z.pow_le_mono_r; lia). lia. }
  clear Hlo Hhi Hb.
  assert (0 < 2 ^ 1074) as HP by (by apply Z.pow_pos_nonneg).
  assert (0 < 2 ^ (e + 1074)) as HX by (apply Z.pow_pos_nonneg; lia).
  change (2 ^ 128 - 2 ^ 103) with ((2 ^ 53 - 2 ^ 28) * 2 ^ 75).
  change (2 ^ 53) with 9007199254740992 in *. change (2 ^ 28) with 268435456.
  change (2 ^ 52) with 4503599627370496 in *.
  change (2 ^ 75) with 37778931862957161709568.
  destruct (Z.lt_trichotomy e 75) as [Hlt|[->|Hgt]].
  - assert (2 ^ (e + 1074) <= 2 ^ (74 + 1074)) as HXle by (apply Z.pow_le_mono_r; lia).
    rewrite (Z.pow_add_r 2 74 1074) in HXle by lia.
    change (2 ^ 74) with 18889465931478580854784 in HXle.
    assert (Z.pos m * 2 ^ (e + 1074) <= 9007199254740991 * 2 ^ (e + 1074)) as Hmul
      by (apply Z.mul_le_mono_nonneg_r; lia).
    set (X := 2 ^ (e + 1074)) in *. set (P := 2 ^ 1074) in *. clearbody X P.
    split; [lia|]. intros [?|[? _]]; lia.
  - rewrite (Z.pow_add_r 2 75 1074) by lia.
    change (2 ^ 75) with 37778931862957161709568.
    set (P := 2 ^ 1074) in *. clearbody P. clear HX.
    split.
    + intros Hle. right. split; [done|].
      destruct (Z.le_gt_cases (9007199254740992 - 268435456) (Z.pos m)) as [|Hsmall];
        [done|exfalso].
      assert (Z.pos m * P <= (9007199254740992 - 268435456 - 1) * P)
        by (apply Z.mul_le_mono_nonneg_r; lia).
      lia.
    + intros [?|[_ Hge]]; [lia|].
      assert ((9007199254740992 - 268435456) * P <= Z.pos m * P)
        by (apply Z.mul_le_mono_nonneg_r; lia).
      lia.
  - assert (2 ^ (76 + 1074) <= 2 ^ (e + 1074)) as HXge by (apply Z.pow_le_mono_r; lia).
    rewrite (Z.pow_add_r 2 76 1074) in HXge by lia.
    change (2 ^ 76) with 75557863725914323419136 in HXge.
    assert (4503599627370496 * 2 ^ (e + 1074) <= Z.pos m * 2 ^ (e + 1074)) as Hmul
      by (apply Z.mul_le_mono_nonneg_r; lia).
    set (X := 2 ^ (e + 1074)) in *. set (P := 2 ^ 1074) in *. clearbody X P.
    split; [intros _; by left|]. intros _. lia.
Qed.

Lemma mul_coefficient_top y m e :
  Prim2SF y = S754_finite false m e → Z.pos (digits2_pos m) = 53 → -947 <= e →
  Prim2SF (y * Math_pow2 (-127)) = S754_finite false m (e - 127).
Proof.
  intros Hy Hd He. pose proof (Prim2SF_bounded _ _ _ _ Hy) as Hb.
  apply bounded_spec in Hb as [[_ Hr]|[? _]]; [|lia].
  rewrite (mul_exact _ _ _ _ _ _ _ _ m (e - 127) Hy (Math_pow2_normal (-127) ltac:(lia)));
    [done| |lia|].
  - apply bounded_spec. left. split; [done|lia].
  - replace (e - 127 - (e + (-127 - 52))) with 52 by lia. reflexivity.
Qed.

(** In the top binade of float32 the rounding addition carries into the
    exponent exactly from 2^128 - 2^103 on. *)
Lemma fp_round_float32_top v s m :
  Prim2SF v = S754_finite s m 75 → Z.pos (digits2_pos m) = 53 →
  (fp_round float32 v).2 = if 2 ^ 53 - 2 ^ 28 <=? Z.pos m then 128 else 127.
Proof.
  intros Hv Hd. pose proof (abs_finite _ _ _ _ Hv) as Ha.
  pose proof (scale_normal v s m 75 (-127) Hv Hd ltac:(lia) ltac:(lia)) as Hu.
  change (75 + -127) with (-52) in Hu.
  destruct (add_half_ulp (abs v) m Ha Hd) as (r & e' & Hsum & Hdr & He').
  unfold fp_round.
  rewrite (Math_floor_log2_finite _ _ _ _ Ha), Hd.
  change (75 + 53 - 1) with 127. change (Z.opp 127) with (-127).
  rewrite (ltb_unit_1 _ m Hu Hd).
  change (fp_exponentBias float32) with 127.
  change (1 <=? 127 + 127) with true. cbv iota.
  pose proof (mul_coefficient_top _ r e' Hsum Hdr) as Hprod.
  destruct (2 ^ 53 - 2 ^ 28 <=? Z.pos m); subst e'.
  - specialize (Hprod ltac:(lia)). change (76 - 127) with (-51) in Hprod.
    by rewrite (leb_2_double _ r Hprod Hdr).
  - specialize (Hprod ltac:(lia)). change (75 - 127) with (-52) in Hprod.
    by rewrite (leb_2_unit _ r Hprod).
Qed.

(** Above the top binade of float32 the first estimate stands. *)
Lemma fp_round_float32_above v s m e :
  Prim2SF v = S754_finite s m e → Z.pos (digits2_pos m) = 53 → 75 < e →
  e + 52 <= (fp_round float32 v).2.
Proof.
  intros Hv Hd He. pose proof (abs_finite _ _ _ _ Hv) as Ha.
  pose proof (Prim2SF_bounded _ _ _ _ Hv) as Hb.
  apply bounded_spec in Hb as [[_ Hr]|[? _]]; [|lia].
  pose proof (scale_normal v s m e (- (e + 52)) Hv Hd ltac:(lia) ltac:(lia)) as Hu.
  replace (e + - (e + 52)) with (-52) in Hu by lia.
  unfold fp_round.
  rewrite (Math_floor_log2_finite _ _ _ _ Ha), Hd.
  replace (e + 53 - 1) with (e + 52) by lia.
  rewrite (ltb_unit_1 _ m Hu Hd).
  match goal with |- context [(2 <=? ?x)%float] => destruct (2 <=? x)%float end;
    cbn [snd]; lia.
Qed.

(** The finite doubles whose float32 exponent reaches the maximum: those
    of magnitude at least 2^128 - 2^103. *)
Lemma fp_round_float32_overflow v s m e :
  Prim2SF v = S754_finite s m e →
  (fp_exponentMax float32 <= (fp_round float32 v).2 + fp_exponentBias float32
   ↔ (2 ^ 128 - 2 ^ 103) * 2 ^ 1074 <= Z.pos m * 2 ^ (e + 1074)).
Proof.
  intros Hv. pose proof (Prim2SF_bounded _ _ _ _ Hv) as Hb.
  rewrite (magnitude_threshold m e Hb).
  change (fp_exponentMax float32) with 255. change (fp_exponentBias float32) with 127.
  pose proof (fp_round_exponent_le float32 v) as Hle.
  rewrite (Math_floor_log2_finite _ _ _ _ (abs_finite _ _ _ _ Hv)) in Hle.
  apply bounded_spec in Hb as [[Hd He]|[Hd ->]]; [|lia].
  rewrite Hd in Hle.
  destruct (Z.lt_trichotomy e 75) as [Hlt|[->|Hgt]].
  - lia.
  - rewrite (fp_round_float32_top v s m Hv Hd).
    destruct (Z.leb_spec (2 ^ 53 - 2 ^ 28) (Z.pos m)); lia.
  - pose proof (fp_round_float32_above v s m e Hv Hd Hgt). lia.
Qed.

(** No finite double reaches the maximum exponent of float64. *)
Lemma fp_round_float64_finite v s m e :
  Prim2SF v = S754_finite s m e →
  (fp_round float64 v).2 + fp_exponentBias float64 < fp_exponentMax float64.
Proof.
  intros Hv. pose proof (Prim2SF_bounded _ _ _ _ Hv) as Hb.
  change (fp_exponentMax float64) with 2047. change (fp_exponentBias float64) with 1023.
  apply bounded_spec in Hb as [[Hd He]|[Hd ->]].
  - rewrite (fp_round_normal v s m e Hv Hd). cbn [snd]. lia.
  - destruct (fp_round_subnormal v s m Hv Hd) as (c & ex & -> & Hex). cbn [snd]. lia.
Qed.

(** A finite value whose biased exponent reaches the maximum is stored as
    the infinity of its sign is stored. *)
Lemma FloatPolyfill_set_saturates p bytes off v s m e le :
  Prim2SF v = S754_finite s m e →
  fp_exponentMax p <= (fp_round p v).2 + fp_exponentBias p →
  FloatPolyfill_set p bytes off (Float v) le
  = FloatPolyfill_set p bytes off (Float (if s then neg_infinity else infinity)) le.
Proof.
  intros Hv Hover. unfold FloatPolyfill_set, fp_parts.
  change (to_float (Float v)) with v.
  change (to_float (Float (if s then neg_infinity else infinity)))
    with (if s then neg_infinity else infinity).
  rewrite (eqb_finite_refl _ _ _ _ Hv).
  destruct (eqb_finite_special _ _ _ _ Hv) as (-> & -> & ->).
  rewrite (ltb_finite_zero _ _ _ _ Hv). cbn [negb].
  destruct (fp_round p v) as [[absValue coefficient] exponent]. cbn [snd] in Hover.
  destruct (Z.leb_spec (fp_exponentMax p) (exponent + fp_exponentBias p)); [|lia].
  by destruct s.
Qed.

(** C3: as float32, a finite double is stored as Infinity exactly when its
    magnitude is at least 2^128 - 2^103, half a unit in the last place above
    the largest float32: those finite values are the ones whose biased
    exponent, after the rounding addition and the carry it may cause,
    reaches the all-ones exponent 255.  They include the doubles between
    2^128 - 2^103 and 2^128, whose exponent is 127 until the rounding
    addition carries.  For such a value [set] raises no error and writes,
    whatever the buffer held, the four bytes of the infinity of its sign,
    7F 80 00 00 or FF 80 00 00 big endian and reversed little endian, and
    nothing else: the bytes [set] writes for Infinity or -Infinity itself.
    As float64 no finite double reaches the all-ones exponent. *)
Theorem FloatPolyfill_set_overflow (v : float) (s : bool) (m : positive) (e : Z) :
  Prim2SF v = S754_finite s m e →
  let biasedExponent := (fp_round float32 v).2 + fp_exponentBias float32 in
  (fp_exponentMax float32 <= biasedExponent
   ↔ (2 ^ 128 - 2 ^ 103) * 2 ^ 1074 <= Z.pos m * 2 ^ (e + 1074))
  ∧ ((2 ^ 128 - 2 ^ 103) * 2 ^ 1074 <= Z.pos m * 2 ^ (e + 1074) →
     ∀ (bytes : list Z) (off : nat) (le : bool),
       (off + 4 ≤ length bytes)%nat →
       let pattern := [if s then 255 else 127; 128; 0; 0] in
       FloatPolyfill_set float32 bytes off (Float v) le
       = take off bytes ++ (if le then reverse pattern else pattern)
         ++ drop (off + 4) bytes
       ∧ FloatPolyfill_set float32 bytes off (Float v) le
         = FloatPolyfill_set float32 bytes off
             (Float (if s then neg_infinity else infinity)) le)
  ∧ (fp_round float64 v).2 + fp_exponentBias float64 < fp_exponentMax float64.
Proof.
  intros Hv biasedExponent.
  pose proof (fp_round_float32_overflow v s m e Hv) as Hiff.
  split_and!.
  - exact Hiff.
  - intros Hover bytes off le Hroom pattern. apply Hiff in Hover.
    pose proof (FloatPolyfill_set_saturates float32 bytes off v s m e le Hv Hover) as Hsat.
    split; [|exact Hsat]. rewrite Hsat.
    destruct (split_at bytes off 4 Hroom) as (Hsplit & Hpre & Hmid).
    set (pre := take off bytes) in *. set (mid := take 4 (drop off bytes)) in *.
    set (post := drop (off + 4) bytes) in *.
    rewrite Hsplit, <- Hpre.
    rewrite (FloatPolyfill_set_frame float32) by (auto || done).
    f_equal. f_equal. subst pattern. by destruct s, le.
  - by apply (fp_round_float64_finite v s m e).
Qed.

(** Instances of C3: 1e39, stored as Infinity is; the double 2^128 - 2^103,
    whose exponent is 127 until the rounding addition carries; its negative,
    little endian at an offset; and the next double below, which stays
    finite. *)
Lemma FloatPolyfill_set_overflow_witness :
  FloatPolyfill_set float32 [0; 0; 0; 0] 0 (Float 0x1.78287f49c4a1dp+129) false
  = [127; 128; 0; 0]
  ∧ FloatPolyfill_set float32 [0; 0; 0; 0] 0 (Float 0x1.78287f49c4a1dp+129) false
    = FloatPolyfill_set float32 [0; 0; 0; 0] 0 (Float infinity) false
  ∧ FloatPolyfill_set float32 [0; 0; 0; 0] 0 (Float 0x1.ffffffp+127) false
    = [127; 128; 0; 0]
  ∧ FloatPolyfill_set float32 [7; 1; 2; 3; 4; 9] 1 (Float (-0x1.ffffffp+127)) true
    = [7; 0; 0; 128; 255; 9]
  ∧ ¬ fp_exponentMax float32
      <= (fp_round float32 0x1.fffffefffffffp+127).2 + fp_exponentBias float32.
Proof.
  split_and!.
  - destruct (FloatPolyfill_set_overflow 0x1.78287f49c4a1dp+129 false
                6617444900424221 77 eq_refl) as (Hiff & Hbytes & _).
    apply (Hbytes ltac:(by vm_compute) [0; 0; 0; 0] 0%nat false).
    simpl. lia.
  - destruct (FloatPolyfill_set_overflow 0x1.78287f49c4a1dp+129 false
                6617444900424221 77 eq_refl) as (Hiff & Hbytes & _).
    apply (Hbytes ltac:(by vm_compute) [0; 0; 0; 0] 0%nat false).
    simpl. lia.
  - destruct (FloatPolyfill_set_overflow 0x1.ffffffp+127 false
                9007198986305536 75 eq_refl) as (Hiff & Hbytes & _).
    apply (Hbytes ltac:(by vm_compute) [0; 0; 0; 0] 0%nat false).
    simpl. lia.
  - destruct (FloatPolyfill_set_overflow (-0x1.ffffffp+127) true
                9007198986305536 75 eq_refl) as (Hiff & Hbytes & _).
    apply (Hbytes ltac:(by vm_compute) [7; 1; 2; 3; 4; 9] 1%nat true).
    simpl. lia.
  - destruct (FloatPolyfill_set_overflow 0x1.fffffefffffffp+127 false
                9007198986305535 75 eq_refl) as (Hiff & _ & _).
    intros Hover. apply (proj1 Hiff) in Hover. by vm_compute in Hover.
Defined.
